(** * CacheStrategy: LRU, LRU-K, LFU (with aging) and ARC replacement policies

    A shallow embedding of the C++ classes of [src/lib] and the properties
    that the specification states about them.

    Conventions of the embedding.
    - [Key] is instantiated to [int] as in [test_policy.cpp]; keys are [Z].
      [Value] stays a parameter; [Value{}] is the section variable [dflt].
    - [int] fields are [Z]; signed overflow is undefined in C++ and is not
      modelled.  For KLfuCache, whose frequencies and totals grow with the
      number of calls, [Lfu.fitsInt] says that every [int] member holds a
      value of an [int], and [lfu_run_fitsInt] that a run of fewer than
      [2 ^ 31] calls with a [maxAverageNum] that is not negative keeps it
      so.  Conversions between [int] and [size_t] (comparisons and
      divisions that mix both) are written out with [to_size_t] and [to_int].
      [size_t] fields are [Z] reduced modulo [2^64] where the code adds.
    - [std::unordered_map] / [std::map] are [gmap]s.
    - In KLruCache and in the two ARC halves a [NodePtr] is represented by
      the key of the node it points to: the node's fields live in the index
      and the intrusive list is the list of the keys of its nodes, in list
      order.  In KLfuCache the nodes live in an arena addressed by [nat],
      since [kickOut] can be handed a list sentinel instead of a real node.
    - The mutex plays no role in a sequential run and is left out. *)

From Stdlib Require Import ZArith List Lia.
From Stdlib Require Import Floats.SpecFloat.
From stdpp Require Import base option list gmap strings.

Local Open Scope Z_scope.

(** ** Integer conversions of C++ *)

Module CInt.

Definition to_size_t (z : Z) : Z := z mod 2 ^ 64.

Definition to_int (z : Z) : Z := (z + 2 ^ 31) mod 2 ^ 32 - 2 ^ 31.

(** [INT8_MAX], the "no bucket seen" mark of KLfuCache. *)
Definition INT8_MAX : Z := 127.

(** [++x] on a [size_t]. *)
Definition size_incr (z : Z) : Z := to_size_t (z + 1).

(** [a / b] where [a] is an [int] and [b] a [size_t]: both operands are
    converted to [size_t], the quotient is converted back to [int]. *)
Definition div_int_size (a b : Z) : Z := to_int (to_size_t a / b).

End CInt.

(** ** The intrusive doubly-linked lists

    A chain between two sentinels is the list of the keys of its nodes. *)

Module Chain.

(** Unlinking a node, found by the key it carries.  A node that is not
    linked is left alone, as the guards of [removeNode], [removeFromMain]
    and [removeFromGhost] do. *)
Fixpoint unlink (k : Z) (l : list Z) : list Z :=
  match l with
  | [] => []
  | x :: l' => if decide (x = k) then l' else x :: unlink k l'
  end.

(** Unlinking the last node that carries the key. *)
Definition unlinkLast (k : Z) (l : list Z) : list Z :=
  reverse (unlink k (reverse l)).

(** The chain without its last node. *)
Definition dropLast (l : list Z) : list Z := take (length l - 1)%nat l.

End Chain.

(** ** KLruCache (KLruCache.h) *)

Module Lru.

(** [Key()] for [Key = int]: the key carried by the two dummy nodes. *)
Definition Key0 : Z := 0.

Section KLruCache.
Context {Value : Type}.
Variable dflt : Value.

(** The key of an [LruNode] is the key under which [nodeMap_] holds it. *)
Record LruNode := mkNode { value_ : Value; accessCount_ : Z }.

(** [list_] is the chain from [dummyHead_->next_] to the node before
    [dummyTail_]: least recent first. *)
Record KLruCache := mkLru {
  capacity_ : Z;
  nodeMap_ : gmap Z LruNode;
  list_ : list Z
}.

Definition new (capacity : Z) : KLruCache :=
  {| capacity_ := capacity; nodeMap_ := ∅; list_ := [] |}.

Definition removeNode (k : Z) (s : KLruCache) : KLruCache :=
  {| capacity_ := capacity_ s; nodeMap_ := nodeMap_ s;
     list_ := Chain.unlink k (list_ s) |}.

Definition insertNode (k : Z) (s : KLruCache) : KLruCache :=
  {| capacity_ := capacity_ s; nodeMap_ := nodeMap_ s;
     list_ := list_ s ++ [k] |}.

Definition moveToMostRecent (k : Z) (s : KLruCache) : KLruCache :=
  insertNode k (removeNode k s).

Definition setValue (k : Z) (v : Value) (s : KLruCache) : KLruCache :=
  {| capacity_ := capacity_ s;
     nodeMap_ := alter (fun n => mkNode v (accessCount_ n)) k (nodeMap_ s);
     list_ := list_ s |}.

Definition updateExistingNode (k : Z) (v : Value) (s : KLruCache)
  : KLruCache :=
  moveToMostRecent k (setValue k v s).

(** [dummyHead_->next_] is [dummyTail_] when the chain is empty; its key
    is [Key()], and [removeNode] leaves it alone since its [next_] is
    null. *)
Definition evictLeastRecent (s : KLruCache) : KLruCache :=
  match list_ s with
  | [] =>
      {| capacity_ := capacity_ s; nodeMap_ := delete Key0 (nodeMap_ s);
         list_ := [] |}
  | k :: l =>
      {| capacity_ := capacity_ s; nodeMap_ := delete k (nodeMap_ s);
         list_ := l |}
  end.

Definition addNewNode (k : Z) (v : Value) (s : KLruCache) : KLruCache :=
  let s1 :=
    if Z.of_nat (size (nodeMap_ s)) >=? CInt.to_size_t (capacity_ s)
    then evictLeastRecent s else s in
  let s2 := insertNode k s1 in
  {| capacity_ := capacity_ s2;
     nodeMap_ := <[k := mkNode v 1]> (nodeMap_ s2);
     list_ := list_ s2 |}.

Definition put (k : Z) (v : Value) (s : KLruCache) : KLruCache :=
  if capacity_ s <=? 0 then s
  else match nodeMap_ s !! k with
       | Some _ => updateExistingNode k v s
       | None => addNewNode k v s
       end.

(** [bool get(Key, Value&)]: [Some v] is [true] with [v] stored in the
    out-parameter, [None] is [false]. *)
Definition get (k : Z) (s : KLruCache) : KLruCache * option Value :=
  match nodeMap_ s !! k with
  | Some n => (moveToMostRecent k s, Some (value_ n))
  | None => (s, None)
  end.

(** [Value get(Key)]. *)
Definition get_value (k : Z) (s : KLruCache) : KLruCache * Value :=
  let '(s', r) := get k s in (s', default dflt r).

Definition remove (k : Z) (s : KLruCache) : KLruCache :=
  match nodeMap_ s !! k with
  | Some _ =>
      let s1 := removeNode k s in
      {| capacity_ := capacity_ s1; nodeMap_ := delete k (nodeMap_ s1);
         list_ := list_ s1 |}
  | None => s
  end.

(** Every key the object still refers to: the chain and the index are
    its only containers. *)
Definition keysHeld (s : KLruCache) : list Z :=
  list_ s ++ (map_to_list (nodeMap_ s)).*1.

(** A client's call on the policy interface. *)
Inductive op := Put (k : Z) (v : Value) | Get (k : Z).

Definition step (s : KLruCache) (o : op) : KLruCache :=
  match o with
  | Put k v => put k v s
  | Get k => fst (get k s)
  end.

Definition run (ops : list op) (s : KLruCache) : KLruCache :=
  foldl step s ops.

(** The value held for [k], if any, is [v]. *)
Definition holds (k : Z) (v : Value) (s : KLruCache) : Prop :=
  ∀ n, nodeMap_ s !! k = Some n → value_ n = v.

(** The chain and the index hold the same keys, each once. *)
Definition wf (s : KLruCache) : Prop :=
  NoDup (list_ s) ∧ dom (nodeMap_ s) = list_to_set (list_ s).

End KLruCache.

Arguments LruNode : clear implicits.
Arguments KLruCache : clear implicits.
Arguments op : clear implicits.

End Lru.

(** ** KLruKCache (KLruCache.h) *)

Module LruK.

Section KLruKCache.
Context {Value : Type}.
Variable dflt : Value.

(** The base sub-object is the admitted cache; the history is a
    [KLruCache<Key, size_t>]. *)
Record KLruKCache := mkLruK {
  base : Lru.KLruCache Value;
  k_ : Z;
  historyList_ : Lru.KLruCache Z;
  historyValueMap_ : gmap Z Value
}.

Definition new (capacity historyCapacity k : Z) : KLruKCache :=
  {| base := Lru.new capacity; k_ := k;
     historyList_ := Lru.new historyCapacity; historyValueMap_ := ∅ |}.

(** The three lines shared by [get] and [put]: read the counter with
    [Value get(Key)] (0 when absent), increment it, write it back. *)
Definition bumpHistory (key : Z) (h : Lru.KLruCache Z)
  : Lru.KLruCache Z * Z :=
  let '(h1, historyCount) := Lru.get_value 0 key h in
  let historyCount := CInt.size_incr historyCount in
  (Lru.put key historyCount h1, historyCount).

Definition get (key : Z) (s : KLruKCache) : KLruKCache * Value :=
  let '(b1, r) := Lru.get key (base s) in
  let '(h1, historyCount) := bumpHistory key (historyList_ s) in
  let s1 := {| base := b1; k_ := k_ s; historyList_ := h1;
               historyValueMap_ := historyValueMap_ s |} in
  match r with
  | Some value => (s1, value)
  | None =>
      if historyCount >=? CInt.to_size_t (k_ s) then
        match historyValueMap_ s !! key with
        | Some storedValue =>
            ({| base := Lru.put key storedValue b1; k_ := k_ s;
                historyList_ := Lru.remove key h1;
                historyValueMap_ := delete key (historyValueMap_ s) |},
             storedValue)
        | None => (s1, dflt)
        end
      else (s1, dflt)
  end.

Definition put (key : Z) (value : Value) (s : KLruKCache) : KLruKCache :=
  let '(b1, r) := Lru.get key (base s) in
  match r with
  | Some _ =>
      {| base := Lru.put key value b1; k_ := k_ s;
         historyList_ := historyList_ s;
         historyValueMap_ := historyValueMap_ s |}
  | None =>
      let '(h1, historyCount) := bumpHistory key (historyList_ s) in
      let m1 := <[key := value]> (historyValueMap_ s) in
      if historyCount >=? CInt.to_size_t (k_ s) then
        {| base := Lru.put key value b1; k_ := k_ s;
           historyList_ := Lru.remove key h1;
           historyValueMap_ := delete key m1 |}
      else
        {| base := b1; k_ := k_ s; historyList_ := h1;
           historyValueMap_ := m1 |}
  end.

(** [bool get(Key, Value&)] is not overridden by KLruKCache: the call that
    a [KICachePolicy*] makes is [KLruCache::get] on the base sub-object. *)
Definition get_base (key : Z) (s : KLruKCache)
  : KLruKCache * option Value :=
  let '(b1, r) := Lru.get key (base s) in
  ({| base := b1; k_ := k_ s; historyList_ := historyList_ s;
      historyValueMap_ := historyValueMap_ s |}, r).

Definition step (s : KLruKCache) (o : Lru.op Value) : KLruKCache :=
  match o with
  | Lru.Put k v => put k v s
  | Lru.Get k => fst (get k s)
  end.

Definition run (ops : list (Lru.op Value)) (s : KLruKCache) : KLruKCache :=
  foldl step s ops.

(** A key of the main cache has no pending value. *)
Definition disjoint (s : KLruKCache) : Prop :=
  ∀ k, is_Some (Lru.nodeMap_ (base s) !! k) → historyValueMap_ s !! k = None.

(** Whatever the object holds for [k], in the main cache or as the pending
    value, is [v]. *)
Definition holds (k : Z) (v : Value) (s : KLruKCache) : Prop :=
  Lru.holds k v (base s) ∧ ∀ v', historyValueMap_ s !! k = Some v' → v' = v.

End KLruKCache.

Arguments KLruKCache : clear implicits.

End LruK.

(** ** KLfuCache (KLfuCache.h) *)

Module Lfu.

Section KLfuCache.
Context {Value : Type}.

(** The [key] field of a list sentinel: [Node()] does not initialise it. *)
Variable dummyKey : Z.

Record Node := mkNode { freq : Z; key : Z; value : Value }.

(** What [getFirstNode] can return: a node of the arena, or the [tail_]
    sentinel of the list when the list is empty.  Every sentinel has
    [freq = 1], a live [pre] and a null [next]. *)
Inductive NodePtr := Real (a : nat) | Tail.

(** A [FreqList] is the sequence of the addresses between its [head_] and
    its [tail_].  A null [FreqList*] is the absence of the bucket: the map
    only gets one through [operator[]], immediately before the code
    dereferences it. *)
Record KLfuCache := mkLfu {
  capacity_ : Z;
  minFreq_ : Z;
  maxAverageNum_ : Z;
  curAverageNum_ : Z;
  curTotalNum_ : Z;
  nodeMap_ : gmap Z nat;
  freqToFreqList_ : gmap Z (list nat);
  arena : list Node
}.

Definition new (capacity maxAverageNum : Z) : KLfuCache :=
  {| capacity_ := capacity; minFreq_ := CInt.INT8_MAX;
     maxAverageNum_ := maxAverageNum; curAverageNum_ := 0;
     curTotalNum_ := 0; nodeMap_ := ∅; freqToFreqList_ := ∅;
     arena := [] |}.

Definition set_minFreq (m : Z) (s : KLfuCache) : KLfuCache :=
  mkLfu (capacity_ s) m (maxAverageNum_ s) (curAverageNum_ s)
        (curTotalNum_ s) (nodeMap_ s) (freqToFreqList_ s) (arena s).

Definition set_counters (avg total : Z) (s : KLfuCache) : KLfuCache :=
  mkLfu (capacity_ s) (minFreq_ s) (maxAverageNum_ s) avg total
        (nodeMap_ s) (freqToFreqList_ s) (arena s).

Definition set_nodeMap (m : gmap Z nat) (s : KLfuCache) : KLfuCache :=
  mkLfu (capacity_ s) (minFreq_ s) (maxAverageNum_ s) (curAverageNum_ s)
        (curTotalNum_ s) m (freqToFreqList_ s) (arena s).

Definition set_lists (b : gmap Z (list nat)) (s : KLfuCache) : KLfuCache :=
  mkLfu (capacity_ s) (minFreq_ s) (maxAverageNum_ s) (curAverageNum_ s)
        (curTotalNum_ s) (nodeMap_ s) b (arena s).

Definition set_arena (h : list Node) (s : KLfuCache) : KLfuCache :=
  mkLfu (capacity_ s) (minFreq_ s) (maxAverageNum_ s) (curAverageNum_ s)
        (curTotalNum_ s) (nodeMap_ s) (freqToFreqList_ s) h.

(** [FreqList::removeNode]: the node leaves the list it is linked in. *)
Definition unlink (a : nat) (b : gmap Z (list nat)) : gmap Z (list nat) :=
  (fun l => filter (fun x => x ≠ a) l) <$> b.

(** [None] is the dereference of a null [FreqList*]. *)
Definition removeFromFreqList (p : NodePtr) (s : KLfuCache)
  : option KLfuCache :=
  match p with
  | Real a =>
      n ← arena s !! a;
      _ ← freqToFreqList_ s !! freq n;
      Some (set_lists (unlink a (freqToFreqList_ s)) s)
  | Tail =>
      _ ← freqToFreqList_ s !! 1;
      Some s
  end.

Definition addToFreqList (a : nat) (s : KLfuCache) : option KLfuCache :=
  n ← arena s !! a;
  let l := default [] (freqToFreqList_ s !! freq n) in
  Some (set_lists (<[freq n := l ++ [a]]> (freqToFreqList_ s)) s).

Definition average (total : Z) (s : KLfuCache) : Z :=
  if decide (size (nodeMap_ s) = 0%nat) then 0
  else CInt.div_int_size total (Z.of_nat (size (nodeMap_ s))).

Definition updateMinFreq (s : KLfuCache) : KLfuCache :=
  let m := foldr (fun p acc => if decide (p.2 = []) then acc
                               else Z.min acc p.1)
                 CInt.INT8_MAX (map_to_list (freqToFreqList_ s)) in
  set_minFreq (if m =? CInt.INT8_MAX then 1 else m) s.

Definition setFreq (f : Z) (n : Node) : Node := mkNode f (key n) (value n).

(** The body of the loop of [handleOverMaxAverageNum]. *)
Definition rescaleNode (a : nat) (s : KLfuCache) : option KLfuCache :=
  s1 ← removeFromFreqList (Real a) s;
  n ← arena s1 !! a;
  let f := freq n - Z.quot (maxAverageNum_ s1) 2 in
  let f := if f <? 1 then 1 else f in
  addToFreqList a (set_arena (<[a := setFreq f n]> (arena s1)) s1).

Fixpoint rescaleAll (l : list nat) (s : KLfuCache) : option KLfuCache :=
  match l with
  | [] => Some s
  | a :: l' => s1 ← rescaleNode a s; rescaleAll l' s1
  end.

(** The iteration order of [std::unordered_map] is unspecified; the model
    walks the index in the order of [map_to_list]. *)
Definition handleOverMaxAverageNum (s : KLfuCache) : option KLfuCache :=
  if decide (size (nodeMap_ s) = 0%nat) then Some s
  else s1 ← rescaleAll (snd <$> map_to_list (nodeMap_ s)) s;
       Some (updateMinFreq s1).

(** The first two statements of [addFreqNum]. *)
Definition countAccess (s : KLfuCache) : KLfuCache :=
  let total := curTotalNum_ s + 1 in
  set_counters (average total s) total s.

Definition addFreqNum (s : KLfuCache) : option KLfuCache :=
  let s1 := countAccess s in
  if curAverageNum_ s1 >? maxAverageNum_ s1
  then handleOverMaxAverageNum s1 else Some s1.

Definition decreaseFreqNum (num : Z) (s : KLfuCache) : KLfuCache :=
  let total := curTotalNum_ s - num in
  set_counters (average total s) total s.

(** [getInternal] between reading the value and [addFreqNum]: the node
    moves to the list of the next frequency. *)
Definition relocate (a : nat) (s : KLfuCache) : option KLfuCache :=
  n ← arena s !! a;
  s1 ← removeFromFreqList (Real a) s;
  let s2 := set_arena (<[a := setFreq (freq n + 1) n]> (arena s1)) s1 in
  s3 ← addToFreqList a s2;
  if freq n + 1 - 1 =? minFreq_ s3 then
    l ← freqToFreqList_ s3 !! (freq n + 1 - 1);
    Some (if decide (l = []) then set_minFreq (minFreq_ s3 + 1) s3 else s3)
  else Some s3.

Definition getInternal (a : nat) (s : KLfuCache)
  : option (KLfuCache * Value) :=
  n ← arena s !! a;
  s4 ← relocate a s;
  s5 ← addFreqNum s4;
  Some (s5, value n).

Definition kickOut (s : KLfuCache) : option KLfuCache :=
  l ← freqToFreqList_ s !! minFreq_ s;
  let p := match l with [] => Tail | a :: _ => Real a end in
  s1 ← removeFromFreqList p s;
  kf ← match p with
       | Real a => n ← arena s1 !! a; Some (key n, freq n)
       | Tail => Some (dummyKey, 1)
       end;
  Some (decreaseFreqNum kf.2 (set_nodeMap (delete kf.1 (nodeMap_ s1)) s1)).

Definition putInternal (k : Z) (v : Value) (s : KLfuCache)
  : option KLfuCache :=
  s1 ← (if Z.of_nat (size (nodeMap_ s)) =? CInt.to_size_t (capacity_ s)
        then kickOut s else Some s);
  let a := length (arena s1) in
  let s2 := set_nodeMap (<[k := a]> (nodeMap_ s1))
              (set_arena (arena s1 ++ [mkNode 1 k v]) s1) in
  s3 ← addToFreqList a s2;
  s4 ← addFreqNum s3;
  Some (set_minFreq (Z.min (minFreq_ s4) 1) s4).

Definition setValue (v : Value) (n : Node) : Node := mkNode (freq n) (key n) v.

Definition put (k : Z) (v : Value) (s : KLfuCache) : option KLfuCache :=
  if capacity_ s =? 0 then Some s
  else match nodeMap_ s !! k with
       | Some a =>
           n ← arena s !! a;
           r ← getInternal a (set_arena (<[a := setValue v n]> (arena s)) s);
           Some r.1
       | None => putInternal k v s
       end.

Definition get (k : Z) (s : KLfuCache)
  : option (KLfuCache * option Value) :=
  match nodeMap_ s !! k with
  | Some a => r ← getInternal a s; Some (r.1, Some r.2)
  | None => Some (s, None)
  end.

Definition purge (s : KLfuCache) : KLfuCache :=
  set_lists ∅ (set_nodeMap ∅ s).

Inductive op := Put (k : Z) (v : Value) | Get (k : Z) | Purge.

Definition step (s : KLfuCache) (o : op) : option KLfuCache :=
  match o with
  | Put k v => put k v s
  | Get k => fst <$> get k s
  | Purge => Some (purge s)
  end.

Fixpoint run (ops : list op) (s : KLfuCache) : option KLfuCache :=
  match ops with
  | [] => Some s
  | o :: ops' => s1 ← step s o; run ops' s1
  end.

(** The frequency of the entry stored under [k], if any. *)
Definition freqOf (k : Z) (s : KLfuCache) : option Z :=
  a ← nodeMap_ s !! k; n ← arena s !! a; Some (freq n).

Definition valueOf (k : Z) (s : KLfuCache) : option Value :=
  a ← nodeMap_ s !! k; n ← arena s !! a; Some (value n).

(** Everything but the frequencies, the lists and [minFreq_]: what a
    rescale has to leave alone. *)
Definition frame (s s' : KLfuCache) : Prop :=
  capacity_ s' = capacity_ s
  ∧ maxAverageNum_ s' = maxAverageNum_ s
  ∧ curAverageNum_ s' = curAverageNum_ s
  ∧ curTotalNum_ s' = curTotalNum_ s
  ∧ nodeMap_ s' = nodeMap_ s
  ∧ key <$> arena s' = key <$> arena s
  ∧ value <$> arena s' = value <$> arena s.

(** Well-formedness of the object between two calls.  The index maps a key
    to a node that carries this key and whose frequency, at least 1, has a
    list; the members of list [f] are nodes of frequency [f]; list 1 exists
    as soon as the index is not empty; [minFreq_] is at least 1. *)
Definition wf0 (s : KLfuCache) : Prop :=
  (∀ k a, nodeMap_ s !! k = Some a →
     ∃ n, arena s !! a = Some n ∧ key n = k ∧ 1 ≤ freq n
          ∧ is_Some (freqToFreqList_ s !! freq n))
  ∧ (∀ f l a, freqToFreqList_ s !! f = Some l → a ∈ l →
       ∃ n, arena s !! a = Some n ∧ freq n = f ∧ 1 ≤ f)
  ∧ (nodeMap_ s ≠ ∅ → is_Some (freqToFreqList_ s !! 1))
  ∧ 1 ≤ minFreq_ s.

(** ... and the list of [minFreq_] exists as soon as the index is not
    empty. *)
Definition wf (s : KLfuCache) : Prop :=
  wf0 s ∧ (nodeMap_ s ≠ ∅ → is_Some (freqToFreqList_ s !! minFreq_ s)).

(** The lists of [s] still exist in [s']. *)
Definition listsKept (s s' : KLfuCache) : Prop :=
  ∀ f, is_Some (freqToFreqList_ s !! f) → is_Some (freqToFreqList_ s' !! f).

(** A capacity that the comparison with [size()] does not take for 0. *)
Definition capacityOk (s : KLfuCache) : Prop :=
  capacity_ s ≠ 0 → CInt.to_size_t (capacity_ s) ≠ 0.

(** The frequency of the node at address [a], 0 when there is none. *)
Definition freqAt (h : list Node) (a : nat) : Z :=
  match h !! a with Some n => freq n | None => 0 end.

(** The sum of the frequencies of the indexed nodes. *)
Definition freqSum (h : list Node) (m : gmap Z nat) : Z :=
  foldr (fun p acc => freqAt h p.2 + acc) 0 (map_to_list m).

(** The index and the lists describe the same nodes: an indexed node
    carries its key, has a frequency of at least 1 and is linked in the
    list of its frequency; a linked node has the frequency of its list and
    is the node that the index holds for its key. *)
Definition linked (s : KLfuCache) : Prop :=
  (∀ k a, nodeMap_ s !! k = Some a →
     ∃ n l, arena s !! a = Some n ∧ key n = k ∧ 1 ≤ freq n
            ∧ freqToFreqList_ s !! freq n = Some l ∧ a ∈ l)
  ∧ (∀ f l a, freqToFreqList_ s !! f = Some l → a ∈ l →
       ∃ n, arena s !! a = Some n ∧ freq n = f
            ∧ nodeMap_ s !! key n = Some a).

(** [minFreq_] names a list with a node in it as soon as the index is not
    empty. *)
Definition minListed (s : KLfuCache) : Prop :=
  nodeMap_ s ≠ ∅ → ∃ l, freqToFreqList_ s !! minFreq_ s = Some l ∧ l ≠ [].

(** ... [minFreq_] is at least 1, and [curTotalNum_] is at least the sum of
    the frequencies. *)
Definition tight (s : KLfuCache) : Prop :=
  linked s ∧ 1 ≤ minFreq_ s ∧ minListed s
  ∧ freqSum (arena s) (nodeMap_ s) ≤ curTotalNum_ s.

(** Room for [n] more accesses: the total stays within [maxAverageNum_],
    so that none of them triggers a rescale; or [maxAverageNum_] is not
    negative, so that a rescale raises no frequency, and the total stays
    below [INT8_MAX], the mark of [updateMinFreq]. *)
Definition roomFor (n : Z) (s : KLfuCache) : Prop :=
  (curTotalNum_ s + n ≤ maxAverageNum_ s ∧ maxAverageNum_ s < 2 ^ 31)
  ∨ (0 ≤ maxAverageNum_ s ∧ curTotalNum_ s + n < CInt.INT8_MAX).

(** Every indexed node is linked in the list of its frequency. *)
Definition listed (s : KLfuCache) : Prop :=
  ∀ k a, nodeMap_ s !! k = Some a →
         ∃ n l, arena s !! a = Some n
                ∧ freqToFreqList_ s !! freq n = Some l ∧ a ∈ l.

(** The sum, over the lists, of the frequency of the list times the number
    of its nodes. *)
Definition listWeight (b : gmap Z (list nat)) : Z :=
  foldr (fun p acc => p.1 * Z.of_nat (length p.2) + acc) 0 (map_to_list b).

(** What the [int] members hold after [n] calls: every frequency and
    [minFreq_] are at least 1, no frequency is above [n], [curTotalNum_] is
    between [- n] and [n], [minFreq_] is at most the larger of [INT8_MAX]
    and [n], and [curAverageNum_] is an [int].  For [n < 2 ^ 31] all of
    them are values of an [int]. *)
Definition inRange (n : Z) (s : KLfuCache) : Prop :=
  (∀ a nd, arena s !! a = Some nd → 1 ≤ freq nd ≤ n)
  ∧ - n ≤ curTotalNum_ s ≤ n
  ∧ 1 ≤ minFreq_ s ≤ Z.max CInt.INT8_MAX n
  ∧ - 2 ^ 31 ≤ curAverageNum_ s < 2 ^ 31.

(** What [n] calls keep: the indexed nodes are listed, the frequencies are
    between 1 and [n], the lists weigh at most [curTotalNum_ + n] (a call
    loses one unit when [kickOut] finds the list of [minFreq_] empty and
    subtracts the frequency of its sentinel), and the upper bounds of
    [inRange]. *)
Definition ranged (n : Z) (s : KLfuCache) : Prop :=
  listed s
  ∧ (∀ a nd, arena s !! a = Some nd → 1 ≤ freq nd ≤ n)
  ∧ listWeight (freqToFreqList_ s) ≤ curTotalNum_ s + n
  ∧ curTotalNum_ s ≤ n
  ∧ minFreq_ s ≤ Z.max CInt.INT8_MAX n
  ∧ - 2 ^ 31 ≤ curAverageNum_ s < 2 ^ 31.

(** Every [int] member of the object and of its nodes holds a value of an
    [int]; the frequencies and [minFreq_] are at least 1. *)
Definition fitsInt (s : KLfuCache) : Prop :=
  (∀ a nd, arena s !! a = Some nd → 1 ≤ freq nd < 2 ^ 31)
  ∧ - 2 ^ 31 ≤ capacity_ s < 2 ^ 31
  ∧ 1 ≤ minFreq_ s < 2 ^ 31
  ∧ - 2 ^ 31 ≤ maxAverageNum_ s < 2 ^ 31
  ∧ - 2 ^ 31 ≤ curAverageNum_ s < 2 ^ 31
  ∧ - 2 ^ 31 ≤ curTotalNum_ s < 2 ^ 31.

(** No indexed node has a frequency below [minFreq_]. *)
Definition minFreqLeast (s : KLfuCache) : Prop :=
  ∀ k a n, nodeMap_ s !! k = Some a → arena s !! a = Some n →
           minFreq_ s ≤ freq n.

End KLfuCache.

Arguments Node : clear implicits.
Arguments KLfuCache : clear implicits.
Arguments op : clear implicits.

End Lfu.

(** ** ArcNode (KArcCacheNode.h) *)

Module ArcNode.

Section ArcNode.
Context {Value : Type}.

(** The key of a node is the key under which the index holds it. *)
Record ArcNode := mkNode { value_ : Value; accessCount_ : Z }.

(** [ArcNode(Key, Value)]. *)
Definition make (v : Value) : ArcNode := mkNode v 1.

Definition setValue (v : Value) (n : ArcNode) : ArcNode :=
  mkNode v (accessCount_ n).

Definition incrementAccessCount (n : ArcNode) : ArcNode :=
  mkNode (value_ n) (CInt.size_incr (accessCount_ n)).

(** Whatever the index [m] holds for [k] has the value [v]. *)
Definition holdsIn (k : Z) (v : Value) (m : gmap Z ArcNode) : Prop :=
  ∀ n, m !! k = Some n → value_ n = v.

End ArcNode.

Arguments ArcNode : clear implicits.

End ArcNode.

(** ** ArcLruPart (KArcLruPart.h) *)

Module ArcLru.

Import ArcNode.

Section ArcLruPart.
Context {Value : Type}.

(** [mainList] runs from [mainHead_->next_] (most recent) to the node
    before [mainTail_]; [ghostList] likewise from [ghostHead_->next_]
    (newest ghost).  A ghost node is only ever found by key and unlinked;
    its other fields are never read again, so the ghost index is the set
    of its keys. *)
Record ArcLruPart := mkPart {
  capacity_ : Z;
  ghostCapacity_ : Z;
  transformThreshold_ : Z;
  mainCache_ : gmap Z (ArcNode Value);
  ghostCache_ : gset Z;
  mainList : list Z;
  ghostList : list Z
}.

Definition new (capacity transformThreshold : Z) : ArcLruPart :=
  mkPart capacity capacity transformThreshold ∅ ∅ [] [].

Definition set_capacity (c : Z) (s : ArcLruPart) : ArcLruPart :=
  mkPart c (ghostCapacity_ s) (transformThreshold_ s) (mainCache_ s)
         (ghostCache_ s) (mainList s) (ghostList s).

Definition set_main (m : gmap Z (ArcNode Value)) (l : list Z)
    (s : ArcLruPart) : ArcLruPart :=
  mkPart (capacity_ s) (ghostCapacity_ s) (transformThreshold_ s) m
         (ghostCache_ s) l (ghostList s).

Definition set_ghost (g : gset Z) (l : list Z) (s : ArcLruPart)
  : ArcLruPart :=
  mkPart (capacity_ s) (ghostCapacity_ s) (transformThreshold_ s)
         (mainCache_ s) g (mainList s) l.

Definition addToFront (k : Z) (s : ArcLruPart) : ArcLruPart :=
  set_main (mainCache_ s) (k :: mainList s) s.

Definition removeFromMain (k : Z) (s : ArcLruPart) : ArcLruPart :=
  set_main (mainCache_ s) (Chain.unlink k (mainList s)) s.

Definition moveToFront (k : Z) (s : ArcLruPart) : ArcLruPart :=
  addToFront k (removeFromMain k s).

Definition removeOldestGhost (s : ArcLruPart) : ArcLruPart :=
  match last (ghostList s) with
  | None => s
  | Some g =>
      set_ghost (ghostCache_ s ∖ {[g]}) (Chain.dropLast (ghostList s)) s
  end.

Definition addToGhost (k : Z) (s : ArcLruPart) : ArcLruPart :=
  set_ghost ({[k]} ∪ ghostCache_ s) (k :: ghostList s) s.

Definition evictLeastRecent (s : ArcLruPart) : ArcLruPart :=
  match last (mainList s) with
  | None => s
  | Some k =>
      let s1 := set_main (mainCache_ s) (Chain.dropLast (mainList s)) s in
      let s2 :=
        if Z.of_nat (size (ghostCache_ s1)) >=? ghostCapacity_ s1
        then removeOldestGhost s1 else s1 in
      let s3 := addToGhost k s2 in
      set_main (delete k (mainCache_ s3)) (mainList s3) s3
  end.

Definition updateExistingNode (k : Z) (v : Value) (s : ArcLruPart)
  : ArcLruPart :=
  moveToFront k (set_main (alter (setValue v) k (mainCache_ s))
                          (mainList s) s).

Definition addNewNode (k : Z) (v : Value) (s : ArcLruPart) : ArcLruPart :=
  let s1 := if Z.of_nat (size (mainCache_ s)) >=? capacity_ s
            then evictLeastRecent s else s in
  addToFront k (set_main (<[k := make v]> (mainCache_ s1)) (mainList s1) s1).

Definition put (k : Z) (v : Value) (s : ArcLruPart) : ArcLruPart * bool :=
  if capacity_ s =? 0 then (s, false)
  else match mainCache_ s !! k with
       | Some _ => (updateExistingNode k v s, true)
       | None => (addNewNode k v s, true)
       end.

(** Returns the part and what [updateNodeAccess] returns. *)
Definition updateNodeAccess (k : Z) (s : ArcLruPart) : ArcLruPart * bool :=
  let s1 := moveToFront k s in
  let m := alter incrementAccessCount k (mainCache_ s1) in
  (set_main m (mainList s1) s1,
   match m !! k with
   | Some n => accessCount_ n >=? transformThreshold_ s
   | None => false
   end).

(** [Some (v, shouldTransform)] is [true] with the two out-parameters. *)
Definition get (k : Z) (s : ArcLruPart)
  : ArcLruPart * option (Value * bool) :=
  match mainCache_ s !! k with
  | Some n =>
      let '(s1, shouldTransform) := updateNodeAccess k s in
      (s1, Some (value_ n, shouldTransform))
  | None => (s, None)
  end.

(** The ghost index holds the node that [addToGhost] linked last under
    the key: the first one in list order. *)
Definition checkGhost (k : Z) (s : ArcLruPart) : ArcLruPart * bool :=
  if decide (k ∈ ghostCache_ s)
  then (set_ghost (ghostCache_ s ∖ {[k]})
                  (Chain.unlink k (ghostList s)) s, true)
  else (s, false).

Definition increaseCapacity (s : ArcLruPart) : ArcLruPart :=
  set_capacity (CInt.size_incr (capacity_ s)) s.

Definition decreaseCapacity (s : ArcLruPart) : ArcLruPart * bool :=
  if capacity_ s <=? 0 then (s, false)
  else
    let s1 := if Z.of_nat (size (mainCache_ s)) =? capacity_ s
              then evictLeastRecent s else s in
    (set_capacity (capacity_ s1 - 1) s1, true).

(** The main chain and the main index hold the same keys, each once. *)
Definition wf (s : ArcLruPart) : Prop :=
  NoDup (mainList s) ∧ dom (mainCache_ s) = list_to_set (mainList s).

End ArcLruPart.

Arguments ArcLruPart : clear implicits.

End ArcLru.

(** ** ArcLfuPart (KArcLfuPart.h) *)

Module ArcLfu.

Import ArcNode.

Section ArcLfuPart.
Context {Value : Type}.

(** [freqMap_] is a [std::map]: [begin()] is its smallest key.  Each
    [std::list<NodePtr>] is the list of the keys of its nodes.
    [ghostList] runs from [ghostHead_->next_] (oldest ghost) to the node
    before [ghostTail_]; as in the LRU half the ghost index is the set of
    the keys it holds. *)
Record ArcLfuPart := mkPart {
  capacity_ : Z;
  ghostCapacity_ : Z;
  transformThreshold_ : Z;
  minFreq_ : Z;
  mainCache_ : gmap Z (ArcNode Value);
  ghostCache_ : gset Z;
  freqMap_ : gmap Z (list Z);
  ghostList : list Z
}.

Definition new (capacity transformThreshold : Z) : ArcLfuPart :=
  mkPart capacity capacity transformThreshold 0 ∅ ∅ ∅ [].

Definition set_capacity (c : Z) (s : ArcLfuPart) : ArcLfuPart :=
  mkPart c (ghostCapacity_ s) (transformThreshold_ s) (minFreq_ s)
         (mainCache_ s) (ghostCache_ s) (freqMap_ s) (ghostList s).

Definition set_minFreq (f : Z) (s : ArcLfuPart) : ArcLfuPart :=
  mkPart (capacity_ s) (ghostCapacity_ s) (transformThreshold_ s) f
         (mainCache_ s) (ghostCache_ s) (freqMap_ s) (ghostList s).

Definition set_main (m : gmap Z (ArcNode Value)) (s : ArcLfuPart)
  : ArcLfuPart :=
  mkPart (capacity_ s) (ghostCapacity_ s) (transformThreshold_ s)
         (minFreq_ s) m (ghostCache_ s) (freqMap_ s) (ghostList s).

Definition set_freqMap (f : gmap Z (list Z)) (s : ArcLfuPart)
  : ArcLfuPart :=
  mkPart (capacity_ s) (ghostCapacity_ s) (transformThreshold_ s)
         (minFreq_ s) (mainCache_ s) (ghostCache_ s) f (ghostList s).

Definition set_ghost (g : gset Z) (l : list Z) (s : ArcLfuPart)
  : ArcLfuPart :=
  mkPart (capacity_ s) (ghostCapacity_ s) (transformThreshold_ s)
         (minFreq_ s) (mainCache_ s) g (freqMap_ s) l.

(** [freqMap_.begin()->first]. *)
Definition firstKey (m : gmap Z (list Z)) : option Z :=
  foldr (fun p acc => match acc with
                      | None => Some p.1
                      | Some f => Some (Z.min p.1 f)
                      end) None (map_to_list m).

(** [freqMap_[f]] as an lvalue: the list, created empty when absent. *)
Definition touch (f : Z) (m : gmap Z (list Z)) : gmap Z (list Z) :=
  match m !! f with
  | Some _ => m
  | None => <[f := []]> m
  end.

Definition removeOldestGhost (s : ArcLfuPart) : ArcLfuPart :=
  match ghostList s with
  | [] => s
  | g :: l => set_ghost (ghostCache_ s ∖ {[g]}) l s
  end.

Definition addToGhost (k : Z) (s : ArcLfuPart) : ArcLfuPart :=
  set_ghost ({[k]} ∪ ghostCache_ s) (ghostList s ++ [k]) s.

(** [node] is the node held under [k], as the caller found it. *)
Definition updateNodeFrequency (k : Z) (node : ArcNode Value)
    (s : ArcLfuPart) : ArcLfuPart :=
  let oldFreq := accessCount_ node in
  let node' := incrementAccessCount node in
  let newFreq := accessCount_ node' in
  let s1 := set_main (<[k := node']> (mainCache_ s)) s in
  let oldList := filter (fun x => x ≠ k)
                        (default [] (freqMap_ s1 !! oldFreq)) in
  let s2 :=
    if decide (oldList = []) then
      let s' := set_freqMap (delete oldFreq (freqMap_ s1)) s1 in
      if oldFreq =? minFreq_ s' then set_minFreq newFreq s' else s'
    else set_freqMap (<[oldFreq := oldList]> (freqMap_ s1)) s1 in
  let m := touch newFreq (freqMap_ s2) in
  set_freqMap (<[newFreq := default [] (m !! newFreq) ++ [k]]> m) s2.

Definition evictLeastFrequent (s : ArcLfuPart) : ArcLfuPart :=
  if decide (freqMap_ s = ∅) then s
  else
    let s0 := set_freqMap (touch (minFreq_ s) (freqMap_ s)) s in
    match default [] (freqMap_ s0 !! minFreq_ s0) with
    | [] => s0
    | k :: rest =>
        let s1 :=
          if decide (rest = []) then
            let s' := set_freqMap (delete (minFreq_ s0) (freqMap_ s0)) s0 in
            match firstKey (freqMap_ s') with
            | Some f => set_minFreq f s'
            | None => s'
            end
          else set_freqMap (<[minFreq_ s0 := rest]> (freqMap_ s0)) s0 in
        let s2 :=
          if Z.of_nat (size (ghostCache_ s1)) >=? ghostCapacity_ s1
          then removeOldestGhost s1 else s1 in
        let s3 := addToGhost k s2 in
        set_main (delete k (mainCache_ s3)) s3
    end.

Definition updateExistingNode (k : Z) (node : ArcNode Value) (v : Value)
    (s : ArcLfuPart) : ArcLfuPart :=
  updateNodeFrequency k (setValue v node) s.

Definition addNewNode (k : Z) (v : Value) (s : ArcLfuPart) : ArcLfuPart :=
  let s1 := if Z.of_nat (size (mainCache_ s)) >=? capacity_ s
            then evictLeastFrequent s else s in
  let s2 := set_main (<[k := make v]> (mainCache_ s1)) s1 in
  let m := touch 1 (freqMap_ s2) in
  set_minFreq 1 (set_freqMap (<[1 := default [] (m !! 1) ++ [k]]> m) s2).

Definition put (k : Z) (v : Value) (s : ArcLfuPart) : ArcLfuPart * bool :=
  if capacity_ s =? 0 then (s, false)
  else match mainCache_ s !! k with
       | Some node => (updateExistingNode k node v s, true)
       | None => (addNewNode k v s, true)
       end.

Definition get (k : Z) (s : ArcLfuPart) : ArcLfuPart * option Value :=
  match mainCache_ s !! k with
  | Some node => (updateNodeFrequency k node s, Some (value_ node))
  | None => (s, None)
  end.

Definition contain (k : Z) (s : ArcLfuPart) : bool :=
  bool_decide (is_Some (mainCache_ s !! k)).

(** The ghost index holds the node that [addToGhost] linked last under
    the key: the last one in list order. *)
Definition checkGhost (k : Z) (s : ArcLfuPart) : ArcLfuPart * bool :=
  if decide (k ∈ ghostCache_ s)
  then (set_ghost (ghostCache_ s ∖ {[k]})
                  (Chain.unlinkLast k (ghostList s)) s, true)
  else (s, false).

Definition increaseCapacity (s : ArcLfuPart) : ArcLfuPart :=
  set_capacity (CInt.size_incr (capacity_ s)) s.

Definition decreaseCapacity (s : ArcLfuPart) : ArcLfuPart * bool :=
  if capacity_ s <=? 0 then (s, false)
  else
    let s1 := if Z.of_nat (size (mainCache_ s)) =? capacity_ s
              then evictLeastFrequent s else s in
    (set_capacity (capacity_ s1 - 1) s1, true).

(** No list of [freqMap_] is empty or holds a key twice; the members of
    list [f] are the entries of the index whose access count is [f]; the
    list of [minFreq_] exists as soon as the index is not empty. *)
Definition wf (s : ArcLfuPart) : Prop :=
  (∀ f l, freqMap_ s !! f = Some l → l ≠ [] ∧ NoDup l)
  ∧ (∀ f l k, freqMap_ s !! f = Some l → k ∈ l →
       ∃ n, mainCache_ s !! k = Some n ∧ accessCount_ n = f)
  ∧ (∀ k n, mainCache_ s !! k = Some n →
       ∃ l, freqMap_ s !! accessCount_ n = Some l ∧ k ∈ l)
  ∧ (mainCache_ s ≠ ∅ → is_Some (freqMap_ s !! minFreq_ s)).

(** No list of [freqMap_] has a key below [minFreq_]. *)
Definition minFreqLeast (s : ArcLfuPart) : Prop :=
  ∀ f, is_Some (freqMap_ s !! f) → minFreq_ s ≤ f.

(** Every access count of the index is between 1 and [n]. *)
Definition counted (n : Z) (s : ArcLfuPart) : Prop :=
  ∀ k node, mainCache_ s !! k = Some node → 1 ≤ accessCount_ node ≤ n.

End ArcLfuPart.

Arguments ArcLfuPart : clear implicits.

End ArcLfu.

(** ** KArcCache (KArcCache.h) *)

Module Arc.

Section KArcCache.
Context {Value : Type}.

Record KArcCache := mkArc {
  capacity_ : Z;
  transformThreshold_ : Z;
  lruPart_ : ArcLru.ArcLruPart Value;
  lfuPart_ : ArcLfu.ArcLfuPart Value
}.

Definition new (capacity transformThreshold : Z) : KArcCache :=
  mkArc capacity transformThreshold
        (ArcLru.new capacity transformThreshold)
        (ArcLfu.new capacity transformThreshold).

Definition set_parts (lru : ArcLru.ArcLruPart Value)
    (lfu : ArcLfu.ArcLfuPart Value) (s : KArcCache) : KArcCache :=
  mkArc (capacity_ s) (transformThreshold_ s) lru lfu.

Definition checkGhostCaches (key : Z) (s : KArcCache) : KArcCache * bool :=
  let '(lru1, inLruGhost) := ArcLru.checkGhost key (lruPart_ s) in
  if inLruGhost then
    let '(lfu1, ok) := ArcLfu.decreaseCapacity (lfuPart_ s) in
    (set_parts (if ok then ArcLru.increaseCapacity lru1 else lru1) lfu1 s,
     true)
  else
    let '(lfu1, inLfuGhost) := ArcLfu.checkGhost key (lfuPart_ s) in
    if inLfuGhost then
      let '(lru2, ok) := ArcLru.decreaseCapacity lru1 in
      (set_parts lru2 (if ok then ArcLfu.increaseCapacity lfu1 else lfu1) s,
       true)
    else (set_parts lru1 lfu1 s, false).

Definition put (key : Z) (value : Value) (s : KArcCache) : KArcCache :=
  let s1 := (checkGhostCaches key s).1 in
  let inLfu := ArcLfu.contain key (lfuPart_ s1) in
  let lru1 := (ArcLru.put key value (lruPart_ s1)).1 in
  let lfu1 := if inLfu then (ArcLfu.put key value (lfuPart_ s1)).1
              else lfuPart_ s1 in
  set_parts lru1 lfu1 s1.

Definition get (key : Z) (s : KArcCache) : KArcCache * option Value :=
  let s1 := (checkGhostCaches key s).1 in
  let '(lru1, r) := ArcLru.get key (lruPart_ s1) in
  match r with
  | Some (value, shouldTransform) =>
      let lfu1 := if shouldTransform : bool
                  then (ArcLfu.put key value (lfuPart_ s1)).1
                  else lfuPart_ s1 in
      (set_parts lru1 lfu1 s1, Some value)
  | None =>
      let '(lfu1, r') := ArcLfu.get key (lfuPart_ s1) in
      (set_parts lru1 lfu1 s1, r')
  end.

Inductive op := Put (k : Z) (v : Value) | Get (k : Z).

Definition step (s : KArcCache) (o : op) : KArcCache :=
  match o with
  | Put k v => put k v s
  | Get k => (get k s).1
  end.

Definition run (ops : list op) (s : KArcCache) : KArcCache :=
  foldl step s ops.

(** Both halves are well formed and within their current capacities, and
    the two capacities add up to twice the capacity [C] of the
    constructor. *)
Definition wf (C : Z) (s : KArcCache) : Prop :=
  ArcLru.wf (lruPart_ s) ∧ ArcLfu.wf (lfuPart_ s)
  ∧ Z.of_nat (size (ArcLru.mainCache_ (lruPart_ s)))
    ≤ ArcLru.capacity_ (lruPart_ s)
  ∧ Z.of_nat (size (ArcLfu.mainCache_ (lfuPart_ s)))
    ≤ ArcLfu.capacity_ (lfuPart_ s)
  ∧ ArcLru.capacity_ (lruPart_ s) + ArcLfu.capacity_ (lfuPart_ s) = 2 * C
  ∧ 0 ≤ ArcLru.capacity_ (lruPart_ s)
  ∧ 0 ≤ ArcLfu.capacity_ (lfuPart_ s).

(** Whatever either half holds for [k] has the value [v]. *)
Definition holds (k : Z) (v : Value) (s : KArcCache) : Prop :=
  ArcNode.holdsIn k v (ArcLru.mainCache_ (lruPart_ s))
  ∧ ArcNode.holdsIn k v (ArcLfu.mainCache_ (lfuPart_ s)).

End KArcCache.

Arguments KArcCache : clear implicits.
Arguments op : clear implicits.

End Arc.

(** ** The [double] arithmetic of the sliced caches

    Binary64 as [SpecFloat] specifies it: 53 bits of mantissa, [emax] 1024,
    rounding to nearest, ties to even. *)

Module CDouble.

(** The conversion of an integer to [double]. *)
Definition of_Z (z : Z) : spec_float := binary_normalize 53 1024 z 0 false.

(** The integer that [std::ceil] returns for a finite argument. *)
Definition ceil (x : spec_float) : option Z :=
  match x with
  | S754_zero _ => Some 0
  | S754_finite sign m e =>
      let v := if sign then Z.neg m else Z.pos m in
      Some (if 0 <=? e then v * 2 ^ e else - ((- v) / 2 ^ (- e)))
  | S754_infinity _ | S754_nan => None
  end.

(** [size_t sliceSize = std::ceil(capacity / static_cast<double>(sliceNum))]:
    [None] where the conversion to [size_t] is undefined (the quotient is
    infinite or not a number, or its ceiling is not a [size_t]). *)
Definition sliceSize (capacity sliceNum : Z) : option Z :=
  c ← ceil (SFdiv 53 1024 (of_Z capacity) (of_Z sliceNum));
  if decide (0 ≤ c < 2 ^ 64) then Some c else None.

End CDouble.

(** ** KHashLruCaches (KLruCache.h) *)

Module HashLru.

Section KHashLruCaches.
Context {Value : Type}.

(** [std::hash<Key>], a [size_t]. *)
Variable Hash : Z → Z.

(** What [std::thread::hardware_concurrency()] returns. *)
Variable hardware_concurrency : Z.

(** The [Value] whose bytes are all 0, which [memset] makes. *)
Variable zeroed : Value.

Record KHashLruCaches := mkHash {
  capacity_ : Z;
  sliceNum_ : Z;
  lruSliceCaches_ : list (Lru.KLruCache Value)
}.

(** [KLruCache(int)] is handed the [size_t sliceSize]. *)
Definition new (capacity sliceNum : Z) : option KHashLruCaches :=
  let n := if 0 <? sliceNum then sliceNum
           else CInt.to_int hardware_concurrency in
  sliceSize ← CDouble.sliceSize capacity n;
  Some (mkHash capacity n
          (replicate (Z.to_nat n) (Lru.new (CInt.to_int sliceSize)))).

Definition set_slices (l : list (Lru.KLruCache Value))
    (s : KHashLruCaches) : KHashLruCaches :=
  mkHash (capacity_ s) (sliceNum_ s) l.

(** [Hash(key) % sliceNum_], with [sliceNum_] converted to [size_t];
    [None] is the division by 0. *)
Definition sliceIndex (key : Z) (s : KHashLruCaches) : option nat :=
  let n := CInt.to_size_t (sliceNum_ s) in
  if n =? 0 then None else Some (Z.to_nat (Hash key mod n)).

(** [None] is also the access to the vector past its end. *)
Definition put (key : Z) (value : Value) (s : KHashLruCaches)
  : option KHashLruCaches :=
  i ← sliceIndex key s;
  c ← lruSliceCaches_ s !! i;
  Some (set_slices (<[i := Lru.put key value c]> (lruSliceCaches_ s)) s).

(** [bool get(Key, Value&)]. *)
Definition get (key : Z) (s : KHashLruCaches)
  : option (KHashLruCaches * option Value) :=
  i ← sliceIndex key s;
  c ← lruSliceCaches_ s !! i;
  let '(c1, r) := Lru.get key c in
  Some (set_slices (<[i := c1]> (lruSliceCaches_ s)) s, r).

(** [Value get(Key)]. *)
Definition get_value (key : Z) (s : KHashLruCaches)
  : option (KHashLruCaches * Value) :=
  r ← get key s; Some (r.1, default zeroed r.2).

Definition step (s : KHashLruCaches) (o : Lru.op Value)
  : option KHashLruCaches :=
  match o with
  | Lru.Put k v => put k v s
  | Lru.Get k => fst <$> get k s
  end.

Fixpoint run (ops : list (Lru.op Value)) (s : KHashLruCaches)
  : option KHashLruCaches :=
  match ops with
  | [] => Some s
  | o :: ops' => s1 ← step s o; run ops' s1
  end.

(** The key of a call. *)
Definition keyOf (o : Lru.op Value) : Z :=
  match o with Lru.Put k _ => k | Lru.Get k => k end.

(** The calls of a run whose keys go to slice [i]. *)
Definition callsOf (i : nat) (s : KHashLruCaches)
    (ops : list (Lru.op Value)) : list (Lru.op Value) :=
  filter (fun o => sliceIndex (keyOf o) s = Some i) ops.

(** As the constructor leaves it with a positive [sliceNum_]: one slice
    per index. *)
Definition sliced (s : KHashLruCaches) : Prop :=
  0 < sliceNum_ s < 2 ^ 64
  ∧ length (lruSliceCaches_ s) = Z.to_nat (sliceNum_ s).

End KHashLruCaches.

Arguments KHashLruCaches : clear implicits.

End HashLru.

(** ** KHashLfuCache (KLfuCache.h) *)

Module HashLfu.

Section KHashLfuCache.
Context {Value : Type}.

(** [std::hash<Key>], a [size_t]. *)
Variable Hash : Z → Z.

(** What [std::thread::hardware_concurrency()] returns. *)
Variable hardware_concurrency : Z.

(** The [key] field of a list sentinel of the slices. *)
Variable dummyKey : Z.

Record KHashLfuCache := mkHash {
  capacity_ : Z;
  sliceNum_ : Z;
  lfuSliceCaches_ : list (Lfu.KLfuCache Value)
}.

(** [KLfuCache(int, int)] is handed the [size_t sliceSize]. *)
Definition new (capacity sliceNum maxAverageNum : Z)
  : option KHashLfuCache :=
  let n := if 0 <? sliceNum then sliceNum
           else CInt.to_int hardware_concurrency in
  sliceSize ← CDouble.sliceSize capacity n;
  Some (mkHash capacity n
          (replicate (Z.to_nat n)
             (Lfu.new (CInt.to_int sliceSize) maxAverageNum))).

Definition set_slices (l : list (Lfu.KLfuCache Value))
    (s : KHashLfuCache) : KHashLfuCache :=
  mkHash (capacity_ s) (sliceNum_ s) l.

Definition sliceIndex (key : Z) (s : KHashLfuCache) : option nat :=
  let n := CInt.to_size_t (sliceNum_ s) in
  if n =? 0 then None else Some (Z.to_nat (Hash key mod n)).

Definition put (key : Z) (value : Value) (s : KHashLfuCache)
  : option KHashLfuCache :=
  i ← sliceIndex key s;
  c ← lfuSliceCaches_ s !! i;
  c1 ← Lfu.put dummyKey key value c;
  Some (set_slices (<[i := c1]> (lfuSliceCaches_ s)) s).

(** [bool get(Key, Value&)]. *)
Definition get (key : Z) (s : KHashLfuCache)
  : option (KHashLfuCache * option Value) :=
  i ← sliceIndex key s;
  c ← lfuSliceCaches_ s !! i;
  r ← Lfu.get key c;
  Some (set_slices (<[i := r.1]> (lfuSliceCaches_ s)) s, r.2).

Definition purge (s : KHashLfuCache) : KHashLfuCache :=
  set_slices (Lfu.purge <$> lfuSliceCaches_ s) s.

Definition step (s : KHashLfuCache) (o : Lfu.op Value)
  : option KHashLfuCache :=
  match o with
  | Lfu.Put k v => put k v s
  | Lfu.Get k => fst <$> get k s
  | Lfu.Purge => Some (purge s)
  end.

Fixpoint run (ops : list (Lfu.op Value)) (s : KHashLfuCache)
  : option KHashLfuCache :=
  match ops with
  | [] => Some s
  | o :: ops' => s1 ← step s o; run ops' s1
  end.

(** The calls of a run that reach slice [i]: the ones on the keys that go
    to it, and every [purge]. *)
Definition reaches (i : nat) (s : KHashLfuCache) (o : Lfu.op Value)
  : bool :=
  match o with
  | Lfu.Put k _ | Lfu.Get k => bool_decide (sliceIndex k s = Some i)
  | Lfu.Purge => true
  end.

Definition callsOf (i : nat) (s : KHashLfuCache)
    (ops : list (Lfu.op Value)) : list (Lfu.op Value) :=
  filter (fun o => reaches i s o) ops.

Definition sliced (s : KHashLfuCache) : Prop :=
  0 < sliceNum_ s < 2 ^ 64
  ∧ length (lfuSliceCaches_ s) = Z.to_nat (sliceNum_ s).

End KHashLfuCache.

Arguments KHashLfuCache : clear implicits.

End HashLfu.

(** ** The runs quoted by the specification *)

Module Runs.

(** LRU, capacity 3: [put(1,a), put(2,b), put(3,c), get(1), put(4,d)]. *)
Definition lru_run : Lru.KLruCache string :=
  Lru.run [Lru.Put 1 "a"; Lru.Put 2 "b"; Lru.Put 3 "c"; Lru.Get 1;
           Lru.Put 4 "d"] (Lru.new 3).

(** The same run with the calls on key 2 left out. *)
Definition lru_run_without_2 : Lru.KLruCache string :=
  Lru.run [Lru.Put 1 "a"; Lru.Put 3 "c"; Lru.Get 1; Lru.Put 4 "d"]
          (Lru.new 3).

(** The same calls on the LRU half of an ARC cache. *)
Definition arcLru_run : ArcLru.ArcLruPart string :=
  let p k v s := (ArcLru.put k v s).1 in
  p 4 "d" ((ArcLru.get 1 (p 3 "c" (p 2 "b" (p 1 "a" (ArcLru.new 3 2))))).1).

Definition keyA : Z := 65.
Definition keyB : Z := 66.

(** LRU-K with [k = 2], capacity 1 and room for [h] counters, after
    [put(B,2)]. *)
Definition lruk_cold (h : Z) : LruK.KLruKCache Z :=
  LruK.put keyB 2 (LruK.new 1 h 2).


(** LRU-K with capacity 0, [k = 2] and room for one counter. *)
Definition lruk_zero : LruK.KLruKCache Z := LruK.new 0 1 2.

(** ARC, capacity 1: key 1 is evicted and put again, a hit in the ghost
    list of the LRU half. *)
Definition arc_ghost_hit : Arc.KArcCache string :=
  Arc.run [Arc.Put 1 "a"; Arc.Put 2 "b"; Arc.Put 1 "c"] (Arc.new 1 2).

(** LFU, capacity 1, [maxAverageNum = 252]: one key, put once and read 252
    times. *)
Definition lfu_hot : option (Lfu.KLfuCache string) :=
  Lfu.run 0 (Lfu.Put 1 "a" :: repeat (Lfu.Get 1) 252) (Lfu.new 1 252).

(** LFU, capacity 2, [maxAverageNum = 10]: three accesses, then [purge]. *)
Definition lfu_purged : option (Lfu.KLfuCache string) :=
  Lfu.run 0 [Lfu.Put 1 "a"; Lfu.Get 1; Lfu.Get 1; Lfu.Purge] (Lfu.new 2 10).

(** LFU, capacity 2, [maxAverageNum = 4]: the fifth access of key 1 brings
    the average to 5 and rescales. *)
Definition lfu_aged : option (Lfu.KLfuCache string) :=
  Lfu.run 0 (Lfu.Put 1 "a" :: repeat (Lfu.Get 1) 4) (Lfu.new 2 4).

(** The object on which the fifth access of [lfu_aged] calls
    [handleOverMaxAverageNum]: the access is counted, the average is 5. *)
Definition lfu_about_to_rescale : option (Lfu.KLfuCache string) :=
  s ← Lfu.run 0 (Lfu.Put 1 "a" :: repeat (Lfu.Get 1) 3) (Lfu.new 2 4);
  s4 ← Lfu.relocate 0 s;
  Some (Lfu.countAccess s4).

(** LFU, capacity 1, [maxAverageNum = 0] (every access rescales, by 0): one
    key, put once and read 126 times, then the [put] of a second key; 128
    calls. *)
Definition lfu_hot_128 : option (Lfu.KLfuCache string) :=
  Lfu.run 0 (Lfu.Put 1 "a" :: repeat (Lfu.Get 1) 126 ++ [Lfu.Put 2 "b"])
          (Lfu.new 1 0).

(** ARC, capacity 3 and threshold 2, after a single [put(1,a)]. *)
Definition arc_one_put : Arc.KArcCache string :=
  Arc.put 1 "a" (Arc.new 3 2).


End Runs.

(** * Properties *)

(** ** Integer conversions *)

Lemma to_size_t_small (z : Z) : 0 ≤ z < 2 ^ 64 → CInt.to_size_t z = z.
Proof. intros H. unfold CInt.to_size_t. apply Z.mod_small. exact H. Qed.

Lemma to_size_t_range (z : Z) : 0 ≤ CInt.to_size_t z < 2 ^ 64.
Proof. unfold CInt.to_size_t. apply Z.mod_pos_bound. lia. Qed.

Lemma to_int_small (z : Z) : - 2 ^ 31 ≤ z < 2 ^ 31 → CInt.to_int z = z.
Proof.
  intros H. unfold CInt.to_int.
  rewrite Z.mod_small by lia. lia.
Qed.

Lemma to_int_range (z : Z) : - 2 ^ 31 ≤ CInt.to_int z < 2 ^ 31.
Proof.
  unfold CInt.to_int.
  pose proof (Z.mod_pos_bound (z + 2 ^ 31) (2 ^ 32) ltac:(lia)). lia.
Qed.

Lemma div_int_size_small (a b : Z) :
  0 ≤ a < 2 ^ 31 → 0 < b → CInt.div_int_size a b = a / b.
Proof.
  intros Ha Hb. unfold CInt.div_int_size.
  rewrite to_size_t_small by lia.
  apply to_int_small.
  assert (0 ≤ a / b) by (apply Z.div_pos; lia).
  assert (a / b ≤ a) by (apply Z.div_le_upper_bound; nia).
  lia.
Qed.

(** Closing a decidable closed goal by evaluation. *)
Ltac by_eval := vm_compute; first [ reflexivity | exact I | congruence ].
Ltac decide_eval := refine (bool_decide_unpack _ _); vm_compute; exact I.

(** ** KLruCache: eviction *)

Lemma lru_to_size_t_capacity {Value} (s : Lru.KLruCache Value) :
  0 < Lru.capacity_ s < 2 ^ 64 →
  CInt.to_size_t (Lru.capacity_ s) = Lru.capacity_ s.
Proof. intros H. apply to_size_t_small. lia. Qed.

(** C3, as amended.  When [put] of a key that is not in the index finds
    the index at capacity, the least recent entry (the first node of the
    chain) is unlinked and erased from the index and the new entry is
    linked at the most-recent end; the resulting object holds nothing
    else: KLruCache keeps no ghost list.  With capacity 3 and
    [put(1,a), put(2,b), put(3,c), get(1), put(4,d)], key 2 is the entry
    that goes, it is held nowhere afterwards, and keys 1, 3 and 4 are
    retrieved with their values. *)
Theorem lru_put_at_capacity_drops_least_recent
    {Value} (s : Lru.KLruCache Value) (k : Z) (v : Value)
    (victim : Z) (rest : list Z) :
  0 < Lru.capacity_ s < 2 ^ 64 →
  Lru.nodeMap_ s !! k = None →
  Lru.capacity_ s ≤ Z.of_nat (size (Lru.nodeMap_ s)) →
  Lru.list_ s = victim :: rest →
  Lru.put k v s =
    Lru.mkLru (Lru.capacity_ s)
              (<[k := Lru.mkNode v 1]> (delete victim (Lru.nodeMap_ s)))
              (rest ++ [k])
  ∧ (Lru.list_ (Lru.run [Lru.Put 1 "a"; Lru.Put 2 "b"; Lru.Put 3 "c";
                          Lru.Get 1] (Lru.new 3)) = [2; 3; 1]
     ∧ (2 ∉ Lru.keysHeld Runs.lru_run)
     ∧ (Lru.get 1 Runs.lru_run).2 = Some "a"
     ∧ (Lru.get 3 Runs.lru_run).2 = Some "c"
     ∧ (Lru.get 4 Runs.lru_run).2 = Some "d").
Proof.
  intros Hcap Hk Hfull Hlist. split.
  - unfold Lru.put.
    destruct (Z.leb_spec (Lru.capacity_ s) 0) as [?|_]; [lia|].
    rewrite Hk. unfold Lru.addNewNode.
    rewrite lru_to_size_t_capacity by exact Hcap.
    destruct (Z.geb_spec (Z.of_nat (size (Lru.nodeMap_ s))) (Lru.capacity_ s))
      as [_|?]; [|lia].
    unfold Lru.evictLeastRecent. rewrite Hlist. reflexivity.
  - repeat split; try by_eval. decide_eval.
Qed.

Lemma lru_put_at_capacity_drops_least_recent_witness :
  Lru.put 4 "d" (Lru.run [Lru.Put 1 "a"; Lru.Put 2 "b"; Lru.Put 3 "c";
                          Lru.Get 1] (Lru.new 3))
  = Runs.lru_run.
Proof.
  refine (eq_trans (proj1 (lru_put_at_capacity_drops_least_recent
            (Lru.run [Lru.Put 1 "a"; Lru.Put 2 "b"; Lru.Put 3 "c"; Lru.Get 1]
                     (Lru.new 3)) 4 "d" 2 [3; 1] _ _ _ _)) _).
  - vm_compute. split; reflexivity.
  - vm_compute. reflexivity.
  - vm_compute. discriminate.
  - vm_compute. reflexivity.
  - vm_compute. reflexivity.
Defined.

(** C3, the claim as stated fails on KLruCache: after the quoted run key 2
    is in no container of the object, and the object is the very one that
    the run without the calls on key 2 builds. *)
Lemma lru_evicted_key_is_not_kept :
  (2 ∉ Lru.keysHeld Runs.lru_run) ∧ Runs.lru_run = Runs.lru_run_without_2.
Proof. split; [decide_eval | by_eval]. Qed.

(** The LRU half of ARC does keep a ghost list: on the same calls key 2 is
    the ghost and 1, 3, 4 stay in the index. *)
Lemma arcLru_evicted_key_is_ghost :
  ArcLru.ghostList Runs.arcLru_run = [2]
  ∧ ArcLru.ghostCache_ Runs.arcLru_run = {[2]}
  ∧ ArcLru.mainList Runs.arcLru_run = [4; 1; 3]
  ∧ ArcLru.mainCache_ Runs.arcLru_run !! 2 = None.
Proof. repeat split; by_eval. Qed.

(** ** KLruKCache: the admission gate *)

Lemma lru_put_new_first {Value} (c k : Z) (v : Value) :
  Lru.put k v (Lru.new c) =
  if c <=? 0 then Lru.new c else Lru.mkLru c {[k := Lru.mkNode v 1]} [k].
Proof.
  unfold Lru.put, Lru.new; simpl.
  destruct (c <=? 0); [reflexivity|].
  rewrite lookup_empty. unfold Lru.addNewNode; simpl.
  destruct (_ >=? _); reflexivity.
Qed.

Lemma lru_put_positive {Value} (k : Z) (v : Value) (s : Lru.KLruCache Value) :
  (Lru.capacity_ s <=? 0) = false →
  Lru.put k v s = match Lru.nodeMap_ s !! k with
                  | Some _ => Lru.updateExistingNode k v s
                  | None => Lru.addNewNode k v s
                  end.
Proof. intros H. unfold Lru.put. rewrite H. reflexivity. Qed.

Lemma lruk_cold_state (h : Z) :
  Runs.lruk_cold h =
  LruK.mkLruK (Lru.new 1) 2
    (if h <=? 0 then Lru.new h
     else Lru.mkLru h {[Runs.keyB := Lru.mkNode 1 1]} [Runs.keyB])
    {[Runs.keyB := 2]}.
Proof.
  unfold Runs.lruk_cold, LruK.put, LruK.new, LruK.bumpHistory.
  cbn [LruK.base LruK.historyList_ LruK.k_ LruK.historyValueMap_].
  cbv zeta.
  change (Lru.get Runs.keyB (Lru.new 1)) with (Lru.new (Value:=Z) 1, @None Z).
  change (Lru.get_value 0 Runs.keyB (Lru.new h))
    with (Lru.new (Value:=Z) h, 0).
  cbv beta iota zeta.
  change (CInt.size_incr 0) with 1.
  change (1 >=? CInt.to_size_t 2) with false. cbn iota.
  rewrite lru_put_new_first. reflexivity.
Qed.

Lemma lruk_cold_get (h : Z) :
  LruK.get 0 Runs.keyB (Runs.lruk_cold h) =
  if h <=? 0 then (Runs.lruk_cold h, 0)
  else (LruK.mkLruK (Lru.mkLru 1 {[Runs.keyB := Lru.mkNode 2 1]} [Runs.keyB])
                    2 (Lru.mkLru h ∅ []) ∅, 2).
Proof.
  rewrite lruk_cold_state.
  unfold LruK.get, LruK.bumpHistory.
  cbn [LruK.base LruK.historyList_ LruK.k_ LruK.historyValueMap_].
  cbv zeta.
  change (Lru.get Runs.keyB (Lru.new 1)) with (Lru.new (Value:=Z) 1, @None Z).
  destruct (h <=? 0) eqn:E.
  - change (Lru.get_value 0 Runs.keyB (Lru.new h))
      with (Lru.new (Value:=Z) h, 0).
    cbv beta iota zeta.
  change (CInt.size_incr 0) with 1.
    change (1 >=? CInt.to_size_t 2) with false. cbn iota.
    rewrite lru_put_new_first, E. reflexivity.
  - change (Lru.get_value 0 Runs.keyB
              (Lru.mkLru h {[Runs.keyB := Lru.mkNode 1 1]} [Runs.keyB]))
      with (Lru.mkLru h {[Runs.keyB := Lru.mkNode 1 1]} [Runs.keyB], 1).
    cbv beta iota zeta.
    change (CInt.size_incr 1) with 2.
    change (2 >=? CInt.to_size_t 2) with true. cbn iota.
    change (({[Runs.keyB := 2]} : gmap Z Z) !! Runs.keyB) with (Some 2).
    cbn iota.
    rewrite (lru_put_positive Runs.keyB 2
               (Lru.mkLru h {[Runs.keyB := Lru.mkNode 1 1]} [Runs.keyB]))
      by exact E.
    by_eval.
Qed.

(** C4, as amended.  LRU-K with [k = 2] and capacity 1: after a single
    [put(B,2)] on a key without history, B is not in the main cache and 2
    is recorded as its pending value.  The following [get(B)] is the second
    recorded access of B whenever the history can hold B's counter (history
    capacity at least 1): it admits B and returns 2.  It returns the
    default value only when the history holds nothing (capacity 0 or
    less). *)
Theorem lruk_single_put_pending_then_get_admits (h : Z) :
  Lru.nodeMap_ (LruK.base (Runs.lruk_cold h)) !! Runs.keyB = None
  ∧ LruK.historyValueMap_ (Runs.lruk_cold h) !! Runs.keyB = Some 2
  ∧ (LruK.get 0 Runs.keyB (Runs.lruk_cold h)).2 = (if h <=? 0 then 0 else 2)
  ∧ Lru.value_ <$>
      (Lru.nodeMap_ (LruK.base (LruK.get 0 Runs.keyB (Runs.lruk_cold h)).1)
         !! Runs.keyB)
    = (if h <=? 0 then None else Some 2).
Proof.
  rewrite lruk_cold_get. rewrite lruk_cold_state.
  destruct (h <=? 0); cbn [fst snd LruK.base LruK.historyValueMap_ Lru.nodeMap_];
    repeat split; try reflexivity; try apply lookup_singleton_eq.
Qed.

(** C4, the claim as stated fails: with room for a single history counter,
    [get(B)] after [put(B,2)] returns 2, not the default value, and B is
    then in the main cache. *)
Lemma lruk_get_after_single_put_hits :
  (LruK.get 0 Runs.keyB (Runs.lruk_cold 1)).2 = 2
  ∧ (LruK.get 0 Runs.keyB (Runs.lruk_cold 1)).2 ≠ 0
  ∧ is_Some (Lru.nodeMap_
               (LruK.base (LruK.get 0 Runs.keyB (Runs.lruk_cold 1)).1)
               !! Runs.keyB).
Proof.
  split; [by_eval | split; [vm_compute; discriminate | decide_eval]].
Qed.

(** ** Runs on which a claim of the specification fails as stated *)


(** C2, the claim as stated fails for ARC: the cache is built with
    capacity 1, and after [put(1,a), put(2,b), put(1,c)] the main index of
    its LRU half holds two entries; the ghost hit on key 1 moved one unit
    of capacity from the LFU half to the LRU half. *)
Lemma arc_lru_half_outgrows_constructed_capacity :
  Arc.capacity_ Runs.arc_ghost_hit = 1
  ∧ size (ArcLru.mainCache_ (Arc.lruPart_ Runs.arc_ghost_hit)) = 2%nat
  ∧ ArcLru.capacity_ (Arc.lruPart_ Runs.arc_ghost_hit) = 2
  ∧ ArcLfu.capacity_ (Arc.lfuPart_ Runs.arc_ghost_hit) = 0.
Proof. repeat split; by_eval. Qed.

(** C8, the claim as stated fails for LRU-K: with capacity 0 (and [k = 2],
    room for one history counter) [put(A,5)] changes the object, and the
    following [get(A)] returns 5. *)
Lemma lruk_zero_capacity_put_is_recorded :
  LruK.put Runs.keyA 5 Runs.lruk_zero ≠ Runs.lruk_zero
  ∧ LruK.historyValueMap_ (LruK.put Runs.keyA 5 Runs.lruk_zero) !! Runs.keyA
    = Some 5
  ∧ (LruK.get 0 Runs.keyA (LruK.put Runs.keyA 5 Runs.lruk_zero)).2 = 5.
Proof.
  split; [|split; by_eval].
  intros H. apply (f_equal (fun s => LruK.historyValueMap_ s !! Runs.keyA)) in H.
  vm_compute in H. discriminate.
Qed.

(** C10, the claim as stated fails: in the run [Runs.lfu_aged] the fifth
    access rescaled (key 1 went from frequency 5 to 3) and left the
    average at 5, above [maxAverageNum = 4]; the next counted access,
    [put(2,b)], evicts nothing (both keys are in the index, the total
    went up to 6), yet it does not rescale: key 1 keeps frequency 3 and
    the average is 3. *)
Lemma lfu_new_key_ends_rescaling_without_eviction :
  ∃ s s',
    Runs.lfu_aged = Some s
    ∧ Lfu.curAverageNum_ s = 5 ∧ Lfu.curTotalNum_ s = 5
    ∧ Lfu.freqOf 1 s = Some 3
    ∧ Lfu.put 0 2 "b" s = Some s'
    ∧ Lfu.curTotalNum_ s' = 6 ∧ Lfu.curAverageNum_ s' = 3
    ∧ Lfu.freqOf 1 s' = Some 3 ∧ Lfu.freqOf 2 s' = Some 1
    ∧ size (Lfu.nodeMap_ s') = 2%nat.
Proof.
  eexists. eexists.
  split; [vm_compute; reflexivity|].
  do 3 (split; [by_eval|]).
  split; [vm_compute; reflexivity|].
  repeat split; by_eval.
Qed.

(** ** KLfuCache: the two defects *)

(** C5, the code at the failing input.  Capacity 1, [maxAverageNum = 252],
    [put(1,a)] and 252 reads of key 1: the last read brings the average to
    253 and rescales; key 1 ends at frequency 253 - 126 = 127, list 127 is
    the only list that is not empty, and [minFreq_] is 1. *)
Theorem lfu_min_freq_wrong_from_127 :
  ∃ s, Runs.lfu_hot = Some s
       ∧ Lfu.freqOf 1 s = Some 127
       ∧ filter (fun p => p.2 ≠ []) (map_to_list (Lfu.freqToFreqList_ s))
         = [(127, [0%nat])]
       ∧ Lfu.freqToFreqList_ s !! 1 = Some []
       ∧ Lfu.minFreq_ s = 1.
Proof.
  eexists. split; [vm_compute; reflexivity|].
  repeat split; by_eval.
Qed.

(** What follows from it: the next [put] of a new key finds list 1 empty,
    takes its sentinel for the victim, erases the sentinel's key from the
    index (here 0, a key that is not in the cache) and inserts: the cache
    of capacity 1 then holds two entries. *)
Lemma lfu_sentinel_victim_overflows :
  ∃ s, Runs.lfu_hot ≫= Lfu.put 0 2 "b" = Some s
       ∧ size (Lfu.nodeMap_ s) = 2%nat ∧ Lfu.capacity_ s = 1.
Proof.
  eexists. split; [vm_compute; reflexivity|]. split; by_eval.
Qed.

(** C6, the code at the failing input.  Capacity 2, [maxAverageNum = 10],
    [put(1,a), get(1), get(1), purge()]: the index and the lists are
    empty, and the three counters keep the values they had before the
    call, 3, 3 and 3; a new cache has 0, 0 and [INT8_MAX]. *)
Theorem lfu_purge_keeps_counters :
  ∃ s, Runs.lfu_purged = Some s
       ∧ Lfu.nodeMap_ s = ∅ ∧ Lfu.freqToFreqList_ s = ∅
       ∧ Lfu.curTotalNum_ s = 3 ∧ Lfu.curAverageNum_ s = 3
       ∧ Lfu.minFreq_ s = 3
       ∧ Lfu.curTotalNum_ (Lfu.new (Value:=string) 2 10) = 0
       ∧ Lfu.curAverageNum_ (Lfu.new (Value:=string) 2 10) = 0
       ∧ Lfu.minFreq_ (Lfu.new (Value:=string) 2 10) = 127.
Proof.
  eexists. split; [vm_compute; reflexivity|].
  repeat split; by_eval.
Qed.

(** ** KLfuCache: what the list operations leave alone *)

Section LfuFrame.
Context {Value : Type}.
Variable dummyKey : Z.
Implicit Types s : Lfu.KLfuCache Value.

Lemma lfu_frame_refl s : Lfu.frame s s.
Proof. repeat split. Qed.

Lemma lfu_frame_trans s1 s2 s3 :
  Lfu.frame s1 s2 → Lfu.frame s2 s3 → Lfu.frame s1 s3.
Proof.
  unfold Lfu.frame. intros (?&?&?&?&?&?&?) (?&?&?&?&?&?&?).
  repeat split; congruence.
Qed.

Lemma lfu_frame_set_minFreq m s : Lfu.frame s (Lfu.set_minFreq m s).
Proof. repeat split. Qed.

Lemma lfu_frame_set_lists b s : Lfu.frame s (Lfu.set_lists b s).
Proof. repeat split. Qed.

Lemma lfu_frame_setFreq a f n s :
  Lfu.arena s !! a = Some n →
  Lfu.frame s (Lfu.set_arena (<[a := Lfu.setFreq f n]> (Lfu.arena s)) s).
Proof.
  intros Ha. unfold Lfu.frame; cbn.
  repeat split; rewrite list_fmap_insert; apply list_insert_id;
    rewrite list_lookup_fmap, Ha; reflexivity.
Qed.

Lemma lfu_removeFromFreqList_frame p s s' :
  Lfu.removeFromFreqList p s = Some s' → Lfu.frame s s'.
Proof.
  unfold Lfu.removeFromFreqList. intros H.
  destruct p; simplify_option_eq; auto using lfu_frame_refl, lfu_frame_set_lists.
Qed.

Lemma lfu_removeFromFreqList_arena p s s' :
  Lfu.removeFromFreqList p s = Some s' → Lfu.arena s' = Lfu.arena s.
Proof.
  unfold Lfu.removeFromFreqList. intros H.
  destruct p; simplify_option_eq; reflexivity.
Qed.

Lemma lfu_removeFromFreqList_minFreq p s s' :
  Lfu.removeFromFreqList p s = Some s' → Lfu.minFreq_ s' = Lfu.minFreq_ s.
Proof.
  unfold Lfu.removeFromFreqList. intros H.
  destruct p; simplify_option_eq; reflexivity.
Qed.

Lemma lfu_addToFreqList_frame a s s' :
  Lfu.addToFreqList a s = Some s' → Lfu.frame s s'.
Proof.
  unfold Lfu.addToFreqList. intros H.
  simplify_option_eq; auto using lfu_frame_set_lists.
Qed.

Lemma lfu_addToFreqList_arena a s s' :
  Lfu.addToFreqList a s = Some s' → Lfu.arena s' = Lfu.arena s.
Proof.
  unfold Lfu.addToFreqList. intros H. simplify_option_eq; reflexivity.
Qed.

Lemma lfu_addToFreqList_minFreq a s s' :
  Lfu.addToFreqList a s = Some s' → Lfu.minFreq_ s' = Lfu.minFreq_ s.
Proof.
  unfold Lfu.addToFreqList. intros H. simplify_option_eq; reflexivity.
Qed.

Lemma lfu_rescaleNode_frame a s s' :
  Lfu.rescaleNode a s = Some s' → Lfu.frame s s'.
Proof.
  unfold Lfu.rescaleNode. intros H.
  apply bind_Some in H as (s1 & E1 & H).
  apply bind_Some in H as (n & En & H).
  eapply lfu_frame_trans; [eapply lfu_removeFromFreqList_frame, E1|].
  eapply lfu_frame_trans; [|eapply lfu_addToFreqList_frame, H].
  apply lfu_frame_setFreq, En.
Qed.

Lemma lfu_rescaleAll_cons a l s :
  Lfu.rescaleAll (a :: l) s = Lfu.rescaleNode a s ≫= Lfu.rescaleAll l.
Proof. reflexivity. Qed.

Lemma lfu_rescaleAll_frame l s s' :
  Lfu.rescaleAll l s = Some s' → Lfu.frame s s'.
Proof.
  revert s. induction l as [|a l IH]; intros s H.
  - injection H as <-. apply lfu_frame_refl.
  - rewrite lfu_rescaleAll_cons in H.
    apply bind_Some in H as (s1 & E1 & H).
    eapply lfu_frame_trans; [eapply lfu_rescaleNode_frame, E1|].
    apply IH, H.
Qed.

Lemma lfu_handleOver_frame s s' :
  Lfu.handleOverMaxAverageNum s = Some s' → Lfu.frame s s'.
Proof.
  unfold Lfu.handleOverMaxAverageNum. intros H.
  case_decide; [injection H as <-; apply lfu_frame_refl|].
  apply bind_Some in H as (s1 & E1 & H). injection H as <-.
  eapply lfu_frame_trans; [eapply lfu_rescaleAll_frame, E1|].
  apply lfu_frame_set_minFreq.
Qed.

Lemma lfu_relocate_frame a s s' :
  Lfu.relocate a s = Some s' → Lfu.frame s s'.
Proof.
  unfold Lfu.relocate. intros H.
  apply bind_Some in H as (n & En & H).
  apply bind_Some in H as (s1 & E1 & H).
  apply bind_Some in H as (s3 & E3 & H).
  assert (Lfu.frame s s3) as F3.
  { eapply lfu_frame_trans; [eapply lfu_removeFromFreqList_frame, E1|].
    eapply lfu_frame_trans; [|eapply lfu_addToFreqList_frame, E3].
    apply lfu_frame_setFreq.
    rewrite (lfu_removeFromFreqList_arena _ _ _ E1). exact En. }
  destruct (_ =? _).
  - apply bind_Some in H as (l & El & H). injection H as <-.
    case_decide; [|exact F3].
    eapply lfu_frame_trans; [exact F3|apply lfu_frame_set_minFreq].
  - injection H as <-. exact F3.
Qed.

End LfuFrame.

(** ** Capacity zero *)

Lemma lru_put_zero {Value} (k : Z) (v : Value) (s : Lru.KLruCache Value) :
  Lru.capacity_ s ≤ 0 → Lru.put k v s = s.
Proof.
  intros H. unfold Lru.put.
  destruct (Z.leb_spec (Lru.capacity_ s) 0); [reflexivity | lia].
Qed.

Lemma lru_run_zero {Value} (ops : list (Lru.op Value)) :
  Lru.run ops (Lru.new 0) = Lru.new 0.
Proof.
  unfold Lru.run. induction ops as [|[k v|k] ops IH]; cbn; [reflexivity|..];
    exact IH.
Qed.

Lemma lfu_run_zero {Value} (dummyKey M : Z) (ops : list (Lfu.op Value)) :
  Lfu.run dummyKey ops (Lfu.new 0 M) = Some (Lfu.new 0 M).
Proof.
  induction ops as [|[k v|k|] ops IH]; cbn; [reflexivity|..]; exact IH.
Qed.

Lemma arc_put_zero {Value} (t k : Z) (v : Value) :
  Arc.put k v (Arc.new 0 t) = Arc.new 0 t.
Proof. reflexivity. Qed.

Lemma arc_get_zero {Value} (t k : Z) :
  Arc.get k (Arc.new (Value:=Value) 0 t) = (Arc.new 0 t, None).
Proof. reflexivity. Qed.

Lemma arc_run_zero {Value} (t : Z) (ops : list (Arc.op Value)) :
  Arc.run ops (Arc.new 0 t) = Arc.new 0 t.
Proof.
  unfold Arc.run. induction ops as [|[k v|k] ops IH]; cbn [foldl Arc.step];
    [reflexivity|..].
  - rewrite arc_put_zero. exact IH.
  - rewrite arc_get_zero. exact IH.
Qed.

Lemma lruk_step_base_zero {Value} (dflt : Value)
    (s : LruK.KLruKCache Value) (o : Lru.op Value) :
  LruK.base s = Lru.new 0 → LruK.base (LruK.step dflt s o) = Lru.new 0.
Proof.
  intros Hb. destruct o as [k v|k]; cbn [LruK.step].
  - unfold LruK.put. rewrite Hb.
    change (Lru.get k (Lru.new 0)) with (Lru.new (Value:=Value) 0, @None Value).
    cbv beta iota.
    destruct (LruK.bumpHistory k (LruK.historyList_ s)) as [h1 c].
    destruct (c >=? _); reflexivity.
  - unfold LruK.get. rewrite Hb.
    change (Lru.get k (Lru.new 0)) with (Lru.new (Value:=Value) 0, @None Value).
    cbv beta iota.
    destruct (LruK.bumpHistory k (LruK.historyList_ s)) as [h1 c].
    destruct (c >=? _); [|reflexivity].
    destruct (LruK.historyValueMap_ s !! k); reflexivity.
Qed.

Lemma lruk_run_base_zero {Value} (dflt : Value) (ops : list (Lru.op Value))
    (s : LruK.KLruKCache Value) :
  LruK.base s = Lru.new 0 → LruK.base (LruK.run dflt ops s) = Lru.new 0.
Proof.
  unfold LruK.run. revert s.
  induction ops as [|o ops IH]; intros s Hb; cbn [foldl]; [exact Hb|].
  apply IH, lruk_step_base_zero, Hb.
Qed.

(** C8, as amended.  For LRU, LFU and ARC built with capacity 0, whatever
    calls came before, the object is still the one the constructor made:
    every [put] leaves it as it is (the two ARC halves report [false]) and
    every [get] misses.  LRU-K guards only its main cache: built with
    capacity 0 its main cache stays empty through every run, while [put]
    goes on recording history counters and pending values. *)
Theorem zero_capacity_stores_nothing {Value} (dflt : Value)
    (dummyKey maxAverageNum threshold historyCapacity kk : Z)
    (lruOps : list (Lru.op Value)) (lfuOps : list (Lfu.op Value))
    (arcOps : list (Arc.op Value)) (lrukOps : list (Lru.op Value))
    (k : Z) (v : Value) :
  (let s := Lru.run lruOps (Lru.new 0) in
   s = Lru.new 0 ∧ Lru.put k v s = s ∧ Lru.get k s = (s, None))
  ∧ (∃ s, Lfu.run dummyKey lfuOps (Lfu.new 0 maxAverageNum) = Some s
          ∧ s = Lfu.new 0 maxAverageNum
          ∧ Lfu.put dummyKey k v s = Some s
          ∧ Lfu.get k s = Some (s, None))
  ∧ (let s := Arc.run arcOps (Arc.new 0 threshold) in
     s = Arc.new 0 threshold ∧ Arc.put k v s = s
     ∧ ArcLru.put k v (Arc.lruPart_ s) = (Arc.lruPart_ s, false)
     ∧ ArcLfu.put k v (Arc.lfuPart_ s) = (Arc.lfuPart_ s, false)
     ∧ Arc.get k s = (s, None))
  ∧ LruK.base (LruK.run dflt lrukOps (LruK.new 0 historyCapacity kk))
    = Lru.new 0.
Proof.
  split; [|split; [|split]].
  - cbv zeta. rewrite lru_run_zero. repeat split.
  - exists (Lfu.new 0 maxAverageNum). rewrite lfu_run_zero. repeat split.
  - cbv zeta. rewrite arc_run_zero. repeat split.
  - apply lruk_run_base_zero. reflexivity.
Qed.

(** ** KLfuCache: [purge] *)

(** After [purge] every [get] misses and leaves the object as it is, until
    the next [put]. *)
Lemma lfu_get_after_purge_misses {Value} (dummyKey : Z)
    (s : Lfu.KLfuCache Value) (keys : list Z) (k : Z) :
  Lfu.run dummyKey (Lfu.Get <$> keys) (Lfu.purge s) = Some (Lfu.purge s)
  ∧ Lfu.get k (Lfu.purge s) = Some (Lfu.purge s, None).
Proof.
  split; [|reflexivity].
  induction keys as [|k' keys IH]; [reflexivity|]. exact IH.
Qed.

(** ** KLfuCache: a rescale does not touch the totals *)

Section LfuRescaleAgain.
Context {Value : Type}.
Variable dummyKey : Z.
Implicit Types s : Lfu.KLfuCache Value.

Lemma lfu_average_nonempty total s :
  size (Lfu.nodeMap_ s) ≠ 0%nat → 0 ≤ total < 2 ^ 31 →
  Lfu.average total s = total / Z.of_nat (size (Lfu.nodeMap_ s)).
Proof.
  intros Hs Ht. unfold Lfu.average. case_decide; [done|].
  apply div_int_size_small; lia.
Qed.

(** With the running average above the ceiling, counting one more access
    on the same number of entries calls the rescale. *)
Lemma lfu_addFreqNum_rescales s :
  size (Lfu.nodeMap_ s) ≠ 0%nat →
  0 ≤ Lfu.curTotalNum_ s → Lfu.curTotalNum_ s + 1 < 2 ^ 31 →
  Lfu.maxAverageNum_ s
    < Lfu.curTotalNum_ s / Z.of_nat (size (Lfu.nodeMap_ s)) →
  Lfu.addFreqNum s = Lfu.handleOverMaxAverageNum (Lfu.countAccess s).
Proof.
  intros Hs H0 H1 Hmax. unfold Lfu.addFreqNum.
  assert (Lfu.curAverageNum_ (Lfu.countAccess s)
          = (Lfu.curTotalNum_ s + 1) / Z.of_nat (size (Lfu.nodeMap_ s)))
    as ->.
  { cbn. apply lfu_average_nonempty; [exact Hs | lia]. }
  assert (Lfu.curTotalNum_ s / Z.of_nat (size (Lfu.nodeMap_ s))
          ≤ (Lfu.curTotalNum_ s + 1) / Z.of_nat (size (Lfu.nodeMap_ s))).
  { apply Z.div_le_mono; lia. }
  cbn [Lfu.countAccess Lfu.set_counters Lfu.maxAverageNum_].
  destruct (Z.gtb_spec ((Lfu.curTotalNum_ s + 1)
                          / Z.of_nat (size (Lfu.nodeMap_ s)))
                       (Lfu.maxAverageNum_ s)); [reflexivity | lia].
Qed.

Lemma lfu_getInternal_rescales a n s :
  Lfu.arena s !! a = Some n →
  size (Lfu.nodeMap_ s) ≠ 0%nat →
  0 ≤ Lfu.curTotalNum_ s → Lfu.curTotalNum_ s + 1 < 2 ^ 31 →
  Lfu.maxAverageNum_ s
    < Lfu.curTotalNum_ s / Z.of_nat (size (Lfu.nodeMap_ s)) →
  Lfu.getInternal a s =
    s4 ← Lfu.relocate a s;
    s5 ← Lfu.handleOverMaxAverageNum (Lfu.countAccess s4);
    Some (s5, Lfu.value n).
Proof.
  intros Ha Hs H0 H1 Hmax. unfold Lfu.getInternal. rewrite Ha. cbn.
  destruct (Lfu.relocate a s) as [s4|] eqn:E4; [|reflexivity]. cbn.
  destruct (lfu_relocate_frame _ _ _ E4) as (_ & Hm & _ & Ht & Hn & _).
  rewrite lfu_addFreqNum_rescales; [reflexivity|..];
    rewrite ?Hm, ?Ht, ?Hn; assumption.
Qed.

(** C10, as amended.  A rescale changes frequencies, list membership and
    [minFreq_] only: capacity, ceiling, [curTotalNum_], the stored average,
    the index and the key and value of every node are what they were.  So
    when the rescale was called because the average was above the ceiling,
    it still is afterwards, and every following access to a key that is in
    the cache (a [get] hit, or a [put] of a present key), which counts one
    more access on the same number of entries, calls the rescale again.
    (The average can come back under the ceiling only when an eviction
    lowers the total, when a new key makes the entries more numerous, or
    when the cache is emptied.) *)
Theorem lfu_rescale_keeps_totals_so_hits_rescale_again s s1 :
  Lfu.handleOverMaxAverageNum s = Some s1 →
  Lfu.capacity_ s ≠ 0 →
  0 ≤ Lfu.curTotalNum_ s → Lfu.curTotalNum_ s + 1 < 2 ^ 31 →
  Lfu.curAverageNum_ s = Lfu.average (Lfu.curTotalNum_ s) s →
  Lfu.maxAverageNum_ s < Lfu.curAverageNum_ s →
  Lfu.frame s s1
  ∧ Lfu.maxAverageNum_ s1 < Lfu.curAverageNum_ s1
  ∧ ∀ k a n v,
      Lfu.nodeMap_ s1 !! k = Some a → Lfu.arena s1 !! a = Some n →
      Lfu.get k s1 =
        (s4 ← Lfu.relocate a s1;
         s5 ← Lfu.handleOverMaxAverageNum (Lfu.countAccess s4);
         Some (s5, Some (Lfu.value n)))
      ∧ Lfu.put dummyKey k v s1 =
        (s4 ← Lfu.relocate a
                (Lfu.set_arena (<[a := Lfu.setValue v n]> (Lfu.arena s1)) s1);
         Lfu.handleOverMaxAverageNum (Lfu.countAccess s4)).
Proof.
  intros Hres Hcap H0 H1 Havg Hmax.
  pose proof (lfu_handleOver_frame _ _ Hres) as F.
  split; [exact F|].
  destruct F as (Hc & Hm & Ha & Ht & Hn & _).
  split; [rewrite Hm, Ha; exact Hmax|].
  intros k a n v Hk Hn1.
  assert (size (Lfu.nodeMap_ s1) ≠ 0%nat) as Hsz.
  { intros Hz. apply map_size_empty_inv in Hz. rewrite Hz in Hk.
    rewrite lookup_empty in Hk. discriminate. }
  assert (Lfu.maxAverageNum_ s1
          < Lfu.curTotalNum_ s1 / Z.of_nat (size (Lfu.nodeMap_ s1))) as Hgt.
  { rewrite Hm, Ht, Hn.
    rewrite <- (lfu_average_nonempty _ s)
      by (first [rewrite <- Hn; assumption | lia]).
    rewrite <- Havg. exact Hmax. }
  split.
  - unfold Lfu.get. rewrite Hk.
    rewrite (lfu_getInternal_rescales a n) by (first [assumption | rewrite Ht; assumption]).
    destruct (Lfu.relocate a s1) as [s4|]; [|reflexivity]. cbn.
    destruct (Lfu.handleOverMaxAverageNum (Lfu.countAccess s4)); reflexivity.
  - unfold Lfu.put. rewrite Hc.
    destruct (Z.eqb_spec (Lfu.capacity_ s) 0) as [?|_]; [done|].
    rewrite Hk, Hn1. cbn [mbind option_bind].
    rewrite (lfu_getInternal_rescales a (Lfu.setValue v n));
      [| cbn; apply list_lookup_insert_eq; eapply lookup_lt_Some, Hn1
       | cbn; first [assumption | rewrite Ht; assumption] ..].
    destruct (Lfu.relocate a _) as [s4|]; [|reflexivity]. cbn.
    destruct (Lfu.handleOverMaxAverageNum (Lfu.countAccess s4)); reflexivity.
Qed.

End LfuRescaleAgain.

Lemma lfu_rescale_keeps_totals_so_hits_rescale_again_witness :
  ∃ s s1 : Lfu.KLfuCache string,
    Runs.lfu_about_to_rescale = Some s ∧ Runs.lfu_aged = Some s1
    ∧ Lfu.frame s s1
    ∧ Lfu.maxAverageNum_ s1 < Lfu.curAverageNum_ s1.
Proof.
  eexists. eexists.
  split; [vm_compute; reflexivity|].
  split; [vm_compute; reflexivity|].
  match goal with |- Lfu.frame ?s ?s1 ∧ _ =>
    pose proof (lfu_rescale_keeps_totals_so_hits_rescale_again 0 s s1) as H
  end.
  destruct H as (F & Hlt & _).
  - vm_compute. reflexivity.
  - vm_compute. discriminate.
  - vm_compute. discriminate.
  - vm_compute. reflexivity.
  - vm_compute. reflexivity.
  - vm_compute. reflexivity.
  - split; [exact F | exact Hlt].
Defined.

(** ** ARC: what the main-path operations leave alone *)

Section ArcBasics.
Context {Value : Type}.
Implicit Types (p : ArcLru.ArcLruPart Value) (q : ArcLfu.ArcLfuPart Value).
Implicit Types s : Arc.KArcCache Value.

Lemma arcLru_evict_capacity p :
  ArcLru.capacity_ (ArcLru.evictLeastRecent p) = ArcLru.capacity_ p.
Proof.
  unfold ArcLru.evictLeastRecent.
  destruct (last (ArcLru.mainList p)); [|reflexivity]. cbn.
  destruct (_ >=? _); [|reflexivity].
  unfold ArcLru.removeOldestGhost. cbn.
  destruct (last (ArcLru.ghostList p)); reflexivity.
Qed.

Lemma arcLru_put_capacity k v p :
  ArcLru.capacity_ (ArcLru.put k v p).1 = ArcLru.capacity_ p.
Proof.
  unfold ArcLru.put. destruct (_ =? 0); [reflexivity|].
  destruct (ArcLru.mainCache_ p !! k); [reflexivity|].
  cbn. unfold ArcLru.addNewNode.
  destruct (_ >=? _); cbn; [apply arcLru_evict_capacity | reflexivity].
Qed.

Lemma arcLru_get_capacity k p :
  ArcLru.capacity_ (ArcLru.get k p).1 = ArcLru.capacity_ p.
Proof.
  unfold ArcLru.get. destruct (ArcLru.mainCache_ p !! k); reflexivity.
Qed.

Lemma arcLfu_evict_capacity q :
  ArcLfu.capacity_ (ArcLfu.evictLeastFrequent q) = ArcLfu.capacity_ q.
Proof.
  unfold ArcLfu.evictLeastFrequent.
  case_decide; [reflexivity|]. cbn.
  destruct (default [] _) as [|k rest]; [reflexivity|].
  cbn. case_decide; cbn.
  - destruct (ArcLfu.firstKey _); cbn; destruct (_ >=? _); cbn;
      unfold ArcLfu.removeOldestGhost; cbn;
      try destruct (ArcLfu.ghostList q); reflexivity.
  - destruct (_ >=? _); cbn; [|reflexivity].
    unfold ArcLfu.removeOldestGhost; cbn.
    destruct (ArcLfu.ghostList q); reflexivity.
Qed.

Lemma arcLfu_put_capacity k v q :
  ArcLfu.capacity_ (ArcLfu.put k v q).1 = ArcLfu.capacity_ q.
Proof.
  unfold ArcLfu.put. destruct (_ =? 0); [reflexivity|].
  destruct (ArcLfu.mainCache_ q !! k) as [node|]; cbn.
  - unfold ArcLfu.updateExistingNode, ArcLfu.updateNodeFrequency. cbn.
    case_decide; cbn; [|reflexivity].
    destruct (_ =? _); reflexivity.
  - unfold ArcLfu.addNewNode.
    destruct (_ >=? _); cbn; [apply arcLfu_evict_capacity | reflexivity].
Qed.

Lemma arcLfu_get_capacity k q :
  ArcLfu.capacity_ (ArcLfu.get k q).1 = ArcLfu.capacity_ q.
Proof.
  unfold ArcLfu.get. destruct (ArcLfu.mainCache_ q !! k) as [node|];
    [|reflexivity].
  cbn. unfold ArcLfu.updateNodeFrequency. cbn.
  case_decide; cbn; [|reflexivity].
  destruct (_ =? _); reflexivity.
Qed.



End ArcBasics.

(** ** ARC: promotion *)

Section ArcPromotion.
Context {Value : Type}.
Implicit Types (p : ArcLru.ArcLruPart Value) (q : ArcLfu.ArcLfuPart Value).
Implicit Types s : Arc.KArcCache Value.



Lemma arcLru_get_first_hit k n p :
  ArcLru.mainCache_ p !! k = Some n →
  ArcNode.accessCount_ n = 1 → ArcLru.transformThreshold_ p = 2 →
  (ArcLru.get k p).2 = Some (ArcNode.value_ n, true).
Proof.
  intros Hk Hc Ht. unfold ArcLru.get. rewrite Hk.
  unfold ArcLru.updateNodeAccess. cbn.
  rewrite lookup_alter_eq, Hk. cbn. rewrite Hc, Ht. reflexivity.
Qed.

Lemma arcLfu_put_stores k v q :
  ArcLfu.capacity_ q ≠ 0 →
  ∃ m, ArcLfu.mainCache_ (ArcLfu.put k v q).1 !! k = Some m
       ∧ ArcNode.value_ m = v.
Proof.
  intros Hc. unfold ArcLfu.put.
  destruct (Z.eqb_spec (ArcLfu.capacity_ q) 0); [done|].
  destruct (ArcLfu.mainCache_ q !! k) as [node|] eqn:Hk; cbn.
  - exists (ArcNode.incrementAccessCount (ArcNode.setValue v node)).
    split; [|reflexivity].
    unfold ArcLfu.updateExistingNode, ArcLfu.updateNodeFrequency. cbn.
    case_decide; cbn; [destruct (_ =? _); cbn|]; apply lookup_insert_eq.
  - exists (ArcNode.make v). split; [|reflexivity].
    unfold ArcLfu.addNewNode. cbn. apply lookup_insert_eq.
Qed.

(** C9, as amended.  Every node is made with access count 1.  A [get]
    that finds the key in the LRU half (after the ghost check it starts
    with) increments the count of the node in the index of the LRU half,
    then compares the new count with the threshold: that comparison is
    [shouldTransform], and the value found is returned.  With count 1 and
    threshold 2 the new count is 2 and [shouldTransform] holds: the first
    hit calls [lfuPart_->put].  That call stores the entry in the LFU half
    when the capacity of the LFU half is not 0, and leaves the LFU half as
    it is when the capacity is 0; without [shouldTransform] the LFU half is
    not touched. *)
Theorem arc_first_hit_promotes s k n :
  let s1 := (Arc.checkGhostCaches k s).1 in
  let count := CInt.size_incr (ArcNode.accessCount_ n) in
  let shouldTransform :=
    count >=? ArcLru.transformThreshold_ (Arc.lruPart_ s1) in
  ArcLru.mainCache_ (Arc.lruPart_ s1) !! k = Some n →
  (∀ v : Value, ArcNode.accessCount_ (ArcNode.make v) = 1)
  ∧ (ArcNode.accessCount_ n = 1 →
     ArcLru.transformThreshold_ (Arc.lruPart_ s1) = 2 →
     count = 2 ∧ shouldTransform = true)
  ∧ ArcLru.mainCache_ (Arc.lruPart_ (Arc.get k s).1) !! k
    = Some (ArcNode.mkNode (ArcNode.value_ n) count)
  ∧ (ArcLru.get k (Arc.lruPart_ s1)).2
    = Some (ArcNode.value_ n, shouldTransform)
  ∧ (Arc.get k s).2 = Some (ArcNode.value_ n)
  ∧ (shouldTransform = true → ArcLfu.capacity_ (Arc.lfuPart_ s1) ≠ 0 →
     ∃ m, ArcLfu.mainCache_ (Arc.lfuPart_ (Arc.get k s).1) !! k = Some m
          ∧ ArcNode.value_ m = ArcNode.value_ n)
  ∧ (shouldTransform = true → ArcLfu.capacity_ (Arc.lfuPart_ s1) = 0 →
     Arc.lfuPart_ (Arc.get k s).1 = Arc.lfuPart_ s1)
  ∧ (shouldTransform = false →
     Arc.lfuPart_ (Arc.get k s).1 = Arc.lfuPart_ s1).
Proof.
  cbv zeta. intros Hk.
  set (s1 := (Arc.checkGhostCaches k s).1) in *.
  set (b := CInt.size_incr (ArcNode.accessCount_ n)
            >=? ArcLru.transformThreshold_ (Arc.lruPart_ s1)).
  assert (ArcLru.get k (Arc.lruPart_ s1)
          = (ArcLru.set_main
               (alter ArcNode.incrementAccessCount k
                  (ArcLru.mainCache_ (Arc.lruPart_ s1)))
               (k :: Chain.unlink k (ArcLru.mainList (Arc.lruPart_ s1)))
               (Arc.lruPart_ s1),
             Some (ArcNode.value_ n, b))) as Hget.
  { unfold ArcLru.get. rewrite Hk. unfold ArcLru.updateNodeAccess.
    cbn [ArcLru.moveToFront ArcLru.addToFront ArcLru.removeFromMain
         ArcLru.set_main ArcLru.mainCache_ ArcLru.mainList
         ArcLru.transformThreshold_].
    rewrite lookup_alter_eq, Hk. reflexivity. }
  assert (Arc.get k s
          = (Arc.set_parts (ArcLru.get k (Arc.lruPart_ s1)).1
               (if b then (ArcLfu.put k (ArcNode.value_ n)
                             (Arc.lfuPart_ s1)).1
                else Arc.lfuPart_ s1) s1,
             Some (ArcNode.value_ n))) as Heq.
  { unfold Arc.get. cbv zeta. fold s1. rewrite Hget. reflexivity. }
  split; [reflexivity|]. split.
  { intros Hc Ht. unfold b. rewrite Hc, Ht. split; reflexivity. }
  rewrite Heq, Hget.
  cbn [fst snd Arc.lruPart_ Arc.lfuPart_ Arc.set_parts ArcLru.mainCache_
       ArcLru.set_main].
  split; [rewrite lookup_alter_eq, Hk; reflexivity|].
  split; [reflexivity|]. split; [reflexivity|]. split; [|split].
  - intros -> Hc. apply arcLfu_put_stores, Hc.
  - intros -> Hc. unfold ArcLfu.put. rewrite Hc. reflexivity.
  - intros ->. reflexivity.
Qed.

End ArcPromotion.

Lemma arc_first_hit_promotes_witness :
  ArcLru.mainCache_ (Arc.lruPart_ (Arc.get 1 Runs.arc_one_put).1) !! 1
  = Some (ArcNode.mkNode "a" 2)
  ∧ (Arc.get 1 Runs.arc_one_put).2 = Some "a"
  ∧ ∃ m, ArcLfu.mainCache_ (Arc.lfuPart_ (Arc.get 1 Runs.arc_one_put).1) !! 1
         = Some m ∧ ArcNode.value_ m = "a".
Proof.
  pose proof (arc_first_hit_promotes Runs.arc_one_put 1 (ArcNode.make "a"))
    as H.
  destruct H as (_ & _ & Hc & _ & Hv & Hm & _).
  - vm_compute. reflexivity.
  - split; [exact Hc|]. split; [exact Hv|].
    apply Hm; [vm_compute; reflexivity | vm_compute; discriminate].
Defined.

(** C9, the claim as stated fails: the cache is built with capacity 1 and
    threshold 2, and after [put(1,a), put(2,b), put(1,c)] the ghost hit on
    key 1 has left the LFU half with capacity 0.  Key 1 is in the LRU half
    with access count 1; the first [get(1)] hit reports [shouldTransform]
    and returns c, but the entry is not inserted into the LFU half. *)
Lemma arc_first_hit_at_lfu_capacity_zero_is_not_promoted :
  ArcLfu.capacity_ (Arc.lfuPart_ Runs.arc_ghost_hit) = 0
  ∧ ArcLru.transformThreshold_ (Arc.lruPart_ Runs.arc_ghost_hit) = 2
  ∧ ArcLru.mainCache_ (Arc.lruPart_ Runs.arc_ghost_hit) !! 1
    = Some (ArcNode.make "c")
  ∧ (ArcLru.get 1 (Arc.lruPart_
                     (Arc.checkGhostCaches 1 Runs.arc_ghost_hit).1)).2
    = Some ("c", true)
  ∧ (Arc.get 1 Runs.arc_ghost_hit).2 = Some "c"
  ∧ ArcLfu.mainCache_ (Arc.lfuPart_ (Arc.get 1 Runs.arc_ghost_hit).1) !! 1
    = None
  ∧ ArcLfu.mainCache_ (Arc.lfuPart_ (Arc.get 1 Runs.arc_ghost_hit).1) = ∅.
Proof. repeat split; by_eval. Qed.

(** ** KLruCache: the index under [put] and [get] *)

Section LruIndex.
Context {Value : Type}.
Implicit Types s : Lru.KLruCache Value.

Lemma lru_get_nodeMap k s : Lru.nodeMap_ (Lru.get k s).1 = Lru.nodeMap_ s.
Proof. unfold Lru.get. destruct (Lru.nodeMap_ s !! k); reflexivity. Qed.

Lemma lru_get_capacity k s : Lru.capacity_ (Lru.get k s).1 = Lru.capacity_ s.
Proof. unfold Lru.get. destruct (Lru.nodeMap_ s !! k); reflexivity. Qed.

Lemma lru_get_result k s :
  (Lru.get k s).2 = Lru.value_ <$> Lru.nodeMap_ s !! k.
Proof. unfold Lru.get. destruct (Lru.nodeMap_ s !! k); reflexivity. Qed.

Lemma lru_evict_capacity s :
  Lru.capacity_ (Lru.evictLeastRecent s) = Lru.capacity_ s.
Proof. unfold Lru.evictLeastRecent. destruct (Lru.list_ s); reflexivity. Qed.

Lemma lru_put_capacity k v s : Lru.capacity_ (Lru.put k v s) = Lru.capacity_ s.
Proof.
  unfold Lru.put. destruct (_ <=? _); [reflexivity|].
  destruct (Lru.nodeMap_ s !! k); [reflexivity|].
  unfold Lru.addNewNode. cbn. destruct (_ >=? _); [|reflexivity].
  apply lru_evict_capacity.
Qed.

Lemma lru_evict_lookup s k :
  Lru.nodeMap_ (Lru.evictLeastRecent s) !! k = None
  ∨ Lru.nodeMap_ (Lru.evictLeastRecent s) !! k = Lru.nodeMap_ s !! k.
Proof.
  unfold Lru.evictLeastRecent.
  destruct (Lru.list_ s) as [|x l]; cbn.
  - destruct (decide (Lru.Key0 = k)) as [->|Hne];
      [left; apply lookup_delete_eq | right; apply lookup_delete_ne, Hne].
  - destruct (decide (x = k)) as [->|Hne];
      [left; apply lookup_delete_eq | right; apply lookup_delete_ne, Hne].
Qed.

(** With a positive capacity, [put] leaves the key in the index with the
    value just written. *)
Lemma lru_put_lookup_same k v s :
  0 < Lru.capacity_ s →
  ∃ n, Lru.nodeMap_ (Lru.put k v s) !! k = Some n ∧ Lru.value_ n = v.
Proof.
  intros Hc. unfold Lru.put.
  destruct (Z.leb_spec (Lru.capacity_ s) 0); [lia|].
  destruct (Lru.nodeMap_ s !! k) as [n|] eqn:Hk.
  - exists (Lru.mkNode v (Lru.accessCount_ n)). cbn.
    rewrite lookup_alter_eq, Hk. split; reflexivity.
  - exists (Lru.mkNode v 1). cbn. split; [apply lookup_insert_eq|reflexivity].
Qed.

(** Another key keeps its node, or is the one that is evicted. *)
Lemma lru_put_lookup_other k v s k' :
  k' ≠ k →
  Lru.nodeMap_ (Lru.put k v s) !! k' = None
  ∨ Lru.nodeMap_ (Lru.put k v s) !! k' = Lru.nodeMap_ s !! k'.
Proof.
  intros Hne. unfold Lru.put. destruct (_ <=? _); [right; reflexivity|].
  destruct (Lru.nodeMap_ s !! k) as [n|] eqn:Hk.
  - right. cbn. apply lookup_alter_ne. congruence.
  - unfold Lru.addNewNode. cbn. rewrite lookup_insert_ne by congruence.
    destruct (_ >=? _); [apply lru_evict_lookup | right; reflexivity].
Qed.

Lemma lru_step_holds k v s o :
  (∀ v', o ≠ Lru.Put k v') → Lru.holds k v s → Lru.holds k v (Lru.step s o).
Proof.
  intros Ho H. destruct o as [k' v'|k']; cbn.
  - assert (k ≠ k') as Hne by (intros ->; exact (Ho v' eq_refl)).
    intros n Hn.
    destruct (lru_put_lookup_other k' v' s k Hne) as [E|E];
      rewrite E in Hn; [discriminate | exact (H n Hn)].
  - intros n Hn. rewrite lru_get_nodeMap in Hn. exact (H n Hn).
Qed.

Lemma lru_run_holds k v ops s :
  (∀ v', Lru.Put k v' ∉ ops) → Lru.holds k v s →
  Lru.holds k v (Lru.run ops s).
Proof.
  unfold Lru.run. revert s.
  induction ops as [|o ops IH]; intros s Hops H; [exact H|].
  cbn. apply IH.
  - intros v' Hin. apply (Hops v'). right. exact Hin.
  - apply lru_step_holds; [|exact H].
    intros v' ->. apply (Hops v'). left.
Qed.

Lemma lru_run_capacity ops s :
  Lru.capacity_ (Lru.run ops s) = Lru.capacity_ s.
Proof.
  unfold Lru.run. revert s.
  induction ops as [|[k v|k] ops IH]; intros s; [reflexivity|..]; cbn;
    rewrite IH; [apply lru_put_capacity | apply lru_get_capacity].
Qed.

Lemma lru_run_app ops1 ops2 s :
  Lru.run (ops1 ++ ops2) s = Lru.run ops2 (Lru.run ops1 s).
Proof. unfold Lru.run. apply foldl_app. Qed.

(** Put-get coherence of KLruCache. *)
Lemma lru_put_get_coherent (C : Z) (ops0 ops : list (Lru.op Value))
    (k : Z) (v : Value) :
  0 < C → (∀ v', Lru.Put k v' ∉ ops) →
  let s := Lru.run (ops0 ++ Lru.Put k v :: ops) (Lru.new C) in
  (ops = [] → is_Some (Lru.nodeMap_ s !! k))
  ∧ (is_Some (Lru.nodeMap_ s !! k) → (Lru.get k s).2 = Some v)
  ∧ ((Lru.get k s).2 = Some v ∨ (Lru.get k s).2 = None).
Proof.
  intros HC Hops. cbv zeta.
  rewrite lru_run_app.
  change (Lru.run (Lru.Put k v :: ops) ?s0)
    with (Lru.run ops (Lru.put k v s0)).
  set (s0 := Lru.run ops0 (Lru.new C)).
  assert (0 < Lru.capacity_ s0) as Hc0
    by (subst s0; rewrite lru_run_capacity; exact HC).
  destruct (lru_put_lookup_same k v s0 Hc0) as (n & Hn & Hv).
  assert (Lru.holds k v (Lru.run ops (Lru.put k v s0))) as Hh.
  { apply lru_run_holds; [exact Hops|].
    intros n' Hn'. rewrite Hn in Hn'. injection Hn' as <-. exact Hv. }
  split; [|split].
  - intros ->. cbn. rewrite Hn. eauto.
  - intros [n' Hn']. rewrite lru_get_result, Hn'. cbn.
    rewrite (Hh n' Hn'). reflexivity.
  - rewrite lru_get_result.
    destruct (Lru.nodeMap_ (Lru.run ops (Lru.put k v s0)) !! k)
      as [n'|] eqn:Hn'; [left|right; reflexivity].
    cbn. rewrite (Hh n' Hn'). reflexivity.
Qed.

End LruIndex.

(** ** KLruKCache: main cache and pending values *)

Section LruKIndex.
Context {Value : Type}.
Variable dflt : Value.
Implicit Types s : LruK.KLruKCache Value.

Lemma lru_get_cases (k : Z) (b : Lru.KLruCache Value) :
  ∃ b1, Lru.nodeMap_ b1 = Lru.nodeMap_ b
        ∧ Lru.capacity_ b1 = Lru.capacity_ b
        ∧ Lru.get k b = (b1, Lru.value_ <$> Lru.nodeMap_ b !! k).
Proof.
  exists (Lru.get k b).1.
  split; [apply lru_get_nodeMap|]. split; [apply lru_get_capacity|].
  rewrite <- lru_get_result. destruct (Lru.get k b); reflexivity.
Qed.

Lemma lru_put_is_Some (k : Z) (v : Value) (b : Lru.KLruCache Value) k' :
  is_Some (Lru.nodeMap_ (Lru.put k v b) !! k') →
  k' = k ∨ is_Some (Lru.nodeMap_ b !! k').
Proof.
  intros H. destruct (decide (k' = k)) as [|Hne]; [left; assumption|right].
  destruct (lru_put_lookup_other k v b k' Hne) as [E|E]; rewrite E in H;
    [destruct H; discriminate | exact H].
Qed.




Lemma lruk_step_disjoint s o :
  LruK.disjoint s → LruK.disjoint (LruK.step dflt s o).
Proof.
  intros D. destruct o as [key value|key]; cbn [LruK.step].
  - unfold LruK.put.
    destruct (lru_get_cases key (LruK.base s)) as (b1 & Hm & _ & ->).
    destruct (Lru.nodeMap_ (LruK.base s) !! key) as [n|] eqn:Hk; cbn.
    + intros k' Hs. cbn in *. apply lru_put_is_Some in Hs as [->|Hs].
      * apply D. rewrite Hk. eauto.
      * apply D. rewrite <- Hm. exact Hs.
    + destruct (LruK.bumpHistory key (LruK.historyList_ s)) as [h1 c].
      destruct (c >=? _); intros k' Hs; cbn in *.
      * apply lru_put_is_Some in Hs as [->|Hs]; [apply lookup_delete_eq|].
        rewrite Hm in Hs.
        assert (k' ≠ key) by (intros ->; rewrite Hk in Hs; destruct Hs; done).
        rewrite lookup_delete_ne, lookup_insert_ne by congruence.
        apply D, Hs.
      * rewrite Hm in Hs.
        assert (k' ≠ key) by (intros ->; rewrite Hk in Hs; destruct Hs; done).
        rewrite lookup_insert_ne by congruence. apply D, Hs.
  - unfold LruK.get.
    destruct (lru_get_cases key (LruK.base s)) as (b1 & Hm & _ & ->).
    destruct (LruK.bumpHistory key (LruK.historyList_ s)) as [h1 c].
    destruct (Lru.nodeMap_ (LruK.base s) !! key) as [n|] eqn:Hk; cbn.
    + intros k' Hs. cbn in *. rewrite Hm in Hs. apply D, Hs.
    + destruct (c >=? _);
        [destruct (LruK.historyValueMap_ s !! key) as [sv|] eqn:Hp|];
        cbn; intros k' Hs; cbn in *;
        try (rewrite Hm in Hs; apply D, Hs).
      apply lru_put_is_Some in Hs as [->|Hs]; [apply lookup_delete_eq|].
      rewrite Hm in Hs.
      assert (k' ≠ key) by (intros ->; rewrite Hk in Hs; destruct Hs; done).
      rewrite lookup_delete_ne by congruence. apply D, Hs.
Qed.

Lemma lruk_step_capacity s o :
  Lru.capacity_ (LruK.base (LruK.step dflt s o))
  = Lru.capacity_ (LruK.base s).
Proof.
  destruct o as [key value|key]; cbn [LruK.step].
  - unfold LruK.put.
    destruct (lru_get_cases key (LruK.base s)) as (b1 & _ & Hc & ->).
    destruct (Lru.nodeMap_ (LruK.base s) !! key); cbn;
      [rewrite lru_put_capacity; exact Hc|].
    destruct (LruK.bumpHistory key (LruK.historyList_ s)) as [h1 c].
    destruct (c >=? _); cbn; [rewrite lru_put_capacity|]; exact Hc.
  - unfold LruK.get.
    destruct (lru_get_cases key (LruK.base s)) as (b1 & _ & Hc & ->).
    destruct (LruK.bumpHistory key (LruK.historyList_ s)) as [h1 c].
    destruct (Lru.nodeMap_ (LruK.base s) !! key); cbn; [exact Hc|].
    destruct (c >=? _); [destruct (LruK.historyValueMap_ s !! key)|]; cbn;
      [rewrite lru_put_capacity| |]; exact Hc.
Qed.

Lemma lruk_run_invariants ops s :
  LruK.disjoint s →
  LruK.disjoint (LruK.run dflt ops s)
  ∧ Lru.capacity_ (LruK.base (LruK.run dflt ops s))
    = Lru.capacity_ (LruK.base s).
Proof.
  unfold LruK.run. revert s.
  induction ops as [|o ops IH]; intros s D; [split; [exact D|reflexivity]|].
  cbn. destruct (IH (LruK.step dflt s o)) as (D' & C');
    [apply lruk_step_disjoint, D|].
  split; [exact D'|]. rewrite C'. apply lruk_step_capacity.
Qed.







End LruKIndex.

(** ** KLfuCache: the calls are defined and keep the object well formed *)

Section LfuWf.
Context {Value : Type}.
Variable dummyKey : Z.
Implicit Types s : Lfu.KLfuCache Value.

Lemma lfu_unlink_lookup a (b : gmap Z (list nat)) f :
  Lfu.unlink a b !! f = filter (λ x, x ≠ a) <$> b !! f.
Proof. unfold Lfu.unlink. apply lookup_fmap. Qed.

Lemma lfu_listsKept_refl s : Lfu.listsKept s s.
Proof. intros f H. exact H. Qed.

Lemma lfu_listsKept_trans s1 s2 s3 :
  Lfu.listsKept s1 s2 → Lfu.listsKept s2 s3 → Lfu.listsKept s1 s3.
Proof. intros H1 H2 f H. apply H2, H1, H. Qed.

(** A node of the index leaves its list, takes the frequency [f] and
    joins the list of [f]. *)
Lemma lfu_move_wf0 s a n f :
  Lfu.wf0 s → Lfu.arena s !! a = Some n →
  is_Some (Lfu.freqToFreqList_ s !! Lfu.freq n) → 1 ≤ f →
  ∃ s1 s3,
    Lfu.removeFromFreqList (Lfu.Real a) s = Some s1
    ∧ Lfu.arena s1 = Lfu.arena s
    ∧ Lfu.maxAverageNum_ s1 = Lfu.maxAverageNum_ s
    ∧ Lfu.addToFreqList a
        (Lfu.set_arena (<[a := Lfu.setFreq f n]> (Lfu.arena s1)) s1) = Some s3
    ∧ Lfu.wf0 s3
    ∧ Lfu.minFreq_ s3 = Lfu.minFreq_ s
    ∧ Lfu.listsKept s s3
    ∧ is_Some (Lfu.freqToFreqList_ s3 !! f)
    ∧ Lfu.nodeMap_ s3 = Lfu.nodeMap_ s.
Proof.
  intros (I1 & I2 & I3 & I5) Ha [l0 Hl0] Hf.
  assert (a < length (Lfu.arena s))%nat as Hlt by (eapply lookup_lt_Some, Ha).
  eexists. eexists.
  split; [unfold Lfu.removeFromFreqList; rewrite Ha; cbn; rewrite Hl0; cbn;
          reflexivity|].
  split; [reflexivity|]. split; [reflexivity|].
  split.
  { unfold Lfu.addToFreqList. cbn.
    rewrite list_lookup_insert_eq by exact Hlt. cbn. reflexivity. }
  cbn.
  assert (∀ g, is_Some (Lfu.freqToFreqList_ s !! g) →
               is_Some (<[f := default [] (Lfu.unlink a (Lfu.freqToFreqList_ s) !! f)
                               ++ [a]]> (Lfu.unlink a (Lfu.freqToFreqList_ s))
                          !! g)) as Hkept.
  { intros g [lg Hg]. destruct (decide (f = g)) as [->|Hne].
    - rewrite lookup_insert_eq. eauto.
    - rewrite lookup_insert_ne by exact Hne.
      rewrite lfu_unlink_lookup, Hg. cbn. eauto. }
  split; [|split; [reflexivity|split; [exact Hkept|split; [|reflexivity]]]].
  2: { rewrite lookup_insert_eq. eauto. }
  split; [|split; [|split]]; cbn.
  - intros k a' Hk. destruct (I1 k a' Hk) as (n' & Hn' & Hkey & Hfr & Hb).
    destruct (decide (a' = a)) as [->|Hne].
    + exists (Lfu.setFreq f n). rewrite list_lookup_insert_eq by exact Hlt.
      rewrite Ha in Hn'. injection Hn' as <-. cbn.
      repeat split; try assumption. rewrite lookup_insert_eq. eauto.
    + exists n'. rewrite list_lookup_insert_ne by congruence.
      repeat split; try assumption. apply Hkept, Hb.
  - intros g l a' Hg Hin.
    destruct (decide (f = g)) as [->|Hne].
    + rewrite lookup_insert_eq in Hg. injection Hg as <-.
      apply elem_of_app in Hin as [Hin|Hin].
      * rewrite lfu_unlink_lookup in Hin.
        destruct (Lfu.freqToFreqList_ s !! g) as [lg|] eqn:Hlg; cbn in Hin;
          [|inversion Hin].
        apply list_elem_of_filter in Hin as [Hne Hin].
        destruct (I2 g lg a' Hlg Hin) as (n' & Hn' & Hfr & Hg1).
        exists n'. rewrite list_lookup_insert_ne by congruence. auto.
      * apply list_elem_of_singleton in Hin as ->.
        exists (Lfu.setFreq g n).
        rewrite list_lookup_insert_eq by exact Hlt. auto.
    + rewrite lookup_insert_ne in Hg by exact Hne.
      rewrite lfu_unlink_lookup in Hg.
      destruct (Lfu.freqToFreqList_ s !! g) as [lg|] eqn:Hlg; cbn in Hg;
        [|discriminate].
      injection Hg as <-.
      apply list_elem_of_filter in Hin as [Hne' Hin].
      destruct (I2 g lg a' Hlg Hin) as (n' & Hn' & Hfr & Hg1).
      exists n'. rewrite list_lookup_insert_ne by congruence. auto.
  - intros Hne. apply Hkept, I3, Hne.
  - exact I5.
Qed.


Lemma lfu_wf0_set_minFreq m s :
  Lfu.wf0 s → 1 ≤ m → Lfu.wf0 (Lfu.set_minFreq m s).
Proof. intros (I1 & I2 & I3 & I5) Hm. repeat split; assumption. Qed.

Lemma lfu_wf0_set_counters avg total s :
  Lfu.wf0 s → Lfu.wf0 (Lfu.set_counters avg total s).
Proof. intros (I1 & I2 & I3 & I5). repeat split; assumption. Qed.

Lemma lfu_index_nonempty s k a :
  Lfu.nodeMap_ s !! k = Some a → Lfu.nodeMap_ s ≠ ∅.
Proof. intros H E. rewrite E, lookup_empty in H. discriminate. Qed.

Lemma lfu_relocate_wf s k a :
  Lfu.wf s → Lfu.nodeMap_ s !! k = Some a →
  ∃ s4, Lfu.relocate a s = Some s4 ∧ Lfu.wf s4 ∧ Lfu.listsKept s s4.
Proof.
  intros [W0 W4] Hk.
  pose proof W0 as (I1 & _).
  destruct (I1 k a Hk) as (n & Ha & _ & Hfr & Hb).
  destruct (lfu_move_wf0 s a n (Lfu.freq n + 1) W0 Ha Hb)
    as (s1 & s3 & Hrem & Hars & _ & Hadd & W3 & Hmin & Hkept & Hnew & Hnm);
    [lia|].
  unfold Lfu.relocate. rewrite Ha. cbn [mbind option_bind].
  rewrite Hrem. cbn [mbind option_bind]. cbv zeta.
  rewrite Hadd. cbn [mbind option_bind].
  assert (Lfu.nodeMap_ s3 ≠ ∅) as Hne3
    by (rewrite Hnm; eapply lfu_index_nonempty, Hk).
  assert (is_Some (Lfu.freqToFreqList_ s3 !! Lfu.minFreq_ s3)) as Hm3.
  { rewrite Hmin. apply Hkept, W4. eapply lfu_index_nonempty, Hk. }
  destruct (Z.eqb_spec (Lfu.freq n + 1 - 1) (Lfu.minFreq_ s3)) as [E|E].
  - rewrite E. destruct Hm3 as [l Hl]. rewrite Hl. cbn [mbind option_bind].
    eexists. split; [reflexivity|].
    case_decide.
    + split; [split|exact Hkept].
      * apply lfu_wf0_set_minFreq; [exact W3 | lia].
      * intros _. cbn. replace (Lfu.minFreq_ s3 + 1) with (Lfu.freq n + 1)
          by lia. exact Hnew.
    + split; [split; [exact W3|intros _; rewrite Hl; eauto] | exact Hkept].
  - eexists. split; [reflexivity|].
    split; [split; [exact W3|intros _; exact Hm3] | exact Hkept].
Qed.

Lemma lfu_rescaleNode_wf0 s k a :
  Lfu.wf0 s → Lfu.nodeMap_ s !! k = Some a →
  ∃ s', Lfu.rescaleNode a s = Some s' ∧ Lfu.wf0 s'
        ∧ Lfu.nodeMap_ s' = Lfu.nodeMap_ s ∧ Lfu.listsKept s s'.
Proof.
  intros W0 Hk. pose proof W0 as (I1 & _).
  destruct (I1 k a Hk) as (n & Ha & _ & Hfr & Hb).
  set (f0 := Lfu.freq n - Lfu.maxAverageNum_ s `quot` 2).
  set (f := if f0 <? 1 then 1 else f0).
  assert (1 ≤ f) as Hf by (subst f; destruct (Z.ltb_spec f0 1); lia).
  destruct (lfu_move_wf0 s a n f W0 Ha Hb Hf)
    as (s1 & s3 & Hrem & Hars & Hmax & Hadd & W3 & Hmin & Hkept & Hnew & Hnm).
  exists s3. unfold Lfu.rescaleNode. rewrite Hrem. cbn [mbind option_bind].
  rewrite Hars, Ha. cbn [mbind option_bind]. cbv zeta.
  rewrite Hmax. fold f0. fold f. rewrite <- Hars.
  exact (conj Hadd (conj W3 (conj Hnm Hkept))).
Qed.

Lemma lfu_rescaleAll_wf0 l s :
  Lfu.wf0 s → (∀ a, a ∈ l → ∃ k, Lfu.nodeMap_ s !! k = Some a) →
  ∃ s', Lfu.rescaleAll l s = Some s' ∧ Lfu.wf0 s'
        ∧ Lfu.nodeMap_ s' = Lfu.nodeMap_ s ∧ Lfu.listsKept s s'.
Proof.
  revert s. induction l as [|a l IH]; intros s W0 Hl.
  - exists s.
    exact (conj eq_refl (conj W0 (conj eq_refl (lfu_listsKept_refl s)))).
  - destruct (Hl a) as [k Hk]; [left|].
    destruct (lfu_rescaleNode_wf0 s k a W0 Hk) as (s1 & H1 & W1 & Hn1 & K1).
    destruct (IH s1 W1) as (s' & H' & W' & Hn' & K').
    { intros a' Ha'. rewrite Hn1. apply Hl. right. exact Ha'. }
    exists s'. rewrite lfu_rescaleAll_cons, H1. cbn [mbind option_bind].
    split; [exact H'|]. split; [exact W'|]. split; [congruence|].
    eapply lfu_listsKept_trans; eassumption.
Qed.

(** What the loop of [updateMinFreq] computes: [INT8_MAX], or the frequency
    of a list that is not empty. *)
Lemma lfu_updateMinFreq_fold (b : list (Z * list nat)) :
  let m := foldr (λ p acc, if decide (p.2 = []) then acc else Z.min acc p.1)
                 CInt.INT8_MAX b in
  m = CInt.INT8_MAX ∨ ∃ l, (m, l) ∈ b ∧ l ≠ [].
Proof.
  induction b as [|[f l] b IH]; cbn; [left; reflexivity|].
  case_decide as Hl; cbn in Hl.
  - destruct IH as [IH|(l' & Hin & Hne)]; [left; exact IH|].
    right. exists l'. split; [right; exact Hin | exact Hne].
  - destruct (Z.min_spec
                (foldr (λ p acc, if decide (p.2 = []) then acc
                                 else Z.min acc p.1) CInt.INT8_MAX b) f)
      as [[_ E]|[_ E]]; rewrite E.
    + destruct IH as [IH|(l' & Hin & Hne)]; [left; exact IH|].
      right. exists l'. split; [right; exact Hin | exact Hne].
    + right. exists l. split; [left | exact Hl].
Qed.

Lemma lfu_updateMinFreq_wf s :
  Lfu.wf0 s → Lfu.wf (Lfu.updateMinFreq s).
Proof.
  intros W0. pose proof W0 as (I1 & I2 & I3 & I5).
  unfold Lfu.updateMinFreq.
  destruct (lfu_updateMinFreq_fold (map_to_list (Lfu.freqToFreqList_ s)))
    as [E|(l & Hin & Hne)]; cbv zeta in *.
  - rewrite E. cbn. split; [apply lfu_wf0_set_minFreq; [exact W0|lia]|].
    cbn. exact I3.
  - apply elem_of_map_to_list in Hin.
    destruct l as [|a l]; [done|].
    destruct (I2 _ _ a Hin) as (n & _ & _ & H1); [left|].
    destruct (_ =? CInt.INT8_MAX); (split; [apply lfu_wf0_set_minFreq;
      [exact W0|lia]|]); cbn; [exact I3 | intros _; rewrite Hin; eauto].
Qed.

Lemma lfu_updateMinFreq_same s :
  Lfu.nodeMap_ (Lfu.updateMinFreq s) = Lfu.nodeMap_ s
  ∧ Lfu.freqToFreqList_ (Lfu.updateMinFreq s) = Lfu.freqToFreqList_ s
  ∧ Lfu.arena (Lfu.updateMinFreq s) = Lfu.arena s.
Proof. repeat split. Qed.

Lemma lfu_handleOver_wf s :
  Lfu.wf0 s →
  ∃ s', Lfu.handleOverMaxAverageNum s = Some s' ∧ Lfu.wf0 s'
        ∧ (Lfu.wf s → Lfu.wf s')
        ∧ Lfu.nodeMap_ s' = Lfu.nodeMap_ s ∧ Lfu.listsKept s s'.
Proof.
  intros W0. unfold Lfu.handleOverMaxAverageNum.
  case_decide as Hsz.
  - exists s.
    exact (conj eq_refl (conj W0 (conj (λ W, W)
             (conj eq_refl (lfu_listsKept_refl s))))).
  - destruct (lfu_rescaleAll_wf0 (snd <$> map_to_list (Lfu.nodeMap_ s)) s W0)
      as (s1 & H1 & W1 & Hn1 & K1).
    { intros a Ha. apply list_elem_of_fmap in Ha as ([k a'] & -> & Hin).
      exists k. apply elem_of_map_to_list in Hin. exact Hin. }
    rewrite H1. cbn [mbind option_bind].
    exists (Lfu.updateMinFreq s1).
    pose proof (lfu_updateMinFreq_wf s1 W1) as W.
    split; [reflexivity|]. split; [exact (proj1 W)|].
    split; [intros _; exact W|]. split; [exact Hn1|].
    intros f Hf. apply K1, Hf.
Qed.

Lemma lfu_addFreqNum_wf s :
  Lfu.wf0 s →
  ∃ s', Lfu.addFreqNum s = Some s' ∧ Lfu.wf0 s'
        ∧ (Lfu.wf s → Lfu.wf s')
        ∧ Lfu.nodeMap_ s' = Lfu.nodeMap_ s ∧ Lfu.listsKept s s'.
Proof.
  intros W0. unfold Lfu.addFreqNum.
  assert (Lfu.wf0 (Lfu.countAccess s)) as Wc
    by (apply lfu_wf0_set_counters, W0).
  destruct (_ >? _).
  - destruct (lfu_handleOver_wf _ Wc) as (s' & H & W' & Wf & Hn & K).
    exists s'. split; [exact H|]. split; [exact W'|].
    split; [|split; [exact Hn | intros f Hf; apply K, Hf]].
    intros [_ W4]. apply Wf. split; [exact Wc | exact W4].
  - exists (Lfu.countAccess s). split; [reflexivity|]. split; [exact Wc|].
    split; [|split; [reflexivity | intros f Hf; exact Hf]].
    intros [_ W4]. split; [exact Wc | exact W4].
Qed.


(** *** What is stored under a key *)

Lemma lfu_valueOf_alt k s :
  Lfu.valueOf k s = Lfu.nodeMap_ s !! k ≫= λ a, (Lfu.value <$> Lfu.arena s) !! a.
Proof.
  unfold Lfu.valueOf. destruct (Lfu.nodeMap_ s !! k) as [a|]; [|reflexivity].
  cbn. rewrite list_lookup_fmap. destruct (Lfu.arena s !! a); reflexivity.
Qed.

Lemma lfu_valueOf_same k s s' :
  Lfu.nodeMap_ s' = Lfu.nodeMap_ s →
  Lfu.value <$> Lfu.arena s' = Lfu.value <$> Lfu.arena s →
  Lfu.valueOf k s' = Lfu.valueOf k s.
Proof. intros Hn Hv. rewrite !lfu_valueOf_alt, Hn, Hv. reflexivity. Qed.

Lemma lfu_addFreqNum_content s s' :
  Lfu.addFreqNum s = Some s' →
  Lfu.nodeMap_ s' = Lfu.nodeMap_ s
  ∧ Lfu.value <$> Lfu.arena s' = Lfu.value <$> Lfu.arena s
  ∧ Lfu.capacity_ s' = Lfu.capacity_ s.
Proof.
  unfold Lfu.addFreqNum. intros H.
  destruct (_ >? _).
  - apply lfu_handleOver_frame in H as (Hc & _ & _ & _ & Hn & _ & Hv).
    exact (conj Hn (conj Hv Hc)).
  - injection H as <-. repeat split.
Qed.

Lemma lfu_wf_valueOf k a s :
  Lfu.wf0 s → Lfu.nodeMap_ s !! k = Some a →
  ∃ n, Lfu.arena s !! a = Some n ∧ Lfu.valueOf k s = Some (Lfu.value n).
Proof.
  intros (I1 & _) Hk. destruct (I1 k a Hk) as (n & Ha & _).
  exists n. split; [exact Ha|]. unfold Lfu.valueOf. rewrite Hk. cbn.
  rewrite Ha. reflexivity.
Qed.

Lemma lfu_getInternal_wf s k a :
  Lfu.wf s → Lfu.nodeMap_ s !! k = Some a →
  ∃ s5 n, Lfu.arena s !! a = Some n
          ∧ Lfu.getInternal a s = Some (s5, Lfu.value n)
          ∧ Lfu.wf s5
          ∧ Lfu.nodeMap_ s5 = Lfu.nodeMap_ s
          ∧ Lfu.value <$> Lfu.arena s5 = Lfu.value <$> Lfu.arena s
          ∧ Lfu.capacity_ s5 = Lfu.capacity_ s.
Proof.
  intros W Hk.
  destruct (lfu_wf_valueOf k a s (proj1 W) Hk) as (n & Ha & _).
  destruct (lfu_relocate_wf s k a W Hk) as (s4 & H4 & W4 & _).
  destruct (lfu_addFreqNum_wf s4 (proj1 W4)) as (s5 & H5 & _ & W5 & _).
  destruct (lfu_relocate_frame _ _ _ H4) as (Hc4 & _ & _ & _ & Hn4 & _ & Hv4).
  destruct (lfu_addFreqNum_content _ _ H5) as (Hn5 & Hv5 & Hc5).
  exists s5, n. unfold Lfu.getInternal.
  rewrite Ha. cbn [mbind option_bind]. rewrite H4. cbn [mbind option_bind].
  rewrite H5. cbn [mbind option_bind].
  split; [reflexivity|]. split; [reflexivity|]. split; [exact (W5 W4)|].
  split; [congruence|]. split; congruence.
Qed.

(** What a call that only removes things leaves well formed. *)
Lemma lfu_wf_shrink s s' :
  Lfu.wf s →
  (∀ k a, Lfu.nodeMap_ s' !! k = Some a → Lfu.nodeMap_ s !! k = Some a) →
  Lfu.listsKept s s' →
  (∀ f l' a, Lfu.freqToFreqList_ s' !! f = Some l' → a ∈ l' →
     ∃ l, Lfu.freqToFreqList_ s !! f = Some l ∧ a ∈ l) →
  Lfu.arena s' = Lfu.arena s → Lfu.minFreq_ s' = Lfu.minFreq_ s →
  Lfu.wf s'.
Proof.
  intros [(I1 & I2 & I3 & I5) W4] Hsub Hkept Hmem Har Hmin.
  assert (Lfu.nodeMap_ s' ≠ ∅ → Lfu.nodeMap_ s ≠ ∅) as Hne.
  { intros Hne'. apply map_choose in Hne' as (k & a & Hk).
    eapply lfu_index_nonempty, Hsub, Hk. }
  split; [split; [|split; [|split]]|].
  - intros k a Hk. destruct (I1 k a (Hsub _ _ Hk)) as (n & Ha & Hkey & Hf & Hb).
    exists n. rewrite Har. repeat split; try assumption. apply Hkept, Hb.
  - intros f l' a Hl' Hin. destruct (Hmem f l' a Hl' Hin) as (l & Hl & Hin').
    rewrite Har. exact (I2 f l a Hl Hin').
  - intros H. apply Hkept, I3, Hne, H.
  - rewrite Hmin. exact I5.
  - intros H. rewrite Hmin. apply Hkept, W4, Hne, H.
Qed.

Lemma lfu_lookup_delete_sub (m : gmap Z nat) k0 k a :
  delete k0 m !! k = Some a → m !! k = Some a.
Proof.
  destruct (decide (k0 = k)) as [->|Hne];
    [rewrite lookup_delete_eq; discriminate|].
  rewrite lookup_delete_ne by exact Hne. auto.
Qed.

Lemma lfu_kickOut_wf s :
  Lfu.wf s → Lfu.nodeMap_ s ≠ ∅ →
  ∃ s' k0, Lfu.kickOut dummyKey s = Some s' ∧ Lfu.wf s'
           ∧ Lfu.arena s' = Lfu.arena s
           ∧ Lfu.nodeMap_ s' = delete k0 (Lfu.nodeMap_ s)
           ∧ Lfu.capacity_ s' = Lfu.capacity_ s.
Proof.
  intros W Hne. pose proof W as [(I1 & I2 & I3 & I5) W4].
  destruct (W4 Hne) as [l Hl]. unfold Lfu.kickOut.
  rewrite Hl. cbn [mbind option_bind]. cbv zeta.
  destruct l as [|a l].
  - destruct (I3 Hne) as [l1 Hl1].
    unfold Lfu.removeFromFreqList. rewrite Hl1. cbn [mbind option_bind].
    eexists. exists dummyKey. split; [reflexivity|].
    split; [|repeat split].
    apply (lfu_wf_shrink s); try exact W; try reflexivity.
    + intros k a. cbn. apply lfu_lookup_delete_sub.
    + intros f Hf. exact Hf.
    + intros f l' a Hf Hin. cbn in Hf. eauto.
  - destruct (I2 _ _ a Hl) as (n & Ha & Hfn & _); [left|].
    unfold Lfu.removeFromFreqList. rewrite Ha. cbn [mbind option_bind].
    rewrite Hfn, Hl. cbn [mbind option_bind].
    cbn [Lfu.arena Lfu.set_lists]. rewrite Ha. cbn [mbind option_bind].
    eexists. exists (Lfu.key n). split; [reflexivity|].
    split; [|repeat split].
    apply (lfu_wf_shrink s); try exact W; try reflexivity.
    + intros k a'. cbn. apply lfu_lookup_delete_sub.
    + intros f [lf Hf]. cbn. rewrite lfu_unlink_lookup, Hf. cbn. eauto.
    + intros f l' a' Hf Hin. cbn in Hf. rewrite lfu_unlink_lookup in Hf.
      destruct (Lfu.freqToFreqList_ s !! f) as [lf|]; cbn in Hf;
        [|discriminate].
      injection Hf as <-. apply list_elem_of_filter in Hin as [_ Hin]. eauto.
Qed.


Lemma lfu_insert_is_Some (b : gmap Z (list nat)) f l g :
  is_Some (b !! g) → is_Some (<[f := l]> b !! g).
Proof.
  intros H. destruct (decide (f = g)) as [->|Hne];
    [rewrite lookup_insert_eq; eauto | rewrite lookup_insert_ne; assumption].
Qed.

(** The new node is allocated, indexed and linked into list 1. *)
Lemma lfu_link_new_wf0 s k v :
  Lfu.wf0 s → Lfu.nodeMap_ s !! k = None →
  let a := length (Lfu.arena s) in
  let s2 := Lfu.set_nodeMap (<[k := a]> (Lfu.nodeMap_ s))
              (Lfu.set_arena (Lfu.arena s ++ [Lfu.mkNode 1 k v]) s) in
  ∃ s3, Lfu.addToFreqList a s2 = Some s3 ∧ Lfu.wf0 s3
        ∧ Lfu.nodeMap_ s3 = <[k := a]> (Lfu.nodeMap_ s)
        ∧ Lfu.arena s3 = Lfu.arena s ++ [Lfu.mkNode 1 k v]
        ∧ Lfu.capacity_ s3 = Lfu.capacity_ s.
Proof.
  intros (I1 & I2 & I3 & I5) Hk. cbv zeta.
  assert ((Lfu.arena s ++ [Lfu.mkNode 1 k v]) !! length (Lfu.arena s)
          = Some (Lfu.mkNode 1 k v)) as Hnew
    by (apply list_lookup_middle; reflexivity).
  unfold Lfu.addToFreqList. cbn [Lfu.arena Lfu.set_nodeMap Lfu.set_arena].
  rewrite Hnew. cbn [mbind option_bind Lfu.freq]. cbv zeta.
  eexists. split; [reflexivity|].
  split; [|repeat split].
  cbn [Lfu.freqToFreqList_ Lfu.set_nodeMap Lfu.set_arena].
  split; [|split; [|split]]; cbn.
  - intros k' a'. destruct (decide (k = k')) as [->|Hne].
    + rewrite lookup_insert_eq. intros [= <-].
      exists (Lfu.mkNode 1 k' v). rewrite Hnew. cbn.
      repeat split; try lia. rewrite lookup_insert_eq. eauto.
    + rewrite lookup_insert_ne by exact Hne. intros Hk'.
      destruct (I1 k' a' Hk') as (n & Ha & Hkey & Hf & Hb).
      exists n. rewrite (lookup_app_l_Some _ _ _ _ Ha).
      repeat split; try assumption. apply lfu_insert_is_Some, Hb.
  - intros f l a' Hl Hin. destruct (decide (1 = f)) as [<-|Hne].
    + rewrite lookup_insert_eq in Hl. injection Hl as <-.
      apply elem_of_app in Hin as [Hin|Hin].
      * destruct (Lfu.freqToFreqList_ s !! 1) as [l1|] eqn:Hl1; cbn in Hin;
          [|inversion Hin].
        destruct (I2 1 l1 a' Hl1 Hin) as (n & Ha & Hf & H1).
        exists n. rewrite (lookup_app_l_Some _ _ _ _ Ha). auto.
      * apply list_elem_of_singleton in Hin as ->.
        exists (Lfu.mkNode 1 k v). rewrite Hnew. cbn. repeat split; lia.
    + rewrite lookup_insert_ne in Hl by exact Hne.
      destruct (I2 f l a' Hl Hin) as (n & Ha & Hf & H1).
      exists n. rewrite (lookup_app_l_Some _ _ _ _ Ha). auto.
  - intros _. rewrite lookup_insert_eq. eauto.
  - exact I5.
Qed.

Lemma lfu_putInternal_wf s k v :
  Lfu.wf s → Lfu.nodeMap_ s !! k = None →
  (Z.of_nat (size (Lfu.nodeMap_ s)) = CInt.to_size_t (Lfu.capacity_ s) →
   Lfu.nodeMap_ s ≠ ∅) →
  ∃ s', Lfu.putInternal dummyKey k v s = Some s' ∧ Lfu.wf s'
        ∧ Lfu.capacity_ s' = Lfu.capacity_ s
        ∧ Lfu.valueOf k s' = Some v
        ∧ (∀ k', k' ≠ k →
             Lfu.valueOf k' s' = None ∨ Lfu.valueOf k' s' = Lfu.valueOf k' s).
Proof.
  intros W Hk Hfull.
  assert (∃ s1,
            (if Z.of_nat (size (Lfu.nodeMap_ s))
                =? CInt.to_size_t (Lfu.capacity_ s)
             then Lfu.kickOut dummyKey s else Some s) = Some s1
            ∧ Lfu.wf s1 ∧ Lfu.arena s1 = Lfu.arena s
            ∧ (∀ k' a, Lfu.nodeMap_ s1 !! k' = Some a →
                       Lfu.nodeMap_ s !! k' = Some a)
            ∧ Lfu.capacity_ s1 = Lfu.capacity_ s)
    as (s1 & H1 & W1 & Har1 & Hsub1 & Hc1).
  { destruct (Z.eqb_spec (Z.of_nat (size (Lfu.nodeMap_ s)))
                         (CInt.to_size_t (Lfu.capacity_ s))) as [E|_].
    - destruct (lfu_kickOut_wf s W (Hfull E)) as (s1 & k0 & H & W1 & Ha & Hn & Hc).
      exists s1. split; [exact H|]. split; [exact W1|]. split; [exact Ha|].
      split; [|exact Hc].
      intros k' a. rewrite Hn. apply lfu_lookup_delete_sub.
    - exists s. split; [reflexivity|]. split; [exact W|].
      split; [reflexivity|]. split; [auto | reflexivity]. }
  assert (Lfu.nodeMap_ s1 !! k = None) as Hk1.
  { destruct (Lfu.nodeMap_ s1 !! k) as [a|] eqn:E; [|reflexivity].
    rewrite (Hsub1 _ _ E) in Hk. discriminate. }
  destruct (lfu_link_new_wf0 s1 k v (proj1 W1) Hk1)
    as (s3 & H3 & W3 & Hn3 & Har3 & Hc3).
  destruct (lfu_addFreqNum_wf s3 W3) as (s4 & H4 & W4 & _ & Hn4 & _).
  destruct (lfu_addFreqNum_content _ _ H4) as (_ & Hv4 & Hc4).
  unfold Lfu.putInternal. rewrite H1. cbn [mbind option_bind]. cbv zeta.
  rewrite H3. cbn [mbind option_bind]. rewrite H4. cbn [mbind option_bind].
  eexists. split; [reflexivity|].
  pose proof W4 as (I1 & I2 & I3 & I5).
  replace (Z.min (Lfu.minFreq_ s4) 1) with 1 by lia.
  assert (Lfu.nodeMap_ s4 !! k = Some (length (Lfu.arena s1))) as Hk4
    by (rewrite Hn4, Hn3; apply lookup_insert_eq).
  split; [|split; [|split]].
  - split; [apply lfu_wf0_set_minFreq; [exact W4 | lia]|].
    cbn. exact I3.
  - cbn. congruence.
  - rewrite lfu_valueOf_alt. cbn. rewrite Hk4. cbn.
    rewrite Hv4, Har3, fmap_app. cbn.
    rewrite <- (length_fmap Lfu.value).
    apply list_lookup_middle. reflexivity.
  - intros k' Hne. rewrite !lfu_valueOf_alt. cbn.
    rewrite Hn4, Hn3, lookup_insert_ne by congruence.
    destruct (Lfu.nodeMap_ s1 !! k') as [a'|] eqn:E; [right|left; reflexivity].
    rewrite (Hsub1 _ _ E). cbn.
    rewrite Hv4, Har3, Har1, fmap_app.
    destruct (proj1 W) as (J1 & _).
    destruct (J1 k' a' (Hsub1 _ _ E)) as (n & Ha & _).
    assert ((Lfu.value <$> Lfu.arena s) !! a' = Some (Lfu.value n)) as Hva
      by (rewrite list_lookup_fmap, Ha; reflexivity).
    rewrite Hva. apply lookup_app_l_Some, Hva.
Qed.


Lemma lfu_wf_setValue s k a n v :
  Lfu.wf s → Lfu.nodeMap_ s !! k = Some a → Lfu.arena s !! a = Some n →
  Lfu.wf (Lfu.set_arena (<[a := Lfu.setValue v n]> (Lfu.arena s)) s).
Proof.
  intros [(I1 & I2 & I3 & I5) W4] Hk Ha.
  assert (a < length (Lfu.arena s))%nat as Hlt by (eapply lookup_lt_Some, Ha).
  split; [split; [|split; [|split]]|]; cbn; try assumption.
  - intros k' a' Hk'. destruct (I1 k' a' Hk') as (n' & Ha' & Hkey & Hf & Hb).
    destruct (decide (a' = a)) as [->|Hne].
    + rewrite Ha in Ha'. injection Ha' as <-.
      exists (Lfu.setValue v n). rewrite list_lookup_insert_eq by exact Hlt.
      auto.
    + exists n'. rewrite list_lookup_insert_ne by congruence. auto.
  - intros f l a' Hl Hin. destruct (I2 f l a' Hl Hin) as (n' & Ha' & Hf & H1).
    destruct (decide (a' = a)) as [->|Hne].
    + rewrite Ha in Ha'. injection Ha' as <-.
      exists (Lfu.setValue v n). rewrite list_lookup_insert_eq by exact Hlt.
      auto.
    + exists n'. rewrite list_lookup_insert_ne by congruence. auto.
Qed.

Lemma lfu_put_wf s k v :
  Lfu.wf s → Lfu.capacityOk s →
  ∃ s', Lfu.put dummyKey k v s = Some s' ∧ Lfu.wf s'
        ∧ Lfu.capacity_ s' = Lfu.capacity_ s
        ∧ (Lfu.capacity_ s ≠ 0 → Lfu.valueOf k s' = Some v)
        ∧ (∀ k', k' ≠ k →
             Lfu.valueOf k' s' = None ∨ Lfu.valueOf k' s' = Lfu.valueOf k' s).
Proof.
  intros W Hok. unfold Lfu.put.
  destruct (Z.eqb_spec (Lfu.capacity_ s) 0) as [E|E].
  - exists s. split; [reflexivity|]. split; [exact W|]. split; [reflexivity|].
    split; [done | right; reflexivity].
  - destruct (Lfu.nodeMap_ s !! k) as [a|] eqn:Hk.
    + destruct (lfu_wf_valueOf k a s (proj1 W) Hk) as (n & Ha & _).
      rewrite Ha. cbn [mbind option_bind].
      assert (a < length (Lfu.arena s))%nat as Hlt
        by (eapply lookup_lt_Some, Ha).
      set (s0 := Lfu.set_arena (<[a := Lfu.setValue v n]> (Lfu.arena s)) s).
      assert (Lfu.wf s0) as W0 by (eapply lfu_wf_setValue; eassumption).
      destruct (lfu_getInternal_wf s0 k a W0 Hk)
        as (s5 & n' & Ha' & H5 & W5 & Hn5 & Hv5 & Hc5).
      rewrite H5. cbn [mbind option_bind fst].
      exists s5. split; [reflexivity|]. split; [exact W5|].
      split; [exact Hc5|]. split.
      * intros _. rewrite lfu_valueOf_alt, Hn5, Hv5. cbn. rewrite Hk. cbn.
        rewrite list_lookup_fmap, list_lookup_insert_eq by exact Hlt.
        reflexivity.
      * intros k' Hne. right. rewrite !lfu_valueOf_alt, Hn5, Hv5. cbn.
        destruct (Lfu.nodeMap_ s !! k') as [a'|] eqn:Hk'; [|reflexivity]. cbn.
        destruct (proj1 W) as (I1 & _).
        destruct (I1 k a Hk) as (m & Hm & Hkm & _).
        destruct (I1 k' a' Hk') as (m' & Hm' & Hkm' & _).
        assert (a ≠ a') by (intros ->; congruence).
        rewrite !list_lookup_fmap, list_lookup_insert_ne by assumption.
        reflexivity.
    + destruct (lfu_putInternal_wf s k v W Hk) as (s' & H & W' & Hc & Hv & Ho).
      { intros Hsz Hemp. rewrite Hemp, map_size_empty in Hsz.
        apply (Hok E). symmetry. exact Hsz. }
      exists s'. split; [exact H|]. split; [exact W'|]. split; [exact Hc|].
      split; [intros _; exact Hv | exact Ho].
Qed.

Lemma lfu_get_wf s k :
  Lfu.wf s →
  ∃ s', Lfu.get k s = Some (s', Lfu.valueOf k s) ∧ Lfu.wf s'
        ∧ Lfu.capacity_ s' = Lfu.capacity_ s
        ∧ ∀ k', Lfu.valueOf k' s' = Lfu.valueOf k' s.
Proof.
  intros W. unfold Lfu.get.
  destruct (Lfu.nodeMap_ s !! k) as [a|] eqn:Hk.
  - destruct (lfu_getInternal_wf s k a W Hk)
      as (s5 & n & Ha & H5 & W5 & Hn5 & Hv5 & Hc5).
    rewrite H5. cbn [mbind option_bind fst snd].
    exists s5. split.
    { unfold Lfu.valueOf. rewrite Hk. cbn. rewrite Ha. reflexivity. }
    split; [exact W5|]. split; [exact Hc5|].
    intros k'. apply lfu_valueOf_same; assumption.
  - exists s. split.
    { unfold Lfu.valueOf. rewrite Hk. reflexivity. }
    split; [exact W|]. split; reflexivity.
Qed.

Lemma lfu_purge_wf s : Lfu.wf s → Lfu.wf (Lfu.purge s).
Proof.
  intros [(I1 & I2 & I3 & I5) W4].
  split; [split; [|split; [|split]]|]; cbn; try assumption; try done.
Qed.

Lemma lfu_new_wf (C M : Z) : Lfu.wf (Lfu.new (Value:=Value) C M).
Proof.
  split; [split; [|split; [|split]]|]; cbn; try done.
Qed.

Lemma lfu_step_wf s o :
  Lfu.wf s → Lfu.capacityOk s →
  ∃ s', Lfu.step dummyKey s o = Some s' ∧ Lfu.wf s'
        ∧ Lfu.capacity_ s' = Lfu.capacity_ s
        ∧ (∀ k, (∀ v, o ≠ Lfu.Put k v) →
             Lfu.valueOf k s' = None ∨ Lfu.valueOf k s' = Lfu.valueOf k s)
        ∧ (∀ k v, o = Lfu.Put k v → Lfu.capacity_ s ≠ 0 →
             Lfu.valueOf k s' = Some v).
Proof.
  intros W Hok. destruct o as [k v|k|]; cbn [Lfu.step].
  - destruct (lfu_put_wf s k v W Hok) as (s' & H & W' & Hc & Hv & Ho).
    exists s'. split; [exact H|]. split; [exact W'|]. split; [exact Hc|].
    split.
    + intros k' Hne. apply Ho. intros ->. exact (Hne v eq_refl).
    + intros k' v' [= <- <-]. exact Hv.
  - destruct (lfu_get_wf s k W) as (s' & H & W' & Hc & Hv).
    rewrite H. cbn. exists s'. split; [reflexivity|]. split; [exact W'|].
    split; [exact Hc|]. split; [intros k' _; right; apply Hv | discriminate].
  - exists (Lfu.purge s). split; [reflexivity|].
    split; [apply lfu_purge_wf, W|]. split; [reflexivity|].
    split; [intros k _; left; reflexivity | discriminate].
Qed.

Lemma lfu_run_cons o ops s :
  Lfu.run dummyKey (o :: ops) s
  = Lfu.step dummyKey s o ≫= Lfu.run dummyKey ops.
Proof. reflexivity. Qed.

Lemma lfu_run_app ops1 ops2 s :
  Lfu.run dummyKey (ops1 ++ ops2) s
  = Lfu.run dummyKey ops1 s ≫= Lfu.run dummyKey ops2.
Proof.
  revert s. induction ops1 as [|o ops1 IH]; intros s; [reflexivity|].
  cbn [app]. rewrite !lfu_run_cons.
  destruct (Lfu.step dummyKey s o); cbn; [apply IH | reflexivity].
Qed.

(** Every run from a well-formed object is defined: no call dereferences
    a null list. *)
Lemma lfu_run_wf ops s :
  Lfu.wf s → Lfu.capacityOk s →
  ∃ s', Lfu.run dummyKey ops s = Some s' ∧ Lfu.wf s'
        ∧ Lfu.capacity_ s' = Lfu.capacity_ s
        ∧ ∀ k v, (∀ v', Lfu.Put k v' ∉ ops) →
            (Lfu.valueOf k s = None ∨ Lfu.valueOf k s = Some v) →
            (Lfu.valueOf k s' = None ∨ Lfu.valueOf k s' = Some v).
Proof.
  revert s. induction ops as [|o ops IH]; intros s W Hok.
  - exists s. split; [reflexivity|]. split; [exact W|].
    split; [reflexivity | auto].
  - destruct (lfu_step_wf s o W Hok) as (s1 & H1 & W1 & Hc1 & Ho1 & _).
    destruct (IH s1 W1) as (s' & H' & W' & Hc' & Ho').
    { unfold Lfu.capacityOk. rewrite Hc1. exact Hok. }
    exists s'. rewrite lfu_run_cons, H1. cbn [mbind option_bind].
    split; [exact H'|]. split; [exact W'|]. split; [congruence|].
    intros k v Hops Hv. apply Ho'.
    + intros v' Hin. apply (Hops v'). right. exact Hin.
    + destruct (Ho1 k) as [E|E]; [|left; exact E|rewrite E; exact Hv].
      intros v' ->. apply (Hops v'). left.
Qed.

(** Put-get coherence of KLfuCache, together with the fact that every run
    is defined. *)
Lemma lfu_put_get_coherent (C M : Z) (ops0 ops : list (Lfu.op Value))
    (k : Z) (v : Value) :
  0 < C < 2 ^ 31 → (∀ v', Lfu.Put k v' ∉ ops) →
  ∃ s, Lfu.run dummyKey (ops0 ++ Lfu.Put k v :: ops) (Lfu.new C M) = Some s
       ∧ (ops = [] → is_Some (Lfu.nodeMap_ s !! k))
       ∧ (is_Some (Lfu.nodeMap_ s !! k) →
          ∃ s', Lfu.get k s = Some (s', Some v))
       ∧ ∃ s' r, Lfu.get k s = Some (s', r) ∧ (r = Some v ∨ r = None).
Proof.
  intros HC Hops.
  assert (∀ s : Lfu.KLfuCache Value, Lfu.capacity_ s = C → Lfu.capacityOk s)
    as Hok.
  { intros s Hc _. rewrite Hc, to_size_t_small; lia. }
  destruct (lfu_run_wf ops0 (Lfu.new C M) (lfu_new_wf C M)
              (Hok (Lfu.new C M) eq_refl))
    as (s0 & H0 & W0 & Hc0 & _).
  cbn in Hc0.
  destruct (lfu_step_wf s0 (Lfu.Put k v) W0 (Hok _ Hc0))
    as (s1 & H1 & W1 & Hc1 & _ & Hv1).
  specialize (Hv1 k v eq_refl). rewrite Hc0 in Hv1.
  assert (C ≠ 0) as HC0 by lia. specialize (Hv1 HC0).
  destruct (lfu_run_wf ops s1 W1) as (s & H & W & Hc & Hv).
  { apply Hok. congruence. }
  specialize (Hv k v Hops (or_intror Hv1)).
  exists s. split.
  { rewrite lfu_run_app, H0. cbn [mbind option_bind].
    rewrite lfu_run_cons, H1. exact H. }
  destruct (lfu_get_wf s k W) as (s' & Hg & _).
  split; [|split].
  - intros ->. injection H as <-.
    unfold Lfu.valueOf in Hv1.
    destruct (Lfu.nodeMap_ s1 !! k); [eauto | discriminate].
  - intros [a Ha]. exists s'. rewrite Hg.
    destruct (lfu_wf_valueOf k a s (proj1 W) Ha) as (n & _ & E).
    destruct Hv as [Hv|Hv]; [congruence|]. rewrite Hv. reflexivity.
  - exists s', (Lfu.valueOf k s). split; [exact Hg|].
    destruct Hv as [Hv|Hv]; [right|left]; exact Hv.
Qed.

End LfuWf.
(** ** Chains *)

Lemma chain_unlink_absent (k : Z) (l : list Z) :
  k ∉ l → Chain.unlink k l = l.
Proof.
  induction l as [|x l IH]; intros Hk; [reflexivity|]. cbn.
  destruct (decide (x = k)) as [->|Hne]; [exfalso; apply Hk; left|].
  f_equal. apply IH. intros Hin. apply Hk. right. exact Hin.
Qed.

Lemma chain_unlink_elem_of (k x : Z) (l : list Z) :
  NoDup l → x ∈ Chain.unlink k l ↔ x ∈ l ∧ x ≠ k.
Proof.
  induction l as [|y l IH]; intros Hnd; cbn.
  - split; [intros H; inversion H | intros [H _]; inversion H].
  - apply NoDup_cons in Hnd as [Hy Hnd].
    destruct (decide (y = k)) as [->|Hne].
    + split.
      * intros Hx. split; [right; exact Hx|]. intros ->. exact (Hy Hx).
      * intros [Hx Hxk]. apply elem_of_cons in Hx as [->|Hx]; [done|exact Hx].
    + rewrite !elem_of_cons, (IH Hnd). split.
      * intros [->|[Hx Hxk]]; [split; [left; reflexivity|exact Hne]|].
        split; [right; exact Hx | exact Hxk].
      * intros [[->|Hx] Hxk]; [left; reflexivity | right; split; assumption].
Qed.

Lemma chain_unlink_NoDup (k : Z) (l : list Z) :
  NoDup l → NoDup (Chain.unlink k l).
Proof.
  induction l as [|y l IH]; intros Hnd; cbn; [exact Hnd|].
  pose proof Hnd as Hnd0. apply NoDup_cons in Hnd as [Hy Hnd].
  destruct (decide (y = k)); [exact Hnd|].
  apply NoDup_cons. split; [|apply IH, Hnd].
  rewrite (chain_unlink_elem_of k y l Hnd). tauto.
Qed.

Lemma chain_dropLast_snoc (l : list Z) (x : Z) :
  Chain.dropLast (l ++ [x]) = l.
Proof.
  unfold Chain.dropLast. rewrite length_app. cbn.
  replace (length l + 1 - 1)%nat with (length l) by lia.
  apply take_app_length.
Qed.

Lemma chain_last_cases (l : list Z) :
  (l = [] ∧ last l = None) ∨ ∃ l' x, l = l' ++ [x] ∧ last l = Some x.
Proof.
  destruct l as [|y l] using rev_ind; [left; split; reflexivity|].
  right. exists l, y. split; [reflexivity | apply last_snoc].
Qed.

(** ** KLruCache: the entry count never exceeds the capacity *)

Section LruCapacity.
Context {Value : Type}.
Implicit Types s : Lru.KLruCache Value.

Lemma lru_wf_size s :
  Lru.wf s → size (Lru.nodeMap_ s) = length (Lru.list_ s).
Proof.
  intros [Hnd Hdom]. rewrite <- size_dom, Hdom.
  apply size_list_to_set, Hnd.
Qed.

Lemma lru_new_wf (C : Z) : Lru.wf (Lru.new (Value:=Value) C).
Proof. split; cbn; [constructor | apply dom_empty_L]. Qed.

Lemma lru_moveToMostRecent_wf s k :
  Lru.wf s → is_Some (Lru.nodeMap_ s !! k) →
  Lru.wf (Lru.moveToMostRecent k s).
Proof.
  intros [Hnd Hdom] Hk. apply elem_of_dom in Hk. rewrite Hdom in Hk.
  apply elem_of_list_to_set in Hk.
  split; cbn.
  - apply NoDup_app. split; [apply chain_unlink_NoDup, Hnd|].
    split; [|apply NoDup_singleton].
    intros x Hx Hx'. apply list_elem_of_singleton in Hx' as ->.
    apply (chain_unlink_elem_of k k _ Hnd) in Hx. tauto.
  - rewrite Hdom. apply set_eq. intros x.
    rewrite !elem_of_list_to_set, elem_of_app,
      (chain_unlink_elem_of k x _ Hnd), list_elem_of_singleton.
    destruct (decide (x = k)) as [->|]; tauto.
Qed.

Lemma lru_get_wf s k : Lru.wf s → Lru.wf (Lru.get k s).1.
Proof.
  intros W. unfold Lru.get.
  destruct (Lru.nodeMap_ s !! k) as [n|] eqn:Hk; [|exact W].
  apply lru_moveToMostRecent_wf; [exact W | rewrite Hk; eauto].
Qed.

(** [put] keeps the object well formed and, when the capacity is a
    [size_t] value, within its capacity. *)
Lemma lru_put_wf s k v :
  Lru.wf s → 0 ≤ Lru.capacity_ s < 2 ^ 64 →
  Z.of_nat (size (Lru.nodeMap_ s)) ≤ Lru.capacity_ s →
  Lru.wf (Lru.put k v s)
  ∧ Z.of_nat (size (Lru.nodeMap_ (Lru.put k v s))) ≤ Lru.capacity_ s.
Proof.
  intros W Hc Hsz. unfold Lru.put.
  destruct (Z.leb_spec (Lru.capacity_ s) 0) as [_|Hpos];
    [split; assumption|].
  destruct (Lru.nodeMap_ s !! k) as [n|] eqn:Hk.
  - unfold Lru.updateExistingNode. split.
    + apply lru_moveToMostRecent_wf.
      * destruct W as [Hnd Hdom]. split; cbn; [exact Hnd|].
        rewrite dom_alter_L. exact Hdom.
      * cbn. rewrite lookup_alter_eq, Hk. cbn. eauto.
    + cbn. rewrite <- size_dom, dom_alter_L, size_dom. exact Hsz.
  - unfold Lru.addNewNode. rewrite to_size_t_small by lia.
    assert (k ∉ Lru.list_ s) as Hnotin.
    { destruct W as [_ Hdom]. intros Hin.
      apply (elem_of_list_to_set (C:=gset Z)) in Hin.
      rewrite <- Hdom in Hin. apply elem_of_dom in Hin as [? ?]. congruence. }
    destruct (Z.geb_spec (Z.of_nat (size (Lru.nodeMap_ s))) (Lru.capacity_ s))
      as [Hfull|Hroom].
    + pose proof (lru_wf_size s W) as Hlen.
      unfold Lru.evictLeastRecent.
      destruct (Lru.list_ s) as [|x l] eqn:Hl; [cbn in Hlen; lia|].
      destruct W as [Hnd Hdom]. rewrite Hl in Hnd. rewrite Hl in Hdom.
      apply NoDup_cons in Hnd as [Hx Hnd].
      assert (k ≠ x) as Hkx by (intros ->; apply Hnotin; left).
      assert (dom (delete x (Lru.nodeMap_ s)) = list_to_set l) as Hdom'.
      { rewrite dom_delete_L, Hdom. cbn. apply set_eq. intros y.
        rewrite elem_of_difference, elem_of_union, !elem_of_singleton,
          elem_of_list_to_set.
        split; [intros [[->|Hy] Hne]; [done | exact Hy]|].
        intros Hy. split; [right; exact Hy|]. intros ->. exact (Hx Hy). }
      cbn. split; [split; cbn|].
      * apply NoDup_app. split; [exact Hnd|]. split; [|apply NoDup_singleton].
        intros y Hy Hy'. apply list_elem_of_singleton in Hy' as ->.
        apply Hnotin. right. exact Hy.
      * rewrite dom_insert_L, Hdom', list_to_set_app_L.
        apply set_eq. intros y.
        rewrite !elem_of_union, !elem_of_list_to_set, elem_of_singleton,
          list_elem_of_singleton. tauto.
      * rewrite map_size_insert_None.
        -- assert (size (delete x (Lru.nodeMap_ s)) = length l) as ->.
           { rewrite <- size_dom, Hdom'. apply size_list_to_set, Hnd. }
           cbn in Hlen. lia.
        -- rewrite lookup_delete_ne by congruence. exact Hk.
    + cbn. destruct W as [Hnd Hdom]. split; [split; cbn|].
      * apply NoDup_app. split; [exact Hnd|]. split; [|apply NoDup_singleton].
        intros y Hy Hy'. apply list_elem_of_singleton in Hy' as ->.
        exact (Hnotin Hy).
      * rewrite dom_insert_L, Hdom, list_to_set_app_L.
        apply set_eq. intros y.
        rewrite !elem_of_union, !elem_of_list_to_set, elem_of_singleton,
          list_elem_of_singleton. tauto.
      * rewrite map_size_insert_None by exact Hk. lia.
Qed.

Lemma lru_step_bounded s o :
  Lru.wf s → 0 ≤ Lru.capacity_ s < 2 ^ 64 →
  Z.of_nat (size (Lru.nodeMap_ s)) ≤ Lru.capacity_ s →
  Lru.wf (Lru.step s o)
  ∧ Z.of_nat (size (Lru.nodeMap_ (Lru.step s o))) ≤ Lru.capacity_ s.
Proof.
  intros W Hc Hsz. destruct o as [k v|k]; cbn [Lru.step].
  - apply lru_put_wf; assumption.
  - split; [apply lru_get_wf, W|]. rewrite lru_get_nodeMap. exact Hsz.
Qed.

Lemma lru_run_bounded ops s :
  Lru.wf s → 0 ≤ Lru.capacity_ s < 2 ^ 64 →
  Z.of_nat (size (Lru.nodeMap_ s)) ≤ Lru.capacity_ s →
  Lru.wf (Lru.run ops s)
  ∧ Z.of_nat (size (Lru.nodeMap_ (Lru.run ops s))) ≤ Lru.capacity_ s.
Proof.
  unfold Lru.run. revert s.
  induction ops as [|o ops IH]; intros s W Hc Hsz; [split; assumption|].
  cbn. destruct (lru_step_bounded s o W Hc Hsz) as [W1 Hsz1].
  assert (Lru.capacity_ (Lru.step s o) = Lru.capacity_ s) as Hc1.
  { destruct o; cbn; [apply lru_put_capacity | apply lru_get_capacity]. }
  rewrite <- Hc1. apply IH; rewrite ?Hc1; assumption.
Qed.

End LruCapacity.
(** ** ARC, LRU half: the entry count never exceeds the current capacity *)

Section ArcLruCapacity.
Context {Value : Type}.
Implicit Types p : ArcLru.ArcLruPart Value.

Lemma arcLru_wf_size p :
  ArcLru.wf p → size (ArcLru.mainCache_ p) = length (ArcLru.mainList p).
Proof.
  intros [Hnd Hdom]. rewrite <- size_dom, Hdom.
  apply size_list_to_set, Hnd.
Qed.

Lemma arcLru_evict_main p :
  ArcLru.mainCache_ (ArcLru.evictLeastRecent p)
  = match last (ArcLru.mainList p) with
    | Some k => delete k (ArcLru.mainCache_ p)
    | None => ArcLru.mainCache_ p
    end
  ∧ ArcLru.mainList (ArcLru.evictLeastRecent p)
    = match last (ArcLru.mainList p) with
      | Some k => Chain.dropLast (ArcLru.mainList p)
      | None => ArcLru.mainList p
      end.
Proof.
  unfold ArcLru.evictLeastRecent.
  destruct (last (ArcLru.mainList p)); [|split; reflexivity]. cbn.
  destruct (_ >=? _); [|split; reflexivity].
  unfold ArcLru.removeOldestGhost. cbn.
  destruct (last (ArcLru.ghostList p)); split; reflexivity.
Qed.

(** An eviction keeps the half well formed and, unless the half is empty,
    removes exactly one entry. *)
Lemma arcLru_evict_wf p :
  ArcLru.wf p →
  ArcLru.wf (ArcLru.evictLeastRecent p)
  ∧ size (ArcLru.mainCache_ (ArcLru.evictLeastRecent p))
    = Nat.pred (size (ArcLru.mainCache_ p)).
Proof.
  intros W. pose proof (arcLru_wf_size p W) as Hlen.
  destruct W as [Hnd Hdom].
  destruct (arcLru_evict_main p) as [Hm Hl].
  unfold ArcLru.wf. rewrite Hm, Hl.
  destruct (chain_last_cases (ArcLru.mainList p))
    as [[E Hlast] | (l' & x & E & Hlast)]; rewrite Hlast.
  - split; [split; assumption|]. rewrite Hlen, E. reflexivity.
  - rewrite E in Hnd, Hdom, Hlen |- *. rewrite chain_dropLast_snoc.
    apply NoDup_app in Hnd as (Hnd & Hx & _).
    assert (x ∉ l') as Hx'.
    { intros Hin. apply (Hx x Hin). apply list_elem_of_singleton. reflexivity. }
    assert (dom (delete x (ArcLru.mainCache_ p)) = list_to_set l') as Hdom'.
    { rewrite dom_delete_L, Hdom, list_to_set_app_L. apply set_eq. intros y.
      rewrite elem_of_difference, elem_of_union, !elem_of_list_to_set,
        elem_of_singleton, list_elem_of_singleton.
      split; [intros [[Hy| ->] Hne]; [exact Hy | done]|].
      intros Hy. split; [left; exact Hy|]. intros ->. exact (Hx' Hy). }
    split; [split; assumption|].
    rewrite <- size_dom, Hdom', size_list_to_set by exact Hnd.
    rewrite Hlen, length_app. cbn. lia.
Qed.

Lemma arcLru_moveToFront_wf p k :
  ArcLru.wf p → is_Some (ArcLru.mainCache_ p !! k) →
  ArcLru.wf (ArcLru.moveToFront k p).
Proof.
  intros [Hnd Hdom] Hk. apply elem_of_dom in Hk. rewrite Hdom in Hk.
  apply elem_of_list_to_set in Hk.
  split; cbn.
  - apply NoDup_cons. split; [|apply chain_unlink_NoDup, Hnd].
    rewrite (chain_unlink_elem_of k k _ Hnd). tauto.
  - rewrite Hdom. apply set_eq. intros x.
    rewrite elem_of_union, !elem_of_list_to_set, elem_of_singleton,
      (chain_unlink_elem_of k x _ Hnd).
    destruct (decide (x = k)) as [->|]; tauto.
Qed.

Lemma arcLru_alter_wf p k (g : ArcNode.ArcNode Value → ArcNode.ArcNode Value) :
  ArcLru.wf p →
  ArcLru.wf (ArcLru.set_main (alter g k (ArcLru.mainCache_ p))
                             (ArcLru.mainList p) p).
Proof.
  intros [Hnd Hdom]. split; cbn; [exact Hnd|].
  rewrite dom_alter_L. exact Hdom.
Qed.

Lemma arcLru_put_bounded p k v :
  ArcLru.wf p →
  Z.of_nat (size (ArcLru.mainCache_ p)) ≤ ArcLru.capacity_ p →
  ArcLru.wf (ArcLru.put k v p).1
  ∧ Z.of_nat (size (ArcLru.mainCache_ (ArcLru.put k v p).1))
    ≤ ArcLru.capacity_ p.
Proof.
  intros W Hsz. unfold ArcLru.put.
  destruct (Z.eqb_spec (ArcLru.capacity_ p) 0) as [_|Hc0];
    [split; assumption|].
  destruct (ArcLru.mainCache_ p !! k) as [n|] eqn:Hk; cbn [fst].
  - unfold ArcLru.updateExistingNode. split.
    + apply arcLru_moveToFront_wf; [apply arcLru_alter_wf, W|].
      cbn. rewrite lookup_alter_eq, Hk. cbn. eauto.
    + cbn. rewrite <- size_dom, dom_alter_L, size_dom. exact Hsz.
  - unfold ArcLru.addNewNode.
    assert (∀ q : ArcLru.ArcLruPart Value,
              ArcLru.wf q → ArcLru.mainCache_ q !! k = None →
              ArcLru.wf (ArcLru.addToFront k
                (ArcLru.set_main (<[k := ArcNode.make v]> (ArcLru.mainCache_ q))
                                 (ArcLru.mainList q) q))
              ∧ size (<[k := ArcNode.make v]> (ArcLru.mainCache_ q))
                = S (size (ArcLru.mainCache_ q))) as Hins.
    { intros q [Hnd Hdom] Hq. split; [split; cbn|].
      - apply NoDup_cons. split; [|exact Hnd]. intros Hin.
        apply (elem_of_list_to_set (C:=gset Z)) in Hin.
        rewrite <- Hdom in Hin. apply elem_of_dom in Hin as [? ?]. congruence.
      - rewrite dom_insert_L, Hdom. reflexivity.
      - apply map_size_insert_None, Hq. }
    destruct (Z.geb_spec (Z.of_nat (size (ArcLru.mainCache_ p)))
                         (ArcLru.capacity_ p)) as [Hfull|Hroom].
    + destruct (arcLru_evict_wf p W) as [W1 Hsz1].
      assert (ArcLru.mainCache_ (ArcLru.evictLeastRecent p) !! k = None)
        as Hk1.
      { rewrite (proj1 (arcLru_evict_main p)).
        destruct (last (ArcLru.mainList p)); [|exact Hk].
        destruct (decide (z = k)) as [->|Hne];
          [apply lookup_delete_eq | rewrite lookup_delete_ne; assumption]. }
      destruct (Hins _ W1 Hk1) as [W2 Hsz2].
      split; [exact W2|]. cbn. rewrite Hsz2, Hsz1. lia.
    + destruct (Hins _ W Hk) as [W2 Hsz2].
      split; [exact W2|]. cbn. rewrite Hsz2. lia.
Qed.

Lemma arcLru_get_bounded p k :
  ArcLru.wf p →
  ArcLru.wf (ArcLru.get k p).1
  ∧ size (ArcLru.mainCache_ (ArcLru.get k p).1) = size (ArcLru.mainCache_ p).
Proof.
  intros W. unfold ArcLru.get.
  destruct (ArcLru.mainCache_ p !! k) as [n|] eqn:Hk;
    [|split; [exact W | reflexivity]].
  unfold ArcLru.updateNodeAccess. cbn. split.
  - apply (arcLru_alter_wf (ArcLru.moveToFront k p)).
    apply arcLru_moveToFront_wf; [exact W | rewrite Hk; eauto].
  - rewrite <- size_dom, dom_alter_L, size_dom. reflexivity.
Qed.

Lemma arcLru_checkGhost_main p k :
  ArcLru.mainCache_ (ArcLru.checkGhost k p).1 = ArcLru.mainCache_ p
  ∧ ArcLru.mainList (ArcLru.checkGhost k p).1 = ArcLru.mainList p
  ∧ ArcLru.capacity_ (ArcLru.checkGhost k p).1 = ArcLru.capacity_ p.
Proof. unfold ArcLru.checkGhost. case_decide; repeat split. Qed.

Lemma arcLru_decreaseCapacity_bounded p :
  ArcLru.wf p → 0 ≤ ArcLru.capacity_ p →
  Z.of_nat (size (ArcLru.mainCache_ p)) ≤ ArcLru.capacity_ p →
  let r := ArcLru.decreaseCapacity p in
  ArcLru.wf r.1
  ∧ Z.of_nat (size (ArcLru.mainCache_ r.1)) ≤ ArcLru.capacity_ r.1
  ∧ 0 ≤ ArcLru.capacity_ r.1
  ∧ ArcLru.capacity_ r.1
    = (if r.2 then ArcLru.capacity_ p - 1 else ArcLru.capacity_ p).
Proof.
  intros W Hc Hsz. cbv zeta. unfold ArcLru.decreaseCapacity.
  destruct (Z.leb_spec (ArcLru.capacity_ p) 0) as [Hle|Hgt]; cbn [fst snd].
  - split; [exact W|]. repeat split; assumption.
  - destruct (Z.eqb_spec (Z.of_nat (size (ArcLru.mainCache_ p)))
                         (ArcLru.capacity_ p)) as [E|E].
    + destruct (arcLru_evict_wf p W) as [W1 Hsz1]. cbn.
      rewrite arcLru_evict_capacity.
      split; [exact W1|]. rewrite Hsz1. repeat split; lia.
    + cbn. split; [exact W|]. repeat split; lia.
Qed.

End ArcLruCapacity.
(** ** ARC, LFU half: the entry count never exceeds the current capacity *)

Section ArcLfuCapacity.
Context {Value : Type}.
Implicit Types q : ArcLfu.ArcLfuPart Value.

Lemma arcLfu_firstKey_list (b : list (Z * list Z)) :
  b ≠ [] →
  ∃ f l, foldr (λ p acc, match acc with
                         | None => Some p.1
                         | Some f => Some (Z.min p.1 f)
                         end) None b = Some f ∧ (f, l) ∈ b.
Proof.
  induction b as [|[f l] b IH]; [done|]. intros _. cbn.
  destruct b as [|p b'].
  - cbn. exists f, l. split; [reflexivity | left].
  - destruct IH as (f' & l' & -> & Hin); [done|].
    destruct (Z.min_spec f f') as [[_ E]|[_ E]]; rewrite E.
    + exists f, l. split; [reflexivity | left].
    + exists f', l'. split; [reflexivity | right; exact Hin].
Qed.

Lemma arcLfu_firstKey_Some (m : gmap Z (list Z)) :
  m ≠ ∅ → ∃ f, ArcLfu.firstKey m = Some f ∧ is_Some (m !! f).
Proof.
  intros Hne. unfold ArcLfu.firstKey.
  destruct (arcLfu_firstKey_list (map_to_list m)) as (f & l & E & Hin).
  { intros E. apply map_to_list_empty_iff in E. exact (Hne E). }
  exists f. split; [exact E|]. apply elem_of_map_to_list in Hin. eauto.
Qed.

Lemma arcLfu_wf_freqMap_empty q :
  ArcLfu.wf q → ArcLfu.mainCache_ q = ∅ → ArcLfu.freqMap_ q = ∅.
Proof.
  intros (J1 & J2 & _) Hm.
  destruct (map_choose_or_empty (ArcLfu.freqMap_ q)) as [(f & l & Hl)|E];
    [|exact E].
  destruct (J1 f l Hl) as [Hne _]. destruct l as [|k l]; [done|].
  destruct (J2 f _ k Hl) as (n & Hn & _); [left|].
  rewrite Hm, lookup_empty in Hn. discriminate.
Qed.

Lemma arcLfu_touch_present f (m : gmap Z (list Z)) :
  is_Some (m !! f) → ArcLfu.touch f m = m.
Proof. intros [l Hl]. unfold ArcLfu.touch. rewrite Hl. reflexivity. Qed.

(** What an eviction does to the index, the lists and [minFreq_] when the
    list of [minFreq_] starts with [k]. *)
Lemma arcLfu_evict_effect q k rest :
  ArcLfu.freqMap_ q !! ArcLfu.minFreq_ q = Some (k :: rest) →
  let q' := ArcLfu.evictLeastFrequent q in
  ArcLfu.mainCache_ q' = delete k (ArcLfu.mainCache_ q)
  ∧ ArcLfu.capacity_ q' = ArcLfu.capacity_ q
  ∧ ((rest = []
      ∧ ArcLfu.freqMap_ q' = delete (ArcLfu.minFreq_ q) (ArcLfu.freqMap_ q)
      ∧ ArcLfu.minFreq_ q'
        = default (ArcLfu.minFreq_ q)
            (ArcLfu.firstKey
               (delete (ArcLfu.minFreq_ q) (ArcLfu.freqMap_ q))))
     ∨ (rest ≠ []
        ∧ ArcLfu.freqMap_ q'
          = <[ArcLfu.minFreq_ q := rest]> (ArcLfu.freqMap_ q)
        ∧ ArcLfu.minFreq_ q' = ArcLfu.minFreq_ q)).
Proof.
  intros Hl. cbv zeta. unfold ArcLfu.evictLeastFrequent.
  case_decide as Hemp; [rewrite Hemp, lookup_empty in Hl; discriminate|].
  rewrite arcLfu_touch_present by (rewrite Hl; eauto).
  cbn [ArcLfu.freqMap_ ArcLfu.minFreq_ ArcLfu.set_freqMap].
  rewrite Hl. change (default [] (Some (k :: rest))) with (k :: rest).
  cbv beta iota.
  case_decide as Hrest.
  - destruct (ArcLfu.firstKey _) as [f|] eqn:Hf; cbn;
      destruct (_ >=? _); cbn; unfold ArcLfu.removeOldestGhost; cbn;
      try destruct (ArcLfu.ghostList q); cbn;
      (split; [reflexivity|]; split; [reflexivity|]; left;
       rewrite ?Hf; repeat split; exact Hrest).
  - destruct (_ >=? _); cbn; unfold ArcLfu.removeOldestGhost; cbn;
      try destruct (ArcLfu.ghostList q); cbn;
      (split; [reflexivity|]; split; [reflexivity|]; right;
       repeat split; exact Hrest).
Qed.

(** An eviction keeps the half well formed and, unless the half is empty,
    removes exactly one entry. *)
Lemma arcLfu_evict_wf q :
  ArcLfu.wf q →
  ArcLfu.wf (ArcLfu.evictLeastFrequent q)
  ∧ size (ArcLfu.mainCache_ (ArcLfu.evictLeastFrequent q))
    = Nat.pred (size (ArcLfu.mainCache_ q)).
Proof.
  intros W. pose proof W as (J1 & J2 & J3 & J4).
  destruct (decide (ArcLfu.mainCache_ q = ∅)) as [Hemp|Hne].
  - pose proof (arcLfu_wf_freqMap_empty q W Hemp) as Hf.
    unfold ArcLfu.evictLeastFrequent. rewrite decide_True by exact Hf.
    split; [exact W|]. rewrite Hemp, map_size_empty. reflexivity.
  - destruct (J4 Hne) as [l Hl].
    destruct (J1 _ l Hl) as [Hlne Hnd].
    destruct l as [|k rest]; [done|].
    apply NoDup_cons in Hnd as [Hk Hnd].
    destruct (J2 _ _ k Hl) as (nk & Hnk & Hck); [left|].
    destruct (arcLfu_evict_effect q k rest Hl) as (Hm & _ & Hcases).
    cbv zeta in Hm, Hcases.
    split; [|rewrite Hm; apply map_size_delete_Some; rewrite Hnk; eauto].
    assert (∀ f l' k', f ≠ ArcLfu.minFreq_ q →
              ArcLfu.freqMap_ q !! f = Some l' → k' ∈ l' → k' ≠ k) as Hother.
    { intros f l' k' Hf Hl' Hin ->.
      destruct (J2 f l' k Hl' Hin) as (n' & Hn' & Hc'). congruence. }
    unfold ArcLfu.wf. rewrite Hm.
    destruct Hcases as [(-> & Hfm & Hmin)|(Hrest & Hfm & Hmin)];
      rewrite Hfm, Hmin.
    + split; [|split; [|split]].
      * intros f l'. destruct (decide (f = ArcLfu.minFreq_ q)) as [->|Hf];
          [rewrite lookup_delete_eq; discriminate|].
        rewrite lookup_delete_ne by congruence. apply J1.
      * intros f l' k'. destruct (decide (f = ArcLfu.minFreq_ q)) as [->|Hf];
          [rewrite lookup_delete_eq; discriminate|].
        rewrite lookup_delete_ne by congruence. intros Hl' Hin.
        rewrite lookup_delete_ne
          by (intros E; symmetry in E; revert E; eapply Hother; eassumption).
        eapply J2; eassumption.
      * intros k' n'. destruct (decide (k = k')) as [->|Hkk];
          [rewrite lookup_delete_eq; discriminate|].
        rewrite lookup_delete_ne by exact Hkk. intros Hn'.
        destruct (J3 k' n' Hn') as (l' & Hl' & Hin).
        exists l'. split; [|exact Hin].
        rewrite lookup_delete_ne; [exact Hl'|].
        intros E. rewrite <- E, Hl in Hl'. injection Hl' as <-.
        apply list_elem_of_singleton in Hin. congruence.
      * intros Hne'. apply map_choose in Hne' as (k' & n' & Hn').
        destruct (decide (k = k')) as [->|Hkk];
          [rewrite lookup_delete_eq in Hn'; discriminate|].
        rewrite lookup_delete_ne in Hn' by exact Hkk.
        destruct (J3 k' n' Hn') as (l' & Hl' & Hin).
        destruct (arcLfu_firstKey_Some
                    (delete (ArcLfu.minFreq_ q) (ArcLfu.freqMap_ q)))
          as (f & -> & Hf); [|exact Hf].
        intros E. apply (f_equal (λ m, m !! ArcNode.accessCount_ n')) in E.
        rewrite lookup_empty, lookup_delete_ne, Hl' in E; [discriminate|].
        intros E'. rewrite <- E', Hl in Hl'. injection Hl' as <-.
        apply list_elem_of_singleton in Hin. congruence.
    + split; [|split; [|split]].
      * intros f l'. destruct (decide (f = ArcLfu.minFreq_ q)) as [->|Hf].
        -- rewrite lookup_insert_eq. intros [= <-]. split; assumption.
        -- rewrite lookup_insert_ne by congruence. apply J1.
      * intros f l' k'. destruct (decide (f = ArcLfu.minFreq_ q)) as [->|Hf].
        -- rewrite lookup_insert_eq. intros [= <-] Hin.
           rewrite lookup_delete_ne by (intros ->; exact (Hk Hin)).
           eapply J2; [exact Hl | right; exact Hin].
        -- rewrite lookup_insert_ne by congruence. intros Hl' Hin.
           rewrite lookup_delete_ne
             by (intros E; symmetry in E; revert E; eapply Hother;
                 eassumption).
           eapply J2; eassumption.
      * intros k' n'. destruct (decide (k = k')) as [->|Hkk];
          [rewrite lookup_delete_eq; discriminate|].
        rewrite lookup_delete_ne by exact Hkk. intros Hn'.
        destruct (J3 k' n' Hn') as (l' & Hl' & Hin).
        destruct (decide (ArcNode.accessCount_ n' = ArcLfu.minFreq_ q))
          as [E|E].
        -- rewrite E in Hl' |- *. rewrite Hl in Hl'. injection Hl' as <-.
           exists rest. rewrite lookup_insert_eq. split; [reflexivity|].
           apply elem_of_cons in Hin as [->|Hin]; [done | exact Hin].
        -- exists l'. rewrite lookup_insert_ne by congruence. auto.
      * intros _. rewrite lookup_insert_eq. eauto.
Qed.


Lemma size_incr_neq (x : Z) : CInt.size_incr x ≠ x.
Proof.
  unfold CInt.size_incr, CInt.to_size_t. intros E.
  pose proof (Z.mod_pos_bound (x + 1) (2 ^ 64) ltac:(lia)) as Hb.
  destruct (Z.lt_ge_cases (x + 1) (2 ^ 64)) as [Hlt|Hge].
  - rewrite Z.mod_small in E by lia. lia.
  - assert (x = 2 ^ 64 - 1) as -> by lia.
    vm_compute in E. discriminate.
Qed.

(** The lists after [updateNodeFrequency], list by list. *)
Lemma arcLfu_update_effect q k node :
  let oldFreq := ArcNode.accessCount_ node in
  let newFreq := CInt.size_incr oldFreq in
  let oldList := filter (λ x, x ≠ k)
                        (default [] (ArcLfu.freqMap_ q !! oldFreq)) in
  let q' := ArcLfu.updateNodeFrequency k node q in
  ArcLfu.mainCache_ q'
  = <[k := ArcNode.incrementAccessCount node]> (ArcLfu.mainCache_ q)
  ∧ ArcLfu.capacity_ q' = ArcLfu.capacity_ q
  ∧ ArcLfu.minFreq_ q'
    = (if decide (oldList = [])
       then if oldFreq =? ArcLfu.minFreq_ q then newFreq
            else ArcLfu.minFreq_ q
       else ArcLfu.minFreq_ q)
  ∧ ∀ f, ArcLfu.freqMap_ q' !! f
         = if decide (f = newFreq)
           then Some (default [] (ArcLfu.freqMap_ q !! newFreq) ++ [k])
           else if decide (f = oldFreq)
                then (if decide (oldList = []) then None else Some oldList)
                else ArcLfu.freqMap_ q !! f.
Proof.
  cbv zeta. unfold ArcLfu.updateNodeFrequency. cbv zeta.
  cbn [ArcLfu.freqMap_ ArcLfu.minFreq_ ArcLfu.set_main ArcNode.accessCount_
       ArcNode.incrementAccessCount ArcLfu.set_freqMap ArcLfu.set_minFreq].
  pose proof (size_incr_neq (ArcNode.accessCount_ node)) as Hneq.
  set (oldFreq := ArcNode.accessCount_ node) in *.
  set (newFreq := CInt.size_incr oldFreq) in *.
  set (oldList := filter (λ x, x ≠ k)
                    (default [] (ArcLfu.freqMap_ q !! oldFreq))).
  assert (∀ (m : gmap Z (list Z)) f,
            <[newFreq := default [] (ArcLfu.touch newFreq m !! newFreq) ++ [k]]>
              (ArcLfu.touch newFreq m) !! f
            = if decide (f = newFreq)
              then Some (default [] (m !! newFreq) ++ [k]) else m !! f)
    as Htouch.
  { intros m f. unfold ArcLfu.touch.
    destruct (decide (f = newFreq)) as [->|Hf].
    - rewrite lookup_insert_eq.
      destruct (m !! newFreq) eqn:E; [rewrite E; reflexivity|].
      rewrite lookup_insert_eq. reflexivity.
    - rewrite lookup_insert_ne by congruence.
      destruct (m !! newFreq) eqn:E; [reflexivity|].
      rewrite lookup_insert_ne by congruence. reflexivity. }
  destruct (decide (oldList = [])) as [Hold|Hold].
  - destruct (oldFreq =? ArcLfu.minFreq_ q);
      cbn [ArcLfu.freqMap_ ArcLfu.minFreq_ ArcLfu.set_main
           ArcLfu.set_freqMap ArcLfu.set_minFreq ArcLfu.mainCache_
           ArcLfu.capacity_];
      (split; [reflexivity|]; split; [reflexivity|]; split; [reflexivity|]);
      intros f; rewrite Htouch;
      rewrite (lookup_delete_ne _ oldFreq newFreq) by congruence;
      destruct (decide (f = newFreq)); [reflexivity| |reflexivity|];
      (destruct (decide (f = oldFreq)) as [->|Hf];
       [apply lookup_delete_eq | apply lookup_delete_ne; congruence]).
  - cbn [ArcLfu.freqMap_ ArcLfu.minFreq_ ArcLfu.set_main
         ArcLfu.set_freqMap ArcLfu.set_minFreq ArcLfu.mainCache_
         ArcLfu.capacity_].
    split; [reflexivity|]. split; [reflexivity|]. split; [reflexivity|].
    intros f. rewrite Htouch.
    rewrite (lookup_insert_ne _ oldFreq newFreq) by congruence.
    destruct (decide (f = newFreq)); [reflexivity|].
    destruct (decide (f = oldFreq)) as [->|Hf];
      [apply lookup_insert_eq | apply lookup_insert_ne; congruence].
Qed.


Lemma arcLfu_update_wf q k n0 node :
  ArcLfu.wf q → ArcLfu.mainCache_ q !! k = Some n0 →
  ArcNode.accessCount_ node = ArcNode.accessCount_ n0 →
  ArcLfu.wf (ArcLfu.updateNodeFrequency k node q)
  ∧ size (ArcLfu.mainCache_ (ArcLfu.updateNodeFrequency k node q))
    = size (ArcLfu.mainCache_ q).
Proof.
  intros (J1 & J2 & J3 & J4) Hk Hcount.
  destruct (arcLfu_update_effect q k node) as (Hm & _ & Hmin & Hfm).
  cbv zeta in Hm, Hmin, Hfm.
  pose proof (size_incr_neq (ArcNode.accessCount_ node)) as Hneq.
  set (oldFreq := ArcNode.accessCount_ node) in *.
  set (newFreq := CInt.size_incr oldFreq) in *.
  destruct (J3 k n0 Hk) as (l0 & Hl0 & Hin0). rewrite <- Hcount in Hl0.
  fold oldFreq in Hl0. rewrite Hl0 in Hmin, Hfm.
  change (default [] (Some l0)) with l0 in Hmin, Hfm.
  set (oldList := filter (λ x, x ≠ k) l0) in *.
  assert (∀ f l k', ArcLfu.freqMap_ q !! f = Some l → k' ∈ l →
                    f ≠ oldFreq → k' ≠ k) as Hother.
  { intros f l k' Hl Hin Hf ->.
    destruct (J2 f l k Hl Hin) as (n' & Hn' & Hc'). congruence. }
  assert (∀ k', k' ∈ default [] (ArcLfu.freqMap_ q !! newFreq) →
                k' ≠ k ∧ ∃ n, ArcLfu.mainCache_ q !! k' = Some n
                              ∧ ArcNode.accessCount_ n = newFreq) as HL.
  { intros k' Hin.
    destruct (ArcLfu.freqMap_ q !! newFreq) as [L|] eqn:HLq;
      [|inversion Hin].
    split; [exact (Hother _ _ _ HLq Hin Hneq) | eapply J2; eassumption]. }
  split; [|rewrite Hm; apply map_size_insert_Some; rewrite Hk; eauto].
  unfold ArcLfu.wf. rewrite Hm.
  split; [|split; [|split]].
  - intros f l. rewrite Hfm.
    destruct (decide (f = newFreq)) as [->|Hf1].
    + intros [= <-]. split; [intros E; apply app_nil in E as [_ E]; discriminate|].
      apply NoDup_app. split; [|split; [|apply NoDup_singleton]].
      * destruct (ArcLfu.freqMap_ q !! newFreq) as [L|] eqn:HLq;
          [apply (J1 _ _ HLq) | constructor].
      * intros k' Hin Hin'. apply list_elem_of_singleton in Hin' as ->.
        destruct (HL k Hin) as [Hne _]. congruence.
    + destruct (decide (f = oldFreq)) as [->|Hf2]; [|apply J1].
      destruct (decide (oldList = [])); [intros [=]|].
      intros [= <-]. split; [assumption|].
      apply NoDup_filter, (J1 _ _ Hl0).
  - intros f l k'. rewrite Hfm.
    destruct (decide (f = newFreq)) as [->|Hf1].
    + intros [= <-] Hin. apply elem_of_app in Hin as [Hin|Hin].
      * destruct (HL k' Hin) as (Hne & n & Hn & Hc).
        exists n. rewrite lookup_insert_ne by congruence. auto.
      * apply list_elem_of_singleton in Hin as ->.
        eexists. rewrite lookup_insert_eq. split; reflexivity.
    + destruct (decide (f = oldFreq)) as [->|Hf2].
      * destruct (decide (oldList = [])); [intros [=]|].
        intros [= <-] Hin. apply list_elem_of_filter in Hin as [Hne Hin].
        rewrite lookup_insert_ne by congruence. eapply J2; eassumption.
      * intros Hl Hin.
        rewrite lookup_insert_ne
          by (intros E; symmetry in E; revert E; eapply Hother; eassumption).
        eapply J2; eassumption.
  - intros k' n'. destruct (decide (k = k')) as [<-|Hkk].
    + rewrite lookup_insert_eq. intros [= <-]. cbn. fold oldFreq newFreq.
      eexists. rewrite Hfm, decide_True by reflexivity.
      split; [reflexivity|]. apply elem_of_app. right. left.
    + rewrite lookup_insert_ne by exact Hkk. intros Hn'.
      destruct (J3 k' n' Hn') as (l' & Hl' & Hin').
      rewrite Hfm.
      destruct (decide (ArcNode.accessCount_ n' = newFreq)) as [E|E1].
      * eexists. split; [reflexivity|]. rewrite <- E, Hl'. cbn.
        apply elem_of_app. left. exact Hin'.
      * destruct (decide (ArcNode.accessCount_ n' = oldFreq)) as [E|E2];
          [|eauto].
        rewrite E, Hl0 in Hl'. injection Hl' as <-.
        assert (k' ∈ oldList) as Hin''
          by (apply list_elem_of_filter; split; [congruence | exact Hin']).
        destruct (decide (oldList = [])) as [E'|_];
          [rewrite E' in Hin''; inversion Hin''|].
        eauto.
  - intros _. rewrite Hmin, Hfm.
    assert (is_Some (ArcLfu.freqMap_ q !! ArcLfu.minFreq_ q)) as [lm Hlm].
    { apply J4. intros E. rewrite E, lookup_empty in Hk. discriminate. }
    destruct (decide (oldList = [])) as [Hold|Hold].
    + destruct (Z.eqb_spec oldFreq (ArcLfu.minFreq_ q)) as [E|E].
      * rewrite decide_True by reflexivity. eauto.
      * destruct (decide (ArcLfu.minFreq_ q = newFreq)); [eauto|].
        rewrite decide_False by congruence. eauto.
    + destruct (decide (ArcLfu.minFreq_ q = newFreq)); [eauto|].
      destruct (decide (ArcLfu.minFreq_ q = oldFreq)); eauto.
Qed.

Lemma arcLfu_addNewNode_wf q k v :
  ArcLfu.wf q → ArcLfu.mainCache_ q !! k = None →
  ArcLfu.capacity_ q ≠ 0 →
  Z.of_nat (size (ArcLfu.mainCache_ q)) ≤ ArcLfu.capacity_ q →
  ArcLfu.wf (ArcLfu.addNewNode k v q)
  ∧ Z.of_nat (size (ArcLfu.mainCache_ (ArcLfu.addNewNode k v q)))
    ≤ ArcLfu.capacity_ q.
Proof.
  intros W Hk Hc0 Hsz.
  assert (∃ q1, (if Z.of_nat (size (ArcLfu.mainCache_ q))
                    >=? ArcLfu.capacity_ q
                 then ArcLfu.evictLeastFrequent q else q) = q1
                ∧ ArcLfu.wf q1 ∧ ArcLfu.mainCache_ q1 !! k = None
                ∧ Z.of_nat (size (ArcLfu.mainCache_ q1)) + 1
                  ≤ ArcLfu.capacity_ q) as (q1 & Hq1 & W1 & Hk1 & Hsz1).
  { eexists. split; [reflexivity|].
    destruct (Z.geb_spec (Z.of_nat (size (ArcLfu.mainCache_ q)))
                         (ArcLfu.capacity_ q)) as [Hfull|Hroom].
    - destruct (arcLfu_evict_wf q W) as [W1 Hsz1].
      split; [exact W1|]. split; [|rewrite Hsz1; lia].
      destruct (decide (ArcLfu.mainCache_ q = ∅)) as [Hemp|Hne].
      + rewrite Hemp, map_size_empty in Hfull. lia.
      + destruct W as (J1 & J2 & J3 & J4). destruct (J4 Hne) as [l Hl].
        destruct (J1 _ l Hl) as [Hlne _]. destruct l as [|x rest]; [done|].
        destruct (arcLfu_evict_effect q x rest Hl) as (Hm & _).
        cbv zeta in Hm. rewrite Hm.
        destruct (decide (x = k)) as [->|Hne'];
          [apply lookup_delete_eq | rewrite lookup_delete_ne; assumption].
    - split; [exact W|]. split; [exact Hk | lia]. }
  unfold ArcLfu.addNewNode. rewrite Hq1. cbv zeta.
  cbn [ArcLfu.freqMap_ ArcLfu.minFreq_ ArcLfu.set_main ArcLfu.set_freqMap
       ArcLfu.set_minFreq ArcLfu.mainCache_].
  destruct W1 as (J1 & J2 & J3 & J4).
  assert (∀ f, <[1 := default [] (ArcLfu.touch 1 (ArcLfu.freqMap_ q1) !! 1)
                       ++ [k]]> (ArcLfu.touch 1 (ArcLfu.freqMap_ q1)) !! f
               = if decide (f = 1)
                 then Some (default [] (ArcLfu.freqMap_ q1 !! 1) ++ [k])
                 else ArcLfu.freqMap_ q1 !! f) as Hfm.
  { intros f. unfold ArcLfu.touch.
    destruct (decide (f = 1)) as [->|Hf].
    - rewrite lookup_insert_eq.
      destruct (ArcLfu.freqMap_ q1 !! 1) eqn:E; [rewrite E; reflexivity|].
      rewrite lookup_insert_eq. reflexivity.
    - rewrite lookup_insert_ne by congruence.
      destruct (ArcLfu.freqMap_ q1 !! 1) eqn:E; [reflexivity|].
      rewrite lookup_insert_ne by congruence. reflexivity. }
  assert (∀ f l k', ArcLfu.freqMap_ q1 !! f = Some l → k' ∈ l → k' ≠ k)
    as Hfresh.
  { intros f l k' Hl Hin ->. destruct (J2 f l k Hl Hin) as (n & Hn & _).
    congruence. }
  split; [|rewrite map_size_insert_None by exact Hk1; lia].
  split; [|split; [|split]];
    cbn [ArcLfu.freqMap_ ArcLfu.minFreq_ ArcLfu.set_main ArcLfu.set_freqMap
         ArcLfu.set_minFreq ArcLfu.mainCache_].
  - intros f l. rewrite Hfm. destruct (decide (f = 1)) as [->|Hf]; [|apply J1].
    intros [= <-]. split; [intros E; apply app_nil in E as [_ E]; discriminate|].
    apply NoDup_app. split; [|split; [|apply NoDup_singleton]].
    + destruct (ArcLfu.freqMap_ q1 !! 1) as [L|] eqn:HL;
        [apply (J1 _ _ HL) | constructor].
    + intros k' Hin Hin'. apply list_elem_of_singleton in Hin' as ->.
      destruct (ArcLfu.freqMap_ q1 !! 1) as [L|] eqn:HL; [|inversion Hin].
      exact (Hfresh _ _ _ HL Hin eq_refl).
  - intros f l k'. rewrite Hfm. destruct (decide (f = 1)) as [->|Hf].
    + intros [= <-] Hin. apply elem_of_app in Hin as [Hin|Hin].
      * destruct (ArcLfu.freqMap_ q1 !! 1) as [L|] eqn:HL; [|inversion Hin].
        rewrite lookup_insert_ne
          by (intros E; symmetry in E; revert E; eapply Hfresh; eassumption).
        eapply J2; eassumption.
      * apply list_elem_of_singleton in Hin as ->.
        eexists. rewrite lookup_insert_eq. split; reflexivity.
    + intros Hl Hin.
      rewrite lookup_insert_ne
        by (intros E; symmetry in E; revert E; eapply Hfresh; eassumption).
      eapply J2; eassumption.
  - intros k' n'. destruct (decide (k = k')) as [<-|Hkk].
    + rewrite lookup_insert_eq. intros [= <-]. cbn.
      eexists. rewrite Hfm, decide_True by reflexivity.
      split; [reflexivity|]. apply elem_of_app. right. left.
    + rewrite lookup_insert_ne by exact Hkk. intros Hn'.
      destruct (J3 k' n' Hn') as (l' & Hl' & Hin'). rewrite Hfm.
      destruct (decide (ArcNode.accessCount_ n' = 1)) as [E|E]; [|eauto].
      eexists. split; [reflexivity|]. rewrite <- E, Hl'. cbn.
      apply elem_of_app. left. exact Hin'.
  - intros _. rewrite Hfm, decide_True by reflexivity. eauto.
Qed.

Lemma arcLfu_put_bounded q k v :
  ArcLfu.wf q →
  Z.of_nat (size (ArcLfu.mainCache_ q)) ≤ ArcLfu.capacity_ q →
  ArcLfu.wf (ArcLfu.put k v q).1
  ∧ Z.of_nat (size (ArcLfu.mainCache_ (ArcLfu.put k v q).1))
    ≤ ArcLfu.capacity_ q.
Proof.
  intros W Hsz. unfold ArcLfu.put.
  destruct (Z.eqb_spec (ArcLfu.capacity_ q) 0) as [_|Hc0];
    [split; assumption|].
  destruct (ArcLfu.mainCache_ q !! k) as [n|] eqn:Hk; cbn [fst].
  - destruct (arcLfu_update_wf q k n (ArcNode.setValue v n) W Hk eq_refl)
      as [W' Hsz'].
    unfold ArcLfu.updateExistingNode. split; [exact W'|].
    rewrite Hsz'. exact Hsz.
  - apply arcLfu_addNewNode_wf; assumption.
Qed.

Lemma arcLfu_get_bounded q k :
  ArcLfu.wf q →
  ArcLfu.wf (ArcLfu.get k q).1
  ∧ size (ArcLfu.mainCache_ (ArcLfu.get k q).1) = size (ArcLfu.mainCache_ q).
Proof.
  intros W. unfold ArcLfu.get.
  destruct (ArcLfu.mainCache_ q !! k) as [n|] eqn:Hk;
    [|split; [exact W | reflexivity]].
  cbn [fst]. exact (arcLfu_update_wf q k n n W Hk eq_refl).
Qed.

Lemma arcLfu_checkGhost_main q k :
  ArcLfu.mainCache_ (ArcLfu.checkGhost k q).1 = ArcLfu.mainCache_ q
  ∧ ArcLfu.freqMap_ (ArcLfu.checkGhost k q).1 = ArcLfu.freqMap_ q
  ∧ ArcLfu.minFreq_ (ArcLfu.checkGhost k q).1 = ArcLfu.minFreq_ q
  ∧ ArcLfu.capacity_ (ArcLfu.checkGhost k q).1 = ArcLfu.capacity_ q.
Proof. unfold ArcLfu.checkGhost. case_decide; repeat split. Qed.

Lemma arcLfu_decreaseCapacity_bounded q :
  ArcLfu.wf q → 0 ≤ ArcLfu.capacity_ q →
  Z.of_nat (size (ArcLfu.mainCache_ q)) ≤ ArcLfu.capacity_ q →
  let r := ArcLfu.decreaseCapacity q in
  ArcLfu.wf r.1
  ∧ Z.of_nat (size (ArcLfu.mainCache_ r.1)) ≤ ArcLfu.capacity_ r.1
  ∧ 0 ≤ ArcLfu.capacity_ r.1
  ∧ ArcLfu.capacity_ r.1
    = (if r.2 then ArcLfu.capacity_ q - 1 else ArcLfu.capacity_ q).
Proof.
  intros W Hc Hsz. cbv zeta. unfold ArcLfu.decreaseCapacity.
  destruct (Z.leb_spec (ArcLfu.capacity_ q) 0) as [Hle|Hgt]; cbn [fst snd].
  - split; [exact W|]. repeat split; assumption.
  - destruct (Z.eqb_spec (Z.of_nat (size (ArcLfu.mainCache_ q)))
                         (ArcLfu.capacity_ q)) as [E|E].
    + destruct (arcLfu_evict_wf q W) as [W1 Hsz1].
      split; [exact W1|]. cbn. rewrite arcLfu_evict_capacity, Hsz1.
      repeat split; lia.
    + split; [exact W|]. cbn. repeat split; lia.
Qed.

End ArcLfuCapacity.

(** ** KArcCache: both halves stay within their current capacities *)

Section ArcCapacity.
Context {Value : Type}.
Implicit Types (s : Arc.KArcCache Value).

Lemma arc_new_wf (C t : Z) : 0 ≤ C → Arc.wf C (Arc.new (Value := Value) C t).
Proof.
  intros HC. unfold Arc.wf, Arc.new. cbn [Arc.lruPart_ Arc.lfuPart_].
  split; [split; [constructor | reflexivity]|].
  split.
  { unfold ArcLfu.wf, ArcLfu.new.
    cbn [ArcLfu.freqMap_ ArcLfu.mainCache_ ArcLfu.minFreq_].
    split; [|split; [|split]].
    - intros f l E. rewrite lookup_empty in E. discriminate.
    - intros f l k E. rewrite lookup_empty in E. discriminate.
    - intros k n E. rewrite lookup_empty in E. discriminate.
    - intros E. destruct E. reflexivity. }
  unfold ArcLru.new, ArcLfu.new.
  cbn [ArcLru.mainCache_ ArcLru.capacity_ ArcLfu.mainCache_ ArcLfu.capacity_].
  rewrite !map_size_empty. repeat split; lia.
Qed.

Lemma arcLru_wf_ext (p p' : ArcLru.ArcLruPart Value) :
  ArcLru.mainCache_ p' = ArcLru.mainCache_ p →
  ArcLru.mainList p' = ArcLru.mainList p →
  ArcLru.wf p → ArcLru.wf p'.
Proof. unfold ArcLru.wf. intros -> ->. exact id. Qed.

Lemma arcLfu_wf_ext (q q' : ArcLfu.ArcLfuPart Value) :
  ArcLfu.mainCache_ q' = ArcLfu.mainCache_ q →
  ArcLfu.freqMap_ q' = ArcLfu.freqMap_ q →
  ArcLfu.minFreq_ q' = ArcLfu.minFreq_ q →
  ArcLfu.wf q → ArcLfu.wf q'.
Proof. unfold ArcLfu.wf. intros -> -> ->. exact id. Qed.

Lemma size_incr_small (c : Z) :
  0 ≤ c → c + 1 < 2 ^ 64 → CInt.size_incr c = c + 1.
Proof.
  intros H0 H1. unfold CInt.size_incr, CInt.to_size_t.
  apply Z.mod_small. lia.
Qed.

Lemma arc_checkGhostCaches_wf (C key : Z) s :
  0 ≤ C < 2 ^ 63 → Arc.wf C s → Arc.wf C (Arc.checkGhostCaches key s).1.
Proof.
  intros HC (Wp & Wq & Hp & Hq & Hsum & Hp0 & Hq0).
  unfold Arc.checkGhostCaches.
  destruct (arcLru_checkGhost_main (Arc.lruPart_ s) key) as (Em & El & Ec).
  destruct (ArcLru.checkGhost key (Arc.lruPart_ s)) as [lru1 inLru] eqn:E1.
  cbn [fst] in Em, El, Ec.
  assert (ArcLru.wf lru1) as W1 by exact (arcLru_wf_ext _ _ Em El Wp).
  destruct inLru.
  - destruct (arcLfu_decreaseCapacity_bounded _ Wq Hq0 Hq)
      as (Wq' & Hq' & Hq0' & Hcq).
    destruct (ArcLfu.decreaseCapacity (Arc.lfuPart_ s)) as [lfu1 ok] eqn:E2.
    cbn [fst snd] in Wq', Hq', Hq0', Hcq. cbn [fst].
    unfold Arc.wf, Arc.set_parts. cbn [Arc.lruPart_ Arc.lfuPart_].
    destruct ok.
    + unfold ArcLru.increaseCapacity. cbn.
      rewrite Ec, size_incr_small by lia. rewrite Em.
      split; [exact (arcLru_wf_ext _ _ eq_refl eq_refl W1)|].
      split; [exact Wq'|]. repeat split; lia.
    + split; [exact W1|]. split; [exact Wq'|].
      rewrite Em, Ec. repeat split; lia.
  - destruct (arcLfu_checkGhost_main (Arc.lfuPart_ s) key)
      as (Fm & Ff & Fmin & Fc).
    destruct (ArcLfu.checkGhost key (Arc.lfuPart_ s)) as [lfu1 inLfu] eqn:E2.
    cbn [fst] in Fm, Ff, Fmin, Fc.
    assert (ArcLfu.wf lfu1) as W2 by exact (arcLfu_wf_ext _ _ Fm Ff Fmin Wq).
    destruct inLfu.
    + assert (Z.of_nat (size (ArcLru.mainCache_ lru1)) ≤ ArcLru.capacity_ lru1)
        as Hp1 by (rewrite Em, Ec; exact Hp).
      assert (0 ≤ ArcLru.capacity_ lru1) as Hp01 by (rewrite Ec; exact Hp0).
      destruct (arcLru_decreaseCapacity_bounded _ W1 Hp01 Hp1)
        as (Wp' & Hp' & Hp0' & Hcp).
      destruct (ArcLru.decreaseCapacity lru1) as [lru2 ok] eqn:E3.
      cbn [fst snd] in Wp', Hp', Hp0', Hcp. cbn [fst].
      unfold Arc.wf, Arc.set_parts. cbn [Arc.lruPart_ Arc.lfuPart_].
      destruct ok.
      * unfold ArcLfu.increaseCapacity. cbn.
        rewrite Fc, size_incr_small by lia. rewrite Fm.
        split; [exact Wp'|].
        split; [exact (arcLfu_wf_ext _ _ eq_refl eq_refl eq_refl W2)|].
        repeat split; lia.
      * split; [exact Wp'|]. split; [exact W2|].
        rewrite Fm, Fc. repeat split; lia.
    + cbn [fst]. unfold Arc.wf, Arc.set_parts. cbn [Arc.lruPart_ Arc.lfuPart_].
      split; [exact W1|]. split; [exact W2|].
      rewrite Em, Ec, Fm, Fc. repeat split; lia.
Qed.

Lemma arc_put_wf (C key : Z) (v : Value) s :
  0 ≤ C < 2 ^ 63 → Arc.wf C s → Arc.wf C (Arc.put key v s).
Proof.
  intros HC W.
  destruct (arc_checkGhostCaches_wf C key s HC W)
    as (Wp & Wq & Hp & Hq & Hsum & Hp0 & Hq0).
  unfold Arc.put. cbv zeta.
  set (s1 := (Arc.checkGhostCaches key s).1) in *.
  unfold Arc.wf, Arc.set_parts. cbn [Arc.lruPart_ Arc.lfuPart_].
  destruct (arcLru_put_bounded (Arc.lruPart_ s1) key v Wp Hp) as [Wp' Hp'].
  rewrite arcLru_put_capacity.
  split; [exact Wp'|].
  destruct (ArcLfu.contain key (Arc.lfuPart_ s1)).
  - destruct (arcLfu_put_bounded (Arc.lfuPart_ s1) key v Wq Hq) as [Wq' Hq'].
    rewrite arcLfu_put_capacity.
    split; [exact Wq'|]. repeat split; assumption.
  - split; [exact Wq|]. repeat split; assumption.
Qed.

Lemma arc_get_wf (C key : Z) s :
  0 ≤ C < 2 ^ 63 → Arc.wf C s → Arc.wf C (Arc.get key s).1.
Proof.
  intros HC W.
  destruct (arc_checkGhostCaches_wf C key s HC W)
    as (Wp & Wq & Hp & Hq & Hsum & Hp0 & Hq0).
  unfold Arc.get. cbv zeta.
  set (s1 := (Arc.checkGhostCaches key s).1) in *.
  destruct (arcLru_get_bounded (Arc.lruPart_ s1) key Wp) as [Wp' Hp'].
  pose proof (arcLru_get_capacity key (Arc.lruPart_ s1)) as Hcp.
  destruct (ArcLru.get key (Arc.lruPart_ s1)) as [lru1 r] eqn:E1.
  cbn [fst] in Wp', Hp', Hcp.
  destruct r as [[value shouldTransform]|].
  - cbn [fst]. unfold Arc.wf, Arc.set_parts. cbn [Arc.lruPart_ Arc.lfuPart_].
    rewrite Hp', Hcp. split; [exact Wp'|].
    destruct shouldTransform.
    + destruct (arcLfu_put_bounded (Arc.lfuPart_ s1) key value Wq Hq)
        as [Wq' Hq'].
      rewrite arcLfu_put_capacity.
      split; [exact Wq'|]. repeat split; assumption.
    + split; [exact Wq|]. repeat split; assumption.
  - destruct (arcLfu_get_bounded (Arc.lfuPart_ s1) key Wq) as [Wq' Hq'].
    pose proof (arcLfu_get_capacity key (Arc.lfuPart_ s1)) as Hcq.
    destruct (ArcLfu.get key (Arc.lfuPart_ s1)) as [lfu1 r'] eqn:E2.
    cbn [fst] in Wq', Hq', Hcq. cbn [fst].
    unfold Arc.wf, Arc.set_parts. cbn [Arc.lruPart_ Arc.lfuPart_].
    rewrite Hp', Hcp, Hq', Hcq.
    split; [exact Wp'|]. split; [exact Wq'|]. repeat split; assumption.
Qed.

Lemma arc_run_wf (C : Z) (ops : list (Arc.op Value)) s :
  0 ≤ C < 2 ^ 63 → Arc.wf C s → Arc.wf C (Arc.run ops s).
Proof.
  intros HC. revert s. induction ops as [|o ops IH]; intros s W; [exact W|].
  change (Arc.run (o :: ops) s) with (Arc.run ops (Arc.step s o)).
  apply IH. destruct o as [k v|k]; [apply arc_put_wf | apply arc_get_wf];
    assumption.
Qed.

End ArcCapacity.

(** ** C2: the capacity bounds *)

Section CapacityBound.
Context {Value : Type}.

Lemma lruk_step_base_bounded (dflt : Value) (s : LruK.KLruKCache Value)
    (o : Lru.op Value) :
  Lru.wf (LruK.base s) → 0 ≤ Lru.capacity_ (LruK.base s) < 2 ^ 64 →
  Z.of_nat (size (Lru.nodeMap_ (LruK.base s))) ≤ Lru.capacity_ (LruK.base s) →
  Lru.wf (LruK.base (LruK.step dflt s o))
  ∧ Z.of_nat (size (Lru.nodeMap_ (LruK.base (LruK.step dflt s o))))
    ≤ Lru.capacity_ (LruK.base s).
Proof.
  intros W Hc Hsz.
  pose proof (lru_get_wf (LruK.base s)) as Wg.
  assert (∀ key b1 v, b1 = (Lru.get key (LruK.base s)).1 →
            Lru.wf (Lru.put key v b1)
            ∧ Z.of_nat (size (Lru.nodeMap_ (Lru.put key v b1)))
              ≤ Lru.capacity_ (LruK.base s)) as Hput.
  { intros key b1 v ->. rewrite <- (lru_get_capacity key (LruK.base s)).
    apply lru_put_wf; [apply Wg, W | rewrite lru_get_capacity; exact Hc |].
    rewrite lru_get_nodeMap, lru_get_capacity. exact Hsz. }
  assert (∀ key b1, b1 = (Lru.get key (LruK.base s)).1 →
            Lru.wf b1
            ∧ Z.of_nat (size (Lru.nodeMap_ b1))
              ≤ Lru.capacity_ (LruK.base s)) as Hget.
  { intros key b1 ->. split; [apply Wg, W|].
    rewrite lru_get_nodeMap. exact Hsz. }
  destruct o as [key value|key]; cbn [LruK.step].
  - unfold LruK.put.
    specialize (Hput key). specialize (Hget key).
    destruct (Lru.get key (LruK.base s)) as [b1 r]. cbn [fst] in Hput, Hget.
    destruct r; cbn [LruK.base]; [apply Hput; reflexivity|].
    destruct (LruK.bumpHistory key (LruK.historyList_ s)) as [h1 c].
    destruct (c >=? _); cbn [LruK.base];
      [apply Hput | apply Hget]; reflexivity.
  - unfold LruK.get.
    specialize (Hput key). specialize (Hget key).
    destruct (Lru.get key (LruK.base s)) as [b1 r]. cbn [fst] in Hput, Hget.
    destruct (LruK.bumpHistory key (LruK.historyList_ s)) as [h1 c].
    destruct r; cbn [fst LruK.base]; [apply Hget; reflexivity|].
    destruct (c >=? _); [destruct (LruK.historyValueMap_ s !! key)|];
      cbn [fst LruK.base]; [apply Hput | apply Hget | apply Hget];
      reflexivity.
Qed.

Lemma lruk_run_base_bounded (dflt : Value) (ops : list (Lru.op Value))
    (s : LruK.KLruKCache Value) :
  Lru.wf (LruK.base s) → 0 ≤ Lru.capacity_ (LruK.base s) < 2 ^ 64 →
  Z.of_nat (size (Lru.nodeMap_ (LruK.base s))) ≤ Lru.capacity_ (LruK.base s) →
  Z.of_nat (size (Lru.nodeMap_ (LruK.base (LruK.run dflt ops s))))
  ≤ Lru.capacity_ (LruK.base s).
Proof.
  unfold LruK.run. revert s.
  induction ops as [|o ops IH]; intros s W Hc Hsz; [exact Hsz|].
  cbn [foldl].
  destruct (lruk_step_base_bounded dflt s o W Hc Hsz) as [W1 Hsz1].
  rewrite <- (lruk_step_capacity dflt s o).
  apply IH; rewrite ?lruk_step_capacity; assumption.
Qed.

End CapacityBound.

(** ** KLfuCache: the index stays within the capacity while no rescale
    happens *)

Section LfuCapacity.
Context {Value : Type}.
Variable dummyKey : Z.
Implicit Types s : Lfu.KLfuCache Value.
Implicit Types h : list (Lfu.Node Value).
Implicit Types m : gmap Z nat.

Lemma lfu_freqSum_perm h (l1 l2 : list (Z * nat)) :
  l1 ≡ₚ l2 →
  foldr (λ p acc, Lfu.freqAt h p.2 + acc) 0 l1
  = foldr (λ p acc, Lfu.freqAt h p.2 + acc) 0 l2.
Proof.
  induction 1 as [|x l1 l2 _ IH|x y l|l1 l2 l3 _ IH1 _ IH2]; cbn;
    [reflexivity | rewrite IH; reflexivity | lia | congruence].
Qed.

Lemma lfu_freqSum_insert h m k a :
  m !! k = None →
  Lfu.freqSum h (<[k := a]> m) = Lfu.freqAt h a + Lfu.freqSum h m.
Proof.
  intros Hk. unfold Lfu.freqSum.
  rewrite (lfu_freqSum_perm h _ _ (map_to_list_insert m k a Hk)).
  reflexivity.
Qed.

Lemma lfu_freqSum_delete h m k a :
  m !! k = Some a →
  Lfu.freqSum h m = Lfu.freqAt h a + Lfu.freqSum h (delete k m).
Proof.
  intros Hk. unfold Lfu.freqSum.
  rewrite <- (lfu_freqSum_perm h _ _ (map_to_list_delete m k a Hk)).
  reflexivity.
Qed.

Lemma lfu_freqSum_ext h h' m :
  (∀ k a, m !! k = Some a → Lfu.freqAt h' a = Lfu.freqAt h a) →
  Lfu.freqSum h' m = Lfu.freqSum h m.
Proof.
  intros Hext. unfold Lfu.freqSum.
  assert (∀ p, p ∈ map_to_list m → Lfu.freqAt h' p.2 = Lfu.freqAt h p.2)
    as Hin.
  { intros [k a] Hp. apply elem_of_map_to_list in Hp. exact (Hext k a Hp). }
  induction (map_to_list m) as [|p l IH]; [reflexivity|].
  cbn. rewrite IH by (intros q Hq; apply Hin; right; exact Hq).
  rewrite (Hin p) by left. reflexivity.
Qed.

Lemma lfu_freqSum_nonneg h m :
  (∀ k a, m !! k = Some a → 0 ≤ Lfu.freqAt h a) → 0 ≤ Lfu.freqSum h m.
Proof.
  intros Hpos. unfold Lfu.freqSum.
  assert (∀ p, p ∈ map_to_list m → 0 ≤ Lfu.freqAt h p.2) as Hin.
  { intros [k a] Hp. apply elem_of_map_to_list in Hp. exact (Hpos k a Hp). }
  induction (map_to_list m) as [|p l IH]; [reflexivity|].
  cbn. pose proof (Hin p ltac:(left)).
  pose proof (IH ltac:(intros q Hq; apply Hin; right; exact Hq)). lia.
Qed.

Lemma lfu_linked_freqAt s k a :
  Lfu.linked s → Lfu.nodeMap_ s !! k = Some a →
  1 ≤ Lfu.freqAt (Lfu.arena s) a.
Proof.
  intros [T1 _] Hk. destruct (T1 k a Hk) as (n & l & Hn & _ & Hf & _).
  unfold Lfu.freqAt. rewrite Hn. exact Hf.
Qed.

Lemma lfu_tight_total_nonneg s : Lfu.tight s → 0 ≤ Lfu.curTotalNum_ s.
Proof.
  intros (L & _ & _ & Hsum).
  pose proof (lfu_freqSum_nonneg (Lfu.arena s) (Lfu.nodeMap_ s)) as H.
  assert (0 ≤ Lfu.freqSum (Lfu.arena s) (Lfu.nodeMap_ s)); [|lia].
  apply H. intros k a Hk. pose proof (lfu_linked_freqAt s k a L Hk). lia.
Qed.

(** Changing the frequency of the node of [k] changes the sum by the
    difference. *)
Lemma lfu_freqSum_setFreq s k a n f :
  Lfu.linked s → Lfu.nodeMap_ s !! k = Some a →
  Lfu.arena s !! a = Some n →
  Lfu.freqSum (<[a := Lfu.setFreq f n]> (Lfu.arena s)) (Lfu.nodeMap_ s)
  = Lfu.freqSum (Lfu.arena s) (Lfu.nodeMap_ s) - Lfu.freq n + f.
Proof.
  intros [T1 _] Hk Hn.
  rewrite (lfu_freqSum_delete _ _ k a Hk).
  rewrite (lfu_freqSum_delete (Lfu.arena s) _ k a Hk).
  rewrite (lfu_freqSum_ext (Lfu.arena s) (<[a:=Lfu.setFreq f n]> (Lfu.arena s))
             (delete k (Lfu.nodeMap_ s))).
  - unfold Lfu.freqAt.
    rewrite list_lookup_insert_eq by (eapply lookup_lt_Some; exact Hn).
    rewrite Hn. cbn. lia.
  - intros k' a' Hk'.
    assert (k' ≠ k) as Hne by (intros ->; rewrite lookup_delete_eq in Hk';
                               discriminate).
    rewrite lookup_delete_ne in Hk' by congruence.
    unfold Lfu.freqAt. rewrite list_lookup_insert_ne; [reflexivity|].
    intros <-. destruct (T1 k' a Hk') as (n' & _ & Hn' & Hkey & _).
    destruct (T1 k a Hk) as (n'' & _ & Hn'' & Hkey' & _). congruence.
Qed.


Lemma lfu_move_effect s a n f' s1 s3 :
  Lfu.arena s !! a = Some n →
  Lfu.removeFromFreqList (Lfu.Real a) s = Some s1 →
  Lfu.addToFreqList a
    (Lfu.set_arena (<[a := Lfu.setFreq f' n]> (Lfu.arena s1)) s1) = Some s3 →
  Lfu.arena s3 = <[a := Lfu.setFreq f' n]> (Lfu.arena s)
  ∧ Lfu.nodeMap_ s3 = Lfu.nodeMap_ s
  ∧ Lfu.minFreq_ s3 = Lfu.minFreq_ s
  ∧ Lfu.curTotalNum_ s3 = Lfu.curTotalNum_ s
  ∧ Lfu.capacity_ s3 = Lfu.capacity_ s
  ∧ Lfu.maxAverageNum_ s3 = Lfu.maxAverageNum_ s
  ∧ ∀ g, Lfu.freqToFreqList_ s3 !! g
         = if decide (g = f')
           then Some (filter (λ x, x ≠ a)
                        (default [] (Lfu.freqToFreqList_ s !! f')) ++ [a])
           else filter (λ x, x ≠ a) <$> Lfu.freqToFreqList_ s !! g.
Proof.
  intros Hn H1 H3. unfold Lfu.removeFromFreqList in H1.
  rewrite Hn in H1. cbn in H1.
  destruct (Lfu.freqToFreqList_ s !! Lfu.freq n) as [l0|]; [|discriminate].
  cbn in H1. injection H1 as <-.
  unfold Lfu.addToFreqList in H3. cbn [Lfu.arena Lfu.set_arena Lfu.set_lists]
    in H3.
  rewrite list_lookup_insert_eq in H3 by (eapply lookup_lt_Some; exact Hn).
  cbn in H3. injection H3 as <-. cbn.
  repeat (split; [reflexivity|]).
  intros g. destruct (decide (g = f')) as [->|Hg].
  - rewrite lookup_insert_eq, lfu_unlink_lookup.
    destruct (Lfu.freqToFreqList_ s !! f'); reflexivity.
  - rewrite lookup_insert_ne by congruence. apply lfu_unlink_lookup.
Qed.

Lemma lfu_move_linked s k a n f' s3 :
  Lfu.linked s → Lfu.nodeMap_ s !! k = Some a →
  Lfu.arena s !! a = Some n → 1 ≤ f' →
  Lfu.arena s3 = <[a := Lfu.setFreq f' n]> (Lfu.arena s) →
  Lfu.nodeMap_ s3 = Lfu.nodeMap_ s →
  (∀ g, Lfu.freqToFreqList_ s3 !! g
        = if decide (g = f')
          then Some (filter (λ x, x ≠ a)
                       (default [] (Lfu.freqToFreqList_ s !! f')) ++ [a])
          else filter (λ x, x ≠ a) <$> Lfu.freqToFreqList_ s !! g) →
  Lfu.linked s3.
Proof.
  intros [T1 T2] Hk Hn Hf' Ha Hm Hl.
  pose proof (lookup_lt_Some _ _ _ Hn) as Hlt.
  assert (Lfu.key n = k) as Hkey.
  { destruct (T1 k a Hk) as (n' & _ & Hn' & Hkey & _). congruence. }
  split.
  - intros k' a'. rewrite Hm, Ha. intros Hk'.
    destruct (decide (a' = a)) as [->|Hne].
    + exists (Lfu.setFreq f' n). eexists.
      rewrite list_lookup_insert_eq by exact Hlt. cbn [Lfu.setFreq Lfu.freq
        Lfu.key]. rewrite Hl, decide_True by reflexivity.
      destruct (T1 k' a Hk') as (n' & _ & Hn' & Hkey' & _).
      split; [reflexivity|]. split; [congruence|]. split; [exact Hf'|].
      split; [reflexivity|]. apply elem_of_app. right. left.
    + destruct (T1 k' a' Hk') as (n' & l & Hn' & Hkey' & Hfr & Hl' & Hin).
      exists n'. rewrite list_lookup_insert_ne by congruence.
      rewrite Hl. destruct (decide (Lfu.freq n' = f')) as [E|E].
      * eexists. split; [exact Hn'|]. split; [exact Hkey'|].
        split; [exact Hfr|]. split; [reflexivity|].
        apply elem_of_app. left. apply list_elem_of_filter.
        split; [exact Hne|]. rewrite <- E, Hl'. exact Hin.
      * exists (filter (λ x, x ≠ a) l). split; [exact Hn'|].
        split; [exact Hkey'|]. split; [exact Hfr|].
        rewrite Hl'. split; [reflexivity|].
        apply list_elem_of_filter. split; assumption.
  - intros g l' a'. rewrite Hl, Hm, Ha.
    assert (∀ l, Lfu.freqToFreqList_ s !! g = Some l →
                 a' ∈ filter (λ x, x ≠ a) l →
                 ∃ n0, <[a:=Lfu.setFreq f' n]> (Lfu.arena s) !! a' = Some n0
                       ∧ Lfu.freq n0 = g
                       ∧ Lfu.nodeMap_ s !! Lfu.key n0 = Some a') as Hold.
    { intros l Hlg Hin. apply list_elem_of_filter in Hin as [Hne Hin].
      destruct (T2 g l a' Hlg Hin) as (n0 & Hn0 & Hfr & Hidx).
      exists n0. rewrite list_lookup_insert_ne by congruence. auto. }
    destruct (decide (g = f')) as [->|Hg].
    + intros [= <-] Hin. apply elem_of_app in Hin as [Hin|Hin].
      * destruct (Lfu.freqToFreqList_ s !! f') as [l|] eqn:Hlf;
          [|inversion Hin].
        exact (Hold l eq_refl Hin).
      * apply list_elem_of_singleton in Hin as ->.
        exists (Lfu.setFreq f' n).
        rewrite list_lookup_insert_eq by exact Hlt.
        cbn [Lfu.setFreq Lfu.freq Lfu.key]. rewrite Hkey. auto.
    + destruct (Lfu.freqToFreqList_ s !! g) as [l|] eqn:Hlg; [|intros [=]].
      intros [= <-] Hin. exact (Hold l eq_refl Hin).
Qed.

Lemma lfu_filter_other_nonempty (a : nat) (l : list nat) :
  l ≠ [] → a ∉ l → filter (λ x, x ≠ a) l ≠ [].
Proof.
  destruct l as [|x l]; [done|]. intros _ Hnin E.
  assert (x ∈ filter (λ y, y ≠ a) (x :: l)) as Hin.
  { apply list_elem_of_filter. split; [|left].
    intros ->. apply Hnin. left. }
  rewrite E in Hin. inversion Hin.
Qed.

(** [getInternal] up to [addFreqNum]: the hit node moves up one list, and
    [minFreq_] follows it when it leaves the list of [minFreq_] empty. *)
Lemma lfu_relocate_tight s k a s4 :
  Lfu.tight s → Lfu.nodeMap_ s !! k = Some a →
  Lfu.relocate a s = Some s4 →
  Lfu.linked s4 ∧ 1 ≤ Lfu.minFreq_ s4
  ∧ (∃ l, Lfu.freqToFreqList_ s4 !! Lfu.minFreq_ s4 = Some l ∧ l ≠ [])
  ∧ Lfu.freqSum (Lfu.arena s4) (Lfu.nodeMap_ s4)
    = Lfu.freqSum (Lfu.arena s) (Lfu.nodeMap_ s) + 1
  ∧ Lfu.curTotalNum_ s4 = Lfu.curTotalNum_ s
  ∧ Lfu.nodeMap_ s4 = Lfu.nodeMap_ s
  ∧ Lfu.capacity_ s4 = Lfu.capacity_ s
  ∧ Lfu.maxAverageNum_ s4 = Lfu.maxAverageNum_ s.
Proof.
  intros (L & Hmin & T3 & Hsum) Hk Hr.
  pose proof L as [T1 T2].
  destruct (T1 k a Hk) as (n & l0 & Hn & Hkey & Hfr & Hl0 & Hin0).
  unfold Lfu.relocate in Hr. rewrite Hn in Hr. cbn [mbind option_bind] in Hr.
  apply bind_Some in Hr as (s1 & H1 & Hr).
  apply bind_Some in Hr as (s3 & H3 & Hr).
  destruct (lfu_move_effect s a n (Lfu.freq n + 1) s1 s3 Hn H1 H3)
    as (Ha & Hm & Hmf & Htot & Hcap & Hmax & Hl).
  assert (Lfu.linked s3) as L3
    by exact (lfu_move_linked s k a n (Lfu.freq n + 1) s3 L Hk Hn
                ltac:(lia) Ha Hm Hl).
  assert (Lfu.freqSum (Lfu.arena s3) (Lfu.nodeMap_ s3)
          = Lfu.freqSum (Lfu.arena s) (Lfu.nodeMap_ s) + 1) as Hs3.
  { rewrite Ha, Hm, (lfu_freqSum_setFreq s k a n _ L Hk Hn). lia. }
  assert (Lfu.nodeMap_ s ≠ ∅) as Hne
    by (intros E; rewrite E, lookup_empty in Hk; discriminate).
  destruct (T3 Hne) as (lm & Hlm & Hlmne).
  assert (Lfu.freqToFreqList_ s3 !! (Lfu.freq n + 1)
          = Some (filter (λ x, x ≠ a)
                    (default [] (Lfu.freqToFreqList_ s !! (Lfu.freq n + 1)))
                  ++ [a])) as Hup
    by (rewrite Hl, decide_True by reflexivity; reflexivity).
  assert (∀ l : list nat, l ++ [a] ≠ []) as Hsnoc
    by (intros l E; apply app_nil in E as [_ E]; discriminate).
  replace (Lfu.freq n + 1 - 1) with (Lfu.freq n) in Hr by lia.
  destruct (Z.eqb_spec (Lfu.freq n) (Lfu.minFreq_ s3)) as [E|E].
  - apply bind_Some in Hr as (l & Hlq & Hr).
    destruct (decide (l = [])) as [->|Hlne]; injection Hr as <-.
    + cbn [Lfu.minFreq_ Lfu.set_minFreq Lfu.freqToFreqList_ Lfu.arena
           Lfu.nodeMap_ Lfu.curTotalNum_ Lfu.capacity_ Lfu.maxAverageNum_].
      split; [exact L3|]. split; [lia|].
      split; [|repeat split; assumption].
      rewrite <- E, Hup. eexists. split; [reflexivity | apply Hsnoc].
    + split; [exact L3|]. split; [lia|].
      split; [|repeat split; assumption].
      rewrite <- E. eauto.
  - injection Hr as <-.
    split; [exact L3|]. split; [lia|].
    split; [|repeat split; assumption].
    rewrite Hmf in *. rewrite Hl.
    destruct (decide (Lfu.minFreq_ s = Lfu.freq n + 1)) as [E'|E'].
    + eexists. split; [reflexivity | apply Hsnoc].
    + rewrite Hlm. eexists. split; [reflexivity|].
      apply lfu_filter_other_nonempty; [exact Hlmne|].
      intros Hin. destruct (T2 _ _ _ Hlm Hin) as (n' & Hn' & Hfr' & _).
      congruence.
Qed.

(** [addFreqNum] while the total stays within [maxAverageNum_]: no
    rescale. *)
Lemma lfu_addFreqNum_quiet s :
  0 ≤ Lfu.curTotalNum_ s →
  Lfu.curTotalNum_ s + 1 ≤ Lfu.maxAverageNum_ s →
  Lfu.maxAverageNum_ s < 2 ^ 31 →
  Lfu.addFreqNum s = Some (Lfu.countAccess s).
Proof.
  intros H0 H1 H2. unfold Lfu.addFreqNum. cbv zeta.
  assert (Lfu.curAverageNum_ (Lfu.countAccess s)
          ≤ Lfu.maxAverageNum_ (Lfu.countAccess s)) as Hle.
  { unfold Lfu.countAccess. cbn. unfold Lfu.average. cbn.
    case_decide as Hsz; [lia|].
    rewrite div_int_size_small by lia.
    transitivity (Lfu.curTotalNum_ s + 1); [|exact H1].
    apply Z.div_le_upper_bound; nia. }
  destruct (Z.gtb_spec (Lfu.curAverageNum_ (Lfu.countAccess s))
                       (Lfu.maxAverageNum_ (Lfu.countAccess s)));
    [lia | reflexivity].
Qed.


Lemma lfu_roomFor_weaken (n n' : Z) s s' :
  Lfu.maxAverageNum_ s' = Lfu.maxAverageNum_ s →
  Lfu.curTotalNum_ s' + n' ≤ Lfu.curTotalNum_ s + n →
  Lfu.roomFor n s → Lfu.roomFor n' s'.
Proof.
  unfold Lfu.roomFor. intros -> Hle [[H1 H2]|[H1 H2]]; [left | right]; lia.
Qed.

Lemma lfu_freqSum_mono h h' m :
  (∀ k a, m !! k = Some a → Lfu.freqAt h' a ≤ Lfu.freqAt h a) →
  Lfu.freqSum h' m ≤ Lfu.freqSum h m.
Proof.
  intros Hle. unfold Lfu.freqSum.
  assert (∀ p, p ∈ map_to_list m → Lfu.freqAt h' p.2 ≤ Lfu.freqAt h p.2)
    as Hin.
  { intros [k a] Hp. apply elem_of_map_to_list in Hp. exact (Hle k a Hp). }
  induction (map_to_list m) as [|p l IH]; [reflexivity|].
  cbn. pose proof (Hin p ltac:(left)).
  pose proof (IH ltac:(intros q Hq; apply Hin; right; exact Hq)). lia.
Qed.

(** No frequency exceeds the sum of the frequencies. *)
Lemma lfu_freqSum_member s k a :
  Lfu.linked s → Lfu.nodeMap_ s !! k = Some a →
  Lfu.freqAt (Lfu.arena s) a ≤ Lfu.freqSum (Lfu.arena s) (Lfu.nodeMap_ s).
Proof.
  intros L Hk. rewrite (lfu_freqSum_delete _ _ k a Hk).
  assert (0 ≤ Lfu.freqSum (Lfu.arena s) (delete k (Lfu.nodeMap_ s))); [|lia].
  apply lfu_freqSum_nonneg. intros k' a' Hk'.
  assert (Lfu.nodeMap_ s !! k' = Some a') as Hk''.
  { destruct (decide (k = k')) as [->|Hne];
      [rewrite lookup_delete_eq in Hk'; discriminate|].
    rewrite lookup_delete_ne in Hk' by exact Hne. exact Hk'. }
  pose proof (lfu_linked_freqAt s k' a' L Hk''). lia.
Qed.

(** One turn of the loop of [handleOverMaxAverageNum], for a
    [maxAverageNum_] that is not negative: the node moves to the list of
    its new frequency, which is not larger than the old one. *)
Lemma lfu_rescaleNode_linked s k a s' :
  Lfu.linked s → Lfu.nodeMap_ s !! k = Some a →
  0 ≤ Lfu.maxAverageNum_ s →
  Lfu.rescaleNode a s = Some s' →
  Lfu.linked s'
  ∧ Lfu.nodeMap_ s' = Lfu.nodeMap_ s
  ∧ Lfu.curTotalNum_ s' = Lfu.curTotalNum_ s
  ∧ Lfu.capacity_ s' = Lfu.capacity_ s
  ∧ Lfu.maxAverageNum_ s' = Lfu.maxAverageNum_ s
  ∧ ∀ a', Lfu.freqAt (Lfu.arena s') a' ≤ Lfu.freqAt (Lfu.arena s) a'.
Proof.
  intros L Hk HM Hr. pose proof L as [T1 T2].
  destruct (T1 k a Hk) as (n & l0 & Hn & Hkey & Hfr & Hl0 & Hin0).
  unfold Lfu.rescaleNode in Hr.
  apply bind_Some in Hr as (s1 & H1 & Hr).
  assert (Lfu.arena s1 = Lfu.arena s
          ∧ Lfu.maxAverageNum_ s1 = Lfu.maxAverageNum_ s) as [Ea EM].
  { pose proof H1 as H1'. unfold Lfu.removeFromFreqList in H1'.
    rewrite Hn in H1'. cbn [mbind option_bind] in H1'.
    rewrite Hl0 in H1'. cbn [mbind option_bind] in H1'.
    injection H1' as <-. split; reflexivity. }
  assert (Lfu.arena s1 !! a = Some n) as Hn1 by (rewrite Ea; exact Hn).
  rewrite Hn1 in Hr. cbn [mbind option_bind] in Hr. cbv zeta in Hr.
  rewrite EM in Hr.
  destruct (lfu_move_effect s a n _ s1 s' Hn H1 Hr)
    as (Ha & Hm & Hmf & Htot & Hcap & Hmax & Hl).
  pose proof (Z.quot_pos (Lfu.maxAverageNum_ s) 2 HM ltac:(lia)) as Hq.
  set (f' := if Lfu.freq n - Lfu.maxAverageNum_ s `quot` 2 <? 1 then 1
             else Lfu.freq n - Lfu.maxAverageNum_ s `quot` 2) in *.
  assert (1 ≤ f' ≤ Lfu.freq n) as Hf'.
  { unfold f'.
    destruct (Z.ltb_spec (Lfu.freq n - Lfu.maxAverageNum_ s `quot` 2) 1);
      lia. }
  split; [exact (lfu_move_linked s k a n f' s' L Hk Hn (proj1 Hf') Ha Hm Hl)|].
  repeat (split; [assumption|]).
  intros a'. rewrite Ha. unfold Lfu.freqAt.
  destruct (decide (a' = a)) as [->|Hne].
  - rewrite list_lookup_insert_eq by (eapply lookup_lt_Some; exact Hn).
    rewrite Hn. cbn. lia.
  - rewrite list_lookup_insert_ne by congruence. reflexivity.
Qed.

Lemma lfu_rescaleAll_linked (l : list nat) s s' :
  Lfu.linked s → (∀ a, a ∈ l → ∃ k, Lfu.nodeMap_ s !! k = Some a) →
  0 ≤ Lfu.maxAverageNum_ s →
  Lfu.rescaleAll l s = Some s' →
  Lfu.linked s'
  ∧ Lfu.nodeMap_ s' = Lfu.nodeMap_ s
  ∧ Lfu.curTotalNum_ s' = Lfu.curTotalNum_ s
  ∧ Lfu.capacity_ s' = Lfu.capacity_ s
  ∧ Lfu.maxAverageNum_ s' = Lfu.maxAverageNum_ s
  ∧ ∀ a', Lfu.freqAt (Lfu.arena s') a' ≤ Lfu.freqAt (Lfu.arena s) a'.
Proof.
  revert s. induction l as [|a l IH]; intros s L Hl HM Hr.
  - injection Hr as <-. split; [exact L|].
    repeat (split; [reflexivity|]). intros a'. lia.
  - rewrite lfu_rescaleAll_cons in Hr.
    apply bind_Some in Hr as (s1 & H1 & Hr).
    destruct (Hl a ltac:(left)) as [k Hk].
    destruct (lfu_rescaleNode_linked s k a s1 L Hk HM H1)
      as (L1 & Hm1 & Htot1 & Hc1 & HM1 & Hle1).
    destruct (IH s1 L1) as (L' & Hm' & Htot' & Hc' & HM' & Hle');
      [intros a' Ha'; rewrite Hm1; apply Hl; right; exact Ha'
      | rewrite HM1; exact HM | exact Hr |].
    split; [exact L'|].
    split; [congruence|]. split; [congruence|]. split; [congruence|].
    split; [congruence|].
    intros a'. specialize (Hle1 a'). specialize (Hle' a'). lia.
Qed.

Lemma lfu_updateMinFreq_le (b : list (Z * list nat)) (f : Z) (l : list nat) :
  (f, l) ∈ b → l ≠ [] →
  foldr (λ p acc, if decide (p.2 = []) then acc else Z.min acc p.1)
        CInt.INT8_MAX b ≤ f.
Proof.
  induction b as [|[g l'] b IH]; intros Hin Hne; [inversion Hin|].
  cbn [foldr fst snd]. apply elem_of_cons in Hin as [E|Hin].
  - injection E as <- <-. rewrite decide_False by exact Hne. lia.
  - specialize (IH Hin Hne). case_decide; lia.
Qed.

(** [updateMinFreq] while every frequency is below [INT8_MAX]: [minFreq_]
    becomes the smallest frequency whose list has a node. *)
Lemma lfu_updateMinFreq_listed s :
  Lfu.linked s →
  (∀ k a, Lfu.nodeMap_ s !! k = Some a →
     Lfu.freqAt (Lfu.arena s) a < CInt.INT8_MAX) →
  1 ≤ Lfu.minFreq_ (Lfu.updateMinFreq s)
  ∧ Lfu.minListed (Lfu.updateMinFreq s).
Proof.
  intros [T1 T2] Hlow.
  pose proof (lfu_updateMinFreq_fold (map_to_list (Lfu.freqToFreqList_ s)))
    as Hcase.
  pose proof (lfu_updateMinFreq_le (map_to_list (Lfu.freqToFreqList_ s)))
    as Hle.
  cbv zeta in Hcase. unfold Lfu.minListed, Lfu.updateMinFreq. cbv zeta.
  cbn [Lfu.minFreq_ Lfu.set_minFreq Lfu.nodeMap_ Lfu.freqToFreqList_].
  set (m := foldr _ _ _) in *.
  assert (Lfu.nodeMap_ s ≠ ∅ → m < CInt.INT8_MAX) as Hm.
  { intros Hne. apply map_choose in Hne as (k & a & Hk).
    destruct (T1 k a Hk) as (n & l & Hn & _ & _ & Hl & Hin).
    specialize (Hlow k a Hk). unfold Lfu.freqAt in Hlow. rewrite Hn in Hlow.
    assert (m ≤ Lfu.freq n); [|lia].
    apply (Hle _ l); [apply elem_of_map_to_list, Hl|].
    intros ->. inversion Hin. }
  destruct (Z.eqb_spec m CInt.INT8_MAX) as [E|E].
  - split; [lia|]. intros Hne. specialize (Hm Hne). lia.
  - destruct Hcase as [E'|(l & Hin & Hlne)]; [contradiction|].
    apply elem_of_map_to_list in Hin. split; [|intros _; eauto].
    destruct l as [|a0 rest]; [done|].
    destruct (T2 m _ a0 Hin ltac:(left)) as (n & Hn & Hf & Hidx).
    destruct (T1 _ _ Hidx) as (n' & _ & Hn' & _ & Hfr & _).
    congruence.
Qed.

(** A rescale while the sum of the frequencies is below [INT8_MAX]. *)
Lemma lfu_handleOver_linked s s' :
  Lfu.linked s → 1 ≤ Lfu.minFreq_ s → 0 ≤ Lfu.maxAverageNum_ s →
  Lfu.freqSum (Lfu.arena s) (Lfu.nodeMap_ s) < CInt.INT8_MAX →
  Lfu.handleOverMaxAverageNum s = Some s' →
  Lfu.linked s' ∧ 1 ≤ Lfu.minFreq_ s' ∧ Lfu.minListed s'
  ∧ Lfu.nodeMap_ s' = Lfu.nodeMap_ s
  ∧ Lfu.curTotalNum_ s' = Lfu.curTotalNum_ s
  ∧ Lfu.capacity_ s' = Lfu.capacity_ s
  ∧ Lfu.maxAverageNum_ s' = Lfu.maxAverageNum_ s
  ∧ ∀ a', Lfu.freqAt (Lfu.arena s') a' ≤ Lfu.freqAt (Lfu.arena s) a'.
Proof.
  intros L Hmin HM Hsum Hh. unfold Lfu.handleOverMaxAverageNum in Hh.
  case_decide as Hsz.
  - injection Hh as <-. split; [exact L|]. split; [exact Hmin|].
    split; [intros Hne; apply map_size_empty_iff in Hsz; contradiction|].
    repeat (split; [reflexivity|]). intros a'. lia.
  - apply bind_Some in Hh as (s1 & H1 & Hh). injection Hh as <-.
    assert (∀ a, a ∈ (map_to_list (Lfu.nodeMap_ s)).*2 →
                 ∃ k, Lfu.nodeMap_ s !! k = Some a) as Hmem.
    { intros a Ha. apply list_elem_of_fmap in Ha as ([k a'] & -> & Hin).
      apply elem_of_map_to_list in Hin. eauto. }
    destruct (lfu_rescaleAll_linked _ s s1 L Hmem HM H1)
      as (L1 & Hm1 & Htot1 & Hc1 & HM1 & Hle1).
    destruct (lfu_updateMinFreq_same s1) as (Em & El & Ea).
    destruct (lfu_updateMinFreq_listed s1 L1) as [Hmin' Hlisted].
    { intros k a Hk.
      pose proof (lfu_freqSum_member s1 k a L1 Hk) as H.
      pose proof (lfu_freqSum_mono (Lfu.arena s) (Lfu.arena s1)
                    (Lfu.nodeMap_ s) (λ _ a' _, Hle1 a')) as H'.
      rewrite Hm1 in H. lia. }
    split; [exact L1|]. split; [exact Hmin'|]. split; [exact Hlisted|].
    rewrite Em, Ea.
    split; [exact Hm1|]. split; [exact Htot1|]. split; [exact Hc1|].
    split; [exact HM1 | exact Hle1].
Qed.

(** [addFreqNum] with room for one more access. *)
Lemma lfu_addFreqNum_linked s s' :
  Lfu.linked s → 1 ≤ Lfu.minFreq_ s →
  Lfu.freqSum (Lfu.arena s) (Lfu.nodeMap_ s) ≤ Lfu.curTotalNum_ s + 1 →
  0 ≤ Lfu.curTotalNum_ s → Lfu.roomFor 1 s →
  Lfu.addFreqNum s = Some s' →
  Lfu.linked s' ∧ 1 ≤ Lfu.minFreq_ s'
  ∧ (Lfu.minListed s → Lfu.minListed s')
  ∧ Lfu.freqSum (Lfu.arena s') (Lfu.nodeMap_ s') ≤ Lfu.curTotalNum_ s'
  ∧ Lfu.nodeMap_ s' = Lfu.nodeMap_ s
  ∧ Lfu.curTotalNum_ s' = Lfu.curTotalNum_ s + 1
  ∧ Lfu.capacity_ s' = Lfu.capacity_ s
  ∧ Lfu.maxAverageNum_ s' = Lfu.maxAverageNum_ s
  ∧ ∀ a', Lfu.freqAt (Lfu.arena s') a' ≤ Lfu.freqAt (Lfu.arena s) a'.
Proof.
  intros L Hmin Hsum H0 Hroom Ha.
  assert (Lfu.countAccess s = s' →
          Lfu.linked s' ∧ 1 ≤ Lfu.minFreq_ s'
          ∧ (Lfu.minListed s → Lfu.minListed s')
          ∧ Lfu.freqSum (Lfu.arena s') (Lfu.nodeMap_ s') ≤ Lfu.curTotalNum_ s'
          ∧ Lfu.nodeMap_ s' = Lfu.nodeMap_ s
          ∧ Lfu.curTotalNum_ s' = Lfu.curTotalNum_ s + 1
          ∧ Lfu.capacity_ s' = Lfu.capacity_ s
          ∧ Lfu.maxAverageNum_ s' = Lfu.maxAverageNum_ s
          ∧ ∀ a', Lfu.freqAt (Lfu.arena s') a' ≤ Lfu.freqAt (Lfu.arena s) a')
    as Hquiet.
  { intros <-. split; [exact L|]. split; [exact Hmin|].
    split; [exact id|]. split; [exact Hsum|].
    repeat (split; [reflexivity|]). intros a'. cbn. lia. }
  destruct Hroom as [[Hb HM]|[HM Hb]].
  - rewrite lfu_addFreqNum_quiet in Ha by assumption.
    injection Ha as Ha. exact (Hquiet Ha).
  - unfold Lfu.addFreqNum in Ha. cbv zeta in Ha.
    destruct (_ >? _); [|injection Ha as Ha; exact (Hquiet Ha)].
    assert (Lfu.freqSum (Lfu.arena (Lfu.countAccess s))
                        (Lfu.nodeMap_ (Lfu.countAccess s)) < CInt.INT8_MAX)
      as Hsum' by (cbn [Lfu.countAccess Lfu.arena Lfu.nodeMap_
                        Lfu.set_counters]; lia).
    destruct (lfu_handleOver_linked (Lfu.countAccess s) s' L Hmin HM Hsum' Ha)
      as (L' & Hmin' & Hl' & Hm' & Htot' & Hc' & HM' & Hle').
    cbn [Lfu.countAccess Lfu.arena Lfu.nodeMap_ Lfu.curTotalNum_
         Lfu.capacity_ Lfu.maxAverageNum_ Lfu.set_counters]
      in Hm', Htot', Hc', HM', Hle'.
    split; [exact L'|]. split; [exact Hmin'|].
    split; [intros _; exact Hl'|].
    split; [|repeat (split; [assumption|]); exact Hle'].
    rewrite Hm', Htot'.
    pose proof (lfu_freqSum_mono (Lfu.arena s) (Lfu.arena s')
                  (Lfu.nodeMap_ s) (λ _ a' _, Hle' a')). lia.
Qed.

Lemma lfu_getInternal_tight s k a r :
  Lfu.tight s → Lfu.nodeMap_ s !! k = Some a →
  Lfu.roomFor 1 s →
  Lfu.getInternal a s = Some r →
  Lfu.tight r.1
  ∧ Lfu.nodeMap_ r.1 = Lfu.nodeMap_ s
  ∧ Lfu.curTotalNum_ r.1 = Lfu.curTotalNum_ s + 1
  ∧ Lfu.capacity_ r.1 = Lfu.capacity_ s
  ∧ Lfu.maxAverageNum_ r.1 = Lfu.maxAverageNum_ s.
Proof.
  intros T Hk Hroom Hg.
  pose proof (lfu_tight_total_nonneg s T) as H0.
  unfold Lfu.getInternal in Hg.
  apply bind_Some in Hg as (n & Hn & Hg).
  apply bind_Some in Hg as (s4 & H4 & Hg).
  apply bind_Some in Hg as (s5 & H5 & Hg). injection Hg as <-.
  destruct (lfu_relocate_tight s k a s4 T Hk H4)
    as (L4 & Hmin4 & T34 & Hsum4 & Htot4 & Hm4 & Hc4 & HM4).
  destruct T as (_ & _ & _ & Hsum).
  assert (Lfu.roomFor 1 s4) as Hroom4
    by (apply (lfu_roomFor_weaken 1 1 s); [exact HM4 | lia | exact Hroom]).
  destruct (lfu_addFreqNum_linked s4 s5 L4 Hmin4 ltac:(lia) ltac:(lia)
              Hroom4 H5)
    as (L5 & Hmin5 & Hl5 & Hsum5 & Hm5 & Htot5 & Hc5 & HM5 & _).
  cbn [fst].
  split; [|split; [congruence|]; split; [lia|]; split; congruence].
  split; [exact L5|]. split; [exact Hmin5|].
  split; [apply Hl5; intros _; exact T34 | exact Hsum5].
Qed.

Lemma lfu_tight_setValue s k a n v :
  Lfu.tight s → Lfu.nodeMap_ s !! k = Some a → Lfu.arena s !! a = Some n →
  Lfu.tight (Lfu.set_arena (<[a := Lfu.setValue v n]> (Lfu.arena s)) s).
Proof.
  intros ([T1 T2] & Hmin & T3 & Hsum) Hk Hn.
  pose proof (lookup_lt_Some _ _ _ Hn) as Hlt.
  assert (∀ a' n', Lfu.arena s !! a' = Some n' →
            ∃ n'', <[a := Lfu.setValue v n]> (Lfu.arena s) !! a' = Some n''
                   ∧ Lfu.freq n'' = Lfu.freq n'
                   ∧ Lfu.key n'' = Lfu.key n') as Hsame.
  { intros a' n' Hn'. destruct (decide (a' = a)) as [->|Hne].
    - rewrite list_lookup_insert_eq by exact Hlt.
      eexists. split; [reflexivity|]. cbn.
      split; congruence.
    - rewrite list_lookup_insert_ne by congruence. eauto. }
  unfold Lfu.tight, Lfu.linked.
  cbn [Lfu.nodeMap_ Lfu.arena Lfu.freqToFreqList_ Lfu.minFreq_
       Lfu.curTotalNum_ Lfu.set_arena].
  split; [split|].
  - intros k' a' Hk'.
    destruct (T1 k' a' Hk') as (n' & l & Hn' & Hkey & Hfr & Hl & Hin).
    destruct (Hsame a' n' Hn') as (n'' & Hn'' & Ef & Ek).
    exists n'', l. rewrite Ef, Ek. auto.
  - intros f l a' Hl Hin.
    destruct (T2 f l a' Hl Hin) as (n' & Hn' & Hfr & Hidx).
    destruct (Hsame a' n' Hn') as (n'' & Hn'' & Ef & Ek).
    exists n''. rewrite Ef, Ek. auto.
  - split; [exact Hmin|]. split; [exact T3|].
    rewrite (lfu_freqSum_ext (Lfu.arena s)); [exact Hsum|].
    intros k' a' Hk'. unfold Lfu.freqAt.
    destruct (T1 k' a' Hk') as (n' & l & Hn' & _).
    destruct (Hsame a' n' Hn') as (n'' & Hn'' & Ef & _).
    rewrite Hn', Hn''. exact Ef.
Qed.

(** [kickOut] with a node in the list of [minFreq_]: the first node of
    that list leaves the list and the index. *)
Lemma lfu_kickOut_tight s s' :
  Lfu.tight s → Lfu.nodeMap_ s ≠ ∅ →
  Lfu.kickOut dummyKey s = Some s' →
  Lfu.linked s' ∧ Lfu.minFreq_ s' = Lfu.minFreq_ s
  ∧ Lfu.freqSum (Lfu.arena s') (Lfu.nodeMap_ s') ≤ Lfu.curTotalNum_ s'
  ∧ Lfu.curTotalNum_ s' ≤ Lfu.curTotalNum_ s
  ∧ (∃ k0, is_Some (Lfu.nodeMap_ s !! k0)
           ∧ Lfu.nodeMap_ s' = delete k0 (Lfu.nodeMap_ s))
  ∧ Lfu.capacity_ s' = Lfu.capacity_ s
  ∧ Lfu.maxAverageNum_ s' = Lfu.maxAverageNum_ s.
Proof.
  intros (L & Hmin & T3 & Hsum) Hne Hk. pose proof L as [T1 T2].
  destruct (T3 Hne) as (l & Hl & Hlne).
  destruct l as [|a0 rest]; [done|].
  destruct (T2 _ _ a0 Hl ltac:(left)) as (n0 & Hn0 & Hf0 & Hidx0).
  unfold Lfu.kickOut in Hk. rewrite Hl in Hk. cbn [mbind option_bind] in Hk.
  unfold Lfu.removeFromFreqList in Hk. rewrite Hn0 in Hk.
  cbn [mbind option_bind] in Hk. rewrite Hf0, Hl in Hk.
  cbn [mbind option_bind Lfu.arena Lfu.set_lists] in Hk.
  rewrite Hn0 in Hk. cbn [mbind option_bind snd fst] in Hk.
  injection Hk as <-.
  unfold Lfu.decreaseFreqNum, Lfu.linked. cbv zeta.
  cbn [Lfu.nodeMap_ Lfu.arena Lfu.freqToFreqList_ Lfu.minFreq_
       Lfu.curTotalNum_ Lfu.capacity_ Lfu.maxAverageNum_ Lfu.set_counters
       Lfu.set_nodeMap Lfu.set_lists].
  pose proof (lfu_linked_freqAt s _ _ L Hidx0) as Hpos.
  assert (Lfu.freqAt (Lfu.arena s) a0 = Lfu.freq n0) as Hat
    by (unfold Lfu.freqAt; rewrite Hn0; reflexivity).
  split; [split|].
  - intros k' a' Hk'.
    assert (k' ≠ Lfu.key n0) as Hkne
      by (intros ->; rewrite lookup_delete_eq in Hk'; discriminate).
    rewrite lookup_delete_ne in Hk' by congruence.
    destruct (T1 k' a' Hk') as (n' & l' & Hn' & Hkey & Hfr & Hl' & Hin).
    exists n', (filter (λ x, x ≠ a0) l').
    rewrite lfu_unlink_lookup, Hl'.
    repeat (split; [done|]). apply list_elem_of_filter. split; [|exact Hin].
    intros ->. congruence.
  - intros f l' a'. rewrite lfu_unlink_lookup.
    destruct (Lfu.freqToFreqList_ s !! f) as [l''|] eqn:Hl''; [|intros [=]].
    intros [= <-] Hin. apply list_elem_of_filter in Hin as [Hane Hin].
    destruct (T2 f l'' a' Hl'' Hin) as (n' & Hn' & Hfr & Hidx).
    exists n'. split; [exact Hn'|]. split; [exact Hfr|].
    rewrite lookup_delete_ne; [exact Hidx|].
    intros E. rewrite <- E in Hidx. congruence.
  - split; [reflexivity|].
    rewrite (lfu_freqSum_delete _ _ _ _ Hidx0) in Hsum.
    split; [lia|]. split; [lia|].
    split; [|split; reflexivity].
    exists (Lfu.key n0). split; [rewrite Hidx0; eauto | reflexivity].
Qed.


(** [putInternal]: when the index is full a node leaves it before the new
    one enters. *)
Lemma lfu_putInternal_tight s k v s' :
  Lfu.tight s → Lfu.nodeMap_ s !! k = None →
  0 < Lfu.capacity_ s < 2 ^ 64 →
  Z.of_nat (size (Lfu.nodeMap_ s)) ≤ Lfu.capacity_ s →
  Lfu.roomFor 1 s →
  Lfu.putInternal dummyKey k v s = Some s' →
  Lfu.tight s'
  ∧ Z.of_nat (size (Lfu.nodeMap_ s')) ≤ Lfu.capacity_ s
  ∧ Lfu.curTotalNum_ s' ≤ Lfu.curTotalNum_ s + 1
  ∧ Lfu.capacity_ s' = Lfu.capacity_ s
  ∧ Lfu.maxAverageNum_ s' = Lfu.maxAverageNum_ s.
Proof.
  intros T Hk Hc Hsz Hroom Hp.
  unfold Lfu.putInternal in Hp.
  apply bind_Some in Hp as (s1 & H1 & Hp).
  assert (Lfu.linked s1 ∧ 1 ≤ Lfu.minFreq_ s1
          ∧ Lfu.freqSum (Lfu.arena s1) (Lfu.nodeMap_ s1) ≤ Lfu.curTotalNum_ s1
          ∧ Lfu.curTotalNum_ s1 ≤ Lfu.curTotalNum_ s
          ∧ Z.of_nat (size (Lfu.nodeMap_ s1)) + 1 ≤ Lfu.capacity_ s
          ∧ Lfu.nodeMap_ s1 !! k = None
          ∧ Lfu.capacity_ s1 = Lfu.capacity_ s
          ∧ Lfu.maxAverageNum_ s1 = Lfu.maxAverageNum_ s)
    as (L1 & Hmin1 & Hsum1 & Htot1 & Hsz1 & Hk1 & Hc1 & HM1).
  { rewrite to_size_t_small in H1 by lia.
    destruct (Z.eqb_spec (Z.of_nat (size (Lfu.nodeMap_ s)))
                         (Lfu.capacity_ s)) as [Hfull|Hnotfull].
    - assert (Lfu.nodeMap_ s ≠ ∅) as Hne
        by (intros E; rewrite E, map_size_empty in Hfull; lia).
      destruct (lfu_kickOut_tight s s1 T Hne H1)
        as (L1 & Hmin1 & Hsum1 & Htot1 & (k0 & Hk0 & Hm1) & Hc1 & HM1).
      destruct T as (_ & Hmin & _).
      split; [exact L1|]. split; [lia|]. split; [exact Hsum1|].
      split; [exact Htot1|].
      rewrite Hm1, map_size_delete_Some by exact Hk0.
      split; [lia|]. split; [|split; assumption].
      destruct (decide (k0 = k)) as [->|Hkk];
        [apply lookup_delete_eq | rewrite lookup_delete_ne; assumption].
    - injection H1 as <-. destruct T as (L & Hmin & _ & Hsum).
      split; [exact L|]. repeat split; try assumption; lia. }
  pose proof L1 as [T1 T2].
  assert (0 ≤ Lfu.curTotalNum_ s1) as Hnn.
  { pose proof (lfu_freqSum_nonneg (Lfu.arena s1) (Lfu.nodeMap_ s1)) as H.
    assert (0 ≤ Lfu.freqSum (Lfu.arena s1) (Lfu.nodeMap_ s1)); [|lia].
    apply H. intros k' a' Hk'.
    pose proof (lfu_linked_freqAt s1 k' a' L1 Hk'). lia. }
  cbv zeta in Hp.
  apply bind_Some in Hp as (s3 & H3 & Hp).
  apply bind_Some in Hp as (s4 & H4 & Hp). injection Hp as <-.
  unfold Lfu.addToFreqList in H3.
  cbn [Lfu.arena Lfu.set_arena Lfu.set_nodeMap Lfu.freqToFreqList_] in H3.
  rewrite list_lookup_middle in H3 by reflexivity.
  cbn [mbind option_bind Lfu.freq] in H3. injection H3 as H3.
  set (a := length (Lfu.arena s1)) in *.
  set (l1 := default [] (Lfu.freqToFreqList_ s1 !! 1)) in *.
  assert (Lfu.arena s3 = Lfu.arena s1 ++ [Lfu.mkNode 1 k v]
          ∧ Lfu.nodeMap_ s3 = <[k := a]> (Lfu.nodeMap_ s1)
          ∧ Lfu.freqToFreqList_ s3
            = <[1 := l1 ++ [a]]> (Lfu.freqToFreqList_ s1)
          ∧ Lfu.minFreq_ s3 = Lfu.minFreq_ s1
          ∧ Lfu.curTotalNum_ s3 = Lfu.curTotalNum_ s1
          ∧ Lfu.capacity_ s3 = Lfu.capacity_ s1
          ∧ Lfu.maxAverageNum_ s3 = Lfu.maxAverageNum_ s1)
    as (Ea3 & Em3 & El3 & Emin3 & Et3 & Ec3 & EM3)
    by (rewrite <- H3; repeat split; reflexivity).
  clear H3.
  assert (∀ a' n', Lfu.arena s1 !! a' = Some n' →
            (Lfu.arena s1 ++ [Lfu.mkNode 1 k v]) !! a' = Some n' ∧ a' ≠ a)
    as Hold.
  { intros a' n' Hn'. pose proof (lookup_lt_Some _ _ _ Hn') as Hlt.
    rewrite lookup_app_l by exact Hlt. split; [exact Hn'|].
    unfold a. intros ->. revert Hlt. apply Nat.lt_irrefl. }
  assert ((Lfu.arena s1 ++ [Lfu.mkNode 1 k v]) !! a = Some (Lfu.mkNode 1 k v))
    as Hnew by (apply list_lookup_middle; reflexivity).
  assert (Lfu.linked s3) as L3.
  { unfold Lfu.linked. rewrite Ea3, Em3, El3. split.
    - intros k' a'. destruct (decide (k' = k)) as [->|Hkk].
      + rewrite lookup_insert_eq. intros [= <-].
        exists (Lfu.mkNode 1 k v), (l1 ++ [a]).
        rewrite Hnew. cbn [Lfu.freq Lfu.key]. rewrite lookup_insert_eq.
        repeat (split; [done|]). apply elem_of_app. right. left.
      + rewrite lookup_insert_ne by congruence. intros Hk'.
        destruct (T1 k' a' Hk') as (n' & l & Hn' & Hkey & Hfr & Hl & Hin).
        destruct (Hold a' n' Hn') as [Hn'' _].
        exists n'. destruct (decide (Lfu.freq n' = 1)) as [E|E].
        * exists (l1 ++ [a]). rewrite E, lookup_insert_eq.
          repeat (split; [done|]). apply elem_of_app. left.
          unfold l1. rewrite <- E, Hl. exact Hin.
        * exists l. rewrite lookup_insert_ne by congruence.
          repeat (split; [done|]). exact Hin.
    - intros f l' a'.
      assert (∀ l, Lfu.freqToFreqList_ s1 !! f = Some l → a' ∈ l →
                ∃ n0, (Lfu.arena s1 ++ [Lfu.mkNode 1 k v]) !! a' = Some n0
                      ∧ Lfu.freq n0 = f
                      ∧ <[k:=a]> (Lfu.nodeMap_ s1) !! Lfu.key n0 = Some a')
        as Holdl.
      { intros l Hl Hin.
        destruct (T2 f l a' Hl Hin) as (n0 & Hn0 & Hfr & Hidx).
        destruct (Hold a' n0 Hn0) as [Hn0' _].
        exists n0. split; [exact Hn0'|]. split; [exact Hfr|].
        rewrite lookup_insert_ne; [exact Hidx|].
        intros E. rewrite <- E in Hidx. congruence. }
      destruct (decide (f = 1)) as [->|Hf].
      + rewrite lookup_insert_eq. intros [= <-] Hin.
        apply elem_of_app in Hin as [Hin|Hin].
        * unfold l1 in Hin.
          destruct (Lfu.freqToFreqList_ s1 !! 1) as [l|] eqn:Hl;
            [|inversion Hin].
          exact (Holdl l eq_refl Hin).
        * apply list_elem_of_singleton in Hin as ->.
          exists (Lfu.mkNode 1 k v). rewrite Hnew. cbn [Lfu.freq Lfu.key].
          rewrite lookup_insert_eq. auto.
      + rewrite lookup_insert_ne by congruence. apply Holdl. }
  assert (Lfu.freqSum (Lfu.arena s3) (Lfu.nodeMap_ s3)
          ≤ Lfu.curTotalNum_ s3 + 1) as Hsum3.
  { rewrite Ea3, Em3, Et3. rewrite lfu_freqSum_insert by exact Hk1.
    rewrite (lfu_freqSum_ext (Lfu.arena s1)).
    - unfold Lfu.freqAt at 1. rewrite Hnew. cbn [Lfu.freq]. lia.
    - intros k' a' Hk'. destruct (T1 k' a' Hk') as (n' & _ & Hn' & _).
      destruct (Hold a' n' Hn') as [Hn'' _].
      unfold Lfu.freqAt. rewrite Hn', Hn''. reflexivity. }
  assert (Lfu.roomFor 1 s3) as Hroom3
    by (apply (lfu_roomFor_weaken 1 1 s); [congruence | lia | exact Hroom]).
  destruct (lfu_addFreqNum_linked s3 s4 L3 ltac:(lia) Hsum3 ltac:(lia)
              Hroom3 H4)
    as (L4 & Hmin4 & _ & Hsum4 & Hm4 & Htot4 & Hc4 & HM4 & Hle4).
  assert (Lfu.nodeMap_ s4 !! k = Some a) as Hk4
    by (rewrite Hm4, Em3; apply lookup_insert_eq).
  unfold Lfu.tight, Lfu.minListed.
  cbn [Lfu.minFreq_ Lfu.set_minFreq Lfu.arena Lfu.nodeMap_ Lfu.curTotalNum_
       Lfu.capacity_ Lfu.maxAverageNum_ Lfu.freqToFreqList_].
  rewrite Z.min_r by lia.
  split; [|rewrite Hm4, Em3, map_size_insert_None by exact Hk1;
           split; [lia|]; split; [lia|]; split; congruence].
  split; [exact L4|]. split; [lia|]. split; [|exact Hsum4].
  intros _.
  destruct L4 as [T14 _].
  destruct (T14 k a Hk4) as (n4 & l4 & Hn4 & _ & Hfr4 & Hl4 & Hin4).
  specialize (Hle4 a). unfold Lfu.freqAt in Hle4.
  rewrite Hn4, Ea3, Hnew in Hle4. cbn [Lfu.freq] in Hle4.
  assert (Lfu.freq n4 = 1) as E by lia. rewrite E in Hl4.
  exists l4. split; [exact Hl4|]. intros ->. inversion Hin4.
Qed.

Lemma lfu_put_tight s k v s' :
  Lfu.tight s → 0 ≤ Lfu.capacity_ s < 2 ^ 64 →
  Z.of_nat (size (Lfu.nodeMap_ s)) ≤ Lfu.capacity_ s →
  Lfu.roomFor 1 s →
  Lfu.put dummyKey k v s = Some s' →
  Lfu.tight s'
  ∧ Z.of_nat (size (Lfu.nodeMap_ s')) ≤ Lfu.capacity_ s
  ∧ Lfu.curTotalNum_ s' ≤ Lfu.curTotalNum_ s + 1
  ∧ Lfu.capacity_ s' = Lfu.capacity_ s
  ∧ Lfu.maxAverageNum_ s' = Lfu.maxAverageNum_ s.
Proof.
  intros T Hc Hsz Hroom Hp. unfold Lfu.put in Hp.
  destruct (Z.eqb_spec (Lfu.capacity_ s) 0) as [E|E].
  { injection Hp as <-. split; [exact T|].
    repeat split; try assumption; lia. }
  destruct (Lfu.nodeMap_ s !! k) as [a|] eqn:Hk.
  - apply bind_Some in Hp as (n & Hn & Hp).
    apply bind_Some in Hp as (r & Hr & Hp). injection Hp as <-.
    pose proof (lfu_tight_setValue s k a n v T Hk Hn) as T'.
    destruct (lfu_getInternal_tight _ k a r T' Hk Hroom Hr)
      as (Tr & Hm & Htot & Hcr & HMr).
    cbn [Lfu.nodeMap_ Lfu.set_arena Lfu.curTotalNum_ Lfu.capacity_
         Lfu.maxAverageNum_] in Hm, Htot, Hcr, HMr.
    rewrite Hm. split; [exact Tr|]. repeat split; try assumption; lia.
  - apply (lfu_putInternal_tight s k v s' T Hk); try assumption; lia.
Qed.

Lemma lfu_get_tight s k r :
  Lfu.tight s → Lfu.roomFor 1 s →
  Lfu.get k s = Some r →
  Lfu.tight r.1
  ∧ Lfu.nodeMap_ r.1 = Lfu.nodeMap_ s
  ∧ Lfu.curTotalNum_ r.1 ≤ Lfu.curTotalNum_ s + 1
  ∧ Lfu.capacity_ r.1 = Lfu.capacity_ s
  ∧ Lfu.maxAverageNum_ r.1 = Lfu.maxAverageNum_ s.
Proof.
  intros T Hroom Hg. unfold Lfu.get in Hg.
  destruct (Lfu.nodeMap_ s !! k) as [a|] eqn:Hk.
  - apply bind_Some in Hg as (r' & Hr & Hg). injection Hg as <-. cbn [fst].
    destruct (lfu_getInternal_tight s k a r' T Hk Hroom Hr)
      as (Tr & Hm & Htot & Hcr & HMr).
    split; [exact Tr|]. repeat split; try assumption; lia.
  - injection Hg as <-. cbn [fst]. split; [exact T|].
    repeat split; try assumption; lia.
Qed.

Lemma lfu_purge_tight s :
  Lfu.tight s → Lfu.tight (Lfu.purge s).
Proof.
  intros T. pose proof (lfu_tight_total_nonneg s T) as H0.
  destruct T as (_ & Hmin & _).
  unfold Lfu.purge, Lfu.tight, Lfu.linked, Lfu.minListed.
  cbn [Lfu.nodeMap_ Lfu.arena Lfu.freqToFreqList_ Lfu.minFreq_
       Lfu.curTotalNum_ Lfu.set_nodeMap Lfu.set_lists].
  split; [split|].
  - intros k a E. rewrite lookup_empty in E. discriminate.
  - intros f l a E. rewrite lookup_empty in E. discriminate.
  - split; [exact Hmin|]. split; [intros E; destruct E; reflexivity|].
    unfold Lfu.freqSum. rewrite map_to_list_empty. exact H0.
Qed.

Lemma lfu_new_tight (C M : Z) : Lfu.tight (Lfu.new (Value:=Value) C M).
Proof.
  unfold Lfu.new, Lfu.tight, Lfu.linked, Lfu.minListed.
  cbn [Lfu.nodeMap_ Lfu.arena Lfu.freqToFreqList_ Lfu.minFreq_
       Lfu.curTotalNum_].
  split; [split|].
  - intros k a E. rewrite lookup_empty in E. discriminate.
  - intros f l a E. rewrite lookup_empty in E. discriminate.
  - split; [unfold CInt.INT8_MAX; lia|].
    split; [intros E; destruct E; reflexivity|].
    unfold Lfu.freqSum. rewrite map_to_list_empty. reflexivity.
Qed.

Lemma lfu_step_tight s o s' :
  Lfu.tight s → 0 ≤ Lfu.capacity_ s < 2 ^ 64 →
  Z.of_nat (size (Lfu.nodeMap_ s)) ≤ Lfu.capacity_ s →
  Lfu.roomFor 1 s →
  Lfu.step dummyKey s o = Some s' →
  Lfu.tight s'
  ∧ Z.of_nat (size (Lfu.nodeMap_ s')) ≤ Lfu.capacity_ s
  ∧ Lfu.curTotalNum_ s' ≤ Lfu.curTotalNum_ s + 1
  ∧ Lfu.capacity_ s' = Lfu.capacity_ s
  ∧ Lfu.maxAverageNum_ s' = Lfu.maxAverageNum_ s.
Proof.
  intros T Hc Hsz Hroom Hs. destruct o as [k v|k|]; cbn [Lfu.step] in Hs.
  - exact (lfu_put_tight s k v s' T Hc Hsz Hroom Hs).
  - apply fmap_Some in Hs as (r & Hr & ->).
    destruct (lfu_get_tight s k r T Hroom Hr) as (Tr & Hm & Htot & Hcr & HMr).
    rewrite Hm. split; [exact Tr|]. repeat split; assumption.
  - injection Hs as <-. split; [apply lfu_purge_tight, T|].
    unfold Lfu.purge. cbn. rewrite map_size_empty.
    repeat split; lia.
Qed.

(** A run with room for all its accesses: it is no longer than
    [maxAverageNum_] allows without a rescale, or it is too short for a
    frequency to reach [INT8_MAX]. *)
Lemma lfu_run_tight ops s s' :
  Lfu.tight s → 0 ≤ Lfu.capacity_ s < 2 ^ 64 →
  Z.of_nat (size (Lfu.nodeMap_ s)) ≤ Lfu.capacity_ s →
  Lfu.roomFor (Z.of_nat (length ops)) s →
  Lfu.run dummyKey ops s = Some s' →
  Lfu.tight s' ∧ Z.of_nat (size (Lfu.nodeMap_ s')) ≤ Lfu.capacity_ s.
Proof.
  revert s. induction ops as [|o ops IH]; intros s T Hc Hsz Hroom Hr.
  - injection Hr as <-. split; assumption.
  - rewrite lfu_run_cons in Hr. apply bind_Some in Hr as (s1 & H1 & Hr).
    cbn [length] in Hroom.
    assert (Lfu.roomFor 1 s) as Hroom1
      by (apply (lfu_roomFor_weaken (Z.of_nat (S (length ops))) 1 s s);
          [reflexivity | lia | exact Hroom]).
    destruct (lfu_step_tight s o s1 T Hc Hsz Hroom1 H1)
      as (T1 & Hsz1 & Htot1 & Hc1 & HM1).
    rewrite <- Hc1. apply (IH s1); rewrite ?Hc1; try assumption.
    apply (lfu_roomFor_weaken (Z.of_nat (S (length ops))) _ s);
      [exact HM1 | lia | exact Hroom].
Qed.

Lemma lfu_run_bounded (C M : Z) (ops : list (Lfu.op Value)) :
  0 ≤ C < 2 ^ 64 →
  Z.of_nat (length ops) ≤ M < 2 ^ 31
  ∨ 0 ≤ M ∧ Z.of_nat (length ops) < CInt.INT8_MAX →
  ∃ s, Lfu.run dummyKey ops (Lfu.new C M) = Some s
       ∧ Z.of_nat (size (Lfu.nodeMap_ s)) ≤ C.
Proof.
  intros HC HM.
  destruct (lfu_run_wf dummyKey ops (Lfu.new C M) (lfu_new_wf C M))
    as (s & Hs & _).
  { intros Hne. cbn in *. rewrite to_size_t_small by lia. exact Hne. }
  exists s. split; [exact Hs|].
  apply (lfu_run_tight ops (Lfu.new C M) s (lfu_new_tight C M)); cbn;
    [lia | rewrite map_size_empty; lia | | exact Hs].
  unfold Lfu.roomFor. cbn. destruct HM as [HM|HM]; [left | right]; lia.
Qed.

End LfuCapacity.

(** ** KLfuCache: the [int] members stay in range *)

Section LfuRange.
Context {Value : Type}.
Variable dummyKey : Z.
Implicit Types s : Lfu.KLfuCache Value.
Implicit Types b : gmap Z (list nat).

Lemma lfu_listWeight_perm (l1 l2 : list (Z * list nat)) :
  l1 ≡ₚ l2 →
  foldr (λ p acc, p.1 * Z.of_nat (length p.2) + acc) 0 l1
  = foldr (λ p acc, p.1 * Z.of_nat (length p.2) + acc) 0 l2.
Proof.
  induction 1 as [|x l1 l2 _ IH|x y l|l1 l2 l3 _ IH1 _ IH2]; cbn [foldr];
    [reflexivity | rewrite IH; reflexivity | lia | congruence].
Qed.

Lemma lfu_listWeight_empty : Lfu.listWeight ∅ = 0.
Proof. unfold Lfu.listWeight. rewrite map_to_list_empty. reflexivity. Qed.

Lemma lfu_listWeight_insert_fresh b (f : Z) (l : list nat) :
  b !! f = None →
  Lfu.listWeight (<[f := l]> b)
  = f * Z.of_nat (length l) + Lfu.listWeight b.
Proof.
  intros Hf. unfold Lfu.listWeight.
  rewrite (lfu_listWeight_perm _ _ (map_to_list_insert b f l Hf)).
  reflexivity.
Qed.

Lemma lfu_listWeight_insert b (f : Z) (l : list nat) :
  Lfu.listWeight (<[f := l]> b)
  = f * Z.of_nat (length l) + Lfu.listWeight (delete f b).
Proof.
  rewrite <- (insert_delete_eq b f l).
  apply lfu_listWeight_insert_fresh, lookup_delete_eq.
Qed.

Lemma lfu_listWeight_lookup b (f : Z) :
  Lfu.listWeight b
  = f * Z.of_nat (length (default [] (b !! f)))
    + Lfu.listWeight (delete f b).
Proof.
  destruct (b !! f) as [l|] eqn:Hf; simpl.
  - rewrite <- (lfu_listWeight_insert b f l).
    rewrite insert_id by exact Hf. reflexivity.
  - rewrite delete_id by exact Hf. lia.
Qed.

Lemma lfu_listWeight_nonneg b :
  (∀ f l, b !! f = Some l → l ≠ [] → 0 ≤ f) → 0 ≤ Lfu.listWeight b.
Proof.
  induction b as [|f l b Hf _ IH] using map_first_key_ind.
  - intros _. rewrite lfu_listWeight_empty. lia.
  - intros H. rewrite lfu_listWeight_insert_fresh by exact Hf.
    assert (0 ≤ Lfu.listWeight b) as H0.
    { apply IH. intros g l' Hg. apply (H g l').
      rewrite lookup_insert_ne; [exact Hg|]. intros <-. congruence. }
    destruct l as [|x l]; [cbn; lia|].
    specialize (H f (x :: l) ltac:(apply lookup_insert_eq) ltac:(done)).
    nia.
Qed.

Lemma lfu_filter_absent (a : nat) (l : list nat) :
  a ∉ l → filter (λ x, x ≠ a) l = l.
Proof.
  induction l as [|x l IH]; [reflexivity|]. intros Hn.
  rewrite filter_cons_True by (intros ->; apply Hn; left).
  f_equal. apply IH. intros H. apply Hn. right. exact H.
Qed.

(** Taking a node out of its list makes the lists lighter by the frequency
    of the list, at least. *)
Lemma lfu_listWeight_unlink a b (f : Z) (l : list nat) :
  b !! f = Some l → a ∈ l → 0 ≤ f →
  (∀ g l', b !! g = Some l' → a ∈ l' → g = f) →
  Lfu.listWeight (Lfu.unlink a b) ≤ Lfu.listWeight b - f.
Proof.
  intros Hf Hin H0 Huniq.
  rewrite (lfu_listWeight_lookup (Lfu.unlink a b) f),
    (lfu_listWeight_lookup b f).
  rewrite lfu_unlink_lookup, Hf. simpl.
  assert (delete f (Lfu.unlink a b) = delete f b) as ->.
  { apply map_eq. intros g. destruct (decide (g = f)) as [->|Hg].
    - rewrite !lookup_delete_eq. reflexivity.
    - rewrite !lookup_delete_ne by congruence. rewrite lfu_unlink_lookup.
      destruct (b !! g) as [l'|] eqn:Hl'; [|reflexivity]. simpl. f_equal.
      apply lfu_filter_absent. intros H. apply Hg.
      exact (Huniq g l' Hl' H). }
  pose proof (length_filter_lt (λ x, x ≠ a) l a Hin
                ltac:(intros H; apply H; reflexivity)).
  nia.
Qed.

(** Appending a node to list [f] makes the lists heavier by [f]. *)
Lemma lfu_listWeight_push a b (f : Z) :
  Lfu.listWeight (<[f := default [] (b !! f) ++ [a]]> b)
  = Lfu.listWeight b + f.
Proof.
  rewrite lfu_listWeight_insert, (lfu_listWeight_lookup b f).
  rewrite List.length_app. cbn [length]. lia.
Qed.

Lemma lfu_move_ranged s k a n f' s3 :
  Lfu.wf0 s → Lfu.listed s → Lfu.nodeMap_ s !! k = Some a →
  Lfu.arena s !! a = Some n →
  Lfu.arena s3 = <[a := Lfu.setFreq f' n]> (Lfu.arena s) →
  Lfu.nodeMap_ s3 = Lfu.nodeMap_ s →
  (∀ g, Lfu.freqToFreqList_ s3 !! g
        = if decide (g = f')
          then Some (filter (λ x, x ≠ a)
                       (default [] (Lfu.freqToFreqList_ s !! f')) ++ [a])
          else filter (λ x, x ≠ a) <$> Lfu.freqToFreqList_ s !! g) →
  Lfu.listed s3
  ∧ Lfu.listWeight (Lfu.freqToFreqList_ s3)
    ≤ Lfu.listWeight (Lfu.freqToFreqList_ s) - Lfu.freq n + f'.
Proof.
  intros (I1 & I2 & _) LS Hk Hn Ha Hm Hl.
  pose proof (lookup_lt_Some _ _ _ Hn) as Hlt.
  split.
  - intros k' a'. rewrite Hm, Ha. intros Hk'.
    destruct (decide (a' = a)) as [->|Hne].
    + exists (Lfu.setFreq f' n). eexists.
      rewrite list_lookup_insert_eq by exact Hlt.
      cbn [Lfu.setFreq Lfu.freq]. rewrite Hl, decide_True by reflexivity.
      split; [reflexivity|]. split; [reflexivity|].
      apply elem_of_app. right. left.
    + destruct (LS k' a' Hk') as (n' & l & Hn' & Hl' & Hin).
      exists n'. rewrite list_lookup_insert_ne by congruence.
      rewrite Hl. destruct (decide (Lfu.freq n' = f')) as [E|E].
      * eexists. split; [exact Hn'|]. split; [reflexivity|].
        apply elem_of_app. left. apply list_elem_of_filter.
        split; [exact Hne|]. rewrite <- E, Hl'. exact Hin.
      * exists (filter (λ x, x ≠ a) l). split; [exact Hn'|].
        rewrite Hl'. split; [reflexivity|].
        apply list_elem_of_filter. split; assumption.
  - assert (Lfu.freqToFreqList_ s3
            = <[f' := default [] (Lfu.unlink a (Lfu.freqToFreqList_ s) !! f')
                      ++ [a]]> (Lfu.unlink a (Lfu.freqToFreqList_ s))) as ->.
    { apply map_eq. intros g. rewrite Hl.
      destruct (decide (g = f')) as [->|Hg].
      - rewrite lookup_insert_eq, lfu_unlink_lookup.
        destruct (Lfu.freqToFreqList_ s !! f'); reflexivity.
      - rewrite lookup_insert_ne by congruence.
        rewrite lfu_unlink_lookup. reflexivity. }
    rewrite lfu_listWeight_push.
    destruct (LS k a Hk) as (n0 & l & Hn0 & Hl0 & Hin0).
    assert (n0 = n) as -> by congruence.
    destruct (I1 k a Hk) as (n1 & Hn1 & _ & Hfr & _).
    assert (n1 = n) as -> by congruence.
    pose proof (lfu_listWeight_unlink a (Lfu.freqToFreqList_ s)
                  (Lfu.freq n) l Hl0 Hin0 ltac:(lia)) as Hw.
    assert (Lfu.listWeight (Lfu.unlink a (Lfu.freqToFreqList_ s))
            ≤ Lfu.listWeight (Lfu.freqToFreqList_ s) - Lfu.freq n); [|lia].
    apply Hw. intros g l' Hg Hin.
    destruct (I2 g l' a Hg Hin) as (n2 & Hn2 & Hf2 & _). congruence.
Qed.

(** [getInternal] up to [addFreqNum]: one frequency grows by 1, and so do
    the lists at most. *)
Lemma lfu_relocate_ranged s k a n s4 :
  Lfu.wf0 s → Lfu.listed s → Lfu.nodeMap_ s !! k = Some a →
  Lfu.arena s !! a = Some n → Lfu.relocate a s = Some s4 →
  Lfu.listed s4
  ∧ Lfu.listWeight (Lfu.freqToFreqList_ s4)
    ≤ Lfu.listWeight (Lfu.freqToFreqList_ s) + 1
  ∧ Lfu.arena s4 = <[a := Lfu.setFreq (Lfu.freq n + 1) n]> (Lfu.arena s)
  ∧ (Lfu.minFreq_ s4 = Lfu.minFreq_ s
     ∨ Lfu.minFreq_ s4 = Lfu.freq n + 1).
Proof.
  intros W0 LS Hk Hn Hr.
  unfold Lfu.relocate in Hr. rewrite Hn in Hr. cbn [mbind option_bind] in Hr.
  apply bind_Some in Hr as (s1 & H1 & Hr).
  apply bind_Some in Hr as (s3 & H3 & Hr).
  destruct (lfu_move_effect s a n (Lfu.freq n + 1) s1 s3 Hn H1 H3)
    as (Ha & Hm & Hmf & Htot & Hcap & Hmax & Hl).
  destruct (lfu_move_ranged s k a n (Lfu.freq n + 1) s3 W0 LS Hk Hn Ha Hm Hl)
    as [LS3 Hw3].
  replace (Lfu.freq n + 1 - 1) with (Lfu.freq n) in Hr by lia.
  destruct (Z.eqb_spec (Lfu.freq n) (Lfu.minFreq_ s3)) as [E|E].
  - apply bind_Some in Hr as (l & Hlq & Hr).
    destruct (decide (l = [])) as [->|Hlne]; injection Hr as <-.
    + cbn [Lfu.minFreq_ Lfu.set_minFreq Lfu.freqToFreqList_ Lfu.arena].
      split; [exact LS3|]. split; [lia|]. split; [exact Ha|].
      right. lia.
    + split; [exact LS3|]. split; [lia|]. split; [exact Ha|].
      left. exact Hmf.
  - injection Hr as <-.
    split; [exact LS3|]. split; [lia|]. split; [exact Ha|].
    left. exact Hmf.
Qed.

(** One turn of the loop of [handleOverMaxAverageNum], for a
    [maxAverageNum_] that is not negative: no frequency grows, and the
    lists do not get heavier. *)
Lemma lfu_rescaleNode_ranged s k a s' :
  Lfu.wf0 s → Lfu.listed s → Lfu.nodeMap_ s !! k = Some a →
  0 ≤ Lfu.maxAverageNum_ s →
  Lfu.rescaleNode a s = Some s' →
  Lfu.wf0 s' ∧ Lfu.listed s'
  ∧ Lfu.listWeight (Lfu.freqToFreqList_ s')
    ≤ Lfu.listWeight (Lfu.freqToFreqList_ s)
  ∧ Lfu.minFreq_ s' = Lfu.minFreq_ s
  ∧ ∀ m, (∀ a' nd, Lfu.arena s !! a' = Some nd → 1 ≤ Lfu.freq nd ≤ m) →
         (∀ a' nd, Lfu.arena s' !! a' = Some nd → 1 ≤ Lfu.freq nd ≤ m).
Proof.
  intros W0 LS Hk HM Hr.
  destruct (lfu_rescaleNode_wf0 s k a W0 Hk) as (s'' & E & W0' & _).
  assert (s'' = s') as -> by congruence. clear E.
  destruct (LS k a Hk) as (n & l0 & Hn & Hl0 & Hin0).
  destruct W0 as (I1 & I2 & I3 & I5). pose proof (conj I1 (conj I2 (conj I3 I5))) as W0.
  destruct (I1 k a Hk) as (n1 & Hn1 & _ & Hfr & _).
  assert (n1 = n) as -> by congruence.
  unfold Lfu.rescaleNode in Hr.
  apply bind_Some in Hr as (s1 & H1 & Hr).
  assert (Lfu.arena s1 = Lfu.arena s
          ∧ Lfu.maxAverageNum_ s1 = Lfu.maxAverageNum_ s) as [Ea EM].
  { pose proof H1 as H1'. unfold Lfu.removeFromFreqList in H1'.
    rewrite Hn in H1'. cbn [mbind option_bind] in H1'.
    rewrite Hl0 in H1'. cbn [mbind option_bind] in H1'.
    injection H1' as <-. split; reflexivity. }
  assert (Lfu.arena s1 !! a = Some n) as Hn1' by (rewrite Ea; exact Hn).
  rewrite Hn1' in Hr. cbn [mbind option_bind] in Hr. cbv zeta in Hr.
  rewrite EM in Hr.
  destruct (lfu_move_effect s a n _ s1 s' Hn H1 Hr)
    as (Ha & Hm & Hmf & Htot & Hcap & Hmax & Hl).
  pose proof (Z.quot_pos (Lfu.maxAverageNum_ s) 2 HM ltac:(lia)) as Hq.
  set (f' := if Lfu.freq n - Lfu.maxAverageNum_ s `quot` 2 <? 1 then 1
             else Lfu.freq n - Lfu.maxAverageNum_ s `quot` 2) in *.
  assert (1 ≤ f' ≤ Lfu.freq n) as Hf'.
  { unfold f'.
    destruct (Z.ltb_spec (Lfu.freq n - Lfu.maxAverageNum_ s `quot` 2) 1);
      lia. }
  destruct (lfu_move_ranged s k a n f' s' W0 LS Hk Hn Ha Hm Hl) as [LS' Hw'].
  split; [exact W0'|]. split; [exact LS'|]. split; [lia|].
  split; [exact Hmf|].
  intros m Hb a' nd. rewrite Ha.
  destruct (decide (a' = a)) as [->|Hne].
  - rewrite list_lookup_insert_eq by (eapply lookup_lt_Some; exact Hn).
    intros [= <-]. cbn [Lfu.setFreq Lfu.freq].
    specialize (Hb a n Hn). lia.
  - rewrite list_lookup_insert_ne by congruence. apply Hb.
Qed.

Lemma lfu_rescaleAll_ranged (l : list nat) s s' :
  Lfu.wf0 s → Lfu.listed s →
  (∀ a, a ∈ l → ∃ k, Lfu.nodeMap_ s !! k = Some a) →
  0 ≤ Lfu.maxAverageNum_ s →
  Lfu.rescaleAll l s = Some s' →
  Lfu.wf0 s' ∧ Lfu.listed s'
  ∧ Lfu.listWeight (Lfu.freqToFreqList_ s')
    ≤ Lfu.listWeight (Lfu.freqToFreqList_ s)
  ∧ Lfu.minFreq_ s' = Lfu.minFreq_ s
  ∧ ∀ m, (∀ a' nd, Lfu.arena s !! a' = Some nd → 1 ≤ Lfu.freq nd ≤ m) →
         (∀ a' nd, Lfu.arena s' !! a' = Some nd → 1 ≤ Lfu.freq nd ≤ m).
Proof.
  revert s. induction l as [|a l IH]; intros s W0 LS Hl HM Hr.
  - injection Hr as <-. split; [exact W0|]. split; [exact LS|].
    split; [lia|]. split; [reflexivity|]. intros m Hb. exact Hb.
  - rewrite lfu_rescaleAll_cons in Hr.
    apply bind_Some in Hr as (s1 & H1 & Hr).
    destruct (Hl a ltac:(left)) as [k Hk].
    destruct (lfu_rescaleNode_ranged s k a s1 W0 LS Hk HM H1)
      as (W1 & LS1 & Hw1 & Hmf1 & Hb1).
    destruct (lfu_rescaleNode_frame _ _ _ H1) as (_ & HM1 & _ & _ & Hm1 & _).
    destruct (IH s1 W1 LS1) as (W' & LS' & Hw' & Hmf' & Hb');
      [intros a' Ha'; rewrite Hm1; apply Hl; right; exact Ha'
      | rewrite HM1; exact HM | exact Hr |].
    split; [exact W'|]. split; [exact LS'|]. split; [lia|].
    split; [congruence|]. intros m Hb. apply Hb', Hb1, Hb.
Qed.

Lemma lfu_updateMinFreq_int s :
  1 ≤ Lfu.minFreq_ (Lfu.updateMinFreq s) ≤ CInt.INT8_MAX
  ∨ Lfu.minFreq_ (Lfu.updateMinFreq s) < 1.
Proof.
  unfold Lfu.updateMinFreq. cbv zeta. cbn [Lfu.minFreq_ Lfu.set_minFreq].
  assert (foldr (λ (p : Z * list nat) acc,
                   if decide (p.2 = []) then acc else Z.min acc p.1)
                CInt.INT8_MAX (map_to_list (Lfu.freqToFreqList_ s))
          ≤ CInt.INT8_MAX) as Hle.
  { induction (map_to_list (Lfu.freqToFreqList_ s)) as [|p l IH];
      cbn [foldr]; [lia|]. case_decide; lia. }
  destruct (Z.eqb_spec
              (foldr (λ (p : Z * list nat) acc,
                        if decide (p.2 = []) then acc else Z.min acc p.1)
                     CInt.INT8_MAX (map_to_list (Lfu.freqToFreqList_ s)))
              CInt.INT8_MAX) as [E|E].
  - left. unfold CInt.INT8_MAX. lia.
  - destruct (Z.le_gt_cases 1
                (foldr (λ (p : Z * list nat) acc,
                          if decide (p.2 = []) then acc else Z.min acc p.1)
                       CInt.INT8_MAX (map_to_list (Lfu.freqToFreqList_ s))));
      [left | right]; lia.
Qed.

(** A rescale with a [maxAverageNum_] that is not negative. *)
Lemma lfu_handleOver_ranged s s' :
  Lfu.wf0 s → Lfu.listed s → 0 ≤ Lfu.maxAverageNum_ s →
  Lfu.handleOverMaxAverageNum s = Some s' →
  Lfu.wf0 s' ∧ Lfu.listed s'
  ∧ Lfu.listWeight (Lfu.freqToFreqList_ s')
    ≤ Lfu.listWeight (Lfu.freqToFreqList_ s)
  ∧ (Lfu.minFreq_ s' = Lfu.minFreq_ s ∨ Lfu.minFreq_ s' ≤ CInt.INT8_MAX)
  ∧ ∀ m, (∀ a' nd, Lfu.arena s !! a' = Some nd → 1 ≤ Lfu.freq nd ≤ m) →
         (∀ a' nd, Lfu.arena s' !! a' = Some nd → 1 ≤ Lfu.freq nd ≤ m).
Proof.
  intros W0 LS HM Hh.
  destruct (lfu_handleOver_wf s W0) as (s'' & E & W0' & _).
  assert (s'' = s') as -> by congruence. clear E.
  unfold Lfu.handleOverMaxAverageNum in Hh.
  case_decide as Hsz.
  - injection Hh as <-. split; [exact W0|]. split; [exact LS|].
    split; [lia|]. split; [left; reflexivity|]. intros m Hb. exact Hb.
  - apply bind_Some in Hh as (s1 & H1 & Hh). injection Hh as <-.
    assert (∀ a, a ∈ (map_to_list (Lfu.nodeMap_ s)).*2 →
                 ∃ k, Lfu.nodeMap_ s !! k = Some a) as Hmem.
    { intros a Ha. apply list_elem_of_fmap in Ha as ([k a'] & -> & Hin).
      apply elem_of_map_to_list in Hin. eauto. }
    destruct (lfu_rescaleAll_ranged _ s s1 W0 LS Hmem HM H1)
      as (W1 & LS1 & Hw1 & Hmf1 & Hb1).
    destruct (lfu_updateMinFreq_same s1) as (Em & El & Ea).
    split; [exact W0'|].
    split; [unfold Lfu.listed; rewrite Em, El, Ea; exact LS1|].
    split; [rewrite El; exact Hw1|].
    split; [|intros m Hb; rewrite Ea; apply Hb1, Hb].
    right. destruct (lfu_updateMinFreq_int s1); unfold CInt.INT8_MAX in *; lia.
Qed.

Lemma lfu_average_int (t : Z) s : - 2 ^ 31 ≤ Lfu.average t s < 2 ^ 31.
Proof.
  unfold Lfu.average. case_decide; [lia|].
  unfold CInt.div_int_size. apply to_int_range.
Qed.

(** [addFreqNum] with a [maxAverageNum_] that is not negative: the total
    grows by 1, the lists do not get heavier. *)
Lemma lfu_addFreqNum_ranged s s' :
  Lfu.wf0 s → Lfu.listed s → 0 ≤ Lfu.maxAverageNum_ s →
  Lfu.addFreqNum s = Some s' →
  Lfu.wf0 s' ∧ Lfu.listed s'
  ∧ Lfu.listWeight (Lfu.freqToFreqList_ s')
    ≤ Lfu.listWeight (Lfu.freqToFreqList_ s)
  ∧ Lfu.curTotalNum_ s' = Lfu.curTotalNum_ s + 1
  ∧ - 2 ^ 31 ≤ Lfu.curAverageNum_ s' < 2 ^ 31
  ∧ Lfu.maxAverageNum_ s' = Lfu.maxAverageNum_ s
  ∧ Lfu.nodeMap_ s' = Lfu.nodeMap_ s
  ∧ (Lfu.minFreq_ s' = Lfu.minFreq_ s ∨ Lfu.minFreq_ s' ≤ CInt.INT8_MAX)
  ∧ ∀ m, (∀ a' nd, Lfu.arena s !! a' = Some nd → 1 ≤ Lfu.freq nd ≤ m) →
         (∀ a' nd, Lfu.arena s' !! a' = Some nd → 1 ≤ Lfu.freq nd ≤ m).
Proof.
  intros W0 LS HM Ha. unfold Lfu.addFreqNum in Ha. cbv zeta in Ha.
  pose proof (lfu_average_int (Lfu.curTotalNum_ s + 1) s) as Havg.
  assert (Lfu.wf0 (Lfu.countAccess s)) as W1
    by (apply lfu_wf0_set_counters; exact W0).
  destruct (Lfu.curAverageNum_ (Lfu.countAccess s)
            >? Lfu.maxAverageNum_ (Lfu.countAccess s)).
  - destruct (lfu_handleOver_ranged (Lfu.countAccess s) s' W1 LS HM Ha)
      as (W' & LS' & Hw' & Hmf' & Hb').
    destruct (lfu_handleOver_frame _ _ Ha) as (_ & EM & Eavg & Et & Em & _).
    split; [exact W'|]. split; [exact LS'|]. split; [exact Hw'|].
    split; [rewrite Et; reflexivity|].
    split; [rewrite Eavg; exact Havg|].
    split; [rewrite EM; reflexivity|].
    split; [rewrite Em; reflexivity|].
    split; [exact Hmf' | exact Hb'].
  - injection Ha as <-.
    split; [exact W1|]. split; [exact LS|]. split; [cbn; lia|].
    split; [reflexivity|]. split; [exact Havg|].
    split; [reflexivity|]. split; [reflexivity|].
    split; [left; reflexivity|]. intros m Hb. exact Hb.
Qed.

Ltac lfu_fields :=
  cbn [Lfu.capacity_ Lfu.minFreq_ Lfu.maxAverageNum_ Lfu.curAverageNum_
       Lfu.curTotalNum_ Lfu.nodeMap_ Lfu.freqToFreqList_ Lfu.arena
       Lfu.set_minFreq Lfu.set_counters Lfu.set_nodeMap Lfu.set_lists
       Lfu.set_arena Lfu.decreaseFreqNum Lfu.countAccess fst snd] in *.

Lemma lfu_ranged_mono (n n' : Z) s :
  n ≤ n' → Lfu.ranged n s → Lfu.ranged n' s.
Proof.
  intros Hle (LS & Hb & Hw & Ht & Hm & Havg).
  split; [exact LS|].
  split; [intros a nd H; specialize (Hb a nd H); lia|].
  repeat split; lia.
Qed.

Lemma lfu_new_ranged (C M : Z) : Lfu.ranged 0 (Lfu.new (Value:=Value) C M).
Proof.
  split; [intros k a H; cbn in H; rewrite lookup_empty in H; discriminate|].
  split; [intros a nd H; cbn in H; discriminate|].
  cbn [Lfu.new Lfu.freqToFreqList_ Lfu.curTotalNum_ Lfu.minFreq_
       Lfu.curAverageNum_].
  rewrite lfu_listWeight_empty. unfold CInt.INT8_MAX. repeat split; lia.
Qed.

(** After [n] calls the [int] members are in range. *)
Lemma lfu_ranged_inRange (n : Z) s :
  Lfu.wf0 s → Lfu.ranged n s → Lfu.inRange n s.
Proof.
  intros (I1 & I2 & I3 & I5) (LS & Hb & Hw & Ht & Hm & Havg).
  assert (0 ≤ Lfu.listWeight (Lfu.freqToFreqList_ s)) as H0.
  { apply lfu_listWeight_nonneg. intros f l Hf Hne.
    destruct l as [|a l]; [done|].
    destruct (I2 f _ a Hf ltac:(left)) as (nd & _ & _ & H1). lia. }
  split; [exact Hb|]. repeat split; lia.
Qed.

(** A hit: one frequency and the total grow by 1. *)
Lemma lfu_getInternal_ranged s k a (n0 : Z) s5 v :
  Lfu.wf s → Lfu.ranged n0 s → 0 ≤ n0 →
  Lfu.nodeMap_ s !! k = Some a → 0 ≤ Lfu.maxAverageNum_ s →
  Lfu.getInternal a s = Some (s5, v) →
  Lfu.ranged (n0 + 1) s5 ∧ Lfu.maxAverageNum_ s5 = Lfu.maxAverageNum_ s.
Proof.
  intros W (LS & Hb & Hw & Ht & Hmf & Havg) H0 Hk HM Hg.
  unfold Lfu.getInternal in Hg.
  apply bind_Some in Hg as (n & Hn & Hg).
  apply bind_Some in Hg as (s4 & H4 & Hg).
  apply bind_Some in Hg as (s5' & H5 & Hg).
  assert (s5' = s5) as -> by congruence. clear Hg.
  destruct (lfu_relocate_wf s k a W Hk) as (s4' & E4 & W4 & _).
  assert (s4' = s4) as -> by congruence. clear E4.
  destruct (lfu_relocate_ranged s k a n s4 (proj1 W) LS Hk Hn H4)
    as (LS4 & Hw4 & Ha4 & Hmf4).
  destruct (lfu_relocate_frame _ _ _ H4) as (_ & EM4 & Eavg4 & Et4 & Em4 & _).
  destruct (lfu_addFreqNum_ranged s4 s5 (proj1 W4) LS4
              ltac:(rewrite EM4; exact HM) H5)
    as (W5 & LS5 & Hw5 & Et5 & Havg5 & EM5 & Em5 & Hmf5 & Hb5).
  split; [|congruence].
  split; [exact LS5|].
  split.
  { apply Hb5. intros a' nd. rewrite Ha4.
    destruct (decide (a' = a)) as [->|Hne].
    - rewrite list_lookup_insert_eq by (eapply lookup_lt_Some; exact Hn).
      intros [= <-]. cbn [Lfu.setFreq Lfu.freq].
      specialize (Hb a n Hn). lia.
    - rewrite list_lookup_insert_ne by congruence. intros H.
      specialize (Hb a' nd H). lia. }
  split; [lia|]. split; [lia|]. split; [|exact Havg5].
  specialize (Hb a n Hn). unfold CInt.INT8_MAX in *.
  destruct Hmf4, Hmf5; lia.
Qed.

Lemma lfu_ranged_setValue s a n v (n0 : Z) :
  Lfu.arena s !! a = Some n → Lfu.ranged n0 s →
  Lfu.ranged n0 (Lfu.set_arena (<[a := Lfu.setValue v n]> (Lfu.arena s)) s).
Proof.
  intros Hn (LS & Hb & Hrest).
  pose proof (lookup_lt_Some _ _ _ Hn) as Hlt.
  split; [|split; [|exact Hrest]].
  - intros k a' Hk. lfu_fields.
    destruct (LS k a' Hk) as (n' & l & Hn' & Hl & Hin).
    destruct (decide (a' = a)) as [->|Hne].
    + exists (Lfu.setValue v n), l.
      rewrite list_lookup_insert_eq by exact Hlt.
      assert (n' = n) as -> by congruence. auto.
    + exists n', l. rewrite list_lookup_insert_ne by congruence. auto.
  - intros a' nd. lfu_fields.
    destruct (decide (a' = a)) as [->|Hne].
    + rewrite list_lookup_insert_eq by exact Hlt. intros [= <-].
      exact (Hb a n Hn).
    + rewrite list_lookup_insert_ne by congruence. apply Hb.
Qed.

(** [kickOut]: a victim of the list of [minFreq_] takes its frequency off
    the lists and off the total; when that list is empty the total loses
    the frequency of the sentinel and the lists lose nothing. *)
Lemma lfu_kickOut_ranged s s' (n0 : Z) :
  Lfu.wf s → Lfu.ranged n0 s → Lfu.nodeMap_ s ≠ ∅ →
  Lfu.kickOut dummyKey s = Some s' →
  Lfu.listed s' ∧ Lfu.arena s' = Lfu.arena s
  ∧ Lfu.listWeight (Lfu.freqToFreqList_ s') ≤ Lfu.curTotalNum_ s' + n0 + 1
  ∧ Lfu.curTotalNum_ s' ≤ Lfu.curTotalNum_ s
  ∧ Lfu.minFreq_ s' = Lfu.minFreq_ s
  ∧ - 2 ^ 31 ≤ Lfu.curAverageNum_ s' < 2 ^ 31
  ∧ Lfu.maxAverageNum_ s' = Lfu.maxAverageNum_ s.
Proof.
  intros W (LS & Hb & Hw & Ht & Hmf & Havg) Hne Hk.
  pose proof W as [(I1 & I2 & I3 & I5) W4].
  destruct (W4 Hne) as [l Hl]. unfold Lfu.kickOut in Hk.
  rewrite Hl in Hk. cbn [mbind option_bind] in Hk. cbv zeta in Hk.
  destruct l as [|a l].
  - destruct (I3 Hne) as [l1 Hl1].
    unfold Lfu.removeFromFreqList in Hk. rewrite Hl1 in Hk.
    cbn [mbind option_bind] in Hk. injection Hk as <-.
    split.
    { intros k a Hka. lfu_fields.
      apply lfu_lookup_delete_sub in Hka. exact (LS k a Hka). }
    split; [reflexivity|].
    split; [lfu_fields; lia|]. split; [lfu_fields; lia|].
    split; [reflexivity|].
    split; [lfu_fields; apply lfu_average_int | reflexivity].
  - destruct (I2 _ _ a Hl) as (n & Ha & Hfn & Hge); [left|].
    unfold Lfu.removeFromFreqList in Hk. rewrite Ha in Hk.
    cbn [mbind option_bind] in Hk. rewrite Hfn, Hl in Hk.
    cbn [mbind option_bind] in Hk. cbn [Lfu.arena Lfu.set_lists] in Hk.
    rewrite Ha in Hk. cbn [mbind option_bind] in Hk. injection Hk as <-.
    split.
    { intros k a' Hka. lfu_fields.
      apply lookup_delete_Some in Hka as [Hkn Hka].
      destruct (LS k a' Hka) as (n' & l' & Hn' & Hl' & Hin').
      exists n', (filter (λ x, x ≠ a) l'). split; [exact Hn'|].
      rewrite lfu_unlink_lookup, Hl'. split; [reflexivity|].
      apply list_elem_of_filter. split; [|exact Hin'].
      intros ->. destruct (I1 k a Hka) as (n'' & Hn'' & Hkey & _).
      congruence. }
    split; [reflexivity|].
    assert (Lfu.listWeight (Lfu.unlink a (Lfu.freqToFreqList_ s))
            ≤ Lfu.listWeight (Lfu.freqToFreqList_ s) - Lfu.minFreq_ s)
      as Hun.
    { apply (lfu_listWeight_unlink a _ _ (a :: l) Hl); [left | lia |].
      intros g l' Hg Hin.
      destruct (I2 g l' a Hg Hin) as (n2 & Hn2 & Hf2 & _). congruence. }
    split; [lfu_fields; lia|]. split; [lfu_fields; lia|].
    split; [reflexivity|].
    split; [lfu_fields; apply lfu_average_int | reflexivity].
Qed.

(** The new node of [putInternal] joins list 1. *)
Lemma lfu_link_new_ranged s k v s3 :
  Lfu.listed s →
  Lfu.addToFreqList (length (Lfu.arena s))
    (Lfu.set_nodeMap (<[k := length (Lfu.arena s)]> (Lfu.nodeMap_ s))
       (Lfu.set_arena (Lfu.arena s ++ [Lfu.mkNode 1 k v]) s)) = Some s3 →
  Lfu.listed s3
  ∧ Lfu.listWeight (Lfu.freqToFreqList_ s3)
    = Lfu.listWeight (Lfu.freqToFreqList_ s) + 1
  ∧ Lfu.arena s3 = Lfu.arena s ++ [Lfu.mkNode 1 k v]
  ∧ Lfu.curTotalNum_ s3 = Lfu.curTotalNum_ s
  ∧ Lfu.minFreq_ s3 = Lfu.minFreq_ s
  ∧ Lfu.maxAverageNum_ s3 = Lfu.maxAverageNum_ s.
Proof.
  intros LS H3.
  assert ((Lfu.arena s ++ [Lfu.mkNode 1 k v]) !! length (Lfu.arena s)
          = Some (Lfu.mkNode 1 k v)) as Hnew
    by (apply list_lookup_middle; reflexivity).
  unfold Lfu.addToFreqList in H3.
  cbn [Lfu.arena Lfu.set_nodeMap Lfu.set_arena] in H3.
  rewrite Hnew in H3. cbn [mbind option_bind Lfu.freq] in H3.
  cbv zeta in H3. injection H3 as <-. lfu_fields.
  split; [|split; [apply lfu_listWeight_push | repeat split]].
  intros k' a'. lfu_fields. destruct (decide (k = k')) as [->|Hne].
  - rewrite lookup_insert_eq. intros [= <-].
    exists (Lfu.mkNode 1 k' v). eexists. rewrite Hnew.
    cbn [Lfu.freq]. rewrite lookup_insert_eq.
    split; [reflexivity|]. split; [reflexivity|].
    apply elem_of_app. right. left.
  - rewrite lookup_insert_ne by exact Hne. intros Hk'.
    destruct (LS k' a' Hk') as (n & l & Hn & Hl & Hin).
    exists n. rewrite (lookup_app_l_Some _ _ _ _ Hn).
    destruct (decide (Lfu.freq n = 1)) as [E|E].
    + rewrite E, lookup_insert_eq. eexists.
      split; [reflexivity|]. split; [reflexivity|].
      apply elem_of_app. left. rewrite <- E, Hl. exact Hin.
    + rewrite lookup_insert_ne by congruence. eauto.
Qed.

Lemma lfu_putInternal_ranged s k v s' (n0 : Z) :
  Lfu.wf s → Lfu.ranged n0 s → 0 ≤ n0 → 0 ≤ Lfu.maxAverageNum_ s →
  Lfu.nodeMap_ s !! k = None →
  (Z.of_nat (size (Lfu.nodeMap_ s)) = CInt.to_size_t (Lfu.capacity_ s) →
   Lfu.nodeMap_ s ≠ ∅) →
  Lfu.putInternal dummyKey k v s = Some s' →
  Lfu.ranged (n0 + 1) s' ∧ Lfu.maxAverageNum_ s' = Lfu.maxAverageNum_ s.
Proof.
  intros W R H0 HM Hk Hfull Hp.
  pose proof R as (LS & Hb & Hw & Ht & Hmf & Havg).
  unfold Lfu.putInternal in Hp.
  apply bind_Some in Hp as (s1 & H1 & Hp). cbv zeta in Hp.
  apply bind_Some in Hp as (s3 & H3 & Hp).
  apply bind_Some in Hp as (s4 & H4 & Hp). injection Hp as <-.
  assert (Lfu.wf s1 ∧ Lfu.listed s1 ∧ Lfu.arena s1 = Lfu.arena s
          ∧ Lfu.listWeight (Lfu.freqToFreqList_ s1)
            ≤ Lfu.curTotalNum_ s1 + n0 + 1
          ∧ Lfu.curTotalNum_ s1 ≤ Lfu.curTotalNum_ s
          ∧ Lfu.minFreq_ s1 = Lfu.minFreq_ s
          ∧ Lfu.maxAverageNum_ s1 = Lfu.maxAverageNum_ s
          ∧ (∀ k' a, Lfu.nodeMap_ s1 !! k' = Some a →
                     Lfu.nodeMap_ s !! k' = Some a))
    as (W1 & LS1 & Ha1 & Hw1 & Ht1 & Hmf1 & HM1 & Hsub1).
  { destruct (Z.eqb_spec (Z.of_nat (size (Lfu.nodeMap_ s)))
                         (CInt.to_size_t (Lfu.capacity_ s))) as [E|_].
    - destruct (lfu_kickOut_wf dummyKey s W (Hfull E))
        as (s1' & k0 & E1 & W1 & _ & Hn1 & _).
      assert (s1' = s1) as -> by congruence.
      destruct (lfu_kickOut_ranged s s1 n0 W R (Hfull E) H1)
        as (LS1 & Ha1 & Hw1 & Ht1 & Hmf1 & _ & HM1).
      repeat (split; [assumption|]).
      intros k' a. rewrite Hn1. apply lfu_lookup_delete_sub.
    - injection H1 as <-.
      split; [exact W|]. split; [exact LS|]. split; [reflexivity|].
      split; [lia|]. split; [lia|]. split; [reflexivity|].
      split; [reflexivity | auto]. }
  assert (Lfu.nodeMap_ s1 !! k = None) as Hk1.
  { destruct (Lfu.nodeMap_ s1 !! k) as [a|] eqn:E; [|reflexivity].
    rewrite (Hsub1 _ _ E) in Hk. discriminate. }
  destruct (lfu_link_new_wf0 s1 k v (proj1 W1) Hk1) as (s3' & E3 & W3 & _).
  cbv zeta in E3. assert (s3' = s3) as -> by congruence. clear E3.
  destruct (lfu_link_new_ranged s1 k v s3 LS1 H3)
    as (LS3 & Hw3 & Ha3 & Ht3 & Hmf3 & HM3).
  destruct (lfu_addFreqNum_ranged s3 s4 W3 LS3
              ltac:(rewrite HM3, HM1; exact HM) H4)
    as (W4 & LS4 & Hw4 & Et4 & Havg4 & EM4 & Em4 & Hmf4 & Hb4).
  split; [|lfu_fields; congruence].
  split; [exact LS4|].
  split.
  { lfu_fields. apply Hb4. intros a' nd. rewrite Ha3, Ha1.
    intros H. apply lookup_app_Some in H as [H|[_ H]].
    - specialize (Hb a' nd H). lia.
    - apply list_elem_of_lookup_2, list_elem_of_singleton in H as ->.
      cbn [Lfu.freq]. lia. }
  lfu_fields. split; [lia|]. split; [lia|].
  split; [unfold CInt.INT8_MAX; lia | exact Havg4].
Qed.

Lemma lfu_put_ranged s k v s' (n0 : Z) :
  Lfu.wf s → Lfu.capacityOk s → Lfu.ranged n0 s → 0 ≤ n0 →
  0 ≤ Lfu.maxAverageNum_ s →
  Lfu.put dummyKey k v s = Some s' →
  Lfu.ranged (n0 + 1) s' ∧ Lfu.maxAverageNum_ s' = Lfu.maxAverageNum_ s.
Proof.
  intros W Hok R H0 HM Hp. unfold Lfu.put in Hp.
  destruct (Z.eqb_spec (Lfu.capacity_ s) 0) as [E|E].
  - injection Hp as <-.
    split; [apply (lfu_ranged_mono n0); [lia | exact R] | reflexivity].
  - destruct (Lfu.nodeMap_ s !! k) as [a|] eqn:Hk.
    + apply bind_Some in Hp as (n & Hn & Hp).
      apply bind_Some in Hp as ([s5 v5] & H5 & Hp). injection Hp as <-.
      destruct (lfu_getInternal_ranged
                  (Lfu.set_arena (<[a := Lfu.setValue v n]> (Lfu.arena s)) s)
                  k a n0 s5 v5) as [R5 HM5];
        [eapply lfu_wf_setValue; eassumption
        | apply lfu_ranged_setValue; assumption
        | exact H0 | exact Hk | exact HM | exact H5 |].
      split; [exact R5 | exact HM5].
    + apply (lfu_putInternal_ranged s k v s' n0); try assumption.
      intros Hsz Hemp. rewrite Hemp, map_size_empty in Hsz.
      apply (Hok E). symmetry. exact Hsz.
Qed.

Lemma lfu_get_ranged s k s' r (n0 : Z) :
  Lfu.wf s → Lfu.ranged n0 s → 0 ≤ n0 → 0 ≤ Lfu.maxAverageNum_ s →
  Lfu.get k s = Some (s', r) →
  Lfu.ranged (n0 + 1) s' ∧ Lfu.maxAverageNum_ s' = Lfu.maxAverageNum_ s.
Proof.
  intros W R H0 HM Hg. unfold Lfu.get in Hg.
  destruct (Lfu.nodeMap_ s !! k) as [a|] eqn:Hk.
  - apply bind_Some in Hg as ([s5 v5] & H5 & Hg).
    cbn [fst snd] in Hg. assert (s5 = s') as -> by congruence.
    exact (lfu_getInternal_ranged s k a n0 s' v5 W R H0 Hk HM H5).
  - assert (s = s') as <- by congruence.
    split; [apply (lfu_ranged_mono n0); [lia | exact R] | reflexivity].
Qed.

Lemma lfu_purge_ranged s (n0 : Z) :
  Lfu.wf0 s → Lfu.ranged n0 s → Lfu.ranged (n0 + 1) (Lfu.purge s).
Proof.
  intros W0 R. destruct (lfu_ranged_inRange n0 s W0 R) as (_ & Ht & _).
  destruct R as (LS & Hb & Hw & _ & Hmf & Havg).
  split; [intros k a H; cbn in H; rewrite lookup_empty in H; discriminate|].
  split; [intros a nd H; specialize (Hb a nd H); lia|].
  cbn [Lfu.purge Lfu.freqToFreqList_ Lfu.curTotalNum_ Lfu.minFreq_
       Lfu.curAverageNum_ Lfu.set_lists Lfu.set_nodeMap].
  rewrite lfu_listWeight_empty. repeat split; lia.
Qed.

Lemma lfu_step_ranged s o s' (n0 : Z) :
  Lfu.wf s → Lfu.capacityOk s → Lfu.ranged n0 s → 0 ≤ n0 →
  0 ≤ Lfu.maxAverageNum_ s →
  Lfu.step dummyKey s o = Some s' →
  Lfu.ranged (n0 + 1) s' ∧ Lfu.maxAverageNum_ s' = Lfu.maxAverageNum_ s.
Proof.
  intros W Hok R H0 HM Hs. destruct o as [k v|k|]; cbn [Lfu.step] in Hs.
  - exact (lfu_put_ranged s k v s' n0 W Hok R H0 HM Hs).
  - apply fmap_Some in Hs as ([s5 r] & Hg & ->).
    exact (lfu_get_ranged s k s5 r n0 W R H0 HM Hg).
  - injection Hs as <-.
    split; [exact (lfu_purge_ranged s n0 (proj1 W) R) | reflexivity].
Qed.

Lemma lfu_run_ranged ops s s' (n0 : Z) :
  Lfu.wf s → Lfu.capacityOk s → Lfu.ranged n0 s → 0 ≤ n0 →
  0 ≤ Lfu.maxAverageNum_ s →
  Lfu.run dummyKey ops s = Some s' →
  Lfu.wf s' ∧ Lfu.ranged (n0 + Z.of_nat (length ops)) s'
  ∧ Lfu.maxAverageNum_ s' = Lfu.maxAverageNum_ s.
Proof.
  revert s n0. induction ops as [|o ops IH]; intros s n0 W Hok R H0 HM Hr.
  - injection Hr as <-. split; [exact W|].
    split; [apply (lfu_ranged_mono n0); [cbn; lia | exact R] | reflexivity].
  - rewrite lfu_run_cons in Hr. apply bind_Some in Hr as (s1 & H1 & Hr).
    destruct (lfu_step_wf dummyKey s o W Hok) as (s1' & E1 & W1 & Hc1 & _).
    assert (s1' = s1) as -> by congruence. clear E1.
    destruct (lfu_step_ranged s o s1 n0 W Hok R H0 HM H1) as [R1 HM1].
    destruct (IH s1 (n0 + 1) W1) as (W' & R' & HM'); try assumption;
      [unfold Lfu.capacityOk; rewrite Hc1; exact Hok | lia
      | rewrite HM1; exact HM |].
    split; [exact W'|]. split; [|congruence].
    apply (lfu_ranged_mono (n0 + 1 + Z.of_nat (length ops))); [|exact R'].
    cbn [length]. lia.
Qed.

Lemma lfu_capacityOk_int (C M : Z) :
  - 2 ^ 31 ≤ C < 2 ^ 31 → Lfu.capacityOk (Lfu.new (Value:=Value) C M).
Proof.
  intros HC Hne. cbn in *. unfold CInt.to_size_t.
  intros E. apply Z.mod_divide in E; [|lia].
  destruct E as [q Hq]. lia.
Qed.

(** From the constructor: after a run of [n] calls with a [maxAverageNum]
    that is not negative, every [int] member holds a value between
    [- n] and the larger of [n] and [INT8_MAX]. *)
Lemma lfu_run_inRange (C M : Z) ops s :
  - 2 ^ 31 ≤ C < 2 ^ 31 → 0 ≤ M →
  Lfu.run dummyKey ops (Lfu.new C M) = Some s →
  Lfu.inRange (Z.of_nat (length ops)) s.
Proof.
  intros HC HM Hr.
  destruct (lfu_run_ranged ops (Lfu.new C M) s 0 (lfu_new_wf C M)
              (lfu_capacityOk_int C M HC) (lfu_new_ranged C M)
              ltac:(lia) HM Hr) as (W & R & _).
  apply lfu_ranged_inRange; [exact (proj1 W)|].
  apply (lfu_ranged_mono (0 + Z.of_nat (length ops))); [lia | exact R].
Qed.

(** ... so in a run of fewer than [2 ^ 31] calls no [int] member leaves
    the range of [int]. *)
Lemma lfu_run_fitsInt (C M : Z) ops s :
  - 2 ^ 31 ≤ C < 2 ^ 31 → 0 ≤ M < 2 ^ 31 →
  Z.of_nat (length ops) < 2 ^ 31 →
  Lfu.run dummyKey ops (Lfu.new C M) = Some s →
  Lfu.fitsInt s.
Proof.
  intros HC HM Hlen Hr.
  destruct (lfu_run_ranged ops (Lfu.new C M) s 0 (lfu_new_wf C M)
              (lfu_capacityOk_int C M HC) (lfu_new_ranged C M)
              ltac:(lia) (proj1 HM) Hr) as (W & _ & EM).
  destruct (lfu_run_wf dummyKey ops (Lfu.new C M) (lfu_new_wf C M)
              (lfu_capacityOk_int C M HC)) as (s' & E & _ & Ec & _).
  assert (s' = s) as -> by congruence.
  destruct (lfu_run_inRange C M ops s HC (proj1 HM) Hr)
    as (Hb & Ht & Hmf & Havg).
  cbn [Lfu.new Lfu.capacity_ Lfu.maxAverageNum_] in Ec, EM.
  unfold Lfu.fitsInt. rewrite Ec, EM. unfold CInt.INT8_MAX in Hmf.
  split; [intros a nd H; specialize (Hb a nd H); lia|].
  repeat split; lia.
Qed.

End LfuRange.

(** The length that [lfu_run_bounded] asks for cannot be raised by much:
    with [maxAverageNum = 0] and capacity 1, 127 calls take the frequency
    of the only key to [INT8_MAX], and the 128th call, the [put] of a
    second key, leaves two entries in the index. *)
Lemma lfu_run_of_128_calls_overflows :
  ∃ s, Runs.lfu_hot_128 = Some s
       ∧ Lfu.capacity_ s = 1 ∧ size (Lfu.nodeMap_ s) = 2%nat.
Proof.
  eexists. split; [vm_compute; reflexivity|]. split; by_eval.
Qed.

(** C2, as amended.  For a capacity [C] of the constructor,
    [0 ≤ C < 2^63]:
    - KLruCache: after any run of [put] and [get], the index holds at most
      [C] entries;
    - KLruKCache: after any run, the index of the main cache holds at most
      [C] entries, whatever the history capacity and [k];
    - KLfuCache: a run of [put], [get] and [purge] returns and leaves at
      most [C] entries in the index, evictions included ([kickOut] finds a
      node in the list of [minFreq_] and removes it before the new one
      enters), provided that the run is no longer than [maxAverageNum], so
      that no access of it triggers a rescale, or that [maxAverageNum] is
      not negative and the run is shorter than [INT8_MAX] = 127 calls, so
      that the rescales it triggers find every frequency below the mark of
      [updateMinFreq];
    - KArcCache: after any run, each half holds at most as many entries as
      its own current capacity; the two capacities, [C] each at
      construction, are never negative and always add up to [2 * C], so that
      one half can hold up to [2 * C] entries. *)
Theorem capacity_bound_of_each_policy {Value : Type} (C : Z) :
  0 ≤ C < 2 ^ 63 →
  (∀ ops : list (Lru.op Value),
     Z.of_nat (size (Lru.nodeMap_ (Lru.run ops (Lru.new C)))) ≤ C)
  ∧ (∀ (dflt : Value) (historyCapacity k : Z) (ops : list (Lru.op Value)),
       Z.of_nat (size (Lru.nodeMap_ (LruK.base
         (LruK.run dflt ops (LruK.new C historyCapacity k))))) ≤ C)
  ∧ (∀ (dummyKey maxAverageNum : Z) (ops : list (Lfu.op Value)),
       Z.of_nat (length ops) ≤ maxAverageNum < 2 ^ 31
       ∨ 0 ≤ maxAverageNum ∧ Z.of_nat (length ops) < CInt.INT8_MAX →
       ∃ s, Lfu.run dummyKey ops (Lfu.new C maxAverageNum) = Some s
            ∧ Z.of_nat (size (Lfu.nodeMap_ s)) ≤ C)
  ∧ (∀ (transformThreshold : Z) (ops : list (Arc.op Value)),
       let s := Arc.run ops (Arc.new C transformThreshold) in
       let lru := Arc.lruPart_ s in
       let lfu := Arc.lfuPart_ s in
       Z.of_nat (size (ArcLru.mainCache_ lru)) ≤ ArcLru.capacity_ lru
       ∧ Z.of_nat (size (ArcLfu.mainCache_ lfu)) ≤ ArcLfu.capacity_ lfu
       ∧ ArcLru.capacity_ lru + ArcLfu.capacity_ lfu = 2 * C
       ∧ 0 ≤ ArcLru.capacity_ lru ∧ 0 ≤ ArcLfu.capacity_ lfu).
Proof.
  intros HC. split; [|split; [|split]].
  - intros ops.
    apply (lru_run_bounded ops (Lru.new C)); cbn;
      [apply lru_new_wf | lia | rewrite map_size_empty; lia].
  - intros dflt h k ops.
    apply (lruk_run_base_bounded dflt ops (LruK.new C h k)); cbn;
      [apply lru_new_wf | lia | rewrite map_size_empty; lia].
  - intros dummyKey M ops HM. apply lfu_run_bounded; [lia | exact HM].
  - intros t ops. cbv zeta.
    destruct (arc_run_wf C ops (Arc.new C t) HC (arc_new_wf C t (proj1 HC)))
      as (_ & _ & H1 & H2 & H3 & H4 & H5).
    repeat split; assumption.
Qed.

Lemma capacity_bound_of_each_policy_witness :
  Z.of_nat (size (Lru.nodeMap_
    (Lru.run [Lru.Put 1 "a"; Lru.Put 2 "b"; Lru.Put 3 "c"] (Lru.new 2)))) ≤ 2
  ∧ (∃ s, Lfu.run 0 [Lfu.Put 1 "a"; Lfu.Put 2 "b"; Lfu.Get 1; Lfu.Put 3 "c"]
            (Lfu.new 2 10) = Some s
          ∧ Z.of_nat (size (Lfu.nodeMap_ s)) ≤ 2)
  ∧ (∃ s, Lfu.run 0 [Lfu.Put 1 "a"; Lfu.Put 2 "b"; Lfu.Get 1; Lfu.Put 3 "c"]
            (Lfu.new 2 0) = Some s
          ∧ Z.of_nat (size (Lfu.nodeMap_ s)) ≤ 2).
Proof.
  pose proof (capacity_bound_of_each_policy (Value := string) 2
                ltac:(lia)) as (H1 & _ & H2 & _).
  split; [apply H1|].
  split; apply H2; [left | right]; unfold CInt.INT8_MAX; cbn; lia.
Defined.

(** ** KArcCache: what a key is held with *)

Section ArcCoherence.
Context {Value : Type}.
Implicit Types (p : ArcLru.ArcLruPart Value) (q : ArcLfu.ArcLfuPart Value).
Implicit Types s : Arc.KArcCache Value.
Implicit Types m : gmap Z (ArcNode.ArcNode Value).






(** *** The LRU half *)







(** *** The LFU half *)












(** *** The cache *)













End ArcCoherence.

(** ** C1: what [get] returns after the last [put] of a key *)



(** ** KHashLruCaches: every slice runs on its own *)

Section HashLruSlices.
Context {Value : Type}.
Variable Hash : Z → Z.
Implicit Types s : HashLru.KHashLruCaches Value.
Implicit Types o : Lru.op Value.

Lemma hashLru_sliceIndex_sliced s k :
  HashLru.sliced s →
  ∃ i c, HashLru.sliceIndex Hash k s = Some i
         ∧ HashLru.lruSliceCaches_ s !! i = Some c.
Proof.
  intros [Hn Hlen]. unfold HashLru.sliceIndex. cbv zeta.
  rewrite to_size_t_small by lia.
  destruct (Z.eqb_spec (HashLru.sliceNum_ s) 0) as [E|_]; [lia|].
  pose proof (Z.mod_pos_bound (Hash k) (HashLru.sliceNum_ s) ltac:(lia)) as Hb.
  assert (Z.to_nat (Hash k `mod` HashLru.sliceNum_ s)
          < length (HashLru.lruSliceCaches_ s))%nat as Hlt
    by (rewrite Hlen; lia).
  apply lookup_lt_is_Some_2 in Hlt as [c Hc]. eauto.
Qed.

Lemma hashLru_sliceIndex_set_slices l s k :
  HashLru.sliceIndex Hash k (HashLru.set_slices l s)
  = HashLru.sliceIndex Hash k s.
Proof. reflexivity. Qed.

(** A call goes to the slice of its key and is that slice's call. *)
Lemma hashLru_step_slice s o i c :
  HashLru.sliceIndex Hash (HashLru.keyOf o) s = Some i →
  HashLru.lruSliceCaches_ s !! i = Some c →
  HashLru.step Hash s o
  = Some (HashLru.set_slices
            (<[i := Lru.step c o]> (HashLru.lruSliceCaches_ s)) s).
Proof.
  intros Hi Hc. destruct o as [k v|k]; cbn [HashLru.step HashLru.keyOf] in *.
  - unfold HashLru.put. rewrite Hi. cbn [mbind option_bind].
    rewrite Hc. reflexivity.
  - unfold HashLru.get. rewrite Hi. cbn [mbind option_bind].
    rewrite Hc. cbn [mbind option_bind Lru.step].
    destruct (Lru.get k c) as [c1 r]. reflexivity.
Qed.

Lemma hashLru_callsOf_cons i s o ops :
  HashLru.callsOf Hash i s (o :: ops)
  = if decide (HashLru.sliceIndex Hash (HashLru.keyOf o) s = Some i)
    then o :: HashLru.callsOf Hash i s ops
    else HashLru.callsOf Hash i s ops.
Proof.
  unfold HashLru.callsOf. case_decide as E.
  - apply filter_cons_True. exact E.
  - apply filter_cons_False. exact E.
Qed.

Lemma hashLru_run_slices ops s :
  HashLru.sliced s →
  ∃ s', HashLru.run Hash ops s = Some s'
        ∧ HashLru.sliceNum_ s' = HashLru.sliceNum_ s
        ∧ HashLru.capacity_ s' = HashLru.capacity_ s
        ∧ length (HashLru.lruSliceCaches_ s')
          = length (HashLru.lruSliceCaches_ s)
        ∧ ∀ i c, HashLru.lruSliceCaches_ s !! i = Some c →
            HashLru.lruSliceCaches_ s' !! i
            = Some (Lru.run (HashLru.callsOf Hash i s ops) c).
Proof.
  revert s. induction ops as [|o ops IH]; intros s Hs.
  - exists s. split; [reflexivity|]. repeat (split; [reflexivity|]).
    intros i c Hc. exact Hc.
  - destruct (hashLru_sliceIndex_sliced s (HashLru.keyOf o) Hs)
      as (i0 & c0 & Hi0 & Hc0).
    pose proof (hashLru_step_slice s o i0 c0 Hi0 Hc0) as Hstep.
    set (s1 := HashLru.set_slices
                 (<[i0 := Lru.step c0 o]> (HashLru.lruSliceCaches_ s)) s)
      in *.
    assert (HashLru.sliced s1) as Hs1.
    { destruct Hs as [Hn Hlen]. split; [exact Hn|].
      unfold s1. cbn. rewrite length_insert. exact Hlen. }
    destruct (IH s1 Hs1) as (s' & Hrun & Hn' & Hcap' & Hlen' & Hsl).
    exists s'. cbn [HashLru.run]. rewrite Hstep. cbn [mbind option_bind].
    split; [exact Hrun|]. split; [exact Hn'|]. split; [exact Hcap'|].
    split; [rewrite Hlen'; unfold s1; cbn; apply length_insert|].
    intros i c Hc. rewrite hashLru_callsOf_cons.
    assert (∀ l, HashLru.callsOf Hash i s1 l = HashLru.callsOf Hash i s l)
      as Hsame by reflexivity.
    case_decide as E.
    + assert (i = i0) as -> by congruence.
      assert (c = c0) as -> by congruence.
      rewrite <- Hsame. change (Lru.run (o :: ?l) c0)
        with (Lru.run l (Lru.step c0 o)).
      apply Hsl. unfold s1. cbn.
      apply list_lookup_insert_eq. eapply lookup_lt_Some. exact Hc0.
    + rewrite <- Hsame. apply Hsl. unfold s1. cbn.
      rewrite list_lookup_insert_ne by congruence. exact Hc.
Qed.

End HashLruSlices.

(** ** KHashLruCaches: what its users see *)

Lemma lru_run_nonpositive {Value} (c : Z) (ops : list (Lru.op Value)) :
  c ≤ 0 → Lru.run ops (Lru.new c) = Lru.new c.
Proof.
  intros Hc. unfold Lru.run.
  induction ops as [|[k v|k] ops IH]; cbn [foldl Lru.step]; [reflexivity|..].
  - rewrite lru_put_zero by exact Hc. exact IH.
  - exact IH.
Qed.

Lemma lru_run_size_any {Value} (c : Z) (ops : list (Lru.op Value)) :
  c < 2 ^ 64 →
  Z.of_nat (size (Lru.nodeMap_ (Lru.run ops (Lru.new c)))) ≤ Z.max 0 c.
Proof.
  intros Hc. destruct (Z.le_gt_cases c 0) as [Hle|Hgt].
  - rewrite lru_run_nonpositive by exact Hle. cbn.
    rewrite map_size_empty. lia.
  - rewrite Z.max_r by lia.
    apply (lru_run_bounded ops (Lru.new c)); cbn;
      [apply lru_new_wf | lia | rewrite map_size_empty; lia].
Qed.

Lemma sum_list_bounded {A} (f : A → nat) (l : list A) (b : Z) :
  (∀ x, x ∈ l → Z.of_nat (f x) ≤ b) →
  Z.of_nat (sum_list (f <$> l)) ≤ Z.of_nat (length l) * b.
Proof.
  induction l as [|x l IH]; intros Hb; [cbn; lia|].
  rewrite fmap_cons. cbn [sum_list length].
  pose proof (Hb x ltac:(left)) as H.
  pose proof (IH ltac:(intros y Hy; apply Hb; right; exact Hy)) as H0.
  rewrite Nat2Z.inj_add, Nat2Z.inj_succ. unfold id.
  apply Z.le_trans with (b + Z.of_nat (length l) * b);
    [apply Z.add_le_mono; assumption | lia].
Qed.

Section HashLruUse.
Context {Value : Type}.
Variable Hash : Z → Z.
Variable hardware_concurrency : Z.
Implicit Types s : HashLru.KHashLruCaches Value.

Lemma hashLru_new_shape (capacity sliceNum : Z) s0 :
  HashLru.new hardware_concurrency capacity sliceNum = Some s0 →
  0 < sliceNum < 2 ^ 31 →
  HashLru.sliced s0 ∧ HashLru.sliceNum_ s0 = sliceNum
  ∧ ∃ z, CDouble.sliceSize capacity sliceNum = Some z
         ∧ HashLru.lruSliceCaches_ s0
           = replicate (Z.to_nat sliceNum) (Lru.new (CInt.to_int z)).
Proof.
  intros Hnew Hn. unfold HashLru.new in Hnew. cbv zeta in Hnew.
  destruct (Z.ltb_spec 0 sliceNum) as [_|]; [|lia].
  apply bind_Some in Hnew as (z & Hz & Hnew). injection Hnew as <-.
  split; [split; cbn; [lia | apply length_replicate]|].
  split; [reflexivity|]. exists z. split; [exact Hz | reflexivity].
Qed.

(** X1.  A sliced LRU cache that the constructor made with a positive
    slice count: every run of [put] and [get] is defined (the slice index
    is within the vector), and it leaves each slice as the slice would be
    after running, alone and from new, the calls whose keys hash to it, in
    their order. *)
Theorem hashLru_slices_run_alone (capacity sliceNum : Z)
    (ops : list (Lru.op Value)) s0 :
  HashLru.new hardware_concurrency capacity sliceNum = Some s0 →
  0 < sliceNum < 2 ^ 31 →
  ∃ s c, HashLru.run Hash ops s0 = Some s
         ∧ HashLru.sliceNum_ s = sliceNum
         ∧ HashLru.lruSliceCaches_ s0
           = replicate (Z.to_nat sliceNum) (Lru.new c)
         ∧ length (HashLru.lruSliceCaches_ s) = Z.to_nat sliceNum
         ∧ ∀ i, (i < Z.to_nat sliceNum)%nat →
             HashLru.lruSliceCaches_ s !! i
             = Some (Lru.run (HashLru.callsOf Hash i s0 ops) (Lru.new c)).
Proof.
  intros Hnew Hn.
  destruct (hashLru_new_shape capacity sliceNum s0 Hnew Hn)
    as (Hs & Hnum & z & Hz & Hsl).
  destruct (hashLru_run_slices Hash ops s0 Hs)
    as (s & Hrun & Hn' & _ & Hlen & Hproj).
  exists s, (CInt.to_int z). split; [exact Hrun|].
  split; [congruence|]. split; [exact Hsl|].
  split; [rewrite Hlen, Hsl; apply length_replicate|].
  intros i Hi. apply Hproj. rewrite Hsl.
  apply lookup_replicate_2. exact Hi.
Qed.

(** X2.  On such a cache whose slices have a positive capacity, after the
    last [put(k, v)] of a key a [get(k)] returns [v] or misses; and it
    returns [v] whenever every call since then was on a key of another
    slice: the other slices cannot evict [k]. *)
Theorem hashLru_other_slices_do_not_evict (capacity sliceNum : Z)
    (ops0 ops : list (Lru.op Value)) (k : Z) (v : Value) s0 :
  HashLru.new hardware_concurrency capacity sliceNum = Some s0 →
  0 < sliceNum < 2 ^ 31 →
  (∀ c, c ∈ HashLru.lruSliceCaches_ s0 → 0 < Lru.capacity_ c) →
  (∀ v', Lru.Put k v' ∉ ops) →
  ∃ s s' r,
    HashLru.run Hash (ops0 ++ Lru.Put k v :: ops) s0 = Some s
    ∧ HashLru.get Hash k s = Some (s', r)
    ∧ (r = Some v ∨ r = None)
    ∧ ((∀ o, o ∈ ops →
          HashLru.sliceIndex Hash (HashLru.keyOf o) s0
          ≠ HashLru.sliceIndex Hash k s0) →
       r = Some v).
Proof.
  intros Hnew Hn Hcap Hno.
  destruct (hashLru_new_shape capacity sliceNum s0 Hnew Hn)
    as (Hs & Hnum & z & Hz & Hsl).
  destruct (hashLru_run_slices Hash (ops0 ++ Lru.Put k v :: ops) s0 Hs)
    as (s & Hrun & Hn' & _ & Hlen & Hproj).
  destruct (hashLru_sliceIndex_sliced Hash s0 k Hs) as (i & c & Hi & Hc).
  assert (c = Lru.new (CInt.to_int z)) as Ec.
  { rewrite Hsl in Hc. apply lookup_replicate in Hc as [-> _]. reflexivity. }
  assert (0 < CInt.to_int z) as Hpos.
  { specialize (Hcap c ltac:(eapply list_elem_of_lookup_2; exact Hc)).
    rewrite Ec in Hcap. exact Hcap. }
  pose proof (Hproj i c Hc) as Hslice.
  unfold HashLru.callsOf in Hslice. rewrite filter_app in Hslice.
  rewrite filter_cons_True in Hslice by exact Hi.
  fold (HashLru.callsOf Hash i s0 ops0) in Hslice.
  fold (HashLru.callsOf Hash i s0 ops) in Hslice.
  rewrite Ec in Hslice.
  assert (∀ v', Lru.Put k v' ∉ HashLru.callsOf Hash i s0 ops) as Hno'.
  { intros v' Hin. apply list_elem_of_filter in Hin as [_ Hin].
    exact (Hno v' Hin). }
  destruct (lru_put_get_coherent (CInt.to_int z)
              (HashLru.callsOf Hash i s0 ops0)
              (HashLru.callsOf Hash i s0 ops) k v Hpos Hno')
    as (Himm & Hheld & Hany).
  set (sl := Lru.run _ (Lru.new (CInt.to_int z))) in *.
  assert (HashLru.sliceIndex Hash k s = Some i) as Hi'.
  { unfold HashLru.sliceIndex in *. rewrite Hn'. exact Hi. }
  exists s. unfold HashLru.get. rewrite Hi'. cbn [mbind option_bind].
  rewrite Hslice. cbn [mbind option_bind].
  destruct (Lru.get k sl) as [c1 r] eqn:Hget. cbn [snd] in *.
  eexists _, r. split; [exact Hrun|]. split; [reflexivity|].
  split; [exact Hany|].
  intros Hother. apply Hheld, Himm.
  unfold HashLru.callsOf.
  destruct (filter _ ops) as [|o rest] eqn:Hf; [reflexivity|].
  assert (o ∈ filter (λ o, HashLru.sliceIndex Hash (HashLru.keyOf o) s0
                           = Some i) ops) as Hin
    by (rewrite Hf; left).
  apply list_elem_of_filter in Hin as [Ho Hin].
  destruct (Hother o Hin). congruence.
Qed.

(** X3.  On such a cache, after every run, each slice holds at most as
    many entries as its capacity (none when the capacity, an [int] made
    from the [size_t] slice size, is not positive), so the cache holds at
    most [sliceNum] times that many. *)
Theorem hashLru_entries_bounded (capacity sliceNum : Z)
    (ops : list (Lru.op Value)) s0 :
  HashLru.new hardware_concurrency capacity sliceNum = Some s0 →
  0 < sliceNum < 2 ^ 31 →
  ∃ s c, HashLru.run Hash ops s0 = Some s
         ∧ (∀ sl, sl ∈ HashLru.lruSliceCaches_ s0 → Lru.capacity_ sl = c)
         ∧ (∀ sl, sl ∈ HashLru.lruSliceCaches_ s →
              Lru.capacity_ sl = c
              ∧ Z.of_nat (size (Lru.nodeMap_ sl)) ≤ Z.max 0 c)
         ∧ Z.of_nat (sum_list ((λ sl, size (Lru.nodeMap_ sl))
                                <$> HashLru.lruSliceCaches_ s))
           ≤ sliceNum * Z.max 0 c.
Proof.
  intros Hnew Hn.
  destruct (hashLru_new_shape capacity sliceNum s0 Hnew Hn)
    as (Hs & Hnum & z & Hz & Hsl).
  destruct (hashLru_run_slices Hash ops s0 Hs)
    as (s & Hrun & Hn' & _ & Hlen & Hproj).
  exists s, (CInt.to_int z). split; [exact Hrun|].
  assert (CInt.to_int z < 2 ^ 64) as Hlt.
  { unfold CInt.to_int.
    pose proof (Z.mod_pos_bound (z + 2 ^ 31) (2 ^ 32) ltac:(lia)). lia. }
  assert (∀ sl, sl ∈ HashLru.lruSliceCaches_ s →
            Lru.capacity_ sl = CInt.to_int z
            ∧ Z.of_nat (size (Lru.nodeMap_ sl)) ≤ Z.max 0 (CInt.to_int z))
    as Hall.
  { intros sl Hin. apply list_elem_of_lookup_1 in Hin as [i Hi].
    pose proof (lookup_lt_Some _ _ _ Hi) as Hlti. rewrite Hlen in Hlti.
    apply lookup_lt_is_Some_2 in Hlti as [c Hc].
    rewrite (Hproj i c Hc) in Hi. injection Hi as <-.
    rewrite Hsl in Hc. apply lookup_replicate in Hc as [-> _].
    split; [apply lru_run_capacity | apply lru_run_size_any, Hlt]. }
  split.
  { intros sl Hin. rewrite Hsl in Hin.
    apply elem_of_replicate in Hin as [-> _]. reflexivity. }
  split; [exact Hall|].
  pose proof (sum_list_bounded (λ sl, size (Lru.nodeMap_ sl))
                (HashLru.lruSliceCaches_ s) (Z.max 0 (CInt.to_int z))
                (λ sl Hin, proj2 (Hall sl Hin))) as Hsum.
  rewrite Hlen, Hsl, length_replicate in Hsum. lia.
Qed.

End HashLruUse.

Lemma hashLru_slices_run_alone_witness :
  ∃ s, HashLru.run (λ k, k) [Lru.Put 1 "a"; Lru.Put 2 "b"; Lru.Put 4 "d"]
         (HashLru.mkHash 10 3 (replicate 3 (Lru.new 4))) = Some s
       ∧ HashLru.lruSliceCaches_ s !! 1%nat
         = Some (Lru.run [Lru.Put 1 "a"; Lru.Put 4 "d"] (Lru.new 4)).
Proof.
  destruct (hashLru_slices_run_alone (Value := string) (λ k, k) 8 10 3
              [Lru.Put 1 "a"; Lru.Put 2 "b"; Lru.Put 4 "d"]
              (HashLru.mkHash 10 3 (replicate 3 (Lru.new 4))))
    as (s & c & Hrun & _ & Hc & _ & Hsl); [vm_compute; reflexivity | lia |].
  exists s. split; [exact Hrun|].
  rewrite (Hsl 1%nat ltac:(vm_compute; lia)).
  cbn in Hc. injection Hc as Hc. rewrite <- Hc. reflexivity.
Defined.

Lemma hashLru_other_slices_do_not_evict_witness :
  ∃ s s',
    HashLru.run (λ k, k)
      ([] ++ Lru.Put 1 "a" :: [Lru.Put 2 "b"; Lru.Put 3 "c"; Lru.Get 5])
      (HashLru.mkHash 10 3 (replicate 3 (Lru.new 4))) = Some s
    ∧ HashLru.get (λ k, k) 1 s = Some (s', Some "a").
Proof.
  destruct (hashLru_other_slices_do_not_evict (Value := string) (λ k, k) 8
              10 3 [] [Lru.Put 2 "b"; Lru.Put 3 "c"; Lru.Get 5] 1 "a"
              (HashLru.mkHash 10 3 (replicate 3 (Lru.new 4))))
    as (s & s' & r & Hrun & Hget & _ & Hr).
  - vm_compute. reflexivity.
  - lia.
  - intros c Hin. apply elem_of_replicate in Hin as [-> _]. cbn. lia.
  - intros v' Hin.
    repeat (apply elem_of_cons in Hin as [Hin|Hin]; [discriminate|]).
    inversion Hin.
  - exists s, s'. split; [exact Hrun|]. rewrite Hget, Hr; [reflexivity|].
    intros o Hin.
    repeat (apply elem_of_cons in Hin as [->|Hin];
            [vm_compute; discriminate|]).
    inversion Hin.
Defined.

Lemma hashLru_entries_bounded_witness :
  ∃ s, HashLru.run (λ k, k) [Lru.Put 1 "a"; Lru.Put 2 "b"; Lru.Put 4 "d"]
         (HashLru.mkHash 3 3 (replicate 3 (Lru.new 1))) = Some s
       ∧ Z.of_nat (sum_list ((λ sl, size (Lru.nodeMap_ sl))
                              <$> HashLru.lruSliceCaches_ s)) ≤ 3.
Proof.
  destruct (hashLru_entries_bounded (Value := string) (λ k, k) 8 3 3
              [Lru.Put 1 "a"; Lru.Put 2 "b"; Lru.Put 4 "d"]
              (HashLru.mkHash 3 3 (replicate 3 (Lru.new 1))))
    as (s & c & Hrun & Hc & _ & Hsum); [vm_compute; reflexivity | lia |].
  exists s. split; [exact Hrun|].
  rewrite <- (Hc (Lru.new 1) ltac:(left)) in Hsum. cbn in Hsum. lia.
Defined.

(** ** KLruCache: recency order *)

Lemma chain_unlink_filter (k : Z) (l : list Z) :
  NoDup l → Chain.unlink k l = filter (λ x, x ≠ k) l.
Proof.
  induction l as [|x l IH]; intros Hnd; [reflexivity|].
  apply NoDup_cons in Hnd as [Hx Hnd]. cbn [Chain.unlink].
  destruct (decide (x = k)) as [->|Hne].
  - rewrite filter_cons_False by (intros H; apply H; reflexivity).
    rewrite <- (chain_unlink_absent k l Hx) at 1.
    apply IH, Hnd.
  - rewrite filter_cons_True by exact Hne. f_equal. apply IH, Hnd.
Qed.

Lemma NoDup_fst_functional {A B} (l : list (A * B)) (x : A) (y1 y2 : B) :
  NoDup l.*1 → (x, y1) ∈ l → (x, y2) ∈ l → y1 = y2.
Proof.
  induction l as [|[a b] l IH]; intros Hnd H1 H2; [inversion H1|].
  rewrite fmap_cons in Hnd. apply NoDup_cons in Hnd as [Ha Hnd]. cbn in Ha.
  assert (∀ y, (a, y) ∈ l → False) as Hno.
  { intros y Hy. apply Ha. apply list_elem_of_fmap. exists (a, y).
    split; [reflexivity | exact Hy]. }
  apply elem_of_cons in H1 as [E1|H1]; apply elem_of_cons in H2 as [E2|H2].
  - congruence.
  - injection E1 as -> ->. destruct (Hno _ H2).
  - injection E2 as -> ->. destruct (Hno _ H1).
  - exact (IH Hnd H1 H2).
Qed.

Section LruRecency.
Context {Value : Type}.
Implicit Types s : Lru.KLruCache Value.

Lemma lru_wf_lookup s k :
  Lru.wf s → (is_Some (Lru.nodeMap_ s !! k) ↔ k ∈ Lru.list_ s).
Proof.
  intros [_ Hdom]. rewrite <- elem_of_dom, Hdom, elem_of_list_to_set.
  reflexivity.
Qed.

Lemma lru_run_wf_any (C : Z) (ops : list (Lru.op Value)) :
  C < 2 ^ 64 →
  Lru.wf (Lru.run ops (Lru.new C))
  ∧ Z.of_nat (size (Lru.nodeMap_ (Lru.run ops (Lru.new C)))) ≤ Z.max 0 C.
Proof.
  intros HC. split; [|apply lru_run_size_any, HC].
  destruct (Z.le_gt_cases C 0) as [Hle|Hgt].
  - rewrite lru_run_nonpositive by exact Hle. apply lru_new_wf.
  - apply (lru_run_bounded ops (Lru.new C)); cbn;
      [apply lru_new_wf | lia | rewrite map_size_empty; lia].
Qed.

(** X4.  After any run of [put] and [get] on a new KLruCache, whatever
    its capacity, the chain between the two dummy nodes holds exactly the
    keys of the index, each once: [get(k)] hits exactly for the keys of
    the chain. *)
Theorem lru_chain_and_index_agree (C : Z) (ops : list (Lru.op Value)) :
  C < 2 ^ 64 →
  let s := Lru.run ops (Lru.new C) in
  NoDup (Lru.list_ s)
  ∧ length (Lru.list_ s) = size (Lru.nodeMap_ s)
  ∧ ∀ k, k ∈ Lru.list_ s ↔ is_Some ((Lru.get k s).2).
Proof.
  intros HC. cbv zeta.
  destruct (lru_run_wf_any C ops HC) as [W _].
  split; [exact (proj1 W)|]. split; [symmetry; apply lru_wf_size, W|].
  intros k. rewrite lru_get_result, <- (lru_wf_lookup _ k W).
  destruct (Lru.nodeMap_ _ !! k); cbn; split; intros [x Hx]; eauto;
    discriminate.
Qed.

(** X5.  An access to a key that is held, a [get] or a [put], makes it
    the most recent key and leaves the other keys in the order they had;
    the [put] changes the value of this entry only, the [get] none. *)
Theorem lru_access_moves_to_most_recent s k n (v : Value) :
  Lru.wf s → Lru.nodeMap_ s !! k = Some n → 0 < Lru.capacity_ s →
  Lru.get k s
  = (Lru.mkLru (Lru.capacity_ s) (Lru.nodeMap_ s)
       (filter (λ x, x ≠ k) (Lru.list_ s) ++ [k]),
     Some (Lru.value_ n))
  ∧ Lru.put k v s
    = Lru.mkLru (Lru.capacity_ s)
        (<[k := Lru.mkNode v (Lru.accessCount_ n)]> (Lru.nodeMap_ s))
        (filter (λ x, x ≠ k) (Lru.list_ s) ++ [k]).
Proof.
  intros [Hnd Hdom] Hk Hc. split.
  - unfold Lru.get. rewrite Hk.
    unfold Lru.moveToMostRecent, Lru.insertNode, Lru.removeNode.
    cbn [Lru.list_ Lru.nodeMap_ Lru.capacity_].
    rewrite chain_unlink_filter by exact Hnd. reflexivity.
  - unfold Lru.put. destruct (Z.leb_spec (Lru.capacity_ s) 0); [lia|].
    rewrite Hk.
    unfold Lru.updateExistingNode, Lru.moveToMostRecent, Lru.insertNode,
      Lru.removeNode, Lru.setValue.
    cbn [Lru.list_ Lru.nodeMap_ Lru.capacity_].
    rewrite chain_unlink_filter by exact Hnd. f_equal.
    apply map_eq. intros k'. destruct (decide (k' = k)) as [->|Hne].
    + rewrite lookup_alter_eq, lookup_insert_eq, Hk. reflexivity.
    + rewrite lookup_alter_ne, lookup_insert_ne by congruence. reflexivity.
Qed.

Lemma lru_put_new_effect s k (v : Value) :
  0 < Lru.capacity_ s < 2 ^ 64 → Lru.nodeMap_ s !! k = None →
  Lru.list_ (Lru.put k v s)
  = (if Z.of_nat (size (Lru.nodeMap_ s)) >=? Lru.capacity_ s
     then tail (Lru.list_ s) else Lru.list_ s) ++ [k].
Proof.
  intros Hc Hk. unfold Lru.put.
  destruct (Z.leb_spec (Lru.capacity_ s) 0); [lia|]. rewrite Hk.
  unfold Lru.addNewNode. rewrite to_size_t_small by lia. cbn.
  destruct (_ >=? _); [|reflexivity].
  unfold Lru.evictLeastRecent. destruct (Lru.list_ s); reflexivity.
Qed.

Lemma lru_puts_invariant (C : Z) (kvs : list (Z * Value)) :
  0 < C < 2 ^ 64 → NoDup kvs.*1 →
  let s := Lru.run ((λ p, Lru.Put p.1 p.2) <$> kvs) (Lru.new C) in
  Lru.wf s
  ∧ Lru.list_ s = (drop (length kvs - Z.to_nat C) kvs).*1
  ∧ ∀ k n, Lru.nodeMap_ s !! k = Some n → (k, Lru.value_ n) ∈ kvs.
Proof.
  intros HC. cbv zeta.
  induction kvs as [|[k v] kvs IH] using rev_ind; intros Hnd.
  - split; [apply lru_new_wf|]. split; [reflexivity|].
    intros k n E. cbn in E. rewrite lookup_empty in E. discriminate.
  - rewrite fmap_app in Hnd. apply NoDup_app in Hnd as (Hnd & Hk & _).
    destruct (IH Hnd) as (W & Hl & Hv). clear IH.
    rewrite fmap_app, lru_run_app.
    set (s := Lru.run _ (Lru.new C)) in *.
    change (Lru.run ((λ p, Lru.Put p.1 p.2) <$> [(k, v)]) s)
      with (Lru.put k v s).
    assert (Lru.capacity_ s = C) as Hcap by apply lru_run_capacity.
    assert (k ∉ Lru.list_ s) as Hnotin.
    { rewrite Hl. intros Hin. apply (Hk k); [|left].
      apply list_elem_of_fmap in Hin as (p & -> & Hp).
      apply list_elem_of_fmap. exists p. split; [reflexivity|].
      eapply subseteq_drop. exact Hp. }
    assert (Lru.nodeMap_ s !! k = None) as Hnone.
    { apply eq_None_not_Some. rewrite (lru_wf_lookup s k W). exact Hnotin. }
    assert (Z.of_nat (size (Lru.nodeMap_ s)) ≤ C) as Hsz.
    { rewrite (lru_wf_size s W), Hl, length_fmap, length_drop. lia. }
    destruct (lru_put_wf s k v W ltac:(lia) ltac:(lia)) as [W' _].
    split; [exact W'|]. split.
    + rewrite lru_put_new_effect by (rewrite ?Hcap; first [lia | exact Hnone]).
      rewrite Hcap, (lru_wf_size s W), Hl, length_fmap, length_drop.
      rewrite length_app. cbn [length].
      destruct (Z.geb_spec (Z.of_nat (length kvs - (length kvs - Z.to_nat C)))
                           C) as [Hfull|Hroom].
      * replace (length kvs + 1 - Z.to_nat C)%nat
          with ((length kvs - Z.to_nat C) + 1)%nat by lia.
        rewrite <- drop_drop, drop_app_le by lia.
        assert (length (drop (length kvs - Z.to_nat C) kvs) = Z.to_nat C)
          as Hlen by (rewrite length_drop; lia).
        destruct (drop (length kvs - Z.to_nat C) kvs) as [|p rest];
          [cbn in Hlen; lia|].
        cbn [drop app tail]. rewrite drop_0, !fmap_cons, fmap_app.
        reflexivity.
      * replace (length kvs - Z.to_nat C)%nat with 0%nat by lia.
        replace (length kvs + 1 - Z.to_nat C)%nat with 0%nat by lia.
        rewrite !drop_0, fmap_app. reflexivity.
    + intros k' n Hn. destruct (decide (k' = k)) as [->|Hne].
      * destruct (lru_put_lookup_same k v s ltac:(lia)) as (n' & Hn' & Hval).
        assert (n = n') as -> by congruence. rewrite Hval.
        apply elem_of_app. right. left.
      * destruct (lru_put_lookup_other k v s k' Hne) as [E|E];
          [congruence|].
        rewrite E in Hn. apply elem_of_app. left. exact (Hv k' n Hn).
Qed.

(** X6.  After [put] of pairwise distinct keys into a new KLruCache of
    capacity [C > 0], the cache holds the last [C] of them (all of them
    when there are fewer), in the order of the calls: [get] returns the
    value of each of these and misses on every earlier key. *)
Theorem lru_keeps_the_last_keys_put (C : Z) (kvs : list (Z * Value)) :
  0 < C < 2 ^ 64 → NoDup kvs.*1 →
  let s := Lru.run ((λ p, Lru.Put p.1 p.2) <$> kvs) (Lru.new C) in
  let before := (length kvs - Z.to_nat C)%nat in
  Lru.list_ s = (drop before kvs).*1
  ∧ (∀ k v, (k, v) ∈ drop before kvs → (Lru.get k s).2 = Some v)
  ∧ (∀ k, k ∈ (take before kvs).*1 → (Lru.get k s).2 = None).
Proof.
  intros HC Hnd. cbv zeta.
  destruct (lru_puts_invariant C kvs HC Hnd) as (W & Hl & Hv).
  set (s := Lru.run _ (Lru.new C)) in *.
  set (before := (length kvs - Z.to_nat C)%nat) in *.
  split; [exact Hl|]. split.
  - intros k v Hin. rewrite lru_get_result.
    assert (k ∈ Lru.list_ s) as Hk.
    { rewrite Hl. apply list_elem_of_fmap. exists (k, v).
      split; [reflexivity | exact Hin]. }
    apply (lru_wf_lookup s k W) in Hk as [n Hn]. rewrite Hn. cbn. f_equal.
    apply (NoDup_fst_functional kvs k); [exact Hnd | exact (Hv k n Hn)|].
    eapply subseteq_drop. exact Hin.
  - intros k Hin. rewrite lru_get_result.
    assert (Lru.nodeMap_ s !! k = None) as ->; [|reflexivity].
    apply eq_None_not_Some. rewrite (lru_wf_lookup s k W), Hl.
    rewrite <- (take_drop before kvs), fmap_app in Hnd.
    apply NoDup_app in Hnd as (_ & Hdisj & _). exact (Hdisj k Hin).
Qed.

(** X7.  [remove(k)] on a cache whose chain and index agree erases
    exactly [k]: the index loses this key only, the other keys stay in the
    order they had, chain and index still agree, and a [get(k)] misses;
    when [k] is not held nothing changes. *)
Theorem lru_remove_erases_one_key s k :
  Lru.wf s →
  let s' := Lru.remove k s in
  Lru.nodeMap_ s' = delete k (Lru.nodeMap_ s)
  ∧ Lru.list_ s' = filter (λ x, x ≠ k) (Lru.list_ s)
  ∧ Lru.capacity_ s' = Lru.capacity_ s
  ∧ Lru.wf s'
  ∧ Lru.get k s' = (s', None)
  ∧ (Lru.nodeMap_ s !! k = None → s' = s).
Proof.
  intros W. pose proof W as [Hnd Hdom]. cbv zeta.
  assert (Lru.nodeMap_ (Lru.remove k s) = delete k (Lru.nodeMap_ s)) as Hm.
  { unfold Lru.remove. destruct (Lru.nodeMap_ s !! k) eqn:Hk; [reflexivity|].
    symmetry. apply delete_id. exact Hk. }
  assert (Lru.list_ (Lru.remove k s) = filter (λ x, x ≠ k) (Lru.list_ s))
    as Hl.
  { unfold Lru.remove, Lru.removeNode.
    destruct (Lru.nodeMap_ s !! k) eqn:Hk; cbn [Lru.list_].
    - apply chain_unlink_filter, Hnd.
    - rewrite <- chain_unlink_filter by exact Hnd. symmetry.
      apply chain_unlink_absent. rewrite <- (lru_wf_lookup s k W), Hk.
      intros [x Hx]. discriminate. }
  split; [exact Hm|]. split; [exact Hl|].
  split; [unfold Lru.remove; destruct (Lru.nodeMap_ s !! k); reflexivity|].
  split; [|split].
  - split; [rewrite Hl; apply NoDup_filter, Hnd|].
    rewrite Hm, Hl, dom_delete_L, Hdom. apply set_eq. intros x.
    rewrite elem_of_difference, !elem_of_list_to_set, list_elem_of_filter,
      elem_of_singleton. tauto.
  - unfold Lru.get. rewrite Hm, lookup_delete_eq. reflexivity.
  - intros Hk. unfold Lru.remove. rewrite Hk. reflexivity.
Qed.

End LruRecency.

Lemma lru_chain_and_index_agree_witness :
  NoDup (Lru.list_ (Lru.run [Lru.Put 1 "a"; Lru.Put 2 "b"; Lru.Get 1]
                            (Lru.new 2)))
  ∧ (1 ∈ Lru.list_ (Lru.run [Lru.Put 1 "a"; Lru.Put 2 "b"; Lru.Get 1]
                            (Lru.new 2))).
Proof.
  destruct (lru_chain_and_index_agree (Value := string) 2
              [Lru.Put 1 "a"; Lru.Put 2 "b"; Lru.Get 1] ltac:(lia))
    as (Hnd & _ & Hin).
  split; [exact Hnd|]. apply Hin. vm_compute. eauto.
Defined.

Lemma lru_access_moves_to_most_recent_witness :
  Lru.list_ (Lru.get 1 (Lru.run [Lru.Put 1 "a"; Lru.Put 2 "b"; Lru.Put 3 "c"]
                                (Lru.new 3))).1 = [2; 3; 1].
Proof.
  pose proof (lru_access_moves_to_most_recent (Value := string)
                (Lru.run [Lru.Put 1 "a"; Lru.Put 2 "b"; Lru.Put 3 "c"]
                         (Lru.new 3)) 1 (Lru.mkNode "a" 1) "z") as H.
  destruct H as [H _].
  - apply (lru_run_bounded _ (Lru.new 3)); cbn;
      [apply lru_new_wf | lia | rewrite map_size_empty; lia].
  - vm_compute. reflexivity.
  - vm_compute. reflexivity.
  - rewrite H. vm_compute. reflexivity.
Defined.

Lemma lru_keeps_the_last_keys_put_witness :
  Lru.list_ (Lru.run ((λ p, Lru.Put p.1 p.2)
                        <$> [(1, "a"); (2, "b"); (3, "c")]) (Lru.new 2))
  = [2; 3].
Proof.
  destruct (lru_keeps_the_last_keys_put (Value := string) 2
              [(1, "a"); (2, "b"); (3, "c")] ltac:(lia)) as (H & _).
  - decide_eval.
  - rewrite H. reflexivity.
Defined.

Lemma lru_remove_erases_one_key_witness :
  Lru.list_ (Lru.remove 1 (Lru.run [Lru.Put 1 "a"; Lru.Put 2 "b"]
                                   (Lru.new 2))) = [2].
Proof.
  destruct (lru_remove_erases_one_key (Value := string)
              (Lru.run [Lru.Put 1 "a"; Lru.Put 2 "b"] (Lru.new 2)) 1)
    as (_ & H & _).
  - apply (lru_run_bounded _ (Lru.new 2)); cbn;
      [apply lru_new_wf | lia | rewrite map_size_empty; lia].
  - rewrite H. vm_compute. reflexivity.
Defined.

(** ** KLruKCache: a key is admitted on its [k_]-th recorded access *)

Section LruKAdmission.
Context {Value : Type}.
Variable dflt : Value.
Implicit Types s : LruK.KLruKCache Value.

(** The history after [count] accesses to [key] and to no other key. *)
Lemma lruk_bumpHistory_first (h key : Z) :
  0 < h < 2 ^ 64 →
  LruK.bumpHistory key (Lru.new h)
  = (Lru.mkLru h {[key := Lru.mkNode 1 1]} [key], 1).
Proof.
  intros Hh. unfold LruK.bumpHistory, Lru.get_value, Lru.get.
  cbn [Lru.nodeMap_ Lru.new]. rewrite lookup_empty. cbv beta iota.
  change (CInt.size_incr (default 0 None)) with 1.
  unfold Lru.put. cbn [Lru.capacity_ Lru.nodeMap_ Lru.new].
  destruct (Z.leb_spec h 0); [lia|]. rewrite lookup_empty.
  unfold Lru.addNewNode. cbn [Lru.capacity_ Lru.nodeMap_ Lru.new].
  rewrite to_size_t_small, map_size_empty by lia.
  destruct (Z.geb_spec (Z.of_nat 0) h); [lia|].
  cbn. rewrite insert_empty. reflexivity.
Qed.

Lemma lruk_bumpHistory_next (h key count : Z) :
  0 < h → 0 ≤ count → count + 1 < 2 ^ 64 →
  LruK.bumpHistory key (Lru.mkLru h {[key := Lru.mkNode count 1]} [key])
  = (Lru.mkLru h {[key := Lru.mkNode (count + 1) 1]} [key], count + 1).
Proof.
  intros Hh H0 H1. unfold LruK.bumpHistory, Lru.get_value, Lru.get.
  cbn [Lru.nodeMap_]. rewrite lookup_singleton_eq. cbv beta iota.
  change (default 0 (Some (Lru.value_ (Lru.mkNode count 1)))) with count.
  unfold CInt.size_incr. rewrite to_size_t_small by lia.
  unfold Lru.put, Lru.moveToMostRecent, Lru.removeNode, Lru.insertNode.
  cbn [Lru.capacity_ Lru.nodeMap_ Lru.list_].
  destruct (Z.leb_spec h 0); [lia|]. rewrite lookup_singleton_eq.
  unfold Lru.updateExistingNode, Lru.moveToMostRecent, Lru.removeNode,
    Lru.insertNode, Lru.setValue.
  cbn [Lru.capacity_ Lru.nodeMap_ Lru.list_ Chain.unlink].
  rewrite !decide_True by reflexivity. rewrite alter_singleton_eq.
  cbn [Lru.accessCount_ app Chain.unlink].
  rewrite decide_True by reflexivity. reflexivity.
Qed.

(** A cache in which [key] alone was put, [count] times with [count]
    below [k_], the last time with [value]: nothing is in the main cache,
    the history counts [count] and [value] is pending. *)
Lemma lruk_cold_puts (C h kk key : Z) (vs : list Value) (v : Value) :
  0 < h < 2 ^ 64 → 0 < kk < 2 ^ 64 →
  Z.of_nat (length (vs ++ [v])) < kk →
  LruK.run dflt (Lru.Put key <$> vs ++ [v]) (LruK.new C h kk)
  = LruK.mkLruK (Lru.new C) kk
      (Lru.mkLru h {[key := Lru.mkNode (Z.of_nat (length (vs ++ [v]))) 1]}
                 [key])
      {[key := v]}.
Proof.
  intros Hh Hkk. revert v.
  induction vs as [|v' vs IH] using rev_ind; intros v Hlen.
  - cbn [app fmap list_fmap LruK.run foldl LruK.step length].
    unfold LruK.put, LruK.new. cbn [LruK.base LruK.historyList_ LruK.k_
      LruK.historyValueMap_]. unfold Lru.get at 1.
    cbn [Lru.nodeMap_ Lru.new]. rewrite lookup_empty.
    rewrite lruk_bumpHistory_first by exact Hh.
    rewrite to_size_t_small by lia.
    destruct (Z.geb_spec 1 kk); [cbn in Hlen; lia|].
    rewrite insert_empty. reflexivity.
  - rewrite fmap_app.
    unfold LruK.run. rewrite foldl_app. fold (LruK.run dflt).
    unfold LruK.run in IH. rewrite IH
      by (rewrite !length_app in *; cbn [length] in *; lia).
    cbn [fmap list_fmap foldl LruK.step].
    unfold LruK.put. cbn [LruK.base LruK.historyList_ LruK.k_
      LruK.historyValueMap_]. unfold Lru.get at 1.
    cbn [Lru.nodeMap_ Lru.new]. rewrite lookup_empty.
    rewrite lruk_bumpHistory_next
      by (rewrite ?length_app in *; cbn [length] in *; lia).
    rewrite to_size_t_small by lia.
    rewrite !length_app in *. cbn [length] in *.
    destruct (Z.geb_spec (Z.of_nat (length vs + 1) + 1) kk); [lia|].
    rewrite insert_singleton_eq. do 3 f_equal.
    f_equal. f_equal. lia.
Qed.


Lemma lruk_get_on_empty_main (C key : Z) s h1 (c : Z) :
  LruK.base s = Lru.new C →
  LruK.bumpHistory key (LruK.historyList_ s) = (h1, c) →
  LruK.get dflt key s
  = (if c >=? CInt.to_size_t (LruK.k_ s)
     then match LruK.historyValueMap_ s !! key with
          | Some storedValue =>
              (LruK.mkLruK (Lru.put key storedValue (Lru.new C)) (LruK.k_ s)
                 (Lru.remove key h1) (delete key (LruK.historyValueMap_ s)),
               storedValue)
          | None =>
              (LruK.mkLruK (Lru.new C) (LruK.k_ s) h1
                 (LruK.historyValueMap_ s), dflt)
          end
     else (LruK.mkLruK (Lru.new C) (LruK.k_ s) h1
             (LruK.historyValueMap_ s), dflt)).
Proof.
  intros Hb Hh. unfold LruK.get. rewrite Hb, Hh.
  unfold Lru.get. cbn [Lru.nodeMap_ Lru.new]. rewrite lookup_empty.
  reflexivity.
Qed.

Lemma lruk_put_on_empty_main (C key : Z) (v : Value) s h1 (c : Z) :
  LruK.base s = Lru.new C →
  LruK.bumpHistory key (LruK.historyList_ s) = (h1, c) →
  LruK.put key v s
  = (if c >=? CInt.to_size_t (LruK.k_ s)
     then LruK.mkLruK (Lru.put key v (Lru.new C)) (LruK.k_ s)
            (Lru.remove key h1)
            (delete key (<[key := v]> (LruK.historyValueMap_ s)))
     else LruK.mkLruK (Lru.new C) (LruK.k_ s) h1
            (<[key := v]> (LruK.historyValueMap_ s))).
Proof.
  intros Hb Hh. unfold LruK.put. rewrite Hb, Hh.
  unfold Lru.get. cbn [Lru.nodeMap_ Lru.new]. rewrite lookup_empty.
  reflexivity.
Qed.

Lemma lru_get_after_first_put (C key : Z) (v : Value) :
  0 < C → (Lru.get key (Lru.put key v (Lru.new C))).2 = Some v.
Proof.
  intros HC. rewrite lru_get_result.
  destruct (lru_put_lookup_same key v (Lru.new C) HC) as (n & -> & <-).
  reflexivity.
Qed.

(** X8.  A new LRU-K cache on which one key alone is put: as long as
    fewer than [k_] accesses to the key have been recorded, the main cache
    is empty, the last value put is pending, and both [get]s miss (the
    two-argument one without recording anything); the access that is the
    [k_]-th admits the key, a [put] with its own value and a [get] with
    the pending one, which it returns. *)
Theorem lruk_admits_on_the_kth_access (C h kk key : Z) (vs : list Value) :
  0 < C → 0 < h < 2 ^ 64 → 0 < kk < 2 ^ 64 →
  Z.of_nat (length vs) < kk →
  let s := LruK.run dflt (Lru.Put key <$> vs) (LruK.new C h kk) in
  Lru.nodeMap_ (LruK.base s) = ∅
  ∧ LruK.historyValueMap_ s !! key = last vs
  ∧ LruK.get_base key s = (s, None)
  ∧ (Z.of_nat (length vs) + 1 < kk →
     (LruK.get dflt key s).2 = dflt
     ∧ Lru.nodeMap_ (LruK.base (LruK.get dflt key s).1) = ∅
     ∧ ∀ v, Lru.nodeMap_ (LruK.base (LruK.put key v s)) = ∅)
  ∧ (Z.of_nat (length vs) + 1 = kk →
     (∀ v, (Lru.get key (LruK.base (LruK.put key v s))).2 = Some v
           ∧ LruK.historyValueMap_ (LruK.put key v s) !! key = None)
     ∧ (LruK.get dflt key s).2 = default dflt (last vs)
     ∧ (Lru.get key (LruK.base (LruK.get dflt key s).1)).2 = last vs).
Proof.
  intros HC Hh Hkk Hlen. cbv zeta.
  assert (∃ h0 h1 c m,
            LruK.run dflt (Lru.Put key <$> vs) (LruK.new C h kk)
            = LruK.mkLruK (Lru.new C) kk h0 m
            ∧ LruK.bumpHistory key h0 = (h1, c)
            ∧ c = Z.of_nat (length vs) + 1
            ∧ m !! key = last vs)
    as (h0 & h1 & c & m & -> & Hbump & Hc & Hm).
  { destruct vs as [|v vs] using rev_ind.
    - eexists _, _, _, ∅. split; [reflexivity|].
      split; [apply lruk_bumpHistory_first, Hh|].
      split; [reflexivity | apply lookup_empty].
    - clear IHvs. rewrite lruk_cold_puts by assumption.
      eexists _, _, _, _. split; [reflexivity|].
      split; [apply lruk_bumpHistory_next; rewrite ?length_app in *;
              cbn [length] in *; lia|].
      split; [reflexivity|].
      rewrite last_snoc. apply lookup_singleton_eq. }
  set (s := LruK.mkLruK (Lru.new C) kk h0 m).
  pose proof (lruk_get_on_empty_main C key s h1 c eq_refl Hbump) as Hget.
  pose proof (λ v, lruk_put_on_empty_main C key v s h1 c eq_refl Hbump)
    as Hput.
  cbn [LruK.k_ LruK.historyValueMap_ s] in Hget, Hput.
  rewrite to_size_t_small in Hget, Hput by lia.
  split; [reflexivity|]. split; [exact Hm|].
  split; [reflexivity|]. split.
  - intros Hbelow.
    destruct (Z.geb_spec c kk) as [|_]; [lia|].
    rewrite Hget. split; [reflexivity|]. split; [reflexivity|].
    intros v. rewrite Hput. reflexivity.
  - intros Hat.
    destruct (Z.geb_spec c kk) as [_|]; [|lia].
    split.
    + intros v. rewrite Hput. cbn [LruK.base LruK.historyValueMap_].
      split; [apply lru_get_after_first_put, HC | apply lookup_delete_eq].
    + rewrite Hget, Hm. destruct (last vs) as [v|]; cbn [fst snd LruK.base];
        [split; [reflexivity | apply lru_get_after_first_put, HC]|].
      split; reflexivity.
Qed.

(** X9.  After any run on a new LRU-K cache, a key that is in the main
    cache has no pending value, and the main cache has kept the capacity
    it was made with. *)
Theorem lruk_admitted_key_has_no_pending_value (C h kk : Z)
    (ops : list (Lru.op Value)) (key : Z) :
  let s := LruK.run dflt ops (LruK.new C h kk) in
  (is_Some (Lru.nodeMap_ (LruK.base s) !! key) →
   LruK.historyValueMap_ s !! key = None)
  ∧ Lru.capacity_ (LruK.base s) = C.
Proof.
  cbv zeta.
  destruct (lruk_run_invariants dflt ops (LruK.new C h kk)) as [D Hc].
  { intros k [n Hn]. cbn in Hn. rewrite lookup_empty in Hn. discriminate. }
  split; [apply D | exact Hc].
Qed.

End LruKAdmission.

Lemma lruk_admits_on_the_kth_access_witness :
  (LruK.get "" 7 (LruK.run "" (Lru.Put 7 <$> ["a"; "b"]) (LruK.new 2 4 3))).2
  = "b".
Proof.
  destruct (lruk_admits_on_the_kth_access "" 2 4 3 7 ["a"; "b"])
    as (_ & _ & _ & _ & H); [lia | lia | lia | cbn; lia |].
  destruct H as (_ & H & _); [cbn; lia|]. exact H.
Defined.

(** ** KLfuCache: what a hit and an eviction do *)

Section LfuPolicy.
Context {Value : Type}.
Variable dummyKey : Z.
Implicit Types s : Lfu.KLfuCache Value.

Lemma lfu_relocate_effect s a n s4 :
  Lfu.arena s !! a = Some n → Lfu.relocate a s = Some s4 →
  Lfu.arena s4 = <[a := Lfu.setFreq (Lfu.freq n + 1) n]> (Lfu.arena s)
  ∧ Lfu.nodeMap_ s4 = Lfu.nodeMap_ s
  ∧ Lfu.curTotalNum_ s4 = Lfu.curTotalNum_ s
  ∧ Lfu.maxAverageNum_ s4 = Lfu.maxAverageNum_ s
  ∧ (Lfu.minFreq_ s4 = Lfu.minFreq_ s
     ∨ Lfu.minFreq_ s4 = Lfu.minFreq_ s + 1 ∧ Lfu.freq n = Lfu.minFreq_ s
       ∧ filter (λ x, x ≠ a) <$> Lfu.freqToFreqList_ s !! Lfu.freq n
         = Some []).
Proof.
  intros Hn Hr. unfold Lfu.relocate in Hr. rewrite Hn in Hr.
  cbn [mbind option_bind] in Hr.
  apply bind_Some in Hr as (s1 & H1 & Hr).
  apply bind_Some in Hr as (s3 & H3 & Hr).
  destruct (lfu_move_effect s a n (Lfu.freq n + 1) s1 s3 Hn H1 H3)
    as (Ha & Hm & Hmf & Htot & Hcap & Hmax & Hl).
  replace (Lfu.freq n + 1 - 1) with (Lfu.freq n) in Hr by lia.
  destruct (Z.eqb_spec (Lfu.freq n) (Lfu.minFreq_ s3)) as [E|E].
  - apply bind_Some in Hr as (l & Hlq & Hr).
    rewrite Hl, decide_False in Hlq by lia.
    destruct (decide (l = [])) as [->|Hlne]; injection Hr as <-;
      cbn [Lfu.minFreq_ Lfu.set_minFreq Lfu.arena Lfu.nodeMap_
           Lfu.curTotalNum_ Lfu.maxAverageNum_];
      repeat (split; [assumption|]).
    + right. split; [lia|]. split; [congruence | exact Hlq].
    + left. exact Hmf.
  - injection Hr as <-. repeat (split; [assumption|]). left. exact Hmf.
Qed.

Lemma lfu_relocate_minFreqLeast s k a s4 :
  Lfu.tight s → Lfu.minFreqLeast s → Lfu.nodeMap_ s !! k = Some a →
  Lfu.relocate a s = Some s4 → Lfu.minFreqLeast s4.
Proof.
  intros ([T1 T2] & _) Hleast Hk Hr.
  destruct (T1 k a Hk) as (n & l0 & Hn & Hkey & Hfr & Hl0 & Hin0).
  destruct (lfu_relocate_effect s a n s4 Hn Hr)
    as (Ha & Hm & _ & _ & Hmin).
  pose proof (Hleast k a n Hk Hn) as Hle.
  pose proof (lookup_lt_Some _ _ _ Hn) as Hlt.
  intros k' a' n'. rewrite Hm, Ha. intros Hk' Hn'.
  destruct (decide (a' = a)) as [->|Hne].
  - rewrite list_lookup_insert_eq in Hn' by exact Hlt.
    injection Hn' as <-. cbn [Lfu.freq Lfu.setFreq].
    destruct Hmin as [->|[-> _]]; lia.
  - rewrite list_lookup_insert_ne in Hn' by congruence.
    pose proof (Hleast k' a' n' Hk' Hn') as Hle'.
    destruct Hmin as [->|(-> & Ef & Hempty)]; [exact Hle'|].
    destruct (decide (Lfu.freq n' = Lfu.freq n)) as [E|E]; [|lia].
    destruct (T1 k' a' Hk') as (n'' & l'' & Hn'' & _ & _ & Hl'' & Hin'').
    assert (n'' = n') as -> by congruence.
    rewrite E, Hl0 in Hl''. injection Hl'' as <-.
    rewrite Hl0 in Hempty. injection Hempty as Hempty.
    assert (a' ∈ filter (λ x, x ≠ a) l0) as Hin
      by (apply list_elem_of_filter; split; assumption).
    rewrite Hempty in Hin. inversion Hin.
Qed.

Lemma lfu_updateMinFreq_minFreqLeast s :
  Lfu.linked s → Lfu.minFreqLeast (Lfu.updateMinFreq s).
Proof.
  intros [T1 _] k a n Hk Hn.
  unfold Lfu.updateMinFreq in *.
  cbn [Lfu.nodeMap_ Lfu.arena Lfu.minFreq_ Lfu.set_minFreq] in *.
  destruct (T1 k a Hk) as (n0 & l & Hn0 & _ & Hfr & Hl & Hin).
  assert (n0 = n) as -> by congruence.
  assert (l ≠ []) as Hlne by (intros ->; inversion Hin).
  pose proof (lfu_updateMinFreq_le (map_to_list (Lfu.freqToFreqList_ s))
                (Lfu.freq n) l
                ltac:(apply elem_of_map_to_list; exact Hl) Hlne) as Hle.
  destruct (_ =? _); lia.
Qed.

Lemma lfu_addFreqNum_nodeMap s s' :
  Lfu.addFreqNum s = Some s' → Lfu.nodeMap_ s' = Lfu.nodeMap_ s.
Proof.
  unfold Lfu.addFreqNum. cbv zeta. destruct (_ >? _).
  - intros H. apply lfu_handleOver_frame in H as (_ & _ & _ & _ & H & _).
    exact H.
  - intros [= <-]. reflexivity.
Qed.

Lemma lfu_addFreqNum_minFreqLeast s s' :
  Lfu.minFreqLeast s → Lfu.linked s' →
  Lfu.addFreqNum s = Some s' → Lfu.minFreqLeast s'.
Proof.
  intros Hleast L Ha. unfold Lfu.addFreqNum in Ha. cbv zeta in Ha.
  assert (Lfu.minFreqLeast (Lfu.countAccess s)) as Hcount by exact Hleast.
  destruct (_ >? _); [|injection Ha as <-; exact Hcount].
  unfold Lfu.handleOverMaxAverageNum in Ha.
  case_decide; [injection Ha as <-; exact Hcount|].
  apply bind_Some in Ha as (s1 & _ & Ha). injection Ha as <-.
  apply lfu_updateMinFreq_minFreqLeast.
  destruct L as [T1 T2]. split; [exact T1 | exact T2].
Qed.

Lemma lfu_getInternal_minFreqLeast s k a r :
  Lfu.tight s → Lfu.minFreqLeast s → Lfu.nodeMap_ s !! k = Some a →
  Lfu.roomFor 1 s → Lfu.getInternal a s = Some r →
  Lfu.minFreqLeast r.1.
Proof.
  intros T Hleast Hk Hroom Hg.
  destruct (lfu_getInternal_tight s k a r T Hk Hroom Hg)
    as ((L & _) & _).
  unfold Lfu.getInternal in Hg.
  apply bind_Some in Hg as (n & Hn & Hg).
  apply bind_Some in Hg as (s4 & H4 & Hg).
  apply bind_Some in Hg as (s5 & H5 & Hg). injection Hg as <-.
  cbn [fst] in *.
  apply (lfu_addFreqNum_minFreqLeast s4 s5); [|exact L | exact H5].
  exact (lfu_relocate_minFreqLeast s k a s4 T Hleast Hk H4).
Qed.

Lemma lfu_setValue_minFreqLeast s a n v :
  Lfu.minFreqLeast s → Lfu.arena s !! a = Some n →
  Lfu.minFreqLeast
    (Lfu.set_arena (<[a := Lfu.setValue v n]> (Lfu.arena s)) s).
Proof.
  intros Hleast Hn k' a' n'.
  cbn [Lfu.nodeMap_ Lfu.arena Lfu.minFreq_ Lfu.set_arena].
  pose proof (lookup_lt_Some _ _ _ Hn) as Hlt.
  intros Hk'. destruct (decide (a' = a)) as [->|Hne].
  - rewrite list_lookup_insert_eq by exact Hlt. intros [= <-].
    exact (Hleast k' a n Hk' Hn).
  - rewrite list_lookup_insert_ne by congruence. intros Hn'.
    exact (Hleast k' a' n' Hk' Hn').
Qed.

Lemma lfu_putInternal_minFreqLeast s k v s' :
  Lfu.putInternal dummyKey k v s = Some s' → Lfu.linked s' →
  Lfu.minFreqLeast s'.
Proof.
  intros Hp [T1 _]. unfold Lfu.putInternal in Hp.
  apply bind_Some in Hp as (s1 & _ & Hp). cbv zeta in Hp.
  apply bind_Some in Hp as (s3 & _ & Hp).
  apply bind_Some in Hp as (s4 & _ & Hp). injection Hp as <-.
  intros k' a' n' Hk' Hn'. destruct (T1 k' a' Hk') as (n0 & _ & Hn0 & _ & Hfr & _).
  assert (n0 = n') as -> by congruence.
  cbn [Lfu.minFreq_ Lfu.set_minFreq]. lia.
Qed.

Lemma lfu_step_minFreqLeast s o s' :
  Lfu.tight s → Lfu.minFreqLeast s → 0 ≤ Lfu.capacity_ s < 2 ^ 64 →
  Z.of_nat (size (Lfu.nodeMap_ s)) ≤ Lfu.capacity_ s →
  Lfu.roomFor 1 s →
  Lfu.step dummyKey s o = Some s' → Lfu.minFreqLeast s'.
Proof.
  intros T Hleast Hc Hsz Hroom Hs.
  destruct (lfu_step_tight dummyKey s o s' T Hc Hsz Hroom Hs)
    as ((L' & _) & _).
  destruct o as [k v|k|]; cbn [Lfu.step] in Hs.
  - unfold Lfu.put in Hs.
    destruct (_ =? _); [injection Hs as <-; exact Hleast|].
    destruct (Lfu.nodeMap_ s !! k) as [a|] eqn:Hk.
    + apply bind_Some in Hs as (n & Hn & Hs).
      apply bind_Some in Hs as (r & Hr & Hs). injection Hs as <-.
      apply (lfu_getInternal_minFreqLeast _ k a r
               (lfu_tight_setValue s k a n v T Hk Hn)
               (lfu_setValue_minFreqLeast s a n v Hleast Hn) Hk Hroom Hr).
    + exact (lfu_putInternal_minFreqLeast s k v s' Hs L').
  - apply fmap_Some in Hs as (r & Hr & ->). unfold Lfu.get in Hr.
    destruct (Lfu.nodeMap_ s !! k) as [a|] eqn:Hk.
    + apply bind_Some in Hr as (r' & Hr' & Hr). injection Hr as <-.
      exact (lfu_getInternal_minFreqLeast s k a r' T Hleast Hk Hroom Hr').
    + injection Hr as <-. exact Hleast.
  - injection Hs as <-. intros k a n Hk. cbn in Hk.
    rewrite lookup_empty in Hk. discriminate.
Qed.

(** What a run on a new object reaches while it has room for [n] more
    accesses. *)
Lemma lfu_run_reach ops s s' (n : Z) :
  Lfu.tight s → Lfu.minFreqLeast s → 0 ≤ Lfu.capacity_ s < 2 ^ 64 →
  Z.of_nat (size (Lfu.nodeMap_ s)) ≤ Lfu.capacity_ s →
  0 ≤ n → Lfu.roomFor (Z.of_nat (length ops) + n) s →
  Lfu.run dummyKey ops s = Some s' →
  Lfu.tight s' ∧ Lfu.minFreqLeast s'
  ∧ Z.of_nat (size (Lfu.nodeMap_ s')) ≤ Lfu.capacity_ s
  ∧ Lfu.capacity_ s' = Lfu.capacity_ s
  ∧ Lfu.maxAverageNum_ s' = Lfu.maxAverageNum_ s
  ∧ Lfu.curTotalNum_ s' ≤ Lfu.curTotalNum_ s + Z.of_nat (length ops).
Proof.
  revert s. induction ops as [|o ops IH]; intros s T Hleast Hc Hsz Hn Hroom Hr.
  - injection Hr as <-. cbn [length].
    repeat (split; [first [assumption | reflexivity]|]). lia.
  - rewrite lfu_run_cons in Hr. apply bind_Some in Hr as (s1 & H1 & Hr).
    cbn [length] in Hroom |- *.
    assert (Lfu.roomFor 1 s) as Hroom1
      by (apply (lfu_roomFor_weaken (Z.of_nat (S (length ops)) + n) 1 s s);
          [reflexivity | lia | exact Hroom]).
    destruct (lfu_step_tight dummyKey s o s1 T Hc Hsz Hroom1 H1)
      as (T1 & Hsz1 & Htot1 & Hc1 & HM1).
    pose proof (lfu_step_minFreqLeast s o s1 T Hleast Hc Hsz Hroom1 H1)
      as Hleast1.
    destruct (IH s1 T1 Hleast1) as (T' & Hl' & Hsz' & Hc' & HM' & Htot');
      rewrite ?Hc1; try assumption.
    { apply (lfu_roomFor_weaken (Z.of_nat (S (length ops)) + n) _ s);
        [exact HM1 | lia | exact Hroom]. }
    rewrite Hc1 in *.
    repeat (split; [first [assumption | congruence]|]). lia.
Qed.

Lemma lfu_new_reach (C M : Z) ops s (n : Z) :
  0 ≤ C < 2 ^ 64 → 0 ≤ n →
  Z.of_nat (length ops) + n ≤ M < 2 ^ 31
  ∨ 0 ≤ M ∧ Z.of_nat (length ops) + n < CInt.INT8_MAX →
  Lfu.run dummyKey ops (Lfu.new C M) = Some s →
  Lfu.tight s ∧ Lfu.minFreqLeast s ∧ Lfu.wf s
  ∧ Z.of_nat (size (Lfu.nodeMap_ s)) ≤ C
  ∧ Lfu.capacity_ s = C ∧ Lfu.maxAverageNum_ s = M
  ∧ Lfu.curTotalNum_ s ≤ Z.of_nat (length ops)
  ∧ Lfu.roomFor n s.
Proof.
  intros HC Hn HM Hr.
  destruct (lfu_run_wf dummyKey ops (Lfu.new C M) (lfu_new_wf C M))
    as (s0 & Hs0 & W & _).
  { intros Hne. cbn in *. rewrite to_size_t_small by lia. exact Hne. }
  assert (s0 = s) as -> by congruence.
  assert (Lfu.roomFor (Z.of_nat (length ops) + n) (Lfu.new (Value:=Value) C M))
    as Hroom.
  { unfold Lfu.roomFor. cbn. destruct HM as [HM|HM]; [left | right]; lia. }
  destruct (lfu_run_reach ops (Lfu.new C M) s n (lfu_new_tight C M))
    as (T & Hl & Hsz & Hc & HM' & Htot); cbn; try assumption; try lia.
  { intros k a n0 Hk. cbn in Hk. rewrite lookup_empty in Hk. discriminate. }
  { rewrite map_size_empty. lia. }
  cbn in Hsz, Hc, HM', Htot.
  repeat (split; [first [assumption | lia]|]).
  apply (lfu_roomFor_weaken (Z.of_nat (length ops) + n) n (Lfu.new C M));
    [exact HM' | cbn; lia | exact Hroom].
Qed.


Lemma lfu_getInternal_quiet s k a n r :
  Lfu.tight s → Lfu.nodeMap_ s !! k = Some a → Lfu.arena s !! a = Some n →
  Lfu.curTotalNum_ s + 1 ≤ Lfu.maxAverageNum_ s < 2 ^ 31 →
  Lfu.getInternal a s = Some r →
  r.2 = Lfu.value n
  ∧ Lfu.arena r.1 = <[a := Lfu.setFreq (Lfu.freq n + 1) n]> (Lfu.arena s)
  ∧ Lfu.nodeMap_ r.1 = Lfu.nodeMap_ s.
Proof.
  intros T Hk Hn HM Hg.
  pose proof (lfu_tight_total_nonneg s T) as H0.
  unfold Lfu.getInternal in Hg. rewrite Hn in Hg.
  cbn [mbind option_bind] in Hg.
  apply bind_Some in Hg as (s4 & H4 & Hg).
  apply bind_Some in Hg as (s5 & H5 & Hg). injection Hg as <-.
  destruct (lfu_relocate_effect s a n s4 Hn H4)
    as (Ha & Hm & Htot & HM4 & _).
  rewrite lfu_addFreqNum_quiet in H5 by lia. injection H5 as <-.
  cbn [fst snd Lfu.countAccess Lfu.arena Lfu.nodeMap_ Lfu.set_counters].
  split; [reflexivity|]. split; assumption.
Qed.

(** One node of the arena replaced: what the index shows for its key, and
    for the others. *)
Lemma lfu_lookups_after_update s s' k a n n1 :
  Lfu.linked s → Lfu.nodeMap_ s !! k = Some a → Lfu.arena s !! a = Some n →
  Lfu.arena s' = <[a := n1]> (Lfu.arena s) →
  Lfu.nodeMap_ s' = Lfu.nodeMap_ s →
  Lfu.freqOf k s' = Some (Lfu.freq n1)
  ∧ Lfu.valueOf k s' = Some (Lfu.value n1)
  ∧ ∀ k', k' ≠ k →
      Lfu.freqOf k' s' = Lfu.freqOf k' s
      ∧ Lfu.valueOf k' s' = Lfu.valueOf k' s.
Proof.
  intros [T1 _] Hk Hn Ha Hm.
  pose proof (lookup_lt_Some _ _ _ Hn) as Hlt.
  unfold Lfu.freqOf, Lfu.valueOf. rewrite Hm, Ha.
  split; [|split].
  - rewrite Hk. cbn [mbind option_bind].
    rewrite list_lookup_insert_eq by exact Hlt. reflexivity.
  - rewrite Hk. cbn [mbind option_bind].
    rewrite list_lookup_insert_eq by exact Hlt. reflexivity.
  - intros k' Hne.
    destruct (Lfu.nodeMap_ s !! k') as [a'|] eqn:Hk'; [|split; reflexivity].
    cbn [mbind option_bind].
    assert (a' ≠ a) as Hane.
    { intros ->. destruct (T1 k' a Hk') as (n' & _ & Hn' & Hkey' & _).
      destruct (T1 k a Hk) as (n'' & _ & Hn'' & Hkey'' & _). congruence. }
    rewrite list_lookup_insert_ne by congruence. split; reflexivity.
Qed.

Lemma lfu_kickOut_victim s s' :
  Lfu.tight s → Lfu.nodeMap_ s ≠ ∅ →
  Lfu.kickOut dummyKey s = Some s' →
  ∃ a0 n0 rest,
    Lfu.freqToFreqList_ s !! Lfu.minFreq_ s = Some (a0 :: rest)
    ∧ Lfu.arena s !! a0 = Some n0
    ∧ Lfu.nodeMap_ s !! Lfu.key n0 = Some a0
    ∧ Lfu.freq n0 = Lfu.minFreq_ s
    ∧ Lfu.nodeMap_ s' = delete (Lfu.key n0) (Lfu.nodeMap_ s)
    ∧ Lfu.arena s' = Lfu.arena s.
Proof.
  intros (L & Hmin & T3 & Hsum) Hne Hk. pose proof L as [T1 T2].
  destruct (T3 Hne) as (l & Hl & Hlne).
  destruct l as [|a0 rest]; [done|].
  destruct (T2 _ _ a0 Hl ltac:(left)) as (n0 & Hn0 & Hf0 & Hidx0).
  unfold Lfu.kickOut in Hk. rewrite Hl in Hk. cbn [mbind option_bind] in Hk.
  unfold Lfu.removeFromFreqList in Hk. rewrite Hn0 in Hk.
  cbn [mbind option_bind] in Hk. rewrite Hf0, Hl in Hk.
  cbn [mbind option_bind Lfu.arena Lfu.set_lists] in Hk.
  rewrite Hn0 in Hk. cbn [mbind option_bind snd fst] in Hk.
  injection Hk as <-.
  exists a0, n0, rest. repeat (split; [assumption|]).
  split; reflexivity.
Qed.

(** X10.  Every run of fewer than [2 ^ 31] calls of [put], [get] and
    [purge] on a new KLfuCache whose capacity is an [int] and whose
    [maxAverageNum] is not negative runs to its end: no
    call reaches through a null [FreqList] pointer, and every [int]
    member of the object and of its nodes ends with a value of an [int]
    (the frequencies and [minFreq_] with one that is at least 1).
    Afterwards every indexed key has a node that carries this key with a
    frequency of at least 1 whose list exists, and a [get] of any key
    returns. *)
Theorem lfu_no_call_reaches_through_a_null_list (C M : Z)
    (ops : list (Lfu.op Value)) :
  - 2 ^ 31 ≤ C < 2 ^ 31 → 0 ≤ M < 2 ^ 31 →
  Z.of_nat (length ops) < 2 ^ 31 →
  ∃ s, Lfu.run dummyKey ops (Lfu.new C M) = Some s
       ∧ Lfu.capacity_ s = C
       ∧ Lfu.fitsInt s
       ∧ (∀ k a, Lfu.nodeMap_ s !! k = Some a →
            ∃ n, Lfu.arena s !! a = Some n ∧ Lfu.key n = k
                 ∧ 1 ≤ Lfu.freq n
                 ∧ is_Some (Lfu.freqToFreqList_ s !! Lfu.freq n))
       ∧ ∀ k, is_Some (Lfu.get k s).
Proof.
  intros HC HM Hlen.
  destruct (lfu_run_wf dummyKey ops (Lfu.new C M) (lfu_new_wf C M)
              (lfu_capacityOk_int C M HC)) as (s & Hs & W & Hc & _).
  exists s. split; [exact Hs|]. split; [exact Hc|].
  split; [exact (lfu_run_fitsInt dummyKey C M ops s HC HM Hlen Hs)|].
  split; [exact (proj1 (proj1 W))|].
  intros k.
  destruct (lfu_step_wf dummyKey s (Lfu.Get k) W) as (s' & Hg & _).
  { unfold Lfu.capacityOk. rewrite Hc. apply (lfu_capacityOk_int C M HC). }
  cbn [Lfu.step] in Hg. apply fmap_Some in Hg as (r & Hr & _).
  rewrite Hr. eauto.
Qed.

(** X11.  While the number of calls stays within [maxAverageNum], so that
    no rescale happens, an access to a held key, by [get] or by [put],
    raises the frequency of this key by one and changes no other
    frequency and no other value; [get] returns the stored value and
    [put] stores the new one. *)
Theorem lfu_hit_raises_frequency_by_one (C M : Z)
    (ops : list (Lfu.op Value)) s (k f : Z) (v : Value) :
  0 ≤ C < 2 ^ 64 → Z.of_nat (length ops) + 1 ≤ M < 2 ^ 31 →
  Lfu.run dummyKey ops (Lfu.new C M) = Some s →
  Lfu.freqOf k s = Some f → Lfu.valueOf k s = Some v →
  (∃ s', Lfu.get k s = Some (s', Some v)
         ∧ Lfu.freqOf k s' = Some (f + 1)
         ∧ Lfu.valueOf k s' = Some v
         ∧ Lfu.nodeMap_ s' = Lfu.nodeMap_ s
         ∧ ∀ k', k' ≠ k →
             Lfu.freqOf k' s' = Lfu.freqOf k' s
             ∧ Lfu.valueOf k' s' = Lfu.valueOf k' s)
  ∧ ∀ v', ∃ s', Lfu.put dummyKey k v' s = Some s'
                ∧ Lfu.freqOf k s' = Some (f + 1)
                ∧ Lfu.valueOf k s' = Some v'
                ∧ Lfu.nodeMap_ s' = Lfu.nodeMap_ s
                ∧ ∀ k', k' ≠ k →
                    Lfu.freqOf k' s' = Lfu.freqOf k' s
                    ∧ Lfu.valueOf k' s' = Lfu.valueOf k' s.
Proof.
  intros HC HM Hr Hf Hv.
  destruct (lfu_new_reach C M ops s 1 HC ltac:(lia) ltac:(left; lia) Hr)
    as (T & _ & W & Hsz & Hcap & HMs & Htot & _).
  unfold Lfu.freqOf in Hf. apply bind_Some in Hf as (a & Hk & Hf).
  apply bind_Some in Hf as (n & Hn & Hf). injection Hf as <-.
  unfold Lfu.valueOf in Hv. rewrite Hk in Hv. cbn [mbind option_bind] in Hv.
  rewrite Hn in Hv. injection Hv as <-.
  assert (Lfu.capacityOk s) as Hok
    by (intros Hne; rewrite Hcap, to_size_t_small by lia; lia).
  assert (Lfu.capacity_ s ≠ 0) as Hc0.
  { rewrite Hcap. intros ->.
    assert (size (Lfu.nodeMap_ s) = 0%nat) as E by lia.
    apply map_size_empty_inv in E. rewrite E, lookup_empty in Hk.
    discriminate. }
  pose proof T as (L & _).
  split.
  - destruct (lfu_step_wf dummyKey s (Lfu.Get k) W Hok) as (s' & Hg & _).
    cbn [Lfu.step] in Hg. apply fmap_Some in Hg as (r & Hg & ->).
    pose proof Hg as Hg'. unfold Lfu.get in Hg'. rewrite Hk in Hg'.
    apply bind_Some in Hg' as (r' & Hr' & Hg'). injection Hg' as <-.
    destruct (lfu_getInternal_quiet s k a n r' T Hk Hn ltac:(lia) Hr')
      as (Hres & Ha & Hm).
    cbn [fst] in *. exists r'.1. rewrite Hg, Hres.
    split; [reflexivity|].
    destruct (lfu_lookups_after_update s r'.1 k a n _ L Hk Hn Ha Hm)
      as (H1 & H2 & H3).
    split; [exact H1|]. split; [exact H2|]. split; [exact Hm | exact H3].
  - intros v'.
    destruct (lfu_step_wf dummyKey s (Lfu.Put k v') W Hok) as (s' & Hp & _).
    cbn [Lfu.step] in Hp. exists s'. split; [exact Hp|].
    unfold Lfu.put in Hp.
    destruct (Z.eqb_spec (Lfu.capacity_ s) 0) as [|_]; [done|].
    rewrite Hk, Hn in Hp. cbn [mbind option_bind] in Hp.
    apply bind_Some in Hp as (r & Hr' & Hp). injection Hp as <-.
    pose proof (lookup_lt_Some _ _ _ Hn) as Hlt.
    destruct (lfu_getInternal_quiet _ k a (Lfu.setValue v' n) r
                (lfu_tight_setValue s k a n v' T Hk Hn) Hk) as (_ & Ha & Hm);
      [cbn [Lfu.arena Lfu.set_arena];
       apply list_lookup_insert_eq; exact Hlt
      | cbn [Lfu.curTotalNum_ Lfu.maxAverageNum_ Lfu.set_arena]; lia
      | exact Hr' |].
    cbn [Lfu.arena Lfu.nodeMap_ Lfu.set_arena] in Ha, Hm.
    rewrite list_insert_insert_eq in Ha.
    destruct (lfu_lookups_after_update s r.1 k a n _ L Hk Hn Ha Hm)
      as (H1 & H2 & H3).
    split; [exact H1|]. split; [exact H2|]. split; [exact Hm | exact H3].
Qed.

(** X12.  A [put] of a new key into a full KLfuCache, on a run with room
    for its accesses, drops one held key, and none of the held keys has a
    lower frequency than the dropped one; the new key is stored with its
    value and every other key stays in the index. *)
Theorem lfu_put_on_full_cache_drops_a_least_frequent_key (C M : Z)
    (ops : list (Lfu.op Value)) s (k : Z) (v : Value) :
  0 < C < 2 ^ 64 →
  Z.of_nat (length ops) + 1 ≤ M < 2 ^ 31
  ∨ 0 ≤ M ∧ Z.of_nat (length ops) + 1 < CInt.INT8_MAX →
  Lfu.run dummyKey ops (Lfu.new C M) = Some s →
  Lfu.nodeMap_ s !! k = None → Z.of_nat (size (Lfu.nodeMap_ s)) = C →
  ∃ s' k0 f0,
    Lfu.put dummyKey k v s = Some s'
    ∧ Lfu.freqOf k0 s = Some f0
    ∧ (∀ k1 f1, Lfu.freqOf k1 s = Some f1 → f0 ≤ f1)
    ∧ Lfu.nodeMap_ s' !! k0 = None
    ∧ Lfu.valueOf k s' = Some v
    ∧ ∀ k1, k1 ≠ k → k1 ≠ k0 →
        Lfu.nodeMap_ s' !! k1 = Lfu.nodeMap_ s !! k1.
Proof.
  intros HC HM Hr Hk Hfull.
  destruct (lfu_new_reach C M ops s 1 ltac:(lia) ltac:(lia) HM Hr)
    as (T & Hleast & W & Hsz & Hcap & HMs & Htot & _).
  assert (Lfu.capacityOk s) as Hok
    by (intros Hne; rewrite Hcap, to_size_t_small by lia; lia).
  destruct (lfu_step_wf dummyKey s (Lfu.Put k v) W Hok)
    as (s' & Hp & _ & _ & _ & Hval).
  specialize (Hval k v eq_refl ltac:(lia)).
  cbn [Lfu.step] in Hp. exists s'.
  pose proof Hp as Hp'. unfold Lfu.put in Hp'.
  destruct (Z.eqb_spec (Lfu.capacity_ s) 0) as [|_]; [lia|].
  rewrite Hk in Hp'. unfold Lfu.putInternal in Hp'.
  rewrite Hcap, to_size_t_small, Hfull, Z.eqb_refl in Hp' by lia.
  apply bind_Some in Hp' as (s1 & H1 & Hp'). cbv zeta in Hp'.
  apply bind_Some in Hp' as (s3 & H3 & Hp').
  apply bind_Some in Hp' as (s4 & H4 & Hp'). injection Hp' as <-.
  assert (Lfu.nodeMap_ s ≠ ∅) as Hne
    by (intros E; rewrite E, map_size_empty in Hfull; lia).
  destruct (lfu_kickOut_victim s s1 T Hne H1)
    as (a0 & n0 & rest & _ & Hn0 & Hidx0 & Hf0 & Hm1 & _).
  apply lfu_addFreqNum_nodeMap in H4.
  apply lfu_addToFreqList_frame in H3 as (_ & _ & _ & _ & H3 & _).
  cbn [Lfu.nodeMap_ Lfu.set_nodeMap Lfu.set_arena] in H3.
  assert (Lfu.key n0 ≠ k) as Hkk by (intros E; congruence).
  exists (Lfu.key n0), (Lfu.freq n0).
  split; [exact Hp|]. split.
  { unfold Lfu.freqOf. rewrite Hidx0. cbn [mbind option_bind].
    rewrite Hn0. reflexivity. }
  split.
  { intros k1 f1 Hf1. unfold Lfu.freqOf in Hf1.
    apply bind_Some in Hf1 as (a1 & Hk1 & Hf1).
    apply bind_Some in Hf1 as (n1 & Hn1 & Hf1). injection Hf1 as <-.
    rewrite Hf0. exact (Hleast k1 a1 n1 Hk1 Hn1). }
  cbn [Lfu.nodeMap_ Lfu.set_minFreq]. rewrite H4, H3, Hm1.
  split; [rewrite lookup_insert_ne by congruence; apply lookup_delete_eq|].
  split; [exact Hval|].
  intros k1 Hk1 Hk0.
  rewrite lookup_insert_ne, lookup_delete_ne by congruence. reflexivity.
Qed.

End LfuPolicy.

Lemma lfu_no_call_reaches_through_a_null_list_witness :
  ∃ s, Lfu.run 0 [Lfu.Put 1 "a"; Lfu.Get 1; Lfu.Purge; Lfu.Put 2 "b"]
         (Lfu.new (-1) 0) = Some s
       ∧ Lfu.capacity_ s = -1 ∧ Lfu.fitsInt s.
Proof.
  destruct (lfu_no_call_reaches_through_a_null_list (Value := string) 0
              (-1) 0 [Lfu.Put 1 "a"; Lfu.Get 1; Lfu.Purge; Lfu.Put 2 "b"]
              ltac:(lia) ltac:(lia) ltac:(cbn; lia))
    as (s & Hs & Hc & Hfit & _).
  exists s. split; [exact Hs|]. split; [exact Hc | exact Hfit].
Defined.

Lemma lfu_hit_raises_frequency_by_one_witness :
  ∃ s', Lfu.get 1 (Lfu.mkLfu 2 1 10 1 2 {[1 := 0%nat; 2 := 1%nat]}
                     {[1 := [0%nat; 1%nat]]}
                     [Lfu.mkNode 1 1 "a"; Lfu.mkNode 1 2 "b"])
        = Some (s', Some "a")
        ∧ Lfu.freqOf 1 s' = Some 2.
Proof.
  destruct (lfu_hit_raises_frequency_by_one (Value := string) 0 2 10
              [Lfu.Put 1 "a"; Lfu.Put 2 "b"]
              (Lfu.mkLfu 2 1 10 1 2 {[1 := 0%nat; 2 := 1%nat]}
                 {[1 := [0%nat; 1%nat]]}
                 [Lfu.mkNode 1 1 "a"; Lfu.mkNode 1 2 "b"]) 1 1 "a")
    as ((s' & Hg & Hf & _) & _);
    [lia | cbn; lia | vm_compute; reflexivity | vm_compute; reflexivity
    | vm_compute; reflexivity |].
  exists s'. split; assumption.
Defined.

Lemma lfu_put_on_full_cache_drops_a_least_frequent_key_witness :
  ∃ s s' k0 f0,
    Lfu.run 0 [Lfu.Put 1 "a"; Lfu.Put 2 "b"; Lfu.Get 1] (Lfu.new 2 10)
    = Some s
    ∧ Lfu.put 0 3 "c" s = Some s'
    ∧ Lfu.freqOf k0 s = Some f0
    ∧ Lfu.nodeMap_ s' !! k0 = None.
Proof.
  destruct (Lfu.run 0 [Lfu.Put 1 "a"; Lfu.Put 2 "b"; Lfu.Get 1]
              (Lfu.new 2 10)) as [s|] eqn:Hs;
    [|vm_compute in Hs; discriminate].
  destruct (lfu_put_on_full_cache_drops_a_least_frequent_key
              (Value := string) 0 2 10
              [Lfu.Put 1 "a"; Lfu.Put 2 "b"; Lfu.Get 1] s 3 "c")
    as (s' & k0 & f0 & Hp & Hf & _ & Hk0 & _);
    [lia | left; cbn; lia | exact Hs
    | vm_compute in Hs; injection Hs as <-; vm_compute; reflexivity
    | vm_compute in Hs; injection Hs as <-; vm_compute; reflexivity |].
  exists s, s', k0, f0. repeat split; assumption.
Defined.

(** ** KHashLfuCache: every slice runs on its own *)

Section HashLfuSlices.
Context {Value : Type}.
Variable Hash : Z → Z.
Variable hardware_concurrency : Z.
Variable dummyKey : Z.
Implicit Types s : HashLfu.KHashLfuCache Value.
Implicit Types o : Lfu.op Value.

Lemma hashLfu_sliceIndex_sliced s k :
  HashLfu.sliced s →
  ∃ i c, HashLfu.sliceIndex Hash k s = Some i
         ∧ HashLfu.lfuSliceCaches_ s !! i = Some c.
Proof.
  intros [Hn Hlen]. unfold HashLfu.sliceIndex. cbv zeta.
  rewrite to_size_t_small by lia.
  destruct (Z.eqb_spec (HashLfu.sliceNum_ s) 0) as [E|_]; [lia|].
  pose proof (Z.mod_pos_bound (Hash k) (HashLfu.sliceNum_ s) ltac:(lia)) as Hb.
  assert (Z.to_nat (Hash k `mod` HashLfu.sliceNum_ s)
          < length (HashLfu.lfuSliceCaches_ s))%nat as Hlt
    by (rewrite Hlen; lia).
  apply lookup_lt_is_Some_2 in Hlt as [c Hc]. eauto.
Qed.

Lemma hashLfu_callsOf_same i s s1 ops :
  HashLfu.sliceNum_ s1 = HashLfu.sliceNum_ s →
  HashLfu.callsOf Hash i s1 ops = HashLfu.callsOf Hash i s ops.
Proof.
  intros E. unfold HashLfu.callsOf, HashLfu.reaches, HashLfu.sliceIndex.
  rewrite E. reflexivity.
Qed.

Lemma hashLfu_run_callsOf_cons i s o ops c :
  Lfu.run dummyKey (HashLfu.callsOf Hash i s (o :: ops)) c
  = if HashLfu.reaches Hash i s o
    then Lfu.step dummyKey c o
         ≫= Lfu.run dummyKey (HashLfu.callsOf Hash i s ops)
    else Lfu.run dummyKey (HashLfu.callsOf Hash i s ops) c.
Proof.
  unfold HashLfu.callsOf.
  destruct (HashLfu.reaches Hash i s o) eqn:E.
  - rewrite filter_cons_True by (rewrite E; exact I). reflexivity.
  - rewrite filter_cons_False by (rewrite E; exact id). reflexivity.
Qed.

(** A call changes the slices it reaches, each by the same call. *)
Lemma hashLfu_step_slices s o :
  HashLfu.sliced s →
  (∀ i c, HashLfu.lfuSliceCaches_ s !! i = Some c →
     HashLfu.reaches Hash i s o = true →
     is_Some (Lfu.step dummyKey c o)) →
  ∃ s1, HashLfu.step Hash dummyKey s o = Some s1
        ∧ HashLfu.sliceNum_ s1 = HashLfu.sliceNum_ s
        ∧ HashLfu.capacity_ s1 = HashLfu.capacity_ s
        ∧ length (HashLfu.lfuSliceCaches_ s1)
          = length (HashLfu.lfuSliceCaches_ s)
        ∧ ∀ i c, HashLfu.lfuSliceCaches_ s !! i = Some c →
            HashLfu.lfuSliceCaches_ s1 !! i
            = if HashLfu.reaches Hash i s o
              then Lfu.step dummyKey c o else Some c.
Proof.
  intros Hs Htot.
  assert (∀ k i0 c0 c1,
            HashLfu.sliceIndex Hash k s = Some i0 →
            HashLfu.lfuSliceCaches_ s !! i0 = Some c0 →
            ∀ i c, HashLfu.lfuSliceCaches_ s !! i = Some c →
              <[i0 := c1]> (HashLfu.lfuSliceCaches_ s) !! i
              = if bool_decide (HashLfu.sliceIndex Hash k s = Some i)
                then Some c1 else Some c) as Hins.
  { intros k i0 c0 c1 Hi0 Hc0 i c Hc. case_bool_decide as E.
    - assert (i = i0) as -> by congruence.
      apply list_lookup_insert_eq. eapply lookup_lt_Some. exact Hc0.
    - rewrite list_lookup_insert_ne by congruence. exact Hc. }
  destruct o as [k v|k|]; cbn [HashLfu.step HashLfu.reaches] in *.
  - destruct (hashLfu_sliceIndex_sliced s k Hs) as (i0 & c0 & Hi0 & Hc0).
    destruct (Htot i0 c0 Hc0) as [c1 H1];
      [apply bool_decide_eq_true; exact Hi0|].
    cbn [Lfu.step] in H1.
    unfold HashLfu.put. rewrite Hi0. cbn [mbind option_bind].
    rewrite Hc0. cbn [mbind option_bind]. rewrite H1.
    cbn [mbind option_bind]. eexists. split; [reflexivity|].
    cbn [HashLfu.sliceNum_ HashLfu.capacity_ HashLfu.lfuSliceCaches_
         HashLfu.set_slices].
    repeat (split; [first [reflexivity | apply length_insert]|]).
    intros i c Hc. rewrite (Hins k i0 c0 c1 Hi0 Hc0 i c Hc), ?Hi0.
    case_bool_decide as E; [|reflexivity].
    injection E as <-.
    assert (c = c0) as -> by congruence. symmetry. exact H1.
  - destruct (hashLfu_sliceIndex_sliced s k Hs) as (i0 & c0 & Hi0 & Hc0).
    destruct (Htot i0 c0 Hc0) as [c1 H1];
      [apply bool_decide_eq_true; exact Hi0|].
    cbn [Lfu.step] in H1. apply fmap_Some in H1 as (r & Hr & ->).
    unfold HashLfu.get. rewrite Hi0. cbn [mbind option_bind].
    rewrite Hc0. cbn [mbind option_bind]. rewrite Hr.
    cbn [mbind option_bind fmap option_fmap option_map fst].
    eexists. split; [reflexivity|].
    cbn [HashLfu.sliceNum_ HashLfu.capacity_ HashLfu.lfuSliceCaches_
         HashLfu.set_slices].
    repeat (split; [first [reflexivity | apply length_insert]|]).
    intros i c Hc. rewrite (Hins k i0 c0 r.1 Hi0 Hc0 i c Hc), ?Hi0.
    case_bool_decide as E; [|reflexivity].
    injection E as <-.
    assert (c = c0) as -> by congruence.
    cbn [Lfu.step]. rewrite Hr. reflexivity.
  - eexists. split; [reflexivity|].
    unfold HashLfu.purge.
    cbn [HashLfu.sliceNum_ HashLfu.capacity_ HashLfu.lfuSliceCaches_
         HashLfu.set_slices].
    repeat (split; [first [reflexivity | apply length_fmap]|]).
    intros i c Hc. rewrite list_lookup_fmap, Hc. reflexivity.
Qed.

Lemma hashLfu_run_slices ops s :
  HashLfu.sliced s →
  (∀ i c, HashLfu.lfuSliceCaches_ s !! i = Some c →
     is_Some (Lfu.run dummyKey (HashLfu.callsOf Hash i s ops) c)) →
  ∃ s', HashLfu.run Hash dummyKey ops s = Some s'
        ∧ HashLfu.sliceNum_ s' = HashLfu.sliceNum_ s
        ∧ HashLfu.capacity_ s' = HashLfu.capacity_ s
        ∧ length (HashLfu.lfuSliceCaches_ s')
          = length (HashLfu.lfuSliceCaches_ s)
        ∧ ∀ i c, HashLfu.lfuSliceCaches_ s !! i = Some c →
            HashLfu.lfuSliceCaches_ s' !! i
            = Lfu.run dummyKey (HashLfu.callsOf Hash i s ops) c.
Proof.
  revert s. induction ops as [|o ops IH]; intros s Hs Htot.
  - exists s. split; [reflexivity|]. repeat (split; [reflexivity|]).
    intros i c Hc. exact Hc.
  - destruct (hashLfu_step_slices s o Hs) as (s1 & Hstep & Hn1 & Hc1 & Hl1 & Hsl1).
    { intros i c Hc Hreach. specialize (Htot i c Hc).
      rewrite hashLfu_run_callsOf_cons, Hreach in Htot.
      destruct (Lfu.step dummyKey c o); [eauto|].
      destruct Htot as [x Hx]. discriminate. }
    assert (HashLfu.sliced s1) as Hs1.
    { destruct Hs as [Hn Hlen]. split; [rewrite Hn1; exact Hn|].
      rewrite Hl1, Hn1. exact Hlen. }
    assert (∀ i c1, HashLfu.lfuSliceCaches_ s1 !! i = Some c1 →
              ∃ c, HashLfu.lfuSliceCaches_ s !! i = Some c
                   ∧ Lfu.run dummyKey (HashLfu.callsOf Hash i s (o :: ops)) c
                     = Lfu.run dummyKey (HashLfu.callsOf Hash i s1 ops) c1)
      as Hback.
    { intros i c1 H1.
      pose proof (lookup_lt_Some _ _ _ H1) as Hlt. rewrite Hl1 in Hlt.
      apply lookup_lt_is_Some_2 in Hlt as [c Hc]. exists c.
      split; [exact Hc|].
      rewrite hashLfu_run_callsOf_cons, (hashLfu_callsOf_same i s s1) by exact Hn1.
      rewrite (Hsl1 i c Hc) in H1.
      destruct (HashLfu.reaches Hash i s o).
      - rewrite H1. reflexivity.
      - injection H1 as <-. reflexivity. }
    destruct (IH s1 Hs1) as (s' & Hrun & Hn' & Hcap' & Hlen' & Hsl).
    { intros i c1 H1. destruct (Hback i c1 H1) as (c & Hc & <-).
      apply Htot, Hc. }
    exists s'. cbn [HashLfu.run]. rewrite Hstep. cbn [mbind option_bind].
    split; [exact Hrun|]. split; [congruence|]. split; [congruence|].
    split; [congruence|].
    intros i c Hc.
    assert (i < length (HashLfu.lfuSliceCaches_ s1))%nat as Hlt
      by (rewrite Hl1; eapply lookup_lt_Some; exact Hc).
    apply lookup_lt_is_Some_2 in Hlt as [c1 H1].
    destruct (Hback i c1 H1) as (c' & Hc' & E).
    assert (c' = c) as -> by congruence.
    rewrite E. apply Hsl, H1.
Qed.

Lemma hashLfu_new_shape (capacity sliceNum M : Z) s0 :
  HashLfu.new hardware_concurrency capacity sliceNum M = Some s0 →
  0 < sliceNum < 2 ^ 31 →
  HashLfu.sliced s0 ∧ HashLfu.sliceNum_ s0 = sliceNum
  ∧ ∃ c, - 2 ^ 31 ≤ c < 2 ^ 31
         ∧ HashLfu.lfuSliceCaches_ s0
           = replicate (Z.to_nat sliceNum) (Lfu.new c M).
Proof.
  intros Hnew Hn. unfold HashLfu.new in Hnew. cbv zeta in Hnew.
  destruct (Z.ltb_spec 0 sliceNum) as [_|]; [|lia].
  apply bind_Some in Hnew as (z & Hz & Hnew). injection Hnew as <-.
  split; [split; cbn; [lia | apply length_replicate]|].
  split; [reflexivity|]. exists (CInt.to_int z).
  split; [apply to_int_range | reflexivity].
Qed.

(** X13.  A sliced LFU cache that the constructor made with a positive
    slice count and a [maxAverageNum] that is not negative: every run of
    fewer than [2 ^ 31] calls of [put], [get] and [purge] is defined (the
    slice index is within the vector and no slice reaches through a null
    list), and it leaves each slice as the slice would be after running,
    alone and from new, the calls on the keys that hash to it and every
    [purge], in their order; every [int] member of each slice holds a
    value of an [int]. *)
Theorem hashLfu_slices_run_alone (capacity sliceNum M : Z)
    (ops : list (Lfu.op Value)) s0 :
  HashLfu.new hardware_concurrency capacity sliceNum M = Some s0 →
  0 < sliceNum < 2 ^ 31 → 0 ≤ M < 2 ^ 31 →
  Z.of_nat (length ops) < 2 ^ 31 →
  ∃ s c, HashLfu.run Hash dummyKey ops s0 = Some s
         ∧ HashLfu.sliceNum_ s = sliceNum
         ∧ HashLfu.lfuSliceCaches_ s0
           = replicate (Z.to_nat sliceNum) (Lfu.new c M)
         ∧ length (HashLfu.lfuSliceCaches_ s) = Z.to_nat sliceNum
         ∧ ∀ i, (i < Z.to_nat sliceNum)%nat →
             ∃ sl, HashLfu.lfuSliceCaches_ s !! i = Some sl
                   ∧ Lfu.run dummyKey (HashLfu.callsOf Hash i s0 ops)
                       (Lfu.new c M) = Some sl
                   ∧ Lfu.fitsInt sl.
Proof.
  intros Hnew Hn HM Hops.
  destruct (hashLfu_new_shape capacity sliceNum M s0 Hnew Hn)
    as (Hs & Hnum & c & Hc & Hsl).
  destruct (hashLfu_run_slices ops s0 Hs)
    as (s & Hrun & Hn' & _ & Hlen & Hproj).
  { intros i c0 Hc0. rewrite Hsl in Hc0.
    apply lookup_replicate in Hc0 as [-> _].
    destruct (lfu_run_wf dummyKey (HashLfu.callsOf Hash i s0 ops)
                (Lfu.new c M) (lfu_new_wf c M) (lfu_capacityOk_int c M Hc))
      as (sl & -> & _). eauto. }
  exists s, c. split; [exact Hrun|].
  split; [congruence|]. split; [exact Hsl|].
  assert (length (HashLfu.lfuSliceCaches_ s) = Z.to_nat sliceNum) as Hlen'
    by (rewrite Hlen, Hsl; apply length_replicate).
  split; [exact Hlen'|].
  intros i Hi.
  assert (HashLfu.lfuSliceCaches_ s0 !! i = Some (Lfu.new c M)) as Hi0
    by (rewrite Hsl; apply lookup_replicate_2; exact Hi).
  rewrite <- Hlen' in Hi. apply lookup_lt_is_Some_2 in Hi as [sl Hsl'].
  exists sl. split; [exact Hsl'|].
  assert (Lfu.run dummyKey (HashLfu.callsOf Hash i s0 ops) (Lfu.new c M)
          = Some sl) as Hrun_i
    by (rewrite <- (Hproj i _ Hi0); exact Hsl').
  split; [exact Hrun_i|].
  eapply (lfu_run_fitsInt dummyKey c M); [exact Hc | exact HM | | exact Hrun_i].
  assert (length (HashLfu.callsOf Hash i s0 ops) ≤ length ops)%nat
    by apply length_filter.
  lia.
Qed.

(** X14.  On such a cache whose slices have a positive capacity, with a
    [maxAverageNum] that is not negative and in a run of fewer than
    [2 ^ 31] calls, after the last [put(k, v)] of a key a
    [get(k)] returns [v] or misses; and it returns [v] whenever every call
    since then was a [put] or a [get] on a key of another slice.  Every
    [int] member of every slice holds a value of an [int]. *)
Theorem hashLfu_other_slices_do_not_evict (capacity sliceNum M : Z)
    (ops0 ops : list (Lfu.op Value)) (k : Z) (v : Value) s0 (i : nat) :
  HashLfu.new hardware_concurrency capacity sliceNum M = Some s0 →
  0 < sliceNum < 2 ^ 31 →
  (∀ c, c ∈ HashLfu.lfuSliceCaches_ s0 → 0 < Lfu.capacity_ c) →
  (∀ v', Lfu.Put k v' ∉ ops) →
  HashLfu.sliceIndex Hash k s0 = Some i →
  0 ≤ M < 2 ^ 31 →
  Z.of_nat (length (ops0 ++ Lfu.Put k v :: ops)) < 2 ^ 31 →
  ∃ s s' r,
    HashLfu.run Hash dummyKey (ops0 ++ Lfu.Put k v :: ops) s0 = Some s
    ∧ HashLfu.get Hash k s = Some (s', r)
    ∧ (r = Some v ∨ r = None)
    ∧ ((∀ o, o ∈ ops → HashLfu.reaches Hash i s0 o = false) → r = Some v)
    ∧ ∀ j sl, HashLfu.lfuSliceCaches_ s !! j = Some sl → Lfu.fitsInt sl.
Proof.
  intros Hnew Hn Hcap Hno Hi HM Hops.
  destruct (hashLfu_new_shape capacity sliceNum M s0 Hnew Hn)
    as (Hs & Hnum & c & Hc & Hsl).
  destruct (hashLfu_run_slices (ops0 ++ Lfu.Put k v :: ops) s0 Hs)
    as (s & Hrun & Hn' & _ & Hlen & Hproj).
  { intros j c0 Hc0. rewrite Hsl in Hc0.
    apply lookup_replicate in Hc0 as [-> _].
    destruct (lfu_run_wf dummyKey
                (HashLfu.callsOf Hash j s0 (ops0 ++ Lfu.Put k v :: ops))
                (Lfu.new c M) (lfu_new_wf c M) (lfu_capacityOk_int c M Hc))
      as (sl & -> & _). eauto. }
  destruct (hashLfu_sliceIndex_sliced s0 k Hs) as (i' & c0 & Hi' & Hc0).
  assert (i' = i) as -> by congruence.
  assert (c0 = Lfu.new c M) as ->.
  { rewrite Hsl in Hc0. apply lookup_replicate in Hc0 as [-> _].
    reflexivity. }
  assert (0 < c) as Hpos.
  { specialize (Hcap _ ltac:(eapply list_elem_of_lookup_2; exact Hc0)).
    exact Hcap. }
  assert (∀ j sl, HashLfu.lfuSliceCaches_ s !! j = Some sl → Lfu.fitsInt sl)
    as Hfit.
  { intros j sl Hj.
    assert (HashLfu.lfuSliceCaches_ s0 !! j = Some (Lfu.new c M)) as Hj0.
    { rewrite Hsl. apply lookup_replicate_2.
      apply lookup_lt_Some in Hj.
      rewrite Hlen, Hsl, length_replicate in Hj. exact Hj. }
    rewrite (Hproj j _ Hj0) in Hj.
    eapply (lfu_run_fitsInt dummyKey c M); [exact Hc | exact HM | | exact Hj].
    assert (length (HashLfu.callsOf Hash j s0 (ops0 ++ Lfu.Put k v :: ops))
            ≤ length (ops0 ++ Lfu.Put k v :: ops))%nat
      by apply length_filter.
    lia. }
  pose proof (Hproj i _ Hc0) as Hslice.
  unfold HashLfu.callsOf in Hslice. rewrite filter_app in Hslice.
  rewrite filter_cons_True in Hslice
    by (cbn [HashLfu.reaches]; rewrite Hi, bool_decide_eq_true_2;
        [exact I | reflexivity]).
  fold (HashLfu.callsOf Hash i s0 ops0) in Hslice.
  fold (HashLfu.callsOf Hash i s0 ops) in Hslice.
  assert (∀ v', Lfu.Put k v' ∉ HashLfu.callsOf Hash i s0 ops) as Hno'.
  { intros v' Hin. apply list_elem_of_filter in Hin as [_ Hin].
    exact (Hno v' Hin). }
  destruct (lfu_put_get_coherent dummyKey c M
              (HashLfu.callsOf Hash i s0 ops0)
              (HashLfu.callsOf Hash i s0 ops) k v ltac:(lia) Hno')
    as (sl & Hsl' & Himm & Hheld & (c1 & r & Hget & Hany)).
  rewrite Hsl' in Hslice.
  assert (HashLfu.sliceIndex Hash k s = Some i) as Hi''.
  { unfold HashLfu.sliceIndex in *. rewrite Hn'. exact Hi. }
  exists s. unfold HashLfu.get. rewrite Hi''. cbn [mbind option_bind].
  rewrite Hslice. cbn [mbind option_bind]. rewrite Hget.
  cbn [mbind option_bind fst snd].
  eexists _, r. split; [exact Hrun|]. split; [reflexivity|].
  split; [exact Hany|]. split; [|exact Hfit].
  intros Hother. destruct Hheld as (c2 & Hget2); [|congruence].
  apply Himm. unfold HashLfu.callsOf.
  destruct (filter _ ops) as [|o rest] eqn:Hf; [reflexivity|].
  assert (o ∈ filter (λ o, HashLfu.reaches Hash i s0 o) ops) as Hin
    by (rewrite Hf; left).
  apply list_elem_of_filter in Hin as [Ho Hin].
  rewrite (Hother o Hin) in Ho. destruct Ho.
Qed.

(** X15.  [purge] empties every slice: afterwards a [get] of any key
    misses and leaves the cache as it is, and the slice count and the
    number of slices are as before. *)
Theorem hashLfu_purge_empties_every_slice s (k : Z) :
  HashLfu.sliced s →
  HashLfu.get Hash k (HashLfu.purge s) = Some (HashLfu.purge s, None)
  ∧ HashLfu.sliced (HashLfu.purge s)
  ∧ ∀ sl, sl ∈ HashLfu.lfuSliceCaches_ (HashLfu.purge s) →
      Lfu.nodeMap_ sl = ∅ ∧ Lfu.freqToFreqList_ sl = ∅.
Proof.
  intros Hs.
  assert (HashLfu.sliced (HashLfu.purge s)) as Hs'.
  { destruct Hs as [Hn Hlen]. split; [exact Hn|].
    unfold HashLfu.purge. cbn. rewrite length_fmap. exact Hlen. }
  assert (∀ sl, sl ∈ HashLfu.lfuSliceCaches_ (HashLfu.purge s) →
            Lfu.nodeMap_ sl = ∅ ∧ Lfu.freqToFreqList_ sl = ∅) as Hall.
  { intros sl Hin. unfold HashLfu.purge in Hin. cbn in Hin.
    apply list_elem_of_fmap in Hin as (c & -> & _). split; reflexivity. }
  split; [|split; assumption].
  destruct (hashLfu_sliceIndex_sliced (HashLfu.purge s) k Hs')
    as (i & c & Hi & Hc).
  unfold HashLfu.get. rewrite Hi. cbn [mbind option_bind].
  rewrite Hc. cbn [mbind option_bind].
  destruct (Hall c ltac:(eapply list_elem_of_lookup_2; exact Hc)) as [Hm _].
  unfold Lfu.get. rewrite Hm, lookup_empty. cbn [mbind option_bind fst snd].
  rewrite list_insert_id by exact Hc. reflexivity.
Qed.

End HashLfuSlices.

Lemma hashLfu_slices_run_alone_witness :
  ∃ s sl, HashLfu.run (λ k, k) 0
            [Lfu.Put 1 "a"; Lfu.Put 2 "b"; Lfu.Purge; Lfu.Put 4 "d"]
            (HashLfu.mkHash 10 3 (replicate 3 (Lfu.new 4 10))) = Some s
          ∧ HashLfu.lfuSliceCaches_ s !! 1%nat = Some sl
          ∧ Lfu.run 0 [Lfu.Put 1 "a"; Lfu.Purge; Lfu.Put 4 "d"]
              (Lfu.new 4 10) = Some sl.
Proof.
  destruct (hashLfu_slices_run_alone (Value := string) (λ k, k) 8 0 10 3 10
              [Lfu.Put 1 "a"; Lfu.Put 2 "b"; Lfu.Purge; Lfu.Put 4 "d"]
              (HashLfu.mkHash 10 3 (replicate 3 (Lfu.new 4 10))))
    as (s & c & Hrun & _ & Hc & _ & Hproj);
    [vm_compute; reflexivity | lia | lia | cbn; lia |].
  cbn in Hc. injection Hc as <-.
  destruct (Hproj 1%nat ltac:(cbn; lia)) as (sl & Hsl & Hr & _).
  exists s, sl. split; [exact Hrun|]. split; [exact Hsl | exact Hr].
Defined.

Lemma hashLfu_other_slices_do_not_evict_witness :
  ∃ s s',
    HashLfu.run (λ k, k) 0 ([] ++ Lfu.Put 1 "a" :: [Lfu.Put 2 "b"; Lfu.Get 3])
      (HashLfu.mkHash 10 3 (replicate 3 (Lfu.new 4 10))) = Some s
    ∧ HashLfu.get (λ k, k) 1 s = Some (s', Some "a").
Proof.
  destruct (hashLfu_other_slices_do_not_evict (Value := string) (λ k, k)
              8 0 10 3 10 [] [Lfu.Put 2 "b"; Lfu.Get 3] 1 "a"
              (HashLfu.mkHash 10 3 (replicate 3 (Lfu.new 4 10))) 1%nat)
    as (s & s' & r & Hrun & Hget & _ & Hr & _);
    [vm_compute; reflexivity | lia | | | vm_compute; reflexivity
    | lia | cbn; lia |].
  - intros c Hc. cbn [HashLfu.lfuSliceCaches_] in Hc.
    apply elem_of_replicate in Hc as [-> _].
    cbn. lia.
  - intros v' Hin. repeat (apply elem_of_cons in Hin as [Hin|Hin];
                           [discriminate|]). inversion Hin.
  - exists s, s'. split; [exact Hrun|]. rewrite Hget, Hr; [reflexivity|].
    intros o Hin.
    repeat (apply elem_of_cons in Hin as [->|Hin]; [vm_compute; reflexivity|]).
    inversion Hin.
Defined.

Lemma hashLfu_purge_empties_every_slice_witness :
  HashLfu.get (λ k, k) 1
    (HashLfu.purge (HashLfu.mkHash 10 3 (replicate 3 (Lfu.new (Value:=string) 4 10))))
  = Some (HashLfu.purge (HashLfu.mkHash 10 3 (replicate 3 (Lfu.new 4 10))),
          None).
Proof.
  apply (hashLfu_purge_empties_every_slice (λ k, k)
           (HashLfu.mkHash 10 3 (replicate 3 (Lfu.new (Value:=string) 4 10)))
           1).
  split; [cbn; lia | reflexivity].
Defined.

(** ** KArcCache: the victim of the LFU half *)

Section ArcLfuVictim.
Context {Value : Type}.
Implicit Types q : ArcLfu.ArcLfuPart Value.
Implicit Types s : Arc.KArcCache Value.

Lemma arcLfu_firstKey_fold_least (b : list (Z * list Z)) (f : Z) :
  foldr (λ p acc, match acc with
                  | None => Some p.1
                  | Some f => Some (Z.min p.1 f)
                  end) None b = Some f →
  ∀ p, p ∈ b → f ≤ p.1.
Proof.
  revert f. induction b as [|p0 b IH]; intros f Hf p Hin; [inversion Hin|].
  cbn [foldr] in Hf.
  destruct (foldr _ None b) as [f0|] eqn:E.
  - injection Hf as <-. apply elem_of_cons in Hin as [->|Hin]; [lia|].
    specialize (IH f0 eq_refl p Hin). lia.
  - injection Hf as <-. apply elem_of_cons in Hin as [->|Hin]; [lia|].
    destruct b as [|p1 b]; [inversion Hin|].
    cbn [foldr] in E. destruct (foldr _ None b); discriminate.
Qed.

Lemma arcLfu_firstKey_least (m : gmap Z (list Z)) (f g : Z) :
  ArcLfu.firstKey m = Some f → is_Some (m !! g) → f ≤ g.
Proof.
  intros Hf [l Hl].
  apply (arcLfu_firstKey_fold_least _ f Hf (g, l)).
  apply elem_of_map_to_list. exact Hl.
Qed.

Lemma arcLfu_evict_least q (n : Z) :
  ArcLfu.wf q → ArcLfu.minFreqLeast q → ArcLfu.counted n q →
  ArcLfu.minFreqLeast (ArcLfu.evictLeastFrequent q)
  ∧ ArcLfu.counted n (ArcLfu.evictLeastFrequent q).
Proof.
  intros W Hleast Hcnt. pose proof W as (J1 & J2 & J3 & J4).
  destruct (decide (ArcLfu.mainCache_ q = ∅)) as [Hemp|Hne].
  - pose proof (arcLfu_wf_freqMap_empty q W Hemp) as Hf.
    unfold ArcLfu.evictLeastFrequent. rewrite decide_True by exact Hf.
    split; assumption.
  - destruct (J4 Hne) as [l Hl].
    destruct (J1 _ l Hl) as [Hlne Hnd].
    destruct l as [|k rest]; [done|].
    destruct (arcLfu_evict_effect q k rest Hl) as (Hm & _ & Hcases).
    cbv zeta in Hm, Hcases. split.
    + intros f. destruct Hcases as [(-> & Hfm & Hmin)|(Hrest & Hfm & Hmin)];
        rewrite Hfm, Hmin.
      * intros Hf.
        destruct (ArcLfu.firstKey _) as [f0|] eqn:E; cbn [default].
        -- exact (arcLfu_firstKey_least _ f0 f E Hf).
        -- apply Hleast. destruct (decide (f = ArcLfu.minFreq_ q)) as [->|Hne'];
             [rewrite Hl; eauto|].
           rewrite lookup_delete_ne in Hf by congruence. exact Hf.
      * destruct (decide (f = ArcLfu.minFreq_ q)) as [->|Hne']; [lia|].
        rewrite lookup_insert_ne by congruence. apply Hleast.
    + intros k' nd. rewrite Hm. intros Hk'.
      apply lookup_delete_Some in Hk' as [_ Hk']. exact (Hcnt k' nd Hk').
Qed.

Lemma arcLfu_update_least q k n0 node (n : Z) :
  ArcLfu.wf q → ArcLfu.minFreqLeast q → ArcLfu.counted n q →
  ArcLfu.mainCache_ q !! k = Some n0 →
  ArcNode.accessCount_ node = ArcNode.accessCount_ n0 →
  n + 1 < 2 ^ 64 →
  ArcLfu.minFreqLeast (ArcLfu.updateNodeFrequency k node q)
  ∧ ArcLfu.counted (n + 1) (ArcLfu.updateNodeFrequency k node q).
Proof.
  intros W Hleast Hcnt Hk Hc Hn. pose proof W as (J1 & J2 & J3 & J4).
  destruct (arcLfu_update_effect q k node) as (Hm & _ & Hmin & Hfm).
  cbv zeta in Hm, Hmin, Hfm.
  pose proof (Hcnt k n0 Hk) as Hb.
  assert (CInt.size_incr (ArcNode.accessCount_ node)
          = ArcNode.accessCount_ node + 1) as Hincr
    by (apply size_incr_small; lia).
  rewrite Hincr in *.
  destruct (J3 k n0 Hk) as (l0 & Hl0 & Hin0).
  pose proof (Hleast _ ltac:(rewrite Hl0; eauto)) as Hle0.
  split.
  - intros f. rewrite Hfm, Hmin. clear Hfm Hmin.
    destruct (decide (f = ArcNode.accessCount_ node + 1)) as [->|Hf1].
    + intros _. repeat case_decide; try lia.
      destruct (Z.eqb_spec (ArcNode.accessCount_ node) (ArcLfu.minFreq_ q));
        lia.
    + destruct (decide (f = ArcNode.accessCount_ node)) as [->|Hf2].
      * case_decide; [intros [x Hx]; discriminate|]. intros _. lia.
      * intros Hf. pose proof (Hleast f Hf) as Hle.
        case_decide; [|exact Hle].
        destruct (Z.eqb_spec (ArcNode.accessCount_ node) (ArcLfu.minFreq_ q));
          lia.
  - intros k' nd. rewrite Hm. unfold ArcNode.incrementAccessCount.
    destruct (decide (k' = k)) as [->|Hne].
    + rewrite lookup_insert_eq. intros [= <-].
      cbn [ArcNode.accessCount_]. rewrite Hincr. lia.
    + rewrite lookup_insert_ne by congruence. intros Hk'.
      pose proof (Hcnt k' nd Hk'). lia.
Qed.


Lemma arcLfu_counted_mono q (n n' : Z) :
  n ≤ n' → ArcLfu.counted n q → ArcLfu.counted n' q.
Proof.
  intros Hle Hcnt k node Hk. pose proof (Hcnt k node Hk). lia.
Qed.

Lemma arcLfu_least_ext q q' (n : Z) :
  ArcLfu.mainCache_ q' = ArcLfu.mainCache_ q →
  ArcLfu.freqMap_ q' = ArcLfu.freqMap_ q →
  ArcLfu.minFreq_ q' = ArcLfu.minFreq_ q →
  ArcLfu.minFreqLeast q ∧ ArcLfu.counted n q →
  ArcLfu.minFreqLeast q' ∧ ArcLfu.counted n q'.
Proof.
  unfold ArcLfu.minFreqLeast, ArcLfu.counted.
  intros -> -> ->. exact id.
Qed.

Lemma arcLfu_addNewNode_least q k v (n : Z) :
  ArcLfu.wf q → ArcLfu.minFreqLeast q → ArcLfu.counted n q → 1 ≤ n →
  ArcLfu.minFreqLeast (ArcLfu.addNewNode k v q)
  ∧ ArcLfu.counted n (ArcLfu.addNewNode k v q).
Proof.
  intros W Hleast Hcnt Hn.
  assert (∃ q1, (if Z.of_nat (size (ArcLfu.mainCache_ q))
                    >=? ArcLfu.capacity_ q
                 then ArcLfu.evictLeastFrequent q else q) = q1
                ∧ ArcLfu.wf q1 ∧ ArcLfu.counted n q1)
    as (q1 & Hq1 & (J1 & J2 & _) & Hcnt1).
  { eexists. split; [reflexivity|]. destruct (_ >=? _).
    - split; [apply arcLfu_evict_wf, W|].
      apply (arcLfu_evict_least q n W Hleast Hcnt).
    - split; assumption. }
  unfold ArcLfu.addNewNode. rewrite Hq1. cbv zeta.
  unfold ArcLfu.minFreqLeast, ArcLfu.counted.
  cbn [ArcLfu.freqMap_ ArcLfu.minFreq_ ArcLfu.set_main ArcLfu.set_freqMap
       ArcLfu.set_minFreq ArcLfu.mainCache_].
  split.
  - intros f Hf. destruct (decide (f = 1)) as [->|Hne]; [lia|].
    rewrite lookup_insert_ne in Hf by congruence.
    assert (is_Some (ArcLfu.freqMap_ q1 !! f)) as [l Hl].
    { unfold ArcLfu.touch in Hf.
      destruct (ArcLfu.freqMap_ q1 !! 1); [exact Hf|].
      rewrite lookup_insert_ne in Hf by congruence. exact Hf. }
    destruct (J1 f l Hl) as [Hlne _]. destruct l as [|k' l]; [done|].
    destruct (J2 f _ k' Hl ltac:(left)) as (node & Hnode & <-).
    apply (Hcnt1 k' node Hnode).
  - intros k' node. destruct (decide (k' = k)) as [->|Hne].
    + rewrite lookup_insert_eq. intros [= <-]. cbn. lia.
    + rewrite lookup_insert_ne by congruence. apply Hcnt1.
Qed.

Lemma arcLfu_put_least q k v (n : Z) :
  ArcLfu.wf q → ArcLfu.minFreqLeast q → ArcLfu.counted n q →
  1 ≤ n → n + 1 < 2 ^ 64 →
  ArcLfu.minFreqLeast (ArcLfu.put k v q).1
  ∧ ArcLfu.counted (n + 1) (ArcLfu.put k v q).1.
Proof.
  intros W Hleast Hcnt Hn Hb. unfold ArcLfu.put.
  destruct (_ =? 0);
    [split; [exact Hleast | apply (arcLfu_counted_mono q n); [lia | exact Hcnt]]|].
  destruct (ArcLfu.mainCache_ q !! k) as [node|] eqn:Hk; cbn [fst].
  - exact (arcLfu_update_least q k node (ArcNode.setValue v node) n
             W Hleast Hcnt Hk eq_refl Hb).
  - destruct (arcLfu_addNewNode_least q k v n W Hleast Hcnt Hn) as [H1 H2].
    split; [exact H1|]. apply (arcLfu_counted_mono _ n); [lia | exact H2].
Qed.

Lemma arcLfu_get_least q k (n : Z) :
  ArcLfu.wf q → ArcLfu.minFreqLeast q → ArcLfu.counted n q →
  n + 1 < 2 ^ 64 →
  ArcLfu.minFreqLeast (ArcLfu.get k q).1
  ∧ ArcLfu.counted (n + 1) (ArcLfu.get k q).1.
Proof.
  intros W Hleast Hcnt Hb. unfold ArcLfu.get.
  destruct (ArcLfu.mainCache_ q !! k) as [node|] eqn:Hk; cbn [fst].
  - exact (arcLfu_update_least q k node node n W Hleast Hcnt Hk eq_refl Hb).
  - split; [exact Hleast|]. apply (arcLfu_counted_mono q n); [lia | exact Hcnt].
Qed.

Lemma arcLfu_decreaseCapacity_least q (n : Z) :
  ArcLfu.wf q → ArcLfu.minFreqLeast q → ArcLfu.counted n q →
  ArcLfu.minFreqLeast (ArcLfu.decreaseCapacity q).1
  ∧ ArcLfu.counted n (ArcLfu.decreaseCapacity q).1.
Proof.
  intros W Hleast Hcnt. unfold ArcLfu.decreaseCapacity.
  destruct (_ <=? 0); cbn [fst]; [split; assumption|].
  destruct (_ =? _).
  - apply (arcLfu_least_ext (ArcLfu.evictLeastFrequent q)); try reflexivity.
    apply (arcLfu_evict_least q n W Hleast Hcnt).
  - apply (arcLfu_least_ext q); try reflexivity. split; assumption.
Qed.

Lemma arc_checkGhostCaches_least (key : Z) s (n : Z) :
  ArcLfu.wf (Arc.lfuPart_ s) →
  ArcLfu.minFreqLeast (Arc.lfuPart_ s) →
  ArcLfu.counted n (Arc.lfuPart_ s) →
  ArcLfu.minFreqLeast (Arc.lfuPart_ (Arc.checkGhostCaches key s).1)
  ∧ ArcLfu.counted n (Arc.lfuPart_ (Arc.checkGhostCaches key s).1).
Proof.
  intros W Hleast Hcnt. unfold Arc.checkGhostCaches.
  destruct (ArcLru.checkGhost key (Arc.lruPart_ s)) as [lru1 inLru].
  destruct inLru.
  - pose proof (arcLfu_decreaseCapacity_least _ n W Hleast Hcnt) as H.
    destruct (ArcLfu.decreaseCapacity (Arc.lfuPart_ s)) as [lfu1 ok].
    exact H.
  - destruct (arcLfu_checkGhost_main (Arc.lfuPart_ s) key)
      as (Fm & Ff & Fmin & _).
    destruct (ArcLfu.checkGhost key (Arc.lfuPart_ s)) as [lfu1 inLfu].
    cbn [fst] in Fm, Ff, Fmin.
    pose proof (arcLfu_least_ext _ lfu1 n Fm Ff Fmin (conj Hleast Hcnt)) as H.
    destruct inLfu; [|exact H].
    destruct (ArcLru.decreaseCapacity lru1) as [lru2 ok].
    destruct ok; [|exact H].
    apply (arcLfu_least_ext lfu1); try reflexivity. exact H.
Qed.

Lemma arc_step_least (C : Z) s o (n : Z) :
  0 ≤ C < 2 ^ 63 → Arc.wf C s →
  ArcLfu.minFreqLeast (Arc.lfuPart_ s) → ArcLfu.counted n (Arc.lfuPart_ s) →
  1 ≤ n → n + 1 < 2 ^ 64 →
  ArcLfu.minFreqLeast (Arc.lfuPart_ (Arc.step s o))
  ∧ ArcLfu.counted (n + 1) (Arc.lfuPart_ (Arc.step s o)).
Proof.
  intros HC W Hleast Hcnt Hn Hb.
  assert (∀ key,
            ArcLfu.wf (Arc.lfuPart_ (Arc.checkGhostCaches key s).1)
            ∧ ArcLfu.minFreqLeast (Arc.lfuPart_ (Arc.checkGhostCaches key s).1)
            ∧ ArcLfu.counted n (Arc.lfuPart_ (Arc.checkGhostCaches key s).1))
    as Hcheck.
  { intros key.
    destruct (arc_checkGhostCaches_wf C key s HC W) as (_ & Wq & _).
    split; [exact Wq|].
    apply arc_checkGhostCaches_least; [exact (proj1 (proj2 W)) | assumption..]. }
  destruct o as [key v|key]; cbn [Arc.step].
  - destruct (Hcheck key) as (W1 & L1 & C1).
    unfold Arc.put. cbv zeta.
    set (s1 := (Arc.checkGhostCaches key s).1) in *.
    cbn [Arc.lfuPart_ Arc.set_parts].
    destruct (ArcLfu.contain key (Arc.lfuPart_ s1)).
    + apply arcLfu_put_least; assumption.
    + split; [exact L1|].
      apply (arcLfu_counted_mono _ n); [lia | exact C1].
  - destruct (Hcheck key) as (W1 & L1 & C1).
    unfold Arc.get. cbv zeta.
    set (s1 := (Arc.checkGhostCaches key s).1) in *.
    destruct (ArcLru.get key (Arc.lruPart_ s1)) as [lru1 r].
    destruct r as [[value shouldTransform]|].
    + cbn [fst Arc.lfuPart_ Arc.set_parts]. destruct shouldTransform.
      * apply arcLfu_put_least; assumption.
      * split; [exact L1|].
        apply (arcLfu_counted_mono _ n); [lia | exact C1].
    + pose proof (arcLfu_get_least (Arc.lfuPart_ s1) key n W1 L1 C1 Hb) as H.
      destruct (ArcLfu.get key (Arc.lfuPart_ s1)) as [lfu1 r'].
      exact H.
Qed.

Lemma arc_run_least (C : Z) (ops : list (Arc.op Value)) s (n : Z) :
  0 ≤ C < 2 ^ 63 → Arc.wf C s →
  ArcLfu.minFreqLeast (Arc.lfuPart_ s) → ArcLfu.counted n (Arc.lfuPart_ s) →
  1 ≤ n → n + Z.of_nat (length ops) < 2 ^ 64 →
  Arc.wf C (Arc.run ops s)
  ∧ ArcLfu.minFreqLeast (Arc.lfuPart_ (Arc.run ops s))
  ∧ ArcLfu.counted (n + Z.of_nat (length ops)) (Arc.lfuPart_ (Arc.run ops s)).
Proof.
  intros HC. revert s n.
  induction ops as [|o ops IH]; intros s n W Hleast Hcnt Hn Hb.
  - change (Arc.run [] s) with s. cbn [length].
    change (Z.of_nat 0) with 0. rewrite Z.add_0_r.
    split; [exact W|]. split; assumption.
  - change (Arc.run (o :: ops) s) with (Arc.run ops (Arc.step s o)).
    cbn [length] in Hb |- *.
    destruct (arc_step_least C s o n HC W Hleast Hcnt Hn ltac:(lia))
      as [L1 C1].
    assert (Arc.wf C (Arc.step s o)) as W1
      by (destruct o as [k v|k]; [apply arc_put_wf | apply arc_get_wf];
          assumption).
    replace (n + Z.of_nat (S (length ops)))
      with (n + 1 + Z.of_nat (length ops)) by lia.
    apply IH; try assumption; lia.
Qed.

(** X16.  After any run on a new KArcCache, the key that the LFU half
    drops when it evicts ([evictLeastFrequent], on a [put] of a new key
    into the full half or when a ghost hit takes capacity away) has the
    lowest access count of the keys the half holds; the key leaves the
    index and enters the ghost index. *)
Theorem arc_lfu_half_drops_a_least_counted_key (C T : Z)
    (ops : list (Arc.op Value)) :
  0 ≤ C < 2 ^ 63 → Z.of_nat (length ops) + 1 < 2 ^ 64 →
  let q := Arc.lfuPart_ (Arc.run ops (Arc.new C T)) in
  ArcLfu.mainCache_ q ≠ ∅ →
  ∃ k node,
    ArcLfu.mainCache_ q !! k = Some node
    ∧ (∀ k' node', ArcLfu.mainCache_ q !! k' = Some node' →
         ArcNode.accessCount_ node ≤ ArcNode.accessCount_ node')
    ∧ ArcLfu.mainCache_ (ArcLfu.evictLeastFrequent q)
      = delete k (ArcLfu.mainCache_ q)
    ∧ k ∈ ArcLfu.ghostCache_ (ArcLfu.evictLeastFrequent q)
    ∧ ∀ key v, ArcLfu.mainCache_ q !! key = None →
        ArcLfu.capacity_ q ≠ 0 →
        ArcLfu.capacity_ q ≤ Z.of_nat (size (ArcLfu.mainCache_ q)) →
        ArcLfu.mainCache_ (ArcLfu.put key v q).1
        = <[key := ArcNode.make v]> (delete k (ArcLfu.mainCache_ q)).
Proof.
  intros HC Hlen. cbv zeta. intros Hne.
  destruct (arc_run_least C ops (Arc.new C T) 1 HC
              (arc_new_wf C T ltac:(lia)))
    as ((_ & W & _) & Hleast & _); [| |lia|lia|].
  { intros f [l Hl]. cbn in Hl. rewrite lookup_empty in Hl. discriminate. }
  { intros k node Hk. cbn in Hk. rewrite lookup_empty in Hk. discriminate. }
  set (q := Arc.lfuPart_ (Arc.run ops (Arc.new C T))) in *.
  pose proof W as (J1 & J2 & J3 & J4).
  destruct (J4 Hne) as [l Hl].
  destruct (J1 _ l Hl) as [Hlne _]. destruct l as [|k rest]; [done|].
  destruct (J2 _ _ k Hl ltac:(left)) as (node & Hnode & Hcount).
  destruct (arcLfu_evict_effect q k rest Hl) as (Hm & _).
  cbv zeta in Hm.
  exists k, node. split; [exact Hnode|]. split.
  { intros k' node' Hk'. destruct (J3 k' node' Hk') as (l' & Hl' & _).
    rewrite Hcount. apply Hleast. rewrite Hl'. eauto. }
  split; [exact Hm|]. split.
  - unfold ArcLfu.evictLeastFrequent.
    rewrite decide_False
      by (intros E; rewrite E, lookup_empty in Hl; discriminate).
    cbv zeta. cbn [ArcLfu.freqMap_ ArcLfu.minFreq_ ArcLfu.set_freqMap].
    rewrite arcLfu_touch_present by (rewrite Hl; eauto).
    rewrite Hl. cbn [default].
    repeat first [case_decide | case_match];
      cbn [ArcLfu.ghostCache_ ArcLfu.set_main ArcLfu.addToGhost
           ArcLfu.set_ghost];
      first [ unfold id in *; discriminate
            | apply elem_of_union; left; apply elem_of_singleton;
              unfold id in *; congruence ].
  - intros key v Hkey Hc0 Hfull. unfold ArcLfu.put.
    destruct (Z.eqb_spec (ArcLfu.capacity_ q) 0) as [|_]; [done|].
    rewrite Hkey. cbn [fst]. unfold ArcLfu.addNewNode.
    destruct (Z.geb_spec (Z.of_nat (size (ArcLfu.mainCache_ q)))
                         (ArcLfu.capacity_ q)) as [_|]; [|lia].
    cbv zeta.
    cbn [ArcLfu.mainCache_ ArcLfu.set_main ArcLfu.set_freqMap
         ArcLfu.set_minFreq].
    rewrite Hm. reflexivity.
Qed.

(** X17.  After any run on a new KArcCache both halves are consistent:
    the chain of the LRU half holds the keys of its index, each once;
    no frequency list of the LFU half is empty or holds a key twice, and
    a key is in the list of a frequency exactly when the index holds it
    with that access count. *)
Theorem arc_halves_stay_consistent (C T : Z) (ops : list (Arc.op Value)) :
  0 ≤ C < 2 ^ 63 →
  let s := Arc.run ops (Arc.new C T) in
  let lru := Arc.lruPart_ s in
  let lfu := Arc.lfuPart_ s in
  NoDup (ArcLru.mainList lru)
  ∧ (∀ k, k ∈ ArcLru.mainList lru ↔ is_Some (ArcLru.mainCache_ lru !! k))
  ∧ (∀ f l, ArcLfu.freqMap_ lfu !! f = Some l → l ≠ [] ∧ NoDup l)
  ∧ (∀ k f, (∃ l, ArcLfu.freqMap_ lfu !! f = Some l ∧ k ∈ l)
            ↔ ∃ node, ArcLfu.mainCache_ lfu !! k = Some node
                      ∧ ArcNode.accessCount_ node = f).
Proof.
  intros HC. cbv zeta.
  destruct (arc_run_wf C ops (Arc.new C T) HC (arc_new_wf C T ltac:(lia)))
    as ([Hnd Hdom] & (J1 & J2 & J3 & _) & _).
  split; [exact Hnd|]. split.
  { intros k. rewrite <- elem_of_dom, Hdom, elem_of_list_to_set.
    reflexivity. }
  split; [exact J1|].
  intros k f. split.
  - intros (l & Hl & Hin). exact (J2 f l k Hl Hin).
  - intros (node & Hnode & <-). exact (J3 k node Hnode).
Qed.

End ArcLfuVictim.

Lemma arc_lfu_half_drops_a_least_counted_key_witness :
  ∃ k node,
    ArcLfu.mainCache_
      (Arc.lfuPart_ (Arc.run [Arc.Put 1 "a"; Arc.Get 1; Arc.Get 1]
                       (Arc.new 2 2))) !! k = Some node
    ∧ ArcLfu.mainCache_
        (ArcLfu.evictLeastFrequent
           (Arc.lfuPart_ (Arc.run [Arc.Put 1 "a"; Arc.Get 1; Arc.Get 1]
                            (Arc.new 2 2))))
      = delete k (ArcLfu.mainCache_
                    (Arc.lfuPart_ (Arc.run [Arc.Put 1 "a"; Arc.Get 1; Arc.Get 1]
                                     (Arc.new 2 2)))).
Proof.
  destruct (arc_lfu_half_drops_a_least_counted_key (Value := string) 2 2
              [Arc.Put 1 "a"; Arc.Get 1; Arc.Get 1])
    as (k & node & Hk & _ & Hm & _); [lia | cbn; lia | |].
  - intros E. apply (f_equal (λ m, m !! 1)) in E. vm_compute in E.
    discriminate.
  - exists k, node. split; assumption.
Defined.

Lemma arc_halves_stay_consistent_witness :
  NoDup (ArcLru.mainList
           (Arc.lruPart_ (Arc.run [Arc.Put 1 "a"; Arc.Put 2 "b"; Arc.Get 1]
                            (Arc.new 2 2)))).
Proof.
  apply (arc_halves_stay_consistent (Value := string) 2 2
           [Arc.Put 1 "a"; Arc.Put 2 "b"; Arc.Get 1]). lia.
Defined.

(** ** KLruKCache: pending values and the history *)

Section LruKPending.
Context {Value : Type}.
Variable dflt : Value.

Lemma lruk_cold_put_effect (key : Z) (v : Value) s (C : Z) :
  LruK.base s = Lru.new C →
  Lru.nodeMap_ (LruK.historyList_ s) !! key = None →
  1 < LruK.k_ s < 2 ^ 64 →
  LruK.put key v s
  = LruK.mkLruK (Lru.new C) (LruK.k_ s)
      (Lru.put key 1 (LruK.historyList_ s))
      (<[key := v]> (LruK.historyValueMap_ s)).
Proof.
  intros Hb Hh Hk. unfold LruK.put. rewrite Hb.
  unfold Lru.get at 1. cbn [Lru.nodeMap_ Lru.new]. rewrite lookup_empty.
  unfold LruK.bumpHistory, Lru.get_value, Lru.get. rewrite Hh.
  cbv beta iota. change (CInt.size_incr (default 0 None)) with 1.
  rewrite to_size_t_small by lia.
  destruct (Z.geb_spec 1 (LruK.k_ s)); [lia|]. reflexivity.
Qed.

(** X18.  [put] of pairwise distinct keys into a new LRU-K cache with
    [k_ > 1]: no key is admitted, the history holds the last
    [historyCapacity] keys, and the map of pending values holds the value
    of every key put, also of the keys that the history has dropped: it is
    not bounded by the history capacity. *)
Theorem lruk_pending_values_outlive_the_history (C h kk : Z)
    (kvs : list (Z * Value)) :
  0 < h < 2 ^ 64 → 1 < kk < 2 ^ 64 → NoDup kvs.*1 →
  let s := LruK.run dflt ((λ p, Lru.Put p.1 p.2) <$> kvs)
             (LruK.new C h kk) in
  Lru.nodeMap_ (LruK.base s) = ∅
  ∧ Lru.list_ (LruK.historyList_ s)
    = (drop (length kvs - Z.to_nat h) kvs).*1
  ∧ (∀ k v, (k, v) ∈ kvs → LruK.historyValueMap_ s !! k = Some v)
  ∧ size (LruK.historyValueMap_ s) = length kvs.
Proof.
  intros Hh Hkk Hnd. cbv zeta.
  assert (LruK.base (LruK.run dflt ((λ p, Lru.Put p.1 p.2) <$> kvs)
                       (LruK.new C h kk)) = Lru.new C
          ∧ LruK.k_ (LruK.run dflt ((λ p, Lru.Put p.1 p.2) <$> kvs)
                       (LruK.new C h kk)) = kk
          ∧ LruK.historyList_ (LruK.run dflt ((λ p, Lru.Put p.1 p.2) <$> kvs)
                                 (LruK.new C h kk))
            = Lru.run ((λ p, Lru.Put p.1 p.2)
                         <$> ((λ p : Z * Value, (p.1, 1)) <$> kvs))
                      (Lru.new h)
          ∧ (∀ k v, (k, v) ∈ kvs →
               LruK.historyValueMap_
                 (LruK.run dflt ((λ p, Lru.Put p.1 p.2) <$> kvs)
                    (LruK.new C h kk)) !! k = Some v)
          ∧ (∀ k, is_Some (LruK.historyValueMap_
                             (LruK.run dflt ((λ p, Lru.Put p.1 p.2) <$> kvs)
                                (LruK.new C h kk)) !! k) → k ∈ kvs.*1)
          ∧ size (LruK.historyValueMap_
                    (LruK.run dflt ((λ p, Lru.Put p.1 p.2) <$> kvs)
                       (LruK.new C h kk))) = length kvs)
    as (Hb & _ & Hhist & Hval & _ & Hsz).
  { induction kvs as [|[k v] kvs IH] using rev_ind.
    - repeat split; try reflexivity.
      + intros k v Hin. inversion Hin.
      + intros k [x Hx]. cbn in Hx. rewrite lookup_empty in Hx. discriminate.
    - rewrite fmap_app in Hnd. apply NoDup_app in Hnd as (Hnd & Hfresh & _).
      assert (k ∉ kvs.*1) as Hk
        by (intros Hin; apply (Hfresh k Hin); left).
      destruct (IH Hnd) as (Hb & Hk_ & Hhist & Hval & Hdom & Hsz).
      rewrite !fmap_app. cbn [fmap list_fmap fst snd].
      unfold LruK.run in *. rewrite foldl_app. cbn [foldl LruK.step].
      set (s := foldl (LruK.step dflt) (LruK.new C h kk)
                  ((λ p, Lru.Put p.1 p.2) <$> kvs)) in *.
      assert (Lru.nodeMap_ (LruK.historyList_ s) !! k = None) as Hcold.
      { rewrite Hhist. apply eq_None_not_Some. intros [n Hn].
        destruct (lru_puts_invariant h ((λ p : Z * Value, (p.1, 1)) <$> kvs)
                    Hh) as (_ & _ & Hin).
        { rewrite <- list_fmap_compose.
          replace (fst ∘ (λ p : Z * Value, (p.1, 1))) with (@fst Z Value)
            by reflexivity. exact Hnd. }
        apply Hin in Hn. apply list_elem_of_fmap in Hn as (p & Hp & Hpin).
        injection Hp as -> _. apply Hk. apply list_elem_of_fmap.
        exists p. split; [reflexivity | exact Hpin]. }
      rewrite (lruk_cold_put_effect k v s C Hb Hcold) by (rewrite Hk_; lia).
      cbn [LruK.base LruK.k_ LruK.historyList_ LruK.historyValueMap_].
      split; [reflexivity|]. split; [exact Hk_|]. split.
      { rewrite Hhist. unfold Lru.run. rewrite foldl_app. reflexivity. }
      assert (LruK.historyValueMap_ s !! k = None) as Hnone.
      { apply eq_None_not_Some. intros Hs. exact (Hk (Hdom k Hs)). }
      split; [|split].
      + intros k' v' Hin. apply elem_of_app in Hin as [Hin|Hin].
        * rewrite lookup_insert_ne; [exact (Hval k' v' Hin)|].
          intros <-. apply Hk. apply list_elem_of_fmap.
          exists (k, v'). split; [reflexivity | exact Hin].
        * apply list_elem_of_singleton in Hin. injection Hin as -> ->.
          apply lookup_insert_eq.
      + intros k' Hs. apply elem_of_app.
        destruct (decide (k' = k)) as [->|Hne]; [right; left|].
        rewrite lookup_insert_ne in Hs by congruence. left. exact (Hdom k' Hs).
      + rewrite map_size_insert_None by exact Hnone.
        rewrite Hsz, length_app. cbn [length]. lia. }
  rewrite Hb, Hhist. split; [reflexivity|]. split; [|split; assumption].
  destruct (lru_puts_invariant h ((λ p : Z * Value, (p.1, 1)) <$> kvs) Hh)
    as (_ & Hl & _).
  { rewrite <- list_fmap_compose.
    replace (fst ∘ (λ p : Z * Value, (p.1, 1))) with (@fst Z Value)
      by reflexivity. exact Hnd. }
  rewrite Hl, length_fmap, <- fmap_drop, <- !list_fmap_compose. reflexivity.
Qed.

End LruKPending.

Lemma lruk_pending_values_outlive_the_history_witness :
  size (LruK.historyValueMap_
          (LruK.run "" ((λ p, Lru.Put p.1 p.2)
                          <$> [(1, "a"); (2, "b"); (3, "c")])
             (LruK.new 2 1 2))) = 3%nat.
Proof.
  apply (lruk_pending_values_outlive_the_history "" 2 1 2
           [(1, "a"); (2, "b"); (3, "c")]); [lia | lia | decide_eval].
Defined.

(** ** KLfuCache: a negative capacity *)

Section LfuNegativeCapacity.
Context {Value : Type}.
Variable dummyKey : Z.
Implicit Types s : Lfu.KLfuCache Value.

Lemma to_size_t_negative (c : Z) :
  - 2 ^ 64 ≤ c < 0 → CInt.to_size_t c = c + 2 ^ 64.
Proof.
  intros Hc. unfold CInt.to_size_t.
  rewrite <- (Z_mod_plus_full c 1 (2 ^ 64)). apply Z.mod_small. lia.
Qed.

(** [put] of a new key while [size()] differs from the capacity as a
    [size_t]: the key enters the index and no key leaves it. *)
Lemma lfu_put_new_without_eviction s k v s' :
  Lfu.capacity_ s ≠ 0 → Lfu.nodeMap_ s !! k = None →
  Z.of_nat (size (Lfu.nodeMap_ s)) ≠ CInt.to_size_t (Lfu.capacity_ s) →
  Lfu.put dummyKey k v s = Some s' →
  Lfu.nodeMap_ s' = <[k := length (Lfu.arena s)]> (Lfu.nodeMap_ s).
Proof.
  intros Hc Hk Hsz Hp. unfold Lfu.put in Hp.
  destruct (Z.eqb_spec (Lfu.capacity_ s) 0) as [|_]; [done|].
  rewrite Hk in Hp. unfold Lfu.putInternal in Hp.
  destruct (Z.eqb_spec (Z.of_nat (size (Lfu.nodeMap_ s)))
                       (CInt.to_size_t (Lfu.capacity_ s))) as [|_]; [done|].
  cbn [mbind option_bind] in Hp. cbv zeta in Hp.
  apply bind_Some in Hp as (s3 & H3 & Hp).
  apply bind_Some in Hp as (s4 & H4 & Hp). injection Hp as <-.
  apply lfu_addFreqNum_nodeMap in H4.
  apply lfu_addToFreqList_frame in H3 as (_ & _ & _ & _ & H3 & _).
  cbn [Lfu.nodeMap_ Lfu.set_nodeMap Lfu.set_arena Lfu.set_minFreq] in *.
  congruence.
Qed.

(** X19.  A KLfuCache made with a negative capacity never evicts: the
    comparison of [size()] with the capacity converts the capacity to
    [size_t], so after [put] of fewer than [2 ^ 31] pairwise distinct keys
    every one of them is held, with its value, for every [maxAverageNum]
    that is not negative; every [int] member still holds a value of an
    [int]. *)
Theorem lfu_negative_capacity_never_evicts (C M : Z)
    (kvs : list (Z * Value)) :
  - 2 ^ 31 ≤ C < 0 → 0 ≤ M < 2 ^ 31 →
  Z.of_nat (length kvs) < 2 ^ 31 → NoDup kvs.*1 →
  ∃ s, Lfu.run dummyKey ((λ p, Lfu.Put p.1 p.2) <$> kvs) (Lfu.new C M)
       = Some s
       ∧ size (Lfu.nodeMap_ s) = length kvs
       ∧ Lfu.fitsInt s
       ∧ ∀ k v, (k, v) ∈ kvs → ∃ s', Lfu.get k s = Some (s', Some v).
Proof.
  intros HC HM Hlen Hnd.
  assert (∃ s, Lfu.run dummyKey ((λ p, Lfu.Put p.1 p.2) <$> kvs) (Lfu.new C M)
               = Some s
               ∧ Lfu.wf s ∧ Lfu.capacity_ s = C
               ∧ (∀ k v, (k, v) ∈ kvs → Lfu.valueOf k s = Some v)
               ∧ (∀ k, is_Some (Lfu.nodeMap_ s !! k) → k ∈ kvs.*1)
               ∧ size (Lfu.nodeMap_ s) = length kvs)
    as (s & Hs & W & Hcap & Hval & _ & Hsz).
  { induction kvs as [|[k v] kvs IH] using rev_ind.
    - exists (Lfu.new C M). split; [reflexivity|].
      split; [apply lfu_new_wf|]. split; [reflexivity|].
      split; [intros k v Hin; inversion Hin|].
      split; [|reflexivity].
      intros k [x Hx]. cbn in Hx. rewrite lookup_empty in Hx. discriminate.
    - rewrite fmap_app in Hnd. apply NoDup_app in Hnd as (Hnd & Hfresh & _).
      assert (k ∉ kvs.*1) as Hk
        by (intros Hin; apply (Hfresh k Hin); left).
      rewrite length_app in Hlen. cbn [length] in Hlen.
      destruct (IH ltac:(lia) Hnd) as (s & Hs & W & Hcap & Hval & Hdom & Hsz).
      assert (Lfu.capacityOk s) as Hok.
      { intros _. rewrite Hcap, to_size_t_negative by lia. lia. }
      destruct (lfu_step_wf dummyKey s (Lfu.Put k v) W Hok)
        as (s' & Hp & W' & Hcap' & Hother & Hsame).
      cbn [Lfu.step] in Hp.
      assert (Lfu.nodeMap_ s !! k = None) as Hnone.
      { apply eq_None_not_Some. intros Hsome. exact (Hk (Hdom k Hsome)). }
      pose proof (lfu_put_new_without_eviction s k v s') as Hm.
      rewrite Hcap, to_size_t_negative in Hm by lia.
      specialize (Hm ltac:(lia) Hnone ltac:(lia) Hp).
      exists s'. rewrite fmap_app, lfu_run_app, Hs.
      cbn [fmap list_fmap fst snd mbind option_bind Lfu.run Lfu.step].
      rewrite Hp. cbn [mbind option_bind].
      split; [reflexivity|]. split; [exact W'|].
      split; [congruence|]. split; [|split].
      + intros k' v' Hin. apply elem_of_app in Hin as [Hin|Hin].
        * assert (k' ≠ k) as Hne.
          { intros ->. apply Hk. apply list_elem_of_fmap.
            exists (k, v'). split; [reflexivity | exact Hin]. }
          destruct (Hother k' ltac:(intros v0 [=]; congruence)) as [E|E];
            [|rewrite E; exact (Hval k' v' Hin)].
          pose proof (Hval k' v' Hin) as Hold.
          unfold Lfu.valueOf in Hold.
          apply bind_Some in Hold as (a & Ha & _).
          assert (Lfu.nodeMap_ s' !! k' = Some a) as Ha'
            by (rewrite Hm, lookup_insert_ne by congruence; exact Ha).
          destruct (lfu_wf_valueOf k' a s' (proj1 W') Ha') as (n & _ & Hn).
          congruence.
        * apply list_elem_of_singleton in Hin. injection Hin as -> ->.
          apply (Hsame k v eq_refl). lia.
      + intros k' Hsome. rewrite Hm in Hsome. rewrite fmap_app.
        apply elem_of_app.
        destruct (decide (k' = k)) as [->|Hne]; [right; left|].
        rewrite lookup_insert_ne in Hsome by congruence.
        left. exact (Hdom k' Hsome).
      + rewrite Hm, map_size_insert_None by exact Hnone.
        rewrite Hsz, length_app. cbn [length]. lia. }
  exists s. split; [exact Hs|]. split; [exact Hsz|].
  split.
  { eapply (lfu_run_fitsInt dummyKey C M); [lia | exact HM | | exact Hs].
    rewrite length_fmap. exact Hlen. }
  intros k v Hin. pose proof (Hval k v Hin) as Hv.
  assert (Lfu.capacityOk s) as Hok.
  { intros _. rewrite Hcap, to_size_t_negative by lia. lia. }
  destruct (lfu_step_wf dummyKey s (Lfu.Get k) W Hok) as (s' & Hg & _).
  cbn [Lfu.step] in Hg. apply fmap_Some in Hg as (r & Hg & _).
  rewrite Hg.
  unfold Lfu.valueOf in Hv. apply bind_Some in Hv as (a & Ha & Hv).
  apply bind_Some in Hv as (n & Hn & Hv). injection Hv as <-.
  unfold Lfu.get in Hg. rewrite Ha in Hg.
  apply bind_Some in Hg as (r' & Hr' & Hg). injection Hg as <-.
  unfold Lfu.getInternal in Hr'. rewrite Hn in Hr'.
  cbn [mbind option_bind] in Hr'.
  apply bind_Some in Hr' as (s4 & _ & Hr').
  apply bind_Some in Hr' as (s5 & _ & Hr'). injection Hr' as <-.
  exists s5. reflexivity.
Qed.

End LfuNegativeCapacity.

Lemma lfu_negative_capacity_never_evicts_witness :
  ∃ s, Lfu.run 0 ((λ p, Lfu.Put p.1 p.2) <$> [(1, "a"); (2, "b"); (3, "c")])
         (Lfu.new (-1) 10) = Some s
       ∧ size (Lfu.nodeMap_ s) = 3%nat ∧ Lfu.fitsInt s.
Proof.
  destruct (lfu_negative_capacity_never_evicts (Value := string) 0 (-1) 10
              [(1, "a"); (2, "b"); (3, "c")]) as (s & Hs & Hsz & Hfit & _);
    [lia | lia | cbn; lia | decide_eval |].
  exists s. split; [exact Hs|]. split; [exact Hsz | exact Hfit].
Defined.

(** ** ARC: the ghost-driven capacity transfer *)



Section ArcGhostHit.
Context {Value : Type}.
Implicit Types (p : ArcLru.ArcLruPart Value) (q : ArcLfu.ArcLfuPart Value).
Implicit Types s : Arc.KArcCache Value.






End ArcGhostHit.

